(** * Structural equality and graph serialization of the reflective object system

    A shallow embedding of
    - [ffi/reflection/structural_equal.cc]: [StructEqualHandler], [StructuralEqual::Equal]
      and [StructuralEqual::GetFirstMismatch];
    - [node/serialization.cc]: [NodeIndexer], [JSONAttrGetter], [FieldDependencyFinder],
      [JSONAttrSetter], [JSONGraph] and the drivers [SaveJSON] / [LoadJSON]
    together with the properties stated about them.

    Objects of the C++ runtime are immutable once built and are handled through
    reference-counted pointers.  A value of type [Any] is embedded as the 64-bit
    payload it carries (a POD value or the address of an object) together with the
    contents of the designated object, so that pointer identity ([same_as]) and
    contents are both available and the comparators recurse structurally. *)

From Stdlib Require Import ZArith Lia DecimalString DecimalZ Ascii String.
From stdpp Require Import gmap strings list relations.

Set Warnings "-register-all".

Open Scope Z_scope.

(** ** Results of fallible code *)

(** [ICHECK] failures and [LOG(FATAL)] throw; an out-of-range [operator[]] on a
    [std::vector] is undefined behaviour and is kept apart from the diagnostics. *)
Inductive Result (A : Type) : Type :=
| Ok (a : A)
| Fatal (msg : string)
| Undefined.
Arguments Ok {A} a.
Arguments Fatal {A} msg.
Arguments Undefined {A}.

Definition bindR {A B} (m : Result A) (k : A → Result B) : Result B :=
  match m with
  | Ok a => k a
  | Fatal msg => Fatal msg
  | Undefined => Undefined
  end.

Notation "'do' x <- m ; k" := (bindR m (λ x, k))
  (at level 10, x name, m at level 100, k at level 200, only parsing).
Notation "'do' ' p <- m ; k" := (bindR m (λ x, let 'p := x in k))
  (at level 10, p pattern, m at level 100, k at level 200, only parsing).

(** ** The value substrate *)

(** Type indices.  Those below [kTVMFFIStaticObjectBegin] denote POD payloads;
    [kTVMFFIAny] only occurs as the static type of a field. *)
Inductive TypeIndex : Type :=
| kTVMFFIAny
| kTVMFFINone
| kTVMFFIInt
| kTVMFFIBool
| kTVMFFIFloat
| kTVMFFIOpaquePtr
| kTVMFFIDataType
| kTVMFFIDevice
| kTVMFFIStr
| kTVMFFIBytes
| kTVMFFIShape
| kTVMFFINDArray
| kTVMFFIArray
| kTVMFFIMap
| kTVMFFIDynObject (n : nat).

Global Instance TypeIndex_eq_dec : EqDecision TypeIndex.
Proof. solve_decision. Defined.

(** [type_index < TypeIndex::kTVMFFIStaticObjectBegin] *)
Definition below_StaticObjectBegin (ti : TypeIndex) : bool :=
  match ti with
  | kTVMFFIAny | kTVMFFINone | kTVMFFIInt | kTVMFFIBool | kTVMFFIFloat
  | kTVMFFIOpaquePtr | kTVMFFIDataType | kTVMFFIDevice => true
  | _ => false
  end.

(** The kinds of POD payload an [Any] can own. *)
Inductive PODKind : Type :=
| PNone | PInt | PBool | PFloat | POpaquePtr | PDataType | PDevice.

Global Instance PODKind_eq_dec : EqDecision PODKind.
Proof. solve_decision. Defined.

Definition pod_type_index (k : PODKind) : TypeIndex :=
  match k with
  | PNone => kTVMFFINone
  | PInt => kTVMFFIInt
  | PBool => kTVMFFIBool
  | PFloat => kTVMFFIFloat
  | POpaquePtr => kTVMFFIOpaquePtr
  | PDataType => kTVMFFIDataType
  | PDevice => kTVMFFIDevice
  end.

Record DLDataType : Type := mkDLDataType {
  dt_code : Z;
  dt_bits : Z;
  dt_lanes : Z }.

Global Instance DLDataType_eq_dec : EqDecision DLDataType.
Proof. solve_decision. Defined.

Record DLDevice : Type := mkDLDevice {
  device_type : Z;
  device_id : Z }.

Definition kDLCPU : Z := 1.

(** The tensor header.  [ndim] is the length of [shape]; [data] is the buffer
    the data pointer designates, one entry per byte. *)
Record DLTensor : Type := mkDLTensor {
  shape : list Z;
  dtype : DLDataType;
  device : DLDevice;
  IsContiguous : bool;
  data : list Z }.

Definition ndim (t : DLTensor) : Z := Z.of_nat (length (shape t)).

Inductive Any : Type :=
| AnyPOD (k : PODKind) (v_int64 : Z)
| AnyStr (p : Z) (bytes : string)
| AnyBytes (p : Z) (bytes : string)
| AnyShape (p : Z) (dims : list Z)
| AnyNDArray (p : Z) (t : DLTensor)
| AnyArray (p : Z) (elems : list Any)
| AnyMap (p : Z) (kvs : list (Any * Any))
| AnyObject (tindex : nat) (p : Z) (fields : list Any).

Definition AnyNone : Any := AnyPOD PNone 0.
Definition AnyInt (z : Z) : Any := AnyPOD PInt z.
Definition AnyBool (b : bool) : Any := AnyPOD PBool (if b then 1 else 0).

Definition type_index (a : Any) : TypeIndex :=
  match a with
  | AnyPOD k _ => pod_type_index k
  | AnyStr _ _ => kTVMFFIStr
  | AnyBytes _ _ => kTVMFFIBytes
  | AnyShape _ _ => kTVMFFIShape
  | AnyNDArray _ _ => kTVMFFINDArray
  | AnyArray _ _ => kTVMFFIArray
  | AnyMap _ _ => kTVMFFIMap
  | AnyObject n _ _ => kTVMFFIDynObject n
  end.

(** The 64-bit payload of the [TVMFFIAny] cell: the POD value, or the address
    of the object. *)
Definition v_int64 (a : Any) : Z :=
  match a with
  | AnyPOD _ v => v
  | AnyStr p _ | AnyBytes p _ | AnyShape p _ | AnyNDArray p _
  | AnyArray p _ | AnyMap p _ | AnyObject _ p _ => p
  end.

(** [lhs.same_as(rhs)] on object references: pointer comparison. *)
Definition same_as (lhs rhs : Any) : bool := bool_decide (v_int64 lhs = v_int64 rhs).

(** What an [Any] used as a key or stored in a table exposes without following
    the pointer any further than [AnyHash]/[AnyEqual] do: type index, payload
    and, for strings and bytes, the characters. *)
Record AnyRef : Type := mkAnyRef {
  ref_type_index : TypeIndex;
  ref_v_int64 : Z;
  ref_bytes : option string }.

Global Instance AnyRef_eq_dec : EqDecision AnyRef.
Proof. solve_decision. Defined.

Definition ref_of (a : Any) : AnyRef :=
  {| ref_type_index := type_index a;
     ref_v_int64 := v_int64 a;
     ref_bytes := match a with
                  | AnyStr _ s | AnyBytes _ s => Some s
                  | _ => None
                  end |}.

(** [ffi::AnyEqual]: same type index and either the same payload bits or, for
    strings and bytes, the same characters. *)
Definition AnyEqual (lhs rhs : AnyRef) : bool :=
  if negb (bool_decide (ref_type_index lhs = ref_type_index rhs)) then false
  else if bool_decide (ref_v_int64 lhs = ref_v_int64 rhs) then true
  else match ref_type_index lhs with
       | kTVMFFIStr | kTVMFFIBytes => bool_decide (ref_bytes lhs = ref_bytes rhs)
       | _ => false
       end.

(** ** Reflection metadata *)

Inductive SEqHashKind : Type :=
| kTVMFFISEqHashKindUnsupported
| kTVMFFISEqHashKindTreeNode
| kTVMFFISEqHashKindFreeVar
| kTVMFFISEqHashKindDAGNode
| kTVMFFISEqHashKindConstTreeNode
| kTVMFFISEqHashKindUniqueInstance.

Global Instance SEqHashKind_eq_dec : EqDecision SEqHashKind.
Proof. solve_decision. Defined.

Record TVMFFIFieldInfo : Type := mkFieldInfo {
  name : string;
  flags : Z;
  field_static_type_index : TypeIndex }.

Record TVMFFITypeExtraInfo : Type := mkExtraInfo {
  structural_eq_hash_kind : SEqHashKind }.

Record TVMFFITypeInfo : Type := mkTypeInfo {
  type_key : string;
  extra_info : option TVMFFITypeExtraInfo;
  fields : list TVMFFIFieldInfo }.

(** The process-wide registry, populated before any call and read-only
    afterwards.  The two flag masks are constants of the C API. *)
Class TypeRegistry : Type := {
  TVMFFIGetTypeInfo : TypeIndex → TVMFFITypeInfo;
  kTVMFFIFieldFlagBitMaskSEqHashIgnore : Z;
  kTVMFFIFieldFlagBitMaskSEqHashDef : Z }.

(** [flags & mask] as a C condition. *)
Definition flag_set (flags mask : Z) : bool := negb (Z.land flags mask =? 0).

(** ** Access paths *)

Inductive AccessStep : Type :=
| ObjectField (field_name : string)
| ArrayIndex (i : Z)
| ArrayIndexMissing (i : Z)
| MapKey (key : AnyRef)
| MapKeyMissing (key : AnyRef).

Global Instance AccessStep_eq_dec : EqDecision AccessStep.
Proof. solve_decision. Defined.

Definition AccessPath : Type := list AccessStep.
Definition AccessPathPair : Type := (AccessPath * AccessPath)%type.

(** ** The structural equality handler *)

(** The two reverse-path buffers are installed together by [GetFirstMismatch]
    and are both null otherwise; [mismatch_reverse_path_] is [None] exactly when
    [mismatch_lhs_reverse_path_ == nullZ]. *)
Record StructEqualHandler : Type := mkHandler {
  map_free_vars_ : bool;
  skip_ndarray_content_ : bool;
  mismatch_reverse_path_ : option (list AccessStep * list AccessStep);
  equal_map_lhs_ : gmap Z AnyRef;
  equal_map_rhs_ : gmap Z AnyRef }.

Definition set_map_free_vars (b : bool) (h : StructEqualHandler) : StructEqualHandler :=
  {| map_free_vars_ := b;
     skip_ndarray_content_ := skip_ndarray_content_ h;
     mismatch_reverse_path_ := mismatch_reverse_path_ h;
     equal_map_lhs_ := equal_map_lhs_ h;
     equal_map_rhs_ := equal_map_rhs_ h |}.

(** [if (mismatch_lhs_reverse_path_ != nullZ) { lhs->emplace_back(sl); rhs->emplace_back(sr); }] *)
Definition record_mismatch (sl sr : AccessStep) (h : StructEqualHandler) : StructEqualHandler :=
  {| map_free_vars_ := map_free_vars_ h;
     skip_ndarray_content_ := skip_ndarray_content_ h;
     mismatch_reverse_path_ :=
       match mismatch_reverse_path_ h with
       | Some (pl, pr) => Some (pl ++ [sl], pr ++ [sr])
       | None => None
       end;
     equal_map_lhs_ := equal_map_lhs_ h;
     equal_map_rhs_ := equal_map_rhs_ h |}.

(** [equal_map_lhs_[lhs] = rhs; equal_map_rhs_[rhs] = lhs;] *)
Definition record_equality (lhs rhs : Any) (h : StructEqualHandler) : StructEqualHandler :=
  {| map_free_vars_ := map_free_vars_ h;
     skip_ndarray_content_ := skip_ndarray_content_ h;
     mismatch_reverse_path_ := mismatch_reverse_path_ h;
     equal_map_lhs_ := <[v_int64 lhs := ref_of rhs]> (equal_map_lhs_ h);
     equal_map_rhs_ := <[v_int64 rhs := ref_of lhs]> (equal_map_rhs_ h) |}.

Definition tracing (h : StructEqualHandler) : bool :=
  match mismatch_reverse_path_ h with Some _ => true | None => false end.

(** [Map::find] by [AnyEqual] over the entries in iteration order. *)
Fixpoint map_find (kvs : list (Any * Any)) (key : AnyRef) : option (Any * Any) :=
  match kvs with
  | [] => None
  | kv :: kvs' => if AnyEqual (ref_of kv.1) key then Some kv else map_find kvs' key
  end.

Definition MapLhsToRhs (h : StructEqualHandler) (lhs : Any) : AnyRef :=
  if below_StaticObjectBegin (type_index lhs) then ref_of lhs
  else match equal_map_lhs_ h !! v_int64 lhs with
       | Some r => r
       | None => ref_of lhs
       end.

Definition MapRhsToLhs (h : StructEqualHandler) (rhs : Any) : AnyRef :=
  if below_StaticObjectBegin (type_index rhs) then ref_of rhs
  else match equal_map_rhs_ h !! v_int64 rhs with
       | Some r => r
       | None => ref_of rhs
       end.

Definition CompareShape (lhs rhs : list Z) : bool :=
  if negb (bool_decide (length lhs = length rhs)) then false
  else forallb (λ lr : Z * Z, lr.1 =? lr.2) (zip lhs rhs).

(** Modelled from the spec: [GetDataSize] of the tensor header, "elements ×
    element-size", the element size being that of [bits × lanes] bits. *)
Definition GetDataSize (t : DLTensor) : Z :=
  fold_right Z.mul 1 (shape t) * ((dt_bits (dtype t) * dt_lanes (dtype t) + 7) / 8).

(** [std::memcmp(l, r, n) == 0] *)
Definition memcmp_eq (l r : list Z) (n : Z) : bool :=
  bool_decide (take (Z.to_nat n) l = take (Z.to_nat n) r).

Definition CompareNDArray (h : StructEqualHandler) (lp rp : Z) (lhs rhs : DLTensor)
  : Result bool :=
  if bool_decide (lp = rp) then Ok true
  else if negb (ndim lhs =? ndim rhs) then Ok false
  else if negb (forallb (λ lr : Z * Z, lr.1 =? lr.2) (zip (shape lhs) (shape rhs)))
  then Ok false
  else if negb (bool_decide (dtype lhs = dtype rhs)) then Ok false
  else if negb (skip_ndarray_content_ h) then
    if negb (device_type (device lhs) =? kDLCPU) then Fatal "can only compare CPU tensor"
    else if negb (device_type (device rhs) =? kDLCPU) then Fatal "can only compare CPU tensor"
    else if negb (IsContiguous lhs) then Fatal "Can only compare contiguous tensor"
    else if negb (IsContiguous rhs) then Fatal "Can only compare contiguous tensor"
    else Ok (memcmp_eq (data lhs) (data rhs) (GetDataSize lhs))
  else Ok true.

Section Comparators.
Context `{TypeRegistry}.

(** The bodies of [CompareArray], [CompareMap] and [CompareObject], with the
recursive call to [CompareAny] abstracted. *)
Section Bodies.
Variable CompareAny : Any → Any → StructEqualHandler → Result (bool * StructEqualHandler).

(** The element loop of [CompareArray], from index [i] on. *)
Fixpoint CompareArray_loop (i : Z) (lhs rhs : list Any) (lsize rsize : Z)
(h : StructEqualHandler) {struct lhs} : Result (bool * StructEqualHandler) :=
match lhs, rhs with
| l :: lhs', r :: rhs' =>
do '(ok, h1) <- CompareAny l r h;
if negb ok then Ok (false, record_mismatch (ArrayIndex i) (ArrayIndex i) h1)
else CompareArray_loop (i + 1) lhs' rhs' lsize rsize h1
| _, _ =>
if lsize =? rsize then Ok (true, h)
else if lsize >? rsize
   then Ok (false, record_mismatch (ArrayIndex rsize) (ArrayIndexMissing rsize) h)
   else Ok (false, record_mismatch (ArrayIndexMissing lsize) (ArrayIndex lsize) h)
end.

Definition CompareArray_body (lhs rhs : list Any) (h : StructEqualHandler)
: Result (bool * StructEqualHandler) :=
let lsize := Z.of_nat (length lhs) in
let rsize := Z.of_nat (length rhs) in
if negb (lsize =? rsize) && negb (tracing h) then Ok (false, h)
else CompareArray_loop 0 lhs rhs lsize rsize h.

(** The first loop of [CompareMap], over the entries of [lhs]. *)
Fixpoint CompareMap_lhs_loop (lhs : list (Any * Any)) (rhs : list (Any * Any))
(h : StructEqualHandler) {struct lhs} : Result (bool * StructEqualHandler) :=
match lhs with
| [] => Ok (true, h)
| kv :: lhs' =>
let rhs_key := MapLhsToRhs h kv.1 in
match map_find rhs rhs_key with
| None =>
  Ok (false, record_mismatch (MapKey (ref_of kv.1)) (MapKeyMissing rhs_key) h)
| Some it =>
  do '(ok, h1) <- CompareAny kv.2 it.2 h;
  if negb ok
  then Ok (false, record_mismatch (MapKey (ref_of kv.1)) (MapKey rhs_key) h1)
  else CompareMap_lhs_loop lhs' rhs h1
end
end.

(** The second loop of [CompareMap], over the entries of [rhs]. *)
Fixpoint CompareMap_rhs_loop (lhs : list (Any * Any)) (rhs : list (Any * Any))
(h : StructEqualHandler) {struct rhs} : StructEqualHandler :=
match rhs with
| [] => h
| kv :: rhs' =>
let lhs_key := MapRhsToLhs h kv.1 in
match map_find lhs lhs_key with
| None => record_mismatch (MapKeyMissing lhs_key) (MapKey (ref_of kv.1)) h
| Some _ => CompareMap_rhs_loop lhs rhs' h
end
end.

Definition CompareMap_body (lhs rhs : list (Any * Any)) (h : StructEqualHandler)
: Result (bool * StructEqualHandler) :=
let lsize := Z.of_nat (length lhs) in
let rsize := Z.of_nat (length rhs) in
if negb (lsize =? rsize) && negb (tracing h) then Ok (false, h)
else
do '(ok, h1) <- CompareMap_lhs_loop lhs rhs h;
if negb ok then Ok (false, h1)
else if lsize =? rsize then Ok (true, h1)
else Ok (false, CompareMap_rhs_loop lhs rhs h1).

(** [ForEachFieldInfoWithEarlyStop] with the callback of [CompareObject].
An object stores one value per registered field, in registration order;
[getter(lhs)] / [getter(rhs)] read the value at the field's position. *)
Fixpoint CompareObject_fields (infos : list TVMFFIFieldInfo) (lhs rhs : list Any)
(h : StructEqualHandler) {struct lhs} : Result (bool * StructEqualHandler) :=
match infos, lhs with
| field_info :: infos', lhs_value :: lhs' =>
let rhs_value := hd AnyNone rhs in
if flag_set (flags field_info) kTVMFFIFieldFlagBitMaskSEqHashIgnore
then CompareObject_fields infos' lhs' (tl rhs) h
else
do '(success, h1) <-
  (if flag_set (flags field_info) kTVMFFIFieldFlagBitMaskSEqHashDef
   then
     let allow_free_var := map_free_vars_ h in
     do '(success, h1) <- CompareAny lhs_value rhs_value (set_map_free_vars true h);
     Ok (success, set_map_free_vars allow_free_var h1)
   else CompareAny lhs_value rhs_value h);
if negb success
then Ok (false, record_mismatch (ObjectField (name field_info))
                                (ObjectField (name field_info)) h1)
else CompareObject_fields infos' lhs' (tl rhs) h1
| _, _ => Ok (true, h)
end.

Definition CompareObject_body (lhs rhs : Any) (lhs_fields rhs_fields : list Any)
(h : StructEqualHandler) : Result (bool * StructEqualHandler) :=
let type_info := TVMFFIGetTypeInfo (type_index lhs) in
match extra_info type_info with
| None => Ok (same_as lhs rhs, h)
| Some extra =>
let kind := structural_eq_hash_kind extra in
if bool_decide (kind = kTVMFFISEqHashKindUnsupported)
 || bool_decide (kind = kTVMFFISEqHashKindUniqueInstance)
then Ok (same_as lhs rhs, h)
else if bool_decide (kind = kTVMFFISEqHashKindConstTreeNode) && same_as lhs rhs
then Ok (true, h)
else
let dag_or_var := bool_decide (kind = kTVMFFISEqHashKindDAGNode)
                  || bool_decide (kind = kTVMFFISEqHashKindFreeVar) in
match (if dag_or_var then equal_map_lhs_ h !! v_int64 lhs else None) with
| Some it => Ok (bool_decide (ref_v_int64 it = v_int64 rhs), h)
| None =>
    if dag_or_var && bool_decide (is_Some (equal_map_rhs_ h !! v_int64 rhs))
    then Ok (false, h)
    else
      do '(success, h1) <-
        (if bool_decide (kind = kTVMFFISEqHashKindFreeVar)
         then Ok (negb (negb (same_as lhs rhs) && negb (map_free_vars_ h)), h)
         else CompareObject_fields (fields type_info) lhs_fields rhs_fields h);
      if success
      then Ok (true, if dag_or_var then record_equality lhs rhs h1 else h1)
      else Ok (false, h1)
end
end.
End Bodies.

Fixpoint CompareAny (lhs rhs : Any) (h : StructEqualHandler) {struct lhs}
: Result (bool * StructEqualHandler) :=
if negb (bool_decide (type_index lhs = type_index rhs)) then Ok (false, h)
else
match lhs, rhs with
| AnyPOD _ l, AnyPOD _ r => Ok (l =? r, h)
| AnyStr _ l, AnyStr _ r | AnyBytes _ l, AnyBytes _ r => Ok (bool_decide (l = r), h)
| AnyArray _ l, AnyArray _ r => CompareArray_body CompareAny l r h
| AnyMap _ l, AnyMap _ r => CompareMap_body CompareAny l r h
| AnyShape _ l, AnyShape _ r => Ok (CompareShape l r, h)
| AnyNDArray lp l, AnyNDArray rp r =>
    do ok <- CompareNDArray h lp rp l r; Ok (ok, h)
| AnyObject _ _ lf, AnyObject _ _ rf =>
    CompareObject_body CompareAny lhs rhs lf rf h
| _, _ => Ok (false, h)
end.

Definition CompareArray := CompareArray_body CompareAny.
Definition CompareMap := CompareMap_body CompareAny.
Definition CompareObject (lhs rhs : Any) (h : StructEqualHandler)
: Result (bool * StructEqualHandler) :=
match lhs, rhs with
| AnyObject _ _ lf, AnyObject _ _ rf => CompareObject_body CompareAny lhs rhs lf rf h
| _, _ => CompareObject_body CompareAny lhs rhs [] [] h
end.

Definition new_handler (map_free_vars skip_ndarray_content : bool)
(paths : option (list AccessStep * list AccessStep)) : StructEqualHandler :=
{| map_free_vars_ := map_free_vars;
 skip_ndarray_content_ := skip_ndarray_content;
 mismatch_reverse_path_ := paths;
 equal_map_lhs_ := ∅;
 equal_map_rhs_ := ∅ |}.

(** [StructuralEqual::Equal] *)
Definition Equal (lhs rhs : Any) (map_free_vars skip_ndarray_content : bool) : Result bool :=
do '(ok, _) <- CompareAny lhs rhs (new_handler map_free_vars skip_ndarray_content None);
Ok ok.

(** [StructuralEqual::GetFirstMismatch] *)
Definition GetFirstMismatch (lhs rhs : Any) (map_free_vars skip_ndarray_content : bool)
: Result (option AccessPathPair) :=
do '(ok, h) <- CompareAny lhs rhs
           (new_handler map_free_vars skip_ndarray_content (Some ([], [])));
if ok then Ok None
else match mismatch_reverse_path_ h with
   | Some (lhs_reverse_path, rhs_reverse_path) =>
       Ok (Some (reverse lhs_reverse_path, reverse rhs_reverse_path))
   | None => Ok (Some ([], []))
   end.
End Comparators.

(** ** Preconditions and observations of the comparator *)

(** Every tensor inside the value is CPU-resident and contiguous: the
    precondition of comparing tensor contents. *)
Fixpoint NDArrays_comparable (a : Any) : bool :=
  match a with
  | AnyNDArray _ t => (device_type (device t) =? kDLCPU) && IsContiguous t
  | AnyArray _ elems => forallb NDArrays_comparable elems
  | AnyMap _ kvs =>
      forallb (λ kv : Any * Any, NDArrays_comparable kv.1 && NDArrays_comparable kv.2) kvs
  | AnyObject _ _ values => forallb NDArrays_comparable values
  | _ => true
  end.

(** The part of the handler that does not concern mismatch reporting. *)
Definition handler_core (h : StructEqualHandler)
  : bool * bool * gmap Z AnyRef * gmap Z AnyRef :=
  (map_free_vars_ h, skip_ndarray_content_ h, equal_map_lhs_ h, equal_map_rhs_ h).

(** ** Text conversions of the C++ standard library *)

(** [std::to_string] on an integer. *)
Definition to_string_int (z : Z) : string := NilZero.string_of_int (Z.to_int z).

(** ** IEEE-754 binary64 values, held as their 64 bits *)

Inductive Binary64 : Type :=
| B64_nan (sign : bool)
| B64_inf (sign : bool)
| B64_finite (sign : bool) (m : Z) (e : Z).   (* (-1)^sign × m × 2^e *)

Definition decode_double (bits : Z) : Binary64 :=
  let sign := Z.testbit bits 63 in
  let expo := Z.land (Z.shiftr bits 52) 2047 in
  let frac := Z.land bits (2 ^ 52 - 1) in
  if expo =? 2047 then (if frac =? 0 then B64_inf sign else B64_nan sign)
  else if expo =? 0 then B64_finite sign frac (-1074)
  else B64_finite sign (2 ^ 52 + frac) (expo - 1075).

(** [num / den] rounded to the nearest integer, ties to even. *)
Definition round_half_even (num den : Z) : Z :=
  let q := num / den in
  let r := num mod den in
  if 2 * r <? den then q
  else if den <? 2 * r then q + 1
  else if Z.even q then q else q + 1.

(** The magnitude [m × 2^e] as a fraction. *)
Definition fraction_of (m e : Z) : Z * Z :=
  if 0 <=? e then (m * 2 ^ e, 1) else (m, 2 ^ (- e)).

Fixpoint zeros (n : nat) : string :=
  match n with O => EmptyString | S n' => String "0" (zeros n') end.

(** [z] in decimal, left-padded with zeros to [width] digits. *)
Definition pad_digits (width : nat) (z : Z) : string :=
  let s := to_string_int z in
  zeros (width - String.length s) +:+ s.

Definition sign_text (sign : bool) : string := if sign then "-" else "".

(** [std::to_string(double)]: the text of [printf("%f")], six fractional digits. *)
Definition to_string_double (bits : Z) : string :=
  match decode_double bits with
  | B64_nan sign => sign_text sign +:+ "nan"
  | B64_inf sign => sign_text sign +:+ "inf"
  | B64_finite sign m e =>
      let '(num, den) := fraction_of m e in
      let q := round_half_even (num * 10 ^ 6) den in
      sign_text sign +:+ to_string_int (q / 10 ^ 6) +:+ "." +:+ pad_digits 6 (q mod 10 ^ 6)
  end.

(** The decimal exponent [X] with [10^X <= num/den < 10^(X+1)], searched
    downwards from [x0]. *)
Fixpoint decimal_exponent (fuel : nat) (x0 : Z) (num den : Z) : Z :=
  match fuel with
  | O => x0
  | S fuel' =>
      if (if 0 <=? x0 then 10 ^ x0 * den <=? num else den <=? num * 10 ^ (- x0))
      then x0
      else decimal_exponent fuel' (x0 - 1) num den
  end.

Fixpoint strip_trailing_zeros_rev (s : list ascii) : list ascii :=
  match s with
  | c :: s' => if Ascii.eqb c "0" then strip_trailing_zeros_rev s' else s
  | [] => []
  end.

Definition strip_trailing_zeros (s : string) : string :=
  string_of_list_ascii (rev (strip_trailing_zeros_rev (rev (list_ascii_of_string s)))).

Definition with_fraction (int_part frac : string) : string :=
  match strip_trailing_zeros frac with
  | EmptyString => int_part
  | f => int_part +:+ "." +:+ f
  end.

Definition string_take (n : nat) (s : string) : string := String.substring 0 n s.
Definition string_drop (n : nat) (s : string) : string :=
  String.substring n (String.length s - n) s.

(** [os.precision(17); os << value]: the text of [printf("%.17g")]. *)
Definition double_precision17 (bits : Z) : string :=
  match decode_double bits with
  | B64_nan sign => sign_text sign +:+ "nan"
  | B64_inf sign => sign_text sign +:+ "inf"
  | B64_finite sign m e =>
      if m =? 0 then sign_text sign +:+ "0"
      else
        let '(num, den) := fraction_of m e in
        let x := decimal_exponent 700 310 num den in
        let scaled (x : Z) :=
          if 0 <=? x - 16 then round_half_even num (den * 10 ^ (x - 16))
          else round_half_even (num * 10 ^ (16 - x)) den in
        let '(d, x) := if scaled x =? 10 ^ 17 then (10 ^ 16, x + 1) else (scaled x, x) in
        let ds := to_string_int d in
        sign_text sign +:+
        (if (-4 <=? x) && (x <? 17) then
           if 0 <=? x
           then with_fraction (string_take (Z.to_nat (x + 1)) ds) (string_drop (Z.to_nat (x + 1)) ds)
           else with_fraction "0" (zeros (Z.to_nat (- x - 1)) +:+ ds)
         else
           with_fraction (string_take 1 ds) (string_drop 1 ds) +:+ "e" +:+
           (if x <? 0 then "-" else "+") +:+ pad_digits 2 (Z.abs x))
  end.


Definition is_space (c : ascii) : bool :=
  let n := nat_of_ascii c in
  (n =? 32)%nat || ((9 <=? n)%nat && (n <=? 13)%nat).

Definition is_digit (c : ascii) : bool :=
  let n := nat_of_ascii c in (48 <=? n)%nat && (n <=? 57)%nat.

Fixpoint skip_space (s : string) : string :=
  match s with
  | String c s' => if is_space c then skip_space s' else s
  | EmptyString => s
  end.

Fixpoint span_digits (s : string) : string * string :=
  match s with
  | String c s' =>
      if is_digit c then let '(d, r) := span_digits s' in (String c d, r) else (EmptyString, s)
  | EmptyString => (EmptyString, EmptyString)
  end.

Definition uint_of_digits (d : string) : option Z :=
  match d with
  | EmptyString => None
  | _ => Z.of_uint <$> NilEmpty.uint_of_string d
  end.

Definition scan_sign (s : string) : bool * string :=
  match s with
  | String "-" s' => (true, s')
  | String "+" s' => (false, s')
  | _ => (false, s)
  end.

(** [num / den > 0] rounded to the nearest binary64, ties to even; [None] when
    the result is out of range. *)
Definition round_to_double (num den : Z) : option Z :=
  let l := Z.log2 num - Z.log2 den in
  let floor_scaled (e2 : Z) :=
    if 0 <=? e2 then num / (den * 2 ^ e2) else (num * 2 ^ (- e2)) / den in
  let e2 := if floor_scaled (l - 52) <? 2 ^ 52 then l - 53 else l - 52 in
  let e2 := Z.max e2 (-1074) in
  let q := if 0 <=? e2 then round_half_even num (den * 2 ^ e2)
           else round_half_even (num * 2 ^ (- e2)) den in
  let '(q, e2) := if q =? 2 ^ 53 then (2 ^ 52, e2 + 1) else (q, e2) in
  if q <? 2 ^ 52 then Some q
  else if 2047 <=? e2 + 1075 then None
  else Some ((e2 + 1075) * 2 ^ 52 + (q - 2 ^ 52)).

(** [is >> value; is.fail()] for a [double]: white space, sign, decimal digits
    with an optional fraction and an optional exponent; an exponent marker
    that no digit follows sets [failbit]. *)
Definition parse_double (s : string) : option Z :=
  let '(sign, s1) := scan_sign (skip_space s) in
  let '(int_digits, s2) := span_digits s1 in
  let '(frac_digits, s3) :=
    match s2 with
    | String "." s2' => span_digits s2'
    | _ => (EmptyString, s2)
    end in
  expo ←
    match s3 with
    | String c s3' =>
        if Ascii.eqb c "e" || Ascii.eqb c "E" then
          let '(esign, s4) := scan_sign s3' in
          x ← uint_of_digits (span_digits s4).1;
          Some (if esign then - x else x)
        else Some 0
    | EmptyString => Some 0
    end;
  m ← uint_of_digits (int_digits +:+ frac_digits);
  let x := expo - Z.of_nat (String.length frac_digits) in
  let sign_bit := if sign then 2 ^ 63 else 0 in
  if m =? 0 then Some sign_bit
  else
    b ← (if 0 <=? x then round_to_double (m * 10 ^ x) 1 else round_to_double m (10 ^ (- x)));
    Some (sign_bit + b).


(** The sign and magnitude an input stream extracts for an integer: leading
    white space is skipped, an optional sign and the longest run of digits are
    consumed; no digit at all is a failure. *)
Definition scan_int (s : string) : option Z :=
  let '(sign, s1) := scan_sign (skip_space s) in
  z ← uint_of_digits (span_digits s1).1;
  Some (if sign then - z else z).

(** [is >> value; is.fail()] for a signed integer of [bits] bits: a value that
    does not fit sets [failbit]. *)
Definition parse_int (bits : Z) (s : string) : option Z :=
  z ← scan_int s;
  if (- 2 ^ (bits - 1) <=? z) && (z <? 2 ^ (bits - 1)) then Some z else None.

(** [is >> str] for a [std::string]: the next white-space delimited word. *)
Fixpoint span_word (s : string) : string :=
  match s with
  | String c s' => if is_space c then EmptyString else String c (span_word s')
  | EmptyString => EmptyString
  end.

Definition parse_word (s : string) : option string :=
  match span_word (skip_space s) with
  | EmptyString => None
  | w => Some w
  end.

(** Two's complement reading of the low [bits] bits. *)
Definition to_signed (bits : Z) (z : Z) : Z :=
  (z + 2 ^ (bits - 1)) mod 2 ^ bits - 2 ^ (bits - 1).

(** ** The JSON node model *)

(** [std::map<std::string, std::string>] *)
Abbreviation AttrMap := (gmap string string).

Record JSONNode : Type := mkJSONNode {
  jn_type_key : string;
  jn_repr_bytes : string;
  jn_attrs : AttrMap;
  jn_keys : list string;
  jn_data : list Z;
  jn_fields : list Z }.

Record JSONGraph : Type := mkJSONGraph {
  root : Z;
  nodes : list JSONNode;
  b64ndarrays : list string;
  attrs : AttrMap }.

(** ** [JSONGraph::TopoSort] *)

(** Arithmetic on [size_t] *)
Definition size_t_modulus : Z := 2 ^ 64.
Definition to_size_t (z : Z) : Z := z mod size_t_modulus.

(** [v[i]] on a [std::vector]: defined only within bounds. *)
Definition vector_get {A} (v : list A) (i : Z) : Result A :=
  match (if 0 <=? i then v !! Z.to_nat i else None) with
  | Some x => Ok x
  | None => Undefined
  end.

(** [v.at(i)]: throws [std::out_of_range] outside the bounds. *)
Definition vector_at {A} (v : list A) (i : Z) : Result A :=
  match (if 0 <=? i then v !! Z.to_nat i else None) with
  | Some x => Ok x
  | None => Fatal "vector::at: index out of range"
  end.

Fixpoint foldR {A B} (f : A → B → Result A) (l : list B) (a : A) : Result A :=
  match l with
  | [] => Ok a
  | b :: l' => do a' <- f a b; foldR f l' a'
  end.

(** [++in_degree[i];] *)
Definition incr_in_degree (in_degree : list Z) (i : Z) : Result (list Z) :=
  do d <- vector_get in_degree i;
  Ok (<[Z.to_nat i := to_size_t (d + 1)]> in_degree).

(** [if (--in_degree[i] == 0) topo_order.push_back(i);] *)
Definition decr_in_degree (st : list Z * list Z) (i : Z) : Result (list Z * list Z) :=
  do d <- vector_get st.2 i;
  let d' := to_size_t (d - 1) in
  Ok (if d' =? 0 then st.1 ++ [i] else st.1, <[Z.to_nat i := d']> st.2).

(** The ids a node refers to, in the order the two inner loops visit them. *)
Definition jn_edges (jnode : JSONNode) : list Z := jn_data jnode ++ jn_fields jnode.

Definition count_in_degree (nodes : list JSONNode) (in_degree : list Z) : Result (list Z) :=
  foldR (λ deg jnode, foldR incr_in_degree (jn_edges jnode) deg) nodes in_degree.

(** [for (size_t i = 0; i < n_nodes; ++i) if (in_degree[i] == 0) topo_order.push_back(i);] *)
Definition zero_in_degree (n_nodes : nat) (in_degree : list Z) : list Z :=
  filter (λ i, in_degree !! Z.to_nat i = Some 0) (Z.of_nat <$> seq 0 n_nodes).

(** The loop [for (size_t p = 0; p < topo_order.size(); ++p)] over the growing
    vector; [None] when [fuel] iterations did not reach its exit. *)
Fixpoint TopoSort_loop (fuel : nat) (nodes : list JSONNode) (p : nat)
    (topo_order in_degree : list Z) : option (Result (list Z * list Z)) :=
  match topo_order !! p with
  | None => Some (Ok (topo_order, in_degree))
  | Some v =>
      match fuel with
      | O => None
      | S fuel' =>
          match vector_get nodes v with
          | Ok jnode =>
              match foldR decr_in_degree (jn_edges jnode) (topo_order, in_degree) with
              | Ok st => TopoSort_loop fuel' nodes (S p) st.1 st.2
              | Fatal msg => Some (Fatal msg)
              | Undefined => Some Undefined
              end
          | Fatal msg => Some (Fatal msg)
          | Undefined => Some Undefined
          end
      end
  end.

Definition TopoSort (fuel : nat) (g : JSONGraph) : option (Result (list Z)) :=
  let n_nodes := length (nodes g) in
  match count_in_degree (nodes g) (replicate n_nodes 0) with
  | Ok in_degree =>
      match TopoSort_loop fuel (nodes g) 0 (zero_in_degree n_nodes in_degree) in_degree with
      | Some (Ok st) =>
          if bool_decide (length st.1 = n_nodes)
          then Some (Ok (reverse st.1))
          else Some (Fatal "Cyclic reference detected in JSON file")
      | Some (Fatal msg) => Some (Fatal msg)
      | Some Undefined => Some Undefined
      | None => None
      end
  | Fatal msg => Some (Fatal msg)
  | Undefined => Some Undefined
  end.

(** ** The object graph of a value *)

(** The values a container or an object holds. *)
Definition children (a : Any) : list Any :=
  match a with
  | AnyArray _ elems => elems
  | AnyMap _ kvs => flat_map (λ kv : Any * Any, [kv.1; kv.2]) kvs
  | AnyObject _ _ values => values
  | _ => []
  end.

(** [reachable root a]: [a] is [root] or is held, directly or not, by [root]. *)
Definition reachable (root a : Any) : Prop := rtc (λ x y, y ∈ children x) root a.

(** An address designates one object: two object references reachable from
    [root] with the same type index and the same address have the same
    contents. *)
Definition consistent (root : Any) : Prop :=
  ∀ a b, reachable root a → reachable root b →
         below_StaticObjectBegin (type_index a) = false →
         type_index a = type_index b → v_int64 a = v_int64 b → a = b.

(** ** The dependency graph of a [JSONGraph] *)

(** The ids node [u] refers to through [data] and [fields]. *)
Definition jg_out (g : JSONGraph) (u : Z) : list Z :=
  match vector_get (nodes g) u with
  | Ok jnode => jn_edges jnode
  | _ => []
  end.

Definition jg_edge (g : JSONGraph) (u v : Z) : Prop := v ∈ jg_out g u.

(** Some node reaches itself along one or more edges. *)
Definition jg_cyclic (g : JSONGraph) : Prop := ∃ v, tc (jg_edge g) v v.

(** Every id stored in [data] or [fields] designates a node of the table. *)
Definition jg_ids_in_range (g : JSONGraph) : Prop :=
  ∀ jnode i, jnode ∈ nodes g → i ∈ jn_edges jnode → 0 ≤ i < Z.of_nat (length (nodes g)).

(** The number of ids stored in the [data] and [fields] vectors. *)
Definition jg_edge_count (g : JSONGraph) : nat := length (nodes g ≫= jn_edges).

(** The ids of the table, [0 .. nodes.size() - 1]. *)
Definition jg_ids (g : JSONGraph) : list Z := Z.of_nat <$> seq 0 (length (nodes g)).

(** ** External collaborators of the serializer *)

(** [ReflectionVTable::Global()], the data-type printer and parser, the tensor
    reader and the version macro. *)
Class ReflectionVTable : Type := {
  (** [GetReprBytes(obj, &out)]: the opaque representation, when the type registers one. *)
  GetReprBytes : Any → option string;
  (** [CreateInitObject(type_key, repr_bytes)]: the object built; its address is
      chosen by the allocator. *)
  CreateInitObject : string → string → Result Any;
  (** [FieldSetter(field_info)(obj, value)]: the value the field holds afterwards,
      as its getter returns it. *)
  FieldSetter : TVMFFIFieldInfo → Any → Result Any;
  DLDataTypeToString : DLDataType → string;
  StringToDLDataType : string → Result DLDataType;
  (** [NDArray::Load] on a base64 stream *)
  NDArrayLoad : string → option DLTensor;
  TVM_VERSION : string }.

(** The payload of an [Any] that holds a [DLDataType] or a [DLDevice]: the
    struct occupies the low bytes of the 64-bit cell, the rest is zero. *)
Definition DLDataType_of_payload (v : Z) : DLDataType :=
  {| dt_code := Z.land v 255;
     dt_bits := Z.land (Z.shiftr v 8) 255;
     dt_lanes := Z.land (Z.shiftr v 16) 65535 |}.

Definition payload_of_DLDataType (t : DLDataType) : Z :=
  Z.lor (Z.land (dt_code t) 255)
        (Z.lor (Z.shiftl (Z.land (dt_bits t) 255) 8) (Z.shiftl (Z.land (dt_lanes t) 65535) 16)).

Definition DLDevice_of_payload (v : Z) : DLDevice :=
  {| device_type := to_signed 32 (Z.land v (2 ^ 32 - 1));
     device_id := to_signed 32 (Z.land (Z.shiftr v 32) (2 ^ 32 - 1)) |}.

Definition payload_of_DLDevice (d : DLDevice) : Z :=
  to_signed 64 (Z.lor (Z.land (device_type d) (2 ^ 32 - 1))
                      (Z.shiftl (Z.land (device_id d) (2 ^ 32 - 1)) 32)).

Definition AnyFloat (bits : Z) : Any := AnyPOD PFloat (to_signed 64 bits).

(** [node == nullptr] *)
Definition is_null (a : Any) : bool := bool_decide (type_index a = kTVMFFINone).

(** [node.as<const Object*>()]: the value is an object reference. *)
Definition is_object (a : Any) : bool := negb (below_StaticObjectBegin (type_index a)).

Definition is_string (a : Any) : bool := bool_decide (type_index a = kTVMFFIStr).

Definition string_bytes (a : Any) : string :=
  match a with
  | AnyStr _ s | AnyBytes _ s => s
  | _ => EmptyString
  end.

(** The values an object stores, one per registered field. *)
Definition object_fields (a : Any) : list Any :=
  match a with
  | AnyObject _ _ fs => fs
  | _ => []
  end.

(** ** [NodeIndexer] *)

(** [node_index_] is keyed by [AnyHash]/[AnyEqual]; [node_list_] holds the
    nodes in the order of their ids. *)
Record NodeIndexer : Type := mkNodeIndexer {
  node_index_ : list (AnyRef * Z);
  node_list_ : list Any }.

Definition NodeIndexer_init : NodeIndexer :=
  {| node_index_ := [(ref_of AnyNone, 0)]; node_list_ := [AnyNone] |}.

Fixpoint node_index_find (index : list (AnyRef * Z)) (key : AnyRef) : option Z :=
  match index with
  | [] => None
  | (k, i) :: index' => if AnyEqual k key then Some i else node_index_find index' key
  end.

(** [node_index_.count(node)] *)
Definition node_index_count (index : list (AnyRef * Z)) (node : Any) : bool :=
  bool_decide (is_Some (node_index_find index (ref_of node))).

(** [node_index_->at(node)] *)
Definition node_index_at (index : list (AnyRef * Z)) (node : Any) : Result Z :=
  match node_index_find index (ref_of node) with
  | Some i => Ok i
  | None => Fatal "unordered_map::at: key not found"
  end.

Definition MakeNodeIndex (node : Any) (ix : NodeIndexer) : Result NodeIndexer :=
  if is_null node then Ok ix
  else if node_index_count (node_index_ ix) node then Ok ix
  else if negb (bool_decide (length (node_index_ ix) = length (node_list_ ix)))
  then Fatal "Check failed: node_index_.size() == node_list_.size()"
  else Ok {| node_index_ := node_index_ ix ++ [(ref_of node, Z.of_nat (length (node_list_ ix)))];
             node_list_ := node_list_ ix ++ [node] |}.

Definition missing_reflection (key : string) : string :=
  "Object `" +:+ key +:+ "` misses reflection registration and do not support serialization".

Section Indexer.
Context `{TypeRegistry} `{ReflectionVTable}.

Definition GetTypeKey (a : Any) : string := type_key (TVMFFIGetTypeInfo (type_index a)).

Section Bodies.
Variable MakeIndex : Any → NodeIndexer → Result NodeIndexer.

Fixpoint MakeIndex_elems (elems : list Any) (ix : NodeIndexer) : Result NodeIndexer :=
match elems with
| [] => Ok ix
| elem :: elems' => do ix1 <- MakeIndex elem ix; MakeIndex_elems elems' ix1
end.

Fixpoint MakeIndex_values (kvs : list (Any * Any)) (ix : NodeIndexer) : Result NodeIndexer :=
match kvs with
| [] => Ok ix
| kv :: kvs' => do ix1 <- MakeIndex kv.2 ix; MakeIndex_values kvs' ix1
end.

Fixpoint MakeIndex_entries (kvs : list (Any * Any)) (ix : NodeIndexer) : Result NodeIndexer :=
match kvs with
| [] => Ok ix
| kv :: kvs' =>
do ix1 <- MakeIndex kv.1 ix;
do ix2 <- MakeIndex kv.2 ix1;
MakeIndex_entries kvs' ix2
end.

(** [ForEachFieldInfo] with the callback of [NodeIndexer::VisitObjectFields] *)
Fixpoint MakeIndex_fields (infos : list TVMFFIFieldInfo) (values : list Any)
(ix : NodeIndexer) {struct values} : Result NodeIndexer :=
match infos, values with
| _ :: infos', field_value :: values' =>
do ix1 <- (if is_object field_value then MakeIndex field_value ix else Ok ix);
MakeIndex_fields infos' values' ix1
| _, _ => Ok ix
end.
End Bodies.

Fixpoint MakeIndex (node : Any) (ix : NodeIndexer) {struct node} : Result NodeIndexer :=
if is_null node then Ok ix
else if node_index_count (node_index_ ix) node then Ok ix
else
do ix1 <- MakeNodeIndex node ix;
match node with
| AnyArray _ elems => MakeIndex_elems MakeIndex elems ix1
| AnyMap _ kvs =>
    if forallb (λ kv : Any * Any, is_string kv.1) kvs
    then MakeIndex_values MakeIndex kvs ix1
    else MakeIndex_entries MakeIndex kvs ix1
| AnyPOD _ _ => Ok ix1
| AnyObject _ _ values =>
    match GetReprBytes node with
    | Some _ => Ok ix1
    | None =>
        let tinfo := TVMFFIGetTypeInfo (type_index node) in
        match extra_info tinfo with
        | None => Fatal (missing_reflection (GetTypeKey node))
        | Some _ => MakeIndex_fields MakeIndex (fields tinfo) values ix1
        end
    end
| AnyStr _ _ | AnyBytes _ _ | AnyShape _ _ | AnyNDArray _ _ =>
    match GetReprBytes node with
    | Some _ => Ok ix1
    | None =>
        match extra_info (TVMFFIGetTypeInfo (type_index node)) with
        | None => Fatal (missing_reflection (GetTypeKey node))
        | Some _ => Ok ix1
        end
    end
end.

(** The values [MakeIndex] descends into from a node, in the order of the calls. *)
Definition indexed_children (node : Any) : list Any :=
match node with
| AnyArray _ elems => elems
| AnyMap _ kvs =>
    if forallb (λ kv : Any * Any, is_string kv.1) kvs
    then kvs.*2
    else flat_map (λ kv : Any * Any, [kv.1; kv.2]) kvs
| AnyObject _ _ values =>
    match GetReprBytes node with
    | Some _ => []
    | None => filter (λ v, is_object v = true)
                     (take (length (fields (TVMFFIGetTypeInfo (type_index node)))) values)
    end
| _ => []
end.

(** ** [JSONAttrGetter] *)

Definition empty_JSONNode : JSONNode :=
{| jn_type_key := ""; jn_repr_bytes := ""; jn_attrs := ∅;
 jn_keys := []; jn_data := []; jn_fields := [] |}.

Definition unsupported_type (a : Any) : string := "Unsupported type: " +:+ GetTypeKey a.

(** The callback of [JSONAttrGetter::VisitObjectFields] on one field. *)
Definition Getter_field (node_index : list (AnyRef * Z)) (field_info : TVMFFIFieldInfo)
(field_value : Any) (attrs : AttrMap) : Result AttrMap :=
let field_name := name field_info in
match field_value with
| AnyPOD PNone _ => Ok (<[field_name := "null"]> attrs)
| AnyPOD PBool v | AnyPOD PInt v => Ok (<[field_name := to_string_int v]> attrs)
| AnyPOD PFloat v => Ok (<[field_name := double_precision17 v]> attrs)
| AnyPOD PDataType v =>
  Ok (<[field_name := DLDataTypeToString (DLDataType_of_payload v)]> attrs)
| AnyPOD _ _ => Fatal (unsupported_type field_value)
| _ =>
  do i <- node_index_at node_index field_value;
  Ok (<[field_name := to_string_int i]> attrs)
end.

Fixpoint Getter_fields (node_index : list (AnyRef * Z)) (infos : list TVMFFIFieldInfo)
(values : list Any) (attrs : AttrMap) : Result AttrMap :=
match infos, values with
| field_info :: infos', field_value :: values' =>
  do attrs1 <- Getter_field node_index field_info field_value attrs;
  Getter_fields node_index infos' values' attrs1
| _, _ => Ok attrs
end.

Fixpoint mapR {A B} (f : A → Result B) (l : list A) : Result (list B) :=
match l with
| [] => Ok []
| a :: l' => do b <- f a; do bs <- mapR f l'; Ok (b :: bs)
end.

(** [JSONAttrGetter::Get] on a freshly constructed [JSONNode] *)
Definition JSONAttrGetter_Get (node_index : list (AnyRef * Z)) (node : Any) : Result JSONNode :=
if is_null node then Ok empty_JSONNode
else
let type_key := GetTypeKey node in
match node with
| AnyArray _ elems =>
    do data <- mapR (node_index_at node_index) elems;
    Ok {| jn_type_key := type_key; jn_repr_bytes := ""; jn_attrs := ∅;
          jn_keys := []; jn_data := data; jn_fields := [] |}
| AnyMap _ kvs =>
    if forallb (λ kv : Any * Any, is_string kv.1) kvs then
      do data <- mapR (λ kv : Any * Any, node_index_at node_index kv.2) kvs;
      Ok {| jn_type_key := type_key; jn_repr_bytes := ""; jn_attrs := ∅;
            jn_keys := (λ kv : Any * Any, string_bytes kv.1) <$> kvs;
            jn_data := data; jn_fields := [] |}
    else
      do data <- mapR (node_index_at node_index)
                      (flat_map (λ kv : Any * Any, [kv.1; kv.2]) kvs);
      Ok {| jn_type_key := type_key; jn_repr_bytes := ""; jn_attrs := ∅;
            jn_keys := []; jn_data := data; jn_fields := [] |}
| AnyPOD k v =>
    do attrs <-
      match k with
      | PBool | PInt => Ok (<["v_int64" := to_string_int v]> (∅ : AttrMap))
      | PFloat => Ok (<["v_float64" := to_string_double v]> (∅ : AttrMap))
      | PDataType =>
          Ok (<["v_type" := DLDataTypeToString (DLDataType_of_payload v)]> (∅ : AttrMap))
      | PDevice =>
          let dev := DLDevice_of_payload v in
          Ok (<["v_device_id" := to_string_int (device_id dev)]>
                (<["v_device_type" := to_string_int (device_type dev)]> (∅ : AttrMap)))
      | _ => Fatal (unsupported_type node)
      end;
    Ok {| jn_type_key := type_key; jn_repr_bytes := ""; jn_attrs := attrs;
          jn_keys := []; jn_data := []; jn_fields := [] |}
| _ =>
    match GetReprBytes node with
    | Some repr =>
        Ok {| jn_type_key := type_key; jn_repr_bytes := repr; jn_attrs := ∅;
              jn_keys := []; jn_data := []; jn_fields := [] |}
    | None =>
        let tinfo := TVMFFIGetTypeInfo (type_index node) in
        match extra_info tinfo with
        | None => Fatal (missing_reflection type_key)
        | Some _ =>
            do attrs <- Getter_fields node_index (fields tinfo) (object_fields node) ∅;
            Ok {| jn_type_key := type_key; jn_repr_bytes := ""; jn_attrs := attrs;
                  jn_keys := []; jn_data := []; jn_fields := [] |}
        end
    end
end.

(** [JSONGraph::Create] *)
Definition JSONGraph_Create (root : Any) : Result JSONGraph :=
do indexer <- MakeIndex root NodeIndexer_init;
do nodes <- mapR (JSONAttrGetter_Get (node_index_ indexer)) (node_list_ indexer);
if negb (node_index_count (node_index_ indexer) root)
then Fatal "Check failed: indexer.node_index_.count(root)"
else
do root_id <- node_index_at (node_index_ indexer) root;
Ok {| root := root_id; nodes := nodes; b64ndarrays := [];
      attrs := <["tvm_version" := TVM_VERSION]> ∅ |}.
End Indexer.

(** ** [FieldDependencyFinder] and [JSONAttrSetter] *)

Definition set_address (p : Z) (a : Any) : Any :=
  match a with
  | AnyPOD k v => AnyPOD k v
  | AnyStr _ s => AnyStr p s
  | AnyBytes _ s => AnyBytes p s
  | AnyShape _ d => AnyShape p d
  | AnyNDArray _ t => AnyNDArray p t
  | AnyArray _ l => AnyArray p l
  | AnyMap _ kvs => AnyMap p kvs
  | AnyObject n _ fs => AnyObject n p fs
  end.

(** [obj.field = value] at the position of the field among the registered ones. *)
Definition set_object_field (obj : Any) (pos : nat) (value : Any) : Any :=
  match obj with
  | AnyObject n p fs => AnyObject n p (<[pos := value]> fs)
  | _ => obj
  end.

(** [Map::Set]: the entry with an equal key is overwritten, otherwise one is added. *)
Fixpoint map_set (kvs : list (Any * Any)) (k v : Any) : list (Any * Any) :=
  match kvs with
  | [] => [(k, v)]
  | kv :: kvs' => if AnyEqual (ref_of kv.1) (ref_of k) then (kv.1, v) :: kvs'
                  else kv :: map_set kvs' k v
  end.

(** [any.cast<ObjectRef>()] *)
Definition cast_ObjectRef (a : Any) : Result Any :=
  match a with
  | AnyPOD PNone _ => Ok AnyNone
  | AnyPOD _ _ => Fatal "Cannot convert to ObjectRef"
  | _ => Ok a
  end.

Definition kDoubleInf : Z := 2047 * 2 ^ 52.
Definition kDoubleQuietNaN : Z := 2047 * 2 ^ 52 + 2 ^ 51.

Section Loader.
Context `{TypeRegistry} `{ReflectionVTable}.

(** [GetValue(key)] *)
Definition GetValue (jnode : JSONNode) (key : string) : Result string :=
match jn_attrs jnode !! key with
| Some v => Ok v
| None => Fatal ("JSONReader: cannot find field " +:+ key)
end.

Definition wrong_format {A} (key : string) : Result A :=
Fatal ("Wrong value format for field " +:+ key).

(** [ParseValue<T>(key, &value)] for the integer types *)
Definition ParseValue_int (bits : Z) (jnode : JSONNode) (key : string) : Result Z :=
do s <- GetValue jnode key;
match parse_int bits s with
| Some z => Ok z
| None => wrong_format key
end.

(** [ParseValue<double>(key, &value)] *)
Definition ParseValue_double (jnode : JSONNode) (key : string) : Result Z :=
do s <- GetValue jnode key;
match parse_double s with
| Some bits => Ok bits
| None => wrong_format key
end.

(** [ParseValue<std::string>(key, &value)] *)
Definition ParseValue_string (jnode : JSONNode) (key : string) : Result string :=
do s <- GetValue jnode key;
match parse_word s with
| Some w => Ok w
| None => wrong_format key
end.

(** [ParseDouble(key, &value)] *)
Definition ParseDouble (jnode : JSONNode) (key : string) : Result Z :=
do s <- GetValue jnode key;
if String.eqb s "inf" then Ok kDoubleInf
else if String.eqb s "-inf" then Ok (2 ^ 63 + kDoubleInf)
else if String.eqb s "nan" then Ok kDoubleQuietNaN
else match parse_double s with
   | Some bits => Ok bits
   | None => wrong_format key
   end.

(** [ParseOptionalValue(key, &value, fallback)] *)
Definition ParseOptionalValue {A} (fallback : JSONNode → string → Result A)
(jnode : JSONNode) (key : string) : Result (option A) :=
do s <- GetValue jnode key;
if String.eqb s "null" then Ok None
else do v <- fallback jnode key; Ok (Some v).

(** *** [FieldDependencyFinder] *)

Definition is_reference_field (field_info : TVMFFIFieldInfo) : bool :=
negb (below_StaticObjectBegin (field_static_type_index field_info))
|| bool_decide (field_static_type_index field_info = kTVMFFIAny).

(** [FieldDependencyFinder::VisitObjectFields] *)
Fixpoint FieldDependencyFinder_fields (infos : list TVMFFIFieldInfo) (jnode : JSONNode)
: Result JSONNode :=
match infos with
| [] => Ok jnode
| field_info :: infos' =>
  do jnode1 <-
    (if is_reference_field field_info then
       do index <- ParseOptionalValue (ParseValue_int 64) jnode (name field_info);
       match index with
       | Some i =>
           Ok {| jn_type_key := jn_type_key jnode; jn_repr_bytes := jn_repr_bytes jnode;
                 jn_attrs := jn_attrs jnode; jn_keys := jn_keys jnode;
                 jn_data := jn_data jnode;
                 jn_fields := jn_fields jnode ++ [to_size_t i] |}
       | None => Ok jnode
       end
     else Ok jnode);
  FieldDependencyFinder_fields infos' jnode1
end.

(** The type keys of the containers, as registered. *)
Definition ArrayObj_type_key : string := type_key (TVMFFIGetTypeInfo kTVMFFIArray).
Definition MapObj_type_key : string := type_key (TVMFFIGetTypeInfo kTVMFFIMap).
Definition NDArrayObj_type_key : string := type_key (TVMFFIGetTypeInfo kTVMFFINDArray).
(** [ffi::StaticTypeKey::kTVMFFI...] *)
Definition StaticTypeKey (ti : TypeIndex) : string := type_key (TVMFFIGetTypeInfo ti).

(** [FieldDependencyFinder::Find] *)
Definition FieldDependencyFinder_Find (node : Any) (jnode : JSONNode) : Result JSONNode :=
if is_null node then Ok jnode
else if below_StaticObjectBegin (type_index node) then Ok jnode
else if negb (String.length (jn_repr_bytes jnode) =? 0)%nat
      || bool_decide (is_Some (GetReprBytes node))
then Ok jnode
else if String.eqb (jn_type_key jnode) ArrayObj_type_key
      || String.eqb (jn_type_key jnode) MapObj_type_key
      || String.eqb (jn_type_key jnode) NDArrayObj_type_key
then Ok jnode
else
let tinfo := TVMFFIGetTypeInfo (type_index node) in
match extra_info tinfo with
| None => Fatal (missing_reflection (GetTypeKey node))
| Some _ => FieldDependencyFinder_fields (fields tinfo) jnode
end.

(** *** [JSONAttrSetter] *)

(** [JSONAttrSetter::CreateInitAny]; [next] is the first free address. *)
Definition CreateInitAny (jnode : JSONNode) (next : Z) : Result (Any * Z) :=
let key := jn_type_key jnode in
if String.eqb key (StaticTypeKey kTVMFFINone) || (String.length key =? 0)%nat
then Ok (AnyNone, next)
else if String.eqb key (StaticTypeKey kTVMFFIBool) then
do value <- ParseValue_int 64 jnode "v_int64";
Ok (AnyBool (negb (value =? 0)), next)
else if String.eqb key (StaticTypeKey kTVMFFIInt) then
do value <- ParseValue_int 64 jnode "v_int64";
Ok (AnyInt value, next)
else if String.eqb key (StaticTypeKey kTVMFFIFloat) then
do value <- ParseValue_double jnode "v_float64";
Ok (AnyFloat value, next)
else if String.eqb key (StaticTypeKey kTVMFFIDataType) then
do value <- ParseValue_string jnode "v_type";
do t <- StringToDLDataType value;
Ok (AnyPOD PDataType (payload_of_DLDataType t), next)
else if String.eqb key (StaticTypeKey kTVMFFIDevice) then
do device_type <- ParseValue_int 32 jnode "v_device_type";
do device_id <- ParseValue_int 32 jnode "v_device_id";
Ok (AnyPOD PDevice (payload_of_DLDevice {| device_type := device_type;
                                           device_id := device_id |}), next)
else
do obj <- CreateInitObject key (jn_repr_bytes jnode);
Ok (set_address next obj, next + 1).

(** [Visit] on an [ObjectRef] slot and the default case of [SetObjectField]:
the reference the attribute designates, or none for the text null. *)
Definition resolve_reference (node_list : list Any) (jnode : JSONNode) (key : string)
: Result Any :=
do index <- ParseOptionalValue (ParseValue_int 64) jnode key;
match index with
| Some i => do a <- vector_at node_list (to_size_t i); cast_ObjectRef a
| None => Ok AnyNone
end.

(** The value [SetObjectField] hands to the setter. *)
Definition SetObjectField_value (node_list : list Any) (jnode : JSONNode)
(field_info : TVMFFIFieldInfo) : Result Any :=
let key := name field_info in
match field_static_type_index field_info with
| kTVMFFIBool | kTVMFFIInt =>
  do value <- ParseOptionalValue (ParseValue_int 64) jnode key;
  Ok (match value with Some z => AnyInt z | None => AnyNone end)
| kTVMFFIFloat =>
  do value <- ParseOptionalValue ParseDouble jnode key;
  Ok (match value with Some bits => AnyFloat bits | None => AnyNone end)
| kTVMFFIDataType =>
  do stype <- GetValue jnode key;
  do t <- StringToDLDataType stype;
  Ok (AnyPOD PDataType (payload_of_DLDataType t))
| _ => resolve_reference node_list jnode key
end.

(** [SetObjectFields]: the fields are assigned in registration order. *)
Fixpoint SetObjectFields (node_list : list Any) (jnode : JSONNode)
(infos : list TVMFFIFieldInfo) (pos : nat) (obj : Any) : Result Any :=
match infos with
| [] => Ok obj
| field_info :: infos' =>
  do value <- SetObjectField_value node_list jnode field_info;
  do stored <- FieldSetter field_info value;
  SetObjectFields node_list jnode infos' (S pos) (set_object_field obj pos stored)
end.

(** The loop of [SetAttrs] over the pairs of a map without string keys. *)
Fixpoint SetAttrs_pairs (node_list : list Any) (data : list Z) (result : list (Any * Any))
: Result (list (Any * Any)) :=
match data with
| k :: v :: data' =>
  do key <- vector_at node_list k;
  do value <- vector_at node_list v;
  SetAttrs_pairs node_list data' (map_set result key value)
| _ => Ok result
end.

(** The loop of [SetAttrs] over a map with string keys; each key is a new
[String] object. *)
Fixpoint SetAttrs_keyed (node_list : list Any) (keys : list string) (data : list Z)
(result : list (Any * Any)) (next : Z) : Result (list (Any * Any) * Z) :=
match keys, data with
| k :: keys', v :: data' =>
  do value <- vector_at node_list v;
  SetAttrs_keyed node_list keys' data' (map_set result (AnyStr next k) value) (next + 1)
| _, _ => Ok (result, next)
end.

(** [JSONAttrSetter::SetAttrs(&nodes[i], &jnode)]: the new value of [nodes[i]]. *)
Definition SetAttrs (node_list : list Any) (node : Any) (jnode : JSONNode) (next : Z)
: Result (Any * Z) :=
if String.eqb (jn_type_key jnode) ArrayObj_type_key then
do result <- mapR (vector_at node_list) (jn_data jnode);
Ok (AnyArray next result, next + 1)
else if String.eqb (jn_type_key jnode) MapObj_type_key then
if bool_decide (jn_keys jnode = []) then
  if negb (length (jn_data jnode) mod 2 =? 0)%nat
  then Fatal "Check failed: jnode->data.size() % 2 == 0U"
  else
    do result <- SetAttrs_pairs node_list (jn_data jnode) [];
    Ok (AnyMap next result, next + 1)
else
  if negb (length (jn_data jnode) =? length (jn_keys jnode))%nat
  then Fatal "Check failed: jnode->data.size() == jnode->keys.size()"
  else
    do '(result, next1) <- SetAttrs_keyed node_list (jn_keys jnode) (jn_data jnode) []
                             (next + 1);
    Ok (AnyMap next result, next1)
else if is_object node then
if negb (String.length (jn_repr_bytes jnode) =? 0)%nat
   || bool_decide (is_Some (GetReprBytes node))
then Ok (node, next)
else
  let tinfo := TVMFFIGetTypeInfo (type_index node) in
  match extra_info tinfo with
  | None => Fatal (missing_reflection (GetTypeKey node))
  | Some _ =>
      do obj <- SetObjectFields node_list jnode (fields tinfo) 0 node;
      Ok (obj, next)
  end
else Ok (node, next).

(** ** [LoadJSON], from the decoded graph on *)

Record LoadState : Type := mkLoadState {
ld_nodes : list Any;
ld_next : Z }.

(** Pass 1 *)
Fixpoint LoadJSON_create (jnodes : list JSONNode) (next : Z) : Result (list Any * Z) :=
match jnodes with
| [] => Ok ([], next)
| jnode :: jnodes' =>
  do '(node, next1) <- CreateInitAny jnode next;
  do '(rest, next2) <- LoadJSON_create jnodes' next1;
  Ok (node :: rest, next2)
end.

(** Pass 2 *)
Fixpoint LoadJSON_dependencies (node_list : list Any) (jnodes : list JSONNode)
: Result (list JSONNode) :=
match node_list, jnodes with
| node :: node_list', jnode :: jnodes' =>
  do jnode1 <- FieldDependencyFinder_Find node jnode;
  do rest <- LoadJSON_dependencies node_list' jnodes';
  Ok (jnode1 :: rest)
| _, _ => Ok []
end.

(** Pass 4 *)
Fixpoint LoadJSON_set (jnodes : list JSONNode) (topo_order : list Z) (st : LoadState)
: Result LoadState :=
match topo_order with
| [] => Ok st
| i :: topo_order' =>
  do node <- vector_get (ld_nodes st) i;
  do jnode <- vector_get jnodes i;
  do '(node1, next1) <- SetAttrs (ld_nodes st) node jnode (ld_next st);
  LoadJSON_set jnodes topo_order'
    {| ld_nodes := <[Z.to_nat i := node1]> (ld_nodes st); ld_next := next1 |}
end.

Definition LoadJSON_tensors (blobs : list string) : Result (list DLTensor) :=
mapR (λ blob, match NDArrayLoad blob with
            | Some t => Ok t
            | None => Fatal "Check failed: temp.Load(&b64strm)"
            end) blobs.

(** The graph with the [fields] found by pass 2. *)
Definition with_nodes (jgraph : JSONGraph) (jnodes : list JSONNode) : JSONGraph :=
{| root := root jgraph; nodes := jnodes;
   b64ndarrays := b64ndarrays jgraph; attrs := attrs jgraph |}.

(** The tensors, pass 1 and pass 2 of [LoadJSON]: the initial node table, the
  allocator and the graph completed with the field dependencies. *)
Definition LoadJSON_prepare (next : Z) (jgraph : JSONGraph) : Result (LoadState * JSONGraph) :=
do tensors <- LoadJSON_tensors (b64ndarrays jgraph);
do '(node_list, next1) <- LoadJSON_create (nodes jgraph) next;
do jnodes <- LoadJSON_dependencies node_list (nodes jgraph);
Ok ({| ld_nodes := node_list; ld_next := next1 |}, with_nodes jgraph jnodes).

(** Passes 3 and 4: the node table when [LoadJSON] reaches its [return]. *)
Definition LoadJSON_nodes (fuel : nat) (next : Z) (jgraph : JSONGraph)
: option (Result (list Any)) :=
match LoadJSON_prepare next jgraph with
| Ok (st0, jgraph1) =>
    match TopoSort fuel jgraph1 with
    | Some (Ok topo_order) =>
        Some (do st <- LoadJSON_set (nodes jgraph1) topo_order st0; Ok (ld_nodes st))
    | Some (Fatal msg) => Some (Fatal msg)
    | Some Undefined => Some Undefined
    | None => None
    end
| Fatal msg => Some (Fatal msg)
| Undefined => Some Undefined
end.

(** [LoadJSON] after [jgraph.Load(&reader)]; [next] is the first address the
  allocator hands out, [fuel] bounds the iterations of [TopoSort]. *)
Definition LoadJSON_graph (fuel : nat) (next : Z) (jgraph : JSONGraph) : option (Result Any) :=
match LoadJSON_nodes fuel next jgraph with
| Some r => Some (do node_list <- r; vector_at node_list (root jgraph))
| None => None
end.
End Loader.

(** ** A small registry, for concrete runs *)

Module Example.
Definition kVar : nat := 0.
Definition kPair : nat := 1.
Definition kIntImm : nat := 2.

Definition field (name : string) (flags : Z) (ti : TypeIndex) : TVMFFIFieldInfo :=
{| name := name; flags := flags; field_static_type_index := ti |}.

Definition info (key : string) (kind : SEqHashKind) (fields : list TVMFFIFieldInfo)
: TVMFFITypeInfo :=
{| type_key := key; extra_info := Some {| structural_eq_hash_kind := kind |};
 fields := fields |}.

(** [test.Var] is a free variable with a name hint, [test.Pair] a DAG node
with two children, [test.IntImm] a constant carrying a value and a source
span that structural equality ignores. *)
Definition type_info (ti : TypeIndex) : TVMFFITypeInfo :=
match ti with
| kTVMFFIAny => info "Any" kTVMFFISEqHashKindUnsupported []
| kTVMFFINone => info "None" kTVMFFISEqHashKindUnsupported []
| kTVMFFIInt => info "int" kTVMFFISEqHashKindUnsupported []
| kTVMFFIBool => info "bool" kTVMFFISEqHashKindUnsupported []
| kTVMFFIFloat => info "float" kTVMFFISEqHashKindUnsupported []
| kTVMFFIOpaquePtr => info "void*" kTVMFFISEqHashKindUnsupported []
| kTVMFFIDataType => info "DataType" kTVMFFISEqHashKindUnsupported []
| kTVMFFIDevice => info "Device" kTVMFFISEqHashKindUnsupported []
| kTVMFFIStr => info "ffi.String" kTVMFFISEqHashKindUnsupported []
| kTVMFFIBytes => info "ffi.Bytes" kTVMFFISEqHashKindUnsupported []
| kTVMFFIShape => info "ffi.Shape" kTVMFFISEqHashKindUnsupported []
| kTVMFFINDArray => info "ffi.NDArray" kTVMFFISEqHashKindUnsupported []
| kTVMFFIArray => info "ffi.Array" kTVMFFISEqHashKindUnsupported []
| kTVMFFIMap => info "ffi.Map" kTVMFFISEqHashKindUnsupported []
| kTVMFFIDynObject 0 =>
  info "test.Var" kTVMFFISEqHashKindFreeVar [field "name_hint" 0 kTVMFFIStr]
| kTVMFFIDynObject 1 =>
  info "test.Pair" kTVMFFISEqHashKindDAGNode
       [field "first" 0 kTVMFFIAny; field "second" 0 kTVMFFIAny]
| kTVMFFIDynObject 2 =>
  info "test.IntImm" kTVMFFISEqHashKindConstTreeNode
       [field "value" 0 kTVMFFIInt; field "span" 8 kTVMFFIAny]
| kTVMFFIDynObject _ =>
  {| type_key := "test.Opaque"; extra_info := None; fields := [] |}
end.

Global Instance registry : TypeRegistry :=
{| TVMFFIGetTypeInfo := type_info;
 kTVMFFIFieldFlagBitMaskSEqHashIgnore := 8;
 kTVMFFIFieldFlagBitMaskSEqHashDef := 16 |}.

Definition create (key repr : string) : Result Any :=
if String.eqb key "ffi.String" then Ok (AnyStr 0 repr)
else if String.eqb key "ffi.Bytes" then Ok (AnyBytes 0 repr)
else if String.eqb key "ffi.Array" then Ok (AnyArray 0 [])
else if String.eqb key "ffi.Map" then Ok (AnyMap 0 [])
else if String.eqb key "test.Var" then Ok (AnyObject kVar 0 [AnyNone])
else if String.eqb key "test.Pair" then Ok (AnyObject kPair 0 [AnyNone; AnyNone])
else if String.eqb key "test.IntImm" then Ok (AnyObject kIntImm 0 [AnyInt 0; AnyNone])
else Fatal ("Cannot find type " +:+ key).

Definition setter (field_info : TVMFFIFieldInfo) (value : Any) : Result Any :=
match field_static_type_index field_info, value with
| kTVMFFIBool, AnyPOD PInt z => Ok (AnyBool (negb (z =? 0)))
| kTVMFFIInt, AnyPOD PNone _ => Fatal "Cannot convert from type `None` to `int`"
| _, _ => Ok value
end.

Global Instance vtable : ReflectionVTable :=
{| GetReprBytes := λ a, match a with
                      | AnyStr _ s | AnyBytes _ s => Some s
                      | _ => None
                      end;
 CreateInitObject := create;
 FieldSetter := setter;
 DLDataTypeToString := λ t, "dtype" +:+ to_string_int (dt_code t) +:+ "x"
                            +:+ to_string_int (dt_bits t) +:+ "x"
                            +:+ to_string_int (dt_lanes t);
 StringToDLDataType := λ _, Fatal "unknown type";
 NDArrayLoad := λ _, None;
 TVM_VERSION := "0.21.dev0" |}.

Definition jnode (key : string) (attrs : list (string * string)) (keys : list string)
(data : list Z) : JSONNode :=
{| jn_type_key := key; jn_repr_bytes := ""; jn_attrs := list_to_map attrs;
 jn_keys := keys; jn_data := data; jn_fields := [] |}.

Definition graph (root : Z) (nodes : list JSONNode) : JSONGraph :=
{| root := root; nodes := nodes; b64ndarrays := []; attrs := ∅ |}.

(** An array whose only element is the id 5, in a table of two nodes. *)
Definition dangling_data : JSONGraph :=
graph 1 [jnode "" [] [] []; jnode "ffi.Array" [] [] [5]].

(** A pair whose first field designates the id 7, in a table of two nodes. *)
Definition dangling_attr : JSONGraph :=
graph 1 [jnode "" [] [] []; jnode "test.Pair" [("first", "7"); ("second", "null")] [] []].

(** A pair of arrays that contain each other. *)
Definition two_cycle : JSONGraph :=
graph 1 [jnode "" [] [] []; jnode "ffi.Array" [] [] [2]; jnode "ffi.Array" [] [] [1]].

(** An array of two integers. *)
Definition int_pair : JSONGraph :=
graph 1 [jnode "" [] [] []; jnode "ffi.Array" [] [] [2; 3];
       jnode "int" [("v_int64", "4")] [] []; jnode "int" [("v_int64", "5")] [] []].

(** The bits of the double nearest to 1e-7. *)
Definition bits_1em7 : Z := 4502148214488346440.
End Example.

(** * Properties *)

(** Decide the [bool_decide] tests whose proposition is closed by [done]. *)
Ltac decide_tests :=
  repeat first
    [ rewrite bool_decide_eq_true_2 by done
    | rewrite bool_decide_eq_false_2 by done ].

(** ** Structural equality: concrete scenarios and local behaviour *)

Section EqualityFacts.
Context `{TypeRegistry}.

(** C6.  The arrays [1, 2, 3] and [1, 4, 3] are unequal and the first
mismatch is at [ArrayIndex(1)] on both sides; the arrays [1, 2] and
[1, 2, 3] are unequal and the first mismatch is [ArrayIndexMissing(2)] on
the left and [ArrayIndex(2)] on the right.  Paths come back in
root-to-leaf order: inside an enclosing array the step of the enclosing
array comes first. *)
Theorem C6_array_first_mismatch (map_free_vars skip_ndarray_content : bool)
(p1 p2 p3 p4 p5 p6 : Z) :
let a123 := AnyArray p1 [AnyInt 1; AnyInt 2; AnyInt 3] in
let a143 := AnyArray p2 [AnyInt 1; AnyInt 4; AnyInt 3] in
let a12 := AnyArray p3 [AnyInt 1; AnyInt 2] in
let a123' := AnyArray p4 [AnyInt 1; AnyInt 2; AnyInt 3] in
Equal a123 a143 map_free_vars skip_ndarray_content = Ok false
∧ GetFirstMismatch a123 a143 map_free_vars skip_ndarray_content
= Ok (Some ([ArrayIndex 1], [ArrayIndex 1]))
∧ Equal a12 a123' map_free_vars skip_ndarray_content = Ok false
∧ GetFirstMismatch a12 a123' map_free_vars skip_ndarray_content
= Ok (Some ([ArrayIndexMissing 2], [ArrayIndex 2]))
∧ GetFirstMismatch (AnyArray p5 [AnyInt 0; a12]) (AnyArray p6 [AnyInt 0; a123'])
  map_free_vars skip_ndarray_content
= Ok (Some ([ArrayIndex 1; ArrayIndexMissing 2], [ArrayIndex 1; ArrayIndex 2])).
Proof. repeat split; reflexivity. Qed.

(** C5.  For two objects of a [FreeVar] type neither of which is recorded in
the equality mappings, [CompareObject] succeeds exactly when
[map_free_vars_] is set or both sides are the same object; the outcome
does not depend on the fields, and on success the handler returned has
[equal_map_lhs_[lhs] = rhs] and [equal_map_rhs_[rhs] = lhs] and is
otherwise unchanged. *)
Theorem C5_free_var_unmapped (tindex : nat) (lp rp : Z) (lhs_fields rhs_fields : list Any)
(h : StructEqualHandler) (extra : TVMFFITypeExtraInfo) :
extra_info (TVMFFIGetTypeInfo (kTVMFFIDynObject tindex)) = Some extra →
structural_eq_hash_kind extra = kTVMFFISEqHashKindFreeVar →
equal_map_lhs_ h !! lp = None →
equal_map_rhs_ h !! rp = None →
let lhs := AnyObject tindex lp lhs_fields in
let rhs := AnyObject tindex rp rhs_fields in
∃ (success : bool) (h' : StructEqualHandler),
CompareObject lhs rhs h = Ok (success, h')
∧ (success = true ↔ map_free_vars_ h = true ∨ lp = rp)
∧ (success = true →
     h' = record_equality lhs rhs h
     ∧ equal_map_lhs_ h' !! lp = Some (ref_of rhs)
     ∧ equal_map_rhs_ h' !! rp = Some (ref_of lhs))
∧ (success = false → h' = h).
Proof.
intros Hextra Hkind Hl Hr lhs rhs.
unfold CompareObject, CompareObject_body; cbn [lhs rhs type_index v_int64].
rewrite Hextra, Hkind; cbn.
rewrite Hl, Hr; cbn.
unfold same_as; cbn.
destruct (decide (lp = rp)) as [Heq | Hne].
- decide_tests; cbn.
eexists true, _; split; [reflexivity |].
repeat split; try done; try (by right).
all: unfold record_equality; cbn; by rewrite lookup_insert_eq.
- decide_tests; cbn.
destruct (map_free_vars_ h) eqn:Hmfv; cbn.
+ eexists true, _; split; [reflexivity |].
  repeat split; try done; try (by left).
  all: unfold record_equality; cbn; by rewrite lookup_insert_eq.
+ eexists false, _; split; [reflexivity |].
  repeat split; try done. intros [? | ?]; done.
Qed.

(** C8.  For two distinct tensors whose [ndim], dimensions and [dtype] agree:
with [skip_ndarray_content_] the comparison is true; without it the
comparison is fatal unless both tensors are on the CPU and contiguous,
and under that precondition it is the equality of the first
[GetDataSize] bytes of the two buffers. *)
Theorem C8_ndarray_content (h : StructEqualHandler) (lp rp : Z) (lhs rhs : DLTensor) :
lp ≠ rp →
ndim lhs = ndim rhs →
(∀ i : nat, shape lhs !! i = shape rhs !! i) →
dtype lhs = dtype rhs →
(skip_ndarray_content_ h = true → CompareNDArray h lp rp lhs rhs = Ok true)
∧ (skip_ndarray_content_ h = false →
   (device_type (device lhs) = kDLCPU ∧ device_type (device rhs) = kDLCPU
    ∧ IsContiguous lhs = true ∧ IsContiguous rhs = true →
    CompareNDArray h lp rp lhs rhs
    = Ok (bool_decide (take (Z.to_nat (GetDataSize lhs)) (data lhs)
                       = take (Z.to_nat (GetDataSize lhs)) (data rhs))))
   ∧ (¬ (device_type (device lhs) = kDLCPU ∧ device_type (device rhs) = kDLCPU
         ∧ IsContiguous lhs = true ∧ IsContiguous rhs = true) →
      ∃ msg, CompareNDArray h lp rp lhs rhs = Fatal msg)).
Proof.
intros Hne Hndim Hshape Hdtype.
assert (Hs : shape lhs = shape rhs) by (by apply list_eq).
assert (Hall : forallb (λ lr : Z * Z, lr.1 =? lr.2) (zip (shape lhs) (shape rhs)) = true).
{ rewrite Hs. clear. induction (shape rhs) as [| x l IH]; [done |].
cbn. by rewrite Z.eqb_refl. }
unfold CompareNDArray.
rewrite (bool_decide_eq_false_2 _ Hne), Hndim, Z.eqb_refl, Hall.
rewrite (bool_decide_eq_true_2 _ Hdtype); cbn.
split.
- intros ->. reflexivity.
- intros ->; cbn. split.
+ intros (-> & -> & -> & ->). reflexivity.
+ intros Hnot.
  destruct (device_type (device lhs) =? kDLCPU) eqn:E1; cbn; [| by eexists].
  destruct (device_type (device rhs) =? kDLCPU) eqn:E2; cbn; [| by eexists].
  destruct (IsContiguous lhs) eqn:E3; cbn; [| by eexists].
  destruct (IsContiguous rhs) eqn:E4; cbn; [| by eexists].
  exfalso. apply Hnot. apply Z.eqb_eq in E1, E2. done.
Qed.
End EqualityFacts.

(** ** [JSONGraph::TopoSort]: Kahn's algorithm *)

(** Occurrences of an id in a list of ids. *)
Definition occ (v : Z) (l : list Z) : nat := length (filter (λ x, x = v) l).

Lemma occ_app v l1 l2 : occ v (l1 ++ l2) = (occ v l1 + occ v l2)%nat.
Proof. unfold occ. by rewrite filter_app, length_app. Qed.

Lemma occ_cons v x l : occ v (x :: l) = ((if decide (x = v) then 1 else 0) + occ v l)%nat.
Proof. unfold occ. rewrite filter_cons. by destruct (decide (x = v)). Qed.

Lemma occ_pos_elem v l : (0 < occ v l)%nat ↔ v ∈ l.
Proof.
  induction l as [| x l IH]; [unfold occ; cbn; split; [lia | by intros ?%elem_of_nil] |].
  rewrite occ_cons, elem_of_cons. destruct (decide (x = v)) as [-> | Hne].
  - split; [by left | lia].
  - rewrite <- IH. split; [intros; right; lia | intros [? | ?]; [congruence | lia]].
Qed.

Lemma occ_submseteq v l1 l2 : l1 ⊆+ l2 → (occ v l1 ≤ occ v l2)%nat.
Proof.
  induction 1 as [| x l1 l2 _ IH | x y l | x l1 l2 _ IH | l1 l2 l3 _ IH1 _ IH2];
    rewrite ?occ_cons; lia.
Qed.

Lemma occ_le_length v l : (occ v l ≤ length l)%nat.
Proof. unfold occ. apply length_filter. Qed.

Lemma foldR_app {A B} (f : A → B → Result A) l1 l2 a :
  foldR f (l1 ++ l2) a = bindR (foldR f l1 a) (foldR f l2).
Proof.
  revert a. induction l1 as [| b l1 IH]; intros a; cbn; [done |].
  destruct (f a b); cbn; auto.
Qed.

Lemma count_in_degree_concat nodes deg :
  count_in_degree nodes deg = foldR incr_in_degree (nodes ≫= jn_edges) deg.
Proof.
  unfold count_in_degree. revert deg.
  induction nodes as [| jnode nodes IH]; intros deg; cbn; [done |].
  rewrite foldR_app. destruct (foldR incr_in_degree (jn_edges jnode) deg); cbn; auto.
Qed.

Lemma vector_get_Ok {A} (v : list A) (i : Z) x :
  vector_get v i = Ok x ↔ 0 ≤ i ∧ v !! Z.to_nat i = Some x.
Proof.
  unfold vector_get. destruct (0 <=? i) eqn:E.
  - apply Z.leb_le in E. destruct (v !! Z.to_nat i); split; intros; naive_solver.
  - apply Z.leb_gt in E. split; [done | lia].
Qed.

Lemma vector_get_in_range {A} (v : list A) (i : Z) :
  0 ≤ i < Z.of_nat (length v) → ∃ x, vector_get v i = Ok x ∧ v !! Z.to_nat i = Some x.
Proof.
  intros Hi. destruct (lookup_lt_is_Some_2 v (Z.to_nat i)) as [x Hx]; [lia |].
  exists x. split; [| done]. apply vector_get_Ok. split; [lia | done].
Qed.

(** The counting loop adds, for every id, its number of occurrences. *)
Lemma incr_fold (l : list Z) : ∀ (deg : list Z) (c : nat → nat),
  (∀ i, i ∈ l → 0 ≤ i < Z.of_nat (length deg)) →
  (∀ v : nat, (v < length deg)%nat → deg !! v = Some (Z.of_nat (c v))) →
  (∀ v : nat, Z.of_nat (c v) + Z.of_nat (length l) < size_t_modulus) →
  ∃ deg', foldR incr_in_degree l deg = Ok deg'
          ∧ length deg' = length deg
          ∧ ∀ v : nat, (v < length deg)%nat →
              deg' !! v = Some (Z.of_nat (c v + occ (Z.of_nat v) l)).
Proof.
  induction l as [| i l IH]; intros deg c Hrange Hdeg Hsmall.
  - exists deg. cbn. split; [done |]. split; [done |].
    intros v Hv. rewrite Hdeg by done. do 2 f_equal. unfold occ; cbn. lia.
  - cbn [foldR]. unfold incr_in_degree at 1.
    destruct (vector_get_in_range deg i) as (d & -> & Hd); [apply Hrange; by left |].
    cbn [bindR].
    assert (Hi : 0 ≤ i < Z.of_nat (length deg)) by (apply Hrange; by left).
    rewrite Hdeg in Hd by lia. injection Hd as <-.
    set (c' := λ v : nat, if decide (v = Z.to_nat i) then S (c v) else c v).
    destruct (IH (<[Z.to_nat i := to_size_t (Z.of_nat (c (Z.to_nat i)) + 1)]> deg) c')
      as (deg' & Hfold & Hlen & Hres).
    + intros j Hj. rewrite length_insert. apply Hrange. by right.
    + intros v Hv. rewrite length_insert in Hv. unfold c'.
      destruct (decide (v = Z.to_nat i)) as [-> | Hne].
      * rewrite list_lookup_insert_eq by lia. f_equal. unfold to_size_t.
        rewrite Z.mod_small; [lia |].
        specialize (Hsmall (Z.to_nat i)). cbn [length] in Hsmall. lia.
      * rewrite list_lookup_insert_ne by done. by apply Hdeg.
    + intros v. unfold c'. specialize (Hsmall v). cbn [length] in Hsmall.
      destruct (decide (v = Z.to_nat i)); lia.
    + exists deg'. split; [done |]. rewrite length_insert in Hlen. split; [done |].
      intros v Hv. rewrite length_insert in Hres. rewrite Hres by done.
      do 2 f_equal. rewrite occ_cons. unfold c'.
      destruct (decide (v = Z.to_nat i)) as [-> | Hne].
      * rewrite decide_True by lia. lia.
      * rewrite decide_False by lia. lia.
Qed.

Section TopoSort_correct.
Variable g : JSONGraph.
Hypothesis Hrange : jg_ids_in_range g.
Hypothesis Hsmall : Z.of_nat (jg_edge_count g) < size_t_modulus.

Local Abbreviation n := (length (nodes g)).

(** The ids the nodes of [P] refer to, with multiplicity. *)
Definition E (P : list Z) : list Z := P ≫= jg_out g.
Definition total (v : Z) : nat := occ v (E (jg_ids g)).

Lemma jg_ids_elem u : u ∈ jg_ids g ↔ 0 ≤ u < Z.of_nat n.
Proof.
unfold jg_ids. rewrite list_elem_of_fmap. split.
- intros (k & -> & Hk%elem_of_seq). lia.
- intros Hu. exists (Z.to_nat u). split; [lia |]. apply elem_of_seq. lia.
Qed.

Lemma jg_ids_NoDup : NoDup (jg_ids g).
Proof. apply NoDup_fmap_2; [intros ???; lia | apply NoDup_seq]. Qed.

Lemma jg_ids_length : length (jg_ids g) = n.
Proof. unfold jg_ids. by rewrite length_fmap, length_seq. Qed.

Lemma jg_out_lookup u jnode :
0 ≤ u → nodes g !! Z.to_nat u = Some jnode → jg_out g u = jn_edges jnode.
Proof.
intros Hu Hl. unfold jg_out.
by rewrite (proj2 (vector_get_Ok (nodes g) u jnode) (conj Hu Hl)).
Qed.

Lemma jg_edge_source u v : jg_edge g u v → 0 ≤ u < Z.of_nat n.
Proof.
unfold jg_edge, jg_out. destruct (vector_get (nodes g) u) as [jnode | |] eqn:Hget;
try by intros ?%elem_of_nil.
intros _. apply vector_get_Ok in Hget as [? Hl]. apply lookup_lt_Some in Hl. lia.
Qed.

Lemma jg_edge_target u v : jg_edge g u v → 0 ≤ v < Z.of_nat n.
Proof.
unfold jg_edge, jg_out. destruct (vector_get (nodes g) u) as [jnode | |] eqn:Hget;
try by intros ?%elem_of_nil.
intros Hv. apply vector_get_Ok in Hget as [? Hl].
eapply Hrange; [| done]. by eapply list_elem_of_lookup_2.
Qed.

Lemma E_ids_aux (l : list JSONNode) :
(Z.of_nat <$> seq 0 (length l))
≫= (λ u, match vector_get l u with Ok jnode => jn_edges jnode | _ => [] end)
= l ≫= jn_edges.
Proof.
induction l as [| x l IH] using rev_ind; [done |].
rewrite length_app, Nat.add_1_r, seq_S, fmap_app, !bind_app. cbn.
rewrite app_nil_r. f_equal.
- rewrite <- IH. apply Forall_bind_ext, Forall_forall.
intros u (k & -> & Hk%elem_of_seq)%list_elem_of_fmap.
unfold vector_get. rewrite (proj2 (Z.leb_le 0 _)) by lia.
rewrite Nat2Z.id. by rewrite lookup_app_l by lia.
- unfold vector_get. rewrite (proj2 (Z.leb_le 0 _)) by lia.
rewrite Nat2Z.id, list_lookup_middle by done. by rewrite app_nil_r.
Qed.

Lemma E_ids : E (jg_ids g) = nodes g ≫= jn_edges.
Proof. apply E_ids_aux. Qed.

Lemma total_bound v : Z.of_nat (total v) < size_t_modulus.
Proof.
unfold total. pose proof (occ_le_length v (E (jg_ids g))) as Hle.
rewrite E_ids in *. unfold jg_edge_count in Hsmall. lia.
Qed.

Lemma E_app P Q : E (P ++ Q) = E P ++ E Q.
Proof. apply bind_app. Qed.

Lemma E_singleton u : E [u] = jg_out g u.
Proof. unfold E. cbn. apply app_nil_r. Qed.

Lemma E_sub P :
NoDup P → (∀ u, u ∈ P → 0 ≤ u < Z.of_nat n) → E P ⊆+ E (jg_ids g).
Proof.
intros Hnd Hin. apply bind_submseteq, NoDup_submseteq; [done |].
intros u Hu. apply jg_ids_elem. auto.
Qed.

Lemma E_sub_extra P u :
NoDup P → (∀ u, u ∈ P → 0 ≤ u < Z.of_nat n) → 0 ≤ u < Z.of_nat n → u ∉ P →
E P ++ jg_out g u ⊆+ E (jg_ids g).
Proof.
intros Hnd Hin Hu Hnot. rewrite <- E_singleton, <- E_app. apply E_sub.
- apply NoDup_app. split; [done |]. split; [| apply NoDup_singleton].
intros x Hx ->%list_elem_of_singleton. done.
- intros x [Hx | ->%list_elem_of_singleton]%elem_of_app; auto.
Qed.

Lemma NoDup_range_length P :
NoDup P → (∀ u, u ∈ P → 0 ≤ u < Z.of_nat n) → (length P ≤ n)%nat.
Proof.
intros Hnd Hin. rewrite <- jg_ids_length. apply submseteq_length, NoDup_submseteq; [done |].
intros u Hu. apply jg_ids_elem. auto.
Qed.

(** The state of the main loop: [p] nodes of [order] have been processed, and
of the node being processed the ids [done] have been visited. *)
Record Inv (done : list Z) (p : nat) (order in_degree : list Z) : Prop := {
inv_len : length in_degree = n;
inv_nodup : NoDup order;
inv_range : ∀ u, u ∈ order → 0 ≤ u < Z.of_nat n;
inv_sub : E (take p order) ++ done ⊆+ E (jg_ids g);
inv_deg : ∀ v : nat, (v < n)%nat →
in_degree !! v
= Some (Z.of_nat (total (Z.of_nat v))
        - Z.of_nat (occ (Z.of_nat v) (E (take p order) ++ done)));
inv_zero : ∀ v, 0 ≤ v < Z.of_nat n →
(v ∈ order ↔ total v = occ v (E (take p order) ++ done));
inv_topo : ∀ u v, jg_edge g u v → v ∈ order →
∃ i j : nat, order !! i = Some u ∧ order !! j = Some v ∧ (i < j)%nat }.

(** One execution of [if (--in_degree[w] == 0) topo_order.push_back(w)]. *)
Lemma decr_step done rest p order in_degree u0 w :
Inv done p order in_degree →
order !! p = Some u0 →
jg_out g u0 = done ++ w :: rest →
∃ st, decr_in_degree (order, in_degree) w = Ok st
    ∧ Inv (done ++ [w]) p st.1 st.2
    ∧ st.1 !! p = Some u0.
Proof.
intros HI Hp Hout.
assert (Hw : 0 ≤ w < Z.of_nat n).
{ apply (jg_edge_target u0). unfold jg_edge. rewrite Hout. set_solver. }
assert (Hplt : (p < length order)%nat) by (by eapply lookup_lt_Some).
assert (Hu0 : u0 ∈ order) by (by eapply list_elem_of_lookup_2).
assert (HtakeS : take (S p) order = take p order ++ [u0]) by (by apply take_S_r).
assert (Hsub1 : E (take p order) ++ jg_out g u0 ⊆+ E (jg_ids g)).
{ rewrite <- E_singleton, <- E_app, <- HtakeS. apply E_sub.
- rewrite <- (take_drop (S p) order) in HI. destruct HI as [_ Hnd _ _ _ _ _].
  by apply NoDup_app in Hnd as [? _].
- intros u Hu%elem_of_take. destruct Hu as (i & Hi & _).
  eapply inv_range; [done |]. by eapply list_elem_of_lookup_2. }
assert (Hsub2 : E (take p order) ++ (done ++ [w]) ⊆+ E (jg_ids g)).
{ etrans; [| exact Hsub1]. apply submseteq_app; [done |]. rewrite Hout.
apply submseteq_app; [done |]. apply submseteq_skip, submseteq_nil_l. }
pose proof (occ_submseteq w _ _ Hsub2) as Hocc.
rewrite app_assoc, occ_app in Hocc. unfold occ at 2 in Hocc. cbn in Hocc.
rewrite decide_True in Hocc by done. cbn in Hocc. fold (total w) in Hocc.
pose proof (total_bound w) as Htb.
unfold decr_in_degree. cbn [fst snd].
destruct (vector_get_in_range in_degree w) as (d & -> & Hd);
[rewrite (inv_len _ _ _ _ HI); lia |].
cbn [bindR]. eexists; split; [reflexivity |]. cbn [fst snd].
rewrite (inv_deg _ _ _ _ HI) in Hd by lia. rewrite Z2Nat.id in Hd by lia.
injection Hd as <-.
set (c := occ w (E (take p order) ++ done)) in *.
assert (Hd' : to_size_t (Z.of_nat (total w) - Z.of_nat c - 1)
            = Z.of_nat (total w) - Z.of_nat c - 1).
{ unfold to_size_t. apply Z.mod_small. lia. }
rewrite Hd'.
assert (Hwnot : w ∉ order).
{ intros Hin. apply (inv_zero _ _ _ _ HI) in Hin; [| done]. fold c in Hin. lia. }
set (order' := if Z.of_nat (total w) - Z.of_nat c - 1 =? 0 then order ++ [w] else order).
assert (Hpre : ∀ i x, order !! i = Some x → order' !! i = Some x).
{ intros i x Hi. unfold order'. destruct (_ =? 0); [| done]. by apply lookup_app_l_Some. }
assert (Htake : take p order' = take p order).
{ unfold order'. destruct (_ =? 0); [| done]. rewrite take_app_le by lia. done. }
assert (Hocc' : ∀ v, occ v (E (take p order) ++ done ++ [w])
                   = (occ v (E (take p order) ++ done)
                      + (if decide (w = v) then 1 else 0))%nat).
{ intros v. rewrite app_assoc, occ_app. f_equal. unfold occ. cbn.
destruct (decide (w = v)); done. }
split; [| by apply Hpre].
split.
- rewrite length_insert. apply HI.
- unfold order'. destruct (_ =? 0); [| apply HI].
apply NoDup_app. split; [apply HI |]. split; [| apply NoDup_singleton].
intros x Hx ->%list_elem_of_singleton. done.
- intros u Hu. unfold order' in Hu. destruct (_ =? 0); [| by eapply inv_range].
apply elem_of_app in Hu as [Hu | ->%list_elem_of_singleton]; [by eapply inv_range | done].
- by rewrite Htake.
- intros v Hv. rewrite Htake, Hocc'.
destruct (decide (v = Z.to_nat w)) as [-> | Hne].
+ rewrite list_lookup_insert_eq by (rewrite (inv_len _ _ _ _ HI); lia).
  rewrite Z2Nat.id by lia. rewrite decide_True by done. fold c. f_equal. lia.
+ rewrite list_lookup_insert_ne by done. rewrite decide_False by lia.
  rewrite Nat.add_0_r. by apply HI.
- intros v Hv. rewrite Htake, Hocc'. destruct (decide (w = v)) as [<- | Hne].
+ fold c. unfold order'. destruct (_ =? 0) eqn:Hz.
  * apply Z.eqb_eq in Hz. split; [lia | set_solver].
  * apply Z.eqb_neq in Hz. split; [done | lia].
+ rewrite Nat.add_0_r. rewrite <- (inv_zero _ _ _ _ HI) by done.
  unfold order'. destruct (_ =? 0); [| done]. set_solver.
- intros u v Huv Hv.
destruct (decide (v ∈ order)) as [Hin | Hnin].
{ destruct (inv_topo _ _ _ _ HI u v Huv Hin) as (i & j & Hi & Hj & Hij).
  exists i, j. auto. }
assert (v = w ∧ order' = order ++ [w]) as [-> Ho'].
{ unfold order' in *. destruct (_ =? 0); [| done].
  apply elem_of_app in Hv as [? | ->%list_elem_of_singleton]; done. }
assert (Hz : Z.of_nat (total w) - Z.of_nat c - 1 = 0).
{ unfold order' in Ho'. destruct (_ =? 0) eqn:Hz; [by apply Z.eqb_eq |].
  apply (f_equal length) in Ho'. rewrite length_app in Ho'. cbn in Ho'. lia. }
assert (Hu : u ∈ take (S p) order).
{ destruct (decide (u ∈ take (S p) order)) as [? | Hnot]; [done | exfalso].
  assert (Hsub3 : E (take (S p) order) ++ jg_out g u ⊆+ E (jg_ids g)).
  { apply E_sub_extra; [| | by eapply jg_edge_source | done].
    - rewrite <- (take_drop (S p) order) in HI. destruct HI as [_ Hnd _ _ _ _ _].
      by apply NoDup_app in Hnd as [? _].
    - intros x Hx%elem_of_take. destruct Hx as (i & Hi & _).
      eapply inv_range; [done |]. by eapply list_elem_of_lookup_2. }
  pose proof (occ_submseteq w _ _ Hsub3) as Hc3.
  rewrite HtakeS, E_app, E_singleton, !occ_app in Hc3. fold (total w) in Hc3.
  assert (Hc4 : (occ w (done ++ [w]) ≤ occ w (jg_out g u0))%nat).
  { apply occ_submseteq. rewrite Hout. apply submseteq_app; [done |].
    apply submseteq_skip, submseteq_nil_l. }
  rewrite occ_app in Hc4. unfold occ at 2 in Hc4. cbn in Hc4.
  rewrite decide_True in Hc4 by done. cbn in Hc4.
  assert (Hc5 : (0 < occ w (jg_out g u))%nat) by (by apply occ_pos_elem).
  unfold c in Hz. rewrite occ_app in Hz. lia. }
apply elem_of_take in Hu as (i & Hi & Hlt).
exists i, (length order). split; [by apply Hpre |]. split; [| lia].
rewrite Ho'. by rewrite list_lookup_middle.
Qed.

(** The inner loops over [data] and [fields] of the node being processed. *)
Lemma decr_fold rest : ∀ done p order in_degree u0,
Inv done p order in_degree →
order !! p = Some u0 →
jg_out g u0 = done ++ rest →
∃ st, foldR decr_in_degree rest (order, in_degree) = Ok st
    ∧ Inv (jg_out g u0) p st.1 st.2
    ∧ st.1 !! p = Some u0.
Proof.
induction rest as [| w rest IH]; intros done p order in_degree u0 HI Hp Hout.
- rewrite app_nil_r in Hout. rewrite Hout. exists (order, in_degree). by cbn.
- cbn [foldR].
destruct (decr_step done rest p order in_degree u0 w HI Hp Hout)
  as ([order1 deg1] & -> & HI1 & Hp1).
cbn [bindR]. apply (IH (done ++ [w])); [done | done |].
by rewrite <- app_assoc.
Qed.

Lemma Inv_next p order in_degree u0 :
Inv (jg_out g u0) p order in_degree → order !! p = Some u0 →
Inv [] (S p) order in_degree.
Proof.
intros HI Hp.
assert (Heq : E (take (S p) order) ++ [] = E (take p order) ++ jg_out g u0).
{ rewrite app_nil_r, (take_S_r _ _ _ Hp), E_app, E_singleton. done. }
destruct HI as [H1 H2 H3 H4 H5 H6 H7].
split; try done; by rewrite Heq.
Qed.

(** The main loop runs to its exit within [n - p] iterations. *)
Lemma TopoSort_loop_Inv fuel : ∀ p order in_degree,
Inv [] p order in_degree →
(p ≤ length order)%nat →
(n ≤ fuel + p)%nat →
∃ order' in_degree',
TopoSort_loop fuel (nodes g) p order in_degree = Some (Ok (order', in_degree'))
∧ Inv [] (length order') order' in_degree'.
Proof.
induction fuel as [| fuel IH]; intros p order in_degree HI Hp Hfuel.
- assert (Hlen : (length order ≤ n)%nat)
  by (apply NoDup_range_length; [apply HI | by eapply inv_range]).
assert (p = length order) as -> by lia.
cbn. rewrite lookup_ge_None_2 by lia. eauto.
- cbn [TopoSort_loop]. destruct (order !! p) as [u0 |] eqn:Hu0.
+ assert (Hr : 0 ≤ u0 < Z.of_nat n).
  { eapply inv_range; [done |]. by eapply list_elem_of_lookup_2. }
  destruct (vector_get_in_range (nodes g) u0 Hr) as (jnode & Hget & Hl).
  rewrite Hget.
  assert (Hout : jg_out g u0 = jn_edges jnode) by (apply jg_out_lookup; [lia | done]).
  destruct (decr_fold (jn_edges jnode) [] p order in_degree u0 HI Hu0)
    as ([order1 deg1] & -> & HI1 & Hp1); [by rewrite Hout |].
  cbn [fst snd] in *. apply IH.
  * by eapply Inv_next.
  * apply lookup_lt_Some in Hp1. lia.
  * lia.
+ apply lookup_ge_None_1 in Hu0. assert (p = length order) as -> by lia. eauto.
Qed.

(** The state in which the main loop starts. *)
Lemma TopoSort_init :
∃ in_degree,
count_in_degree (nodes g) (replicate n 0) = Ok in_degree
∧ Inv [] 0 (zero_in_degree n in_degree) in_degree.
Proof.
rewrite count_in_degree_concat, <- E_ids.
destruct (incr_fold (E (jg_ids g)) (replicate n 0) (λ _, 0%nat))
as (deg & Hfold & Hlen & Hdeg).
- intros i Hi. rewrite length_replicate. unfold E in Hi.
apply list_elem_of_bind in Hi as (u & Hi & _). by apply (jg_edge_target u).
- intros v Hv. rewrite length_replicate in Hv. by rewrite lookup_replicate_2.
- intros v. rewrite E_ids. unfold jg_edge_count in Hsmall. lia.
- rewrite length_replicate in Hlen, Hdeg. exists deg. split; [done |].
assert (Hz : ∀ v, v ∈ zero_in_degree n deg ↔ 0 ≤ v < Z.of_nat n ∧ total v = 0%nat).
{ intros v. unfold zero_in_degree. rewrite list_elem_of_filter, list_elem_of_fmap.
  split.
  - intros [Hd (k & -> & Hk%elem_of_seq)]. split; [lia |].
    rewrite Nat2Z.id, Hdeg in Hd by lia. unfold total. injection Hd. lia.
  - intros [Hv Ht]. split.
    + rewrite Hdeg by lia. rewrite Z2Nat.id by lia. fold (total v). by rewrite Ht.
    + exists (Z.to_nat v). split; [lia |]. apply elem_of_seq. lia. }
split; rewrite ?take_0; change (E [] ++ []) with (@nil Z); try done.
+ unfold zero_in_degree. apply NoDup_filter. apply NoDup_fmap_2; [| apply NoDup_seq].
  intros ???; lia.
+ intros u Hu%Hz. tauto.
+ apply submseteq_nil_l.
+ intros v Hv. rewrite Hdeg by done. unfold total. change (occ (Z.of_nat v) []) with 0%nat. f_equal. lia.
+ intros v Hv. rewrite Hz. change (occ v []) with 0%nat. tauto.
+ intros u v Huv [_ Hv]%Hz. exfalso.
  assert (Hin : v ∈ E (jg_ids g)).
  { unfold E. apply list_elem_of_bind. exists u. split; [done |].
    apply jg_ids_elem. by eapply jg_edge_source. }
  apply occ_pos_elem in Hin. unfold total in Hv. lia.
Qed.

(** What [TopoSort] computes: the order [kahn] in which the main loop
dequeues the nodes, reversed, when it contains every node. *)
Lemma TopoSort_result (fuel : nat) :
(n ≤ fuel)%nat →
∃ kahn in_degree,
Inv [] (length kahn) kahn in_degree
∧ TopoSort fuel g
  = Some (if bool_decide (length kahn = n) then Ok (reverse kahn)
          else Fatal "Cyclic reference detected in JSON file").
Proof.
intros Hfuel. destruct TopoSort_init as (deg & Hcount & HI).
destruct (TopoSort_loop_Inv fuel 0 _ _ HI) as (kahn & deg' & Hloop & HI'); [lia | lia |].
exists kahn, deg'. split; [done |].
unfold TopoSort. rewrite Hcount, Hloop. cbn [fst snd].
by destruct (bool_decide (length kahn = n)).
Qed.

(** *** A complete order excludes cycles *)

Lemma Inv_path kahn in_degree p u v :
Inv [] p kahn in_degree → tc (jg_edge g) u v → v ∈ kahn →
∃ i j : nat, kahn !! i = Some u ∧ kahn !! j = Some v ∧ (i < j)%nat.
Proof.
intros HI Hpath. induction Hpath as [u v Huv | u w v Huw _ IH]; intros Hv.
- by eapply inv_topo.
- destruct (IH Hv) as (i & j & Hi & Hj & Hij).
destruct (inv_topo _ _ _ _ HI u w Huw) as (i' & j' & Hi' & Hj' & Hij');
  [by eapply list_elem_of_lookup_2 |].
assert (j' = i) as -> by (eapply NoDup_lookup; [apply HI | done | done]).
exists i', j. split; [done |]. split; [done | lia].
Qed.

Lemma Inv_full_elem kahn in_degree p v :
Inv [] p kahn in_degree → length kahn = n → 0 ≤ v < Z.of_nat n → v ∈ kahn.
Proof.
intros HI Hlen Hv.
assert (Hperm : kahn ≡ₚ jg_ids g).
{ apply submseteq_length_Permutation; [| rewrite jg_ids_length; lia].
apply NoDup_submseteq; [apply HI |]. intros u Hu. apply jg_ids_elem.
by eapply inv_range. }
rewrite Hperm. by apply jg_ids_elem.
Qed.

Lemma tc_last_edge u v : tc (jg_edge g) u v → ∃ w, jg_edge g w v.
Proof. induction 1; eauto. Qed.

Lemma Inv_full_acyclic kahn in_degree p :
Inv [] p kahn in_degree → length kahn = n → ¬ jg_cyclic g.
Proof.
intros HI Hlen [v Hv].
assert (Hin : v ∈ kahn).
{ eapply Inv_full_elem; [done | done |].
destruct (tc_last_edge _ _ Hv) as [w Hw]. by eapply jg_edge_target. }
destruct (Inv_path _ _ _ _ _ HI Hv Hin) as (i & j & Hi & Hj & Hij).
assert (i = j) by (eapply NoDup_lookup; [apply HI | done | done]). lia.
Qed.

(** *** An incomplete order exhibits a cycle *)

(** A sequence of nodes each of which refers to the next one. *)
Inductive walk : list Z → Prop :=
| walk_one v : walk [v]
| walk_cons u v l : jg_edge g u v → walk (v :: l) → walk (u :: v :: l).

Lemma walk_reach u l v : walk (u :: l) → v ∈ l → tc (jg_edge g) u v.
Proof.
revert u. induction l as [| w l IH]; intros u Hw Hv; [by apply elem_of_nil in Hv |].
inversion Hw as [| ? ? ? Huw Hwl]; subst.
apply elem_of_cons in Hv as [-> | Hv]; [by apply tc_once |].
eapply tc_l; [done |]. by apply IH.
Qed.

Lemma walk_tail u l : walk (u :: l) → l = [] ∨ walk l.
Proof. inversion 1; subst; auto. Qed.

Lemma walk_repeat l : walk l → ¬ NoDup l → jg_cyclic g.
Proof.
induction l as [| u l IH]; intros Hw Hnd; [destruct Hnd; constructor |].
destruct (decide (u ∈ l)) as [Hin | Hnin].
- exists u. by eapply walk_reach.
- destruct (walk_tail _ _ Hw) as [-> | Hw'].
+ destruct Hnd. apply NoDup_singleton.
+ apply IH; [done |]. intros Hnd'. apply Hnd. by constructor.
Qed.

Section Unprocessed.
Variables (kahn in_degree : list Z).
Hypothesis HI : Inv [] (length kahn) kahn in_degree.

Definition unprocessed (v : Z) : Prop := 0 ≤ v < Z.of_nat n ∧ v ∉ kahn.

(** A node that never entered the queue is referred to by another such node. *)
Lemma unprocessed_pred v : unprocessed v → ∃ u, unprocessed u ∧ jg_edge g u v.
Proof.
intros [Hv Hnin].
set (rest := filter (λ u, u ∉ kahn) (jg_ids g)).
assert (Hperm : jg_ids g ≡ₚ kahn ++ rest).
{ rewrite <- (filter_app_complement (λ u, u ∈ kahn) (jg_ids g)).
apply Permutation_app; [| done].
apply NoDup_Permutation; [apply NoDup_filter, jg_ids_NoDup | apply HI |].
intros u. rewrite list_elem_of_filter, jg_ids_elem. split; [tauto |].
intros Hu. split; [done |]. by eapply inv_range. }
assert (Hcount : total v = (occ v (E kahn) + occ v (E rest))%nat).
{ unfold total. rewrite <- occ_app, <- E_app. unfold occ, E.
by rewrite Hperm. }
pose proof (inv_zero _ _ _ _ HI v Hv) as Hz.
rewrite firstn_all, app_nil_r in Hz.
assert (Hpos : (0 < occ v (E rest))%nat).
{ destruct (occ v (E rest)); [| lia]. exfalso. apply Hnin, Hz. lia. }
apply occ_pos_elem in Hpos. unfold E in Hpos.
apply list_elem_of_bind in Hpos as (u & Hvu & Hu).
exists u. split; [| done].
apply list_elem_of_filter in Hu as [Hu1 Hu2]. split; [by apply jg_ids_elem | done].
Qed.

Lemma unprocessed_walk (k : nat) v :
unprocessed v → ∃ u l, walk (u :: l) ∧ length l = k ∧ Forall unprocessed (u :: l).
Proof.
intros Hv. induction k as [| k (u & l & Hw & Hlen & Hall)].
- exists v, []. split; [constructor |]. split; [done |].
constructor; [done | constructor].
- apply Forall_cons in Hall as Hall'. destruct Hall' as [Hu _].
destruct (unprocessed_pred u Hu) as (u' & Hu' & Hedge).
exists u', (u :: l). split; [by constructor |]. split; [cbn; lia |].
by constructor.
Qed.

Lemma incomplete_cyclic : length kahn ≠ n → jg_cyclic g.
Proof.
intros Hlen.
assert (Hle : (length kahn ≤ n)%nat)
by (apply NoDup_range_length; [apply HI | by eapply inv_range]).
assert (Hex : ∃ v, unprocessed v).
{ destruct (decide (Forall (λ u, u ∈ kahn) (jg_ids g))) as [Hall | Hnall].
- exfalso. assert (jg_ids g ⊆+ kahn).
{ apply NoDup_submseteq; [apply jg_ids_NoDup |]. by apply Forall_forall. }
apply submseteq_length in H. rewrite jg_ids_length in H. lia.
- apply not_Forall_Exists in Hnall; [| apply _].
apply Exists_exists in Hnall as (v & Hv & Hnin).
exists v. split; [by apply jg_ids_elem | done]. }
destruct Hex as [v Hv].
destruct (unprocessed_walk n v Hv) as (u & l & Hw & Hl & Hall).
apply (walk_repeat _ Hw). intros Hnd.
assert (Hlen' : (length (u :: l) ≤ n)%nat).
{ apply NoDup_range_length; [done |]. intros x Hx.
rewrite Forall_forall in Hall. by apply Hall. }
cbn in Hlen'. lia.
Qed.
End Unprocessed.
End TopoSort_correct.

(** C3 (amended).  For a graph whose ids all designate nodes of the table
    (and whose id vectors are small enough for [size_t] counters), [TopoSort]
    terminates within [nodes.size()] iterations of its main loop.  If the graph of the
    [data] and [fields] edges is acyclic it returns an order that contains
    every node exactly once and in which a node comes after every node it
    refers to (leaves first, root last); that order is the reverse of the
    order [kahn] in which the loop dequeues the nodes.  If the graph is cyclic
    it fails with the cycle diagnostic.  The graph is cyclic exactly when
    [kahn] is shorter than [nodes.size()]. *)
Theorem C3_TopoSort_acyclic_or_diagnostic (g : JSONGraph) (fuel : nat) :
  jg_ids_in_range g →
  Z.of_nat (jg_edge_count g) < size_t_modulus →
  (length (nodes g) ≤ fuel)%nat →
  ∃ kahn : list Z,
    (jg_cyclic g ↔ (length kahn < length (nodes g))%nat)
    ∧ (¬ jg_cyclic g →
         TopoSort fuel g = Some (Ok (reverse kahn))
         ∧ reverse kahn ≡ₚ jg_ids g
         ∧ ∀ u v (i j : nat), jg_edge g u v →
             reverse kahn !! i = Some u → reverse kahn !! j = Some v → (j < i)%nat)
    ∧ (jg_cyclic g →
         TopoSort fuel g = Some (Fatal "Cyclic reference detected in JSON file")).
Proof.
  intros Hrange Hsmall Hfuel.
  destruct (TopoSort_result g Hrange Hsmall fuel Hfuel) as (kahn & deg & HI & Hres).
  assert (Hle : (length kahn ≤ length (nodes g))%nat).
  { apply NoDup_range_length; [apply HI | by eapply inv_range]. }
  assert (Hcyc : jg_cyclic g ↔ (length kahn < length (nodes g))%nat).
  { split.
    - intros Hc. destruct (decide (length kahn = length (nodes g))) as [Heq | Hne]; [| lia].
      by destruct (Inv_full_acyclic g Hrange _ _ _ HI Heq).
    - intros Hlt. apply (incomplete_cyclic g kahn deg HI). lia. }
  exists kahn. split; [done |]. split.
  - intros Hac.
    assert (Hlen : length kahn = length (nodes g)).
    { destruct (decide (length kahn = length (nodes g))) as [? | Hne]; [done |].
      destruct Hac. apply Hcyc. lia. }
    rewrite Hres, bool_decide_eq_true_2 by done. split; [done |]. split.
    + rewrite reverse_Permutation.
      apply submseteq_length_Permutation; [| rewrite jg_ids_length; lia].
      apply NoDup_submseteq; [apply HI |]. intros u Hu. apply jg_ids_elem.
      by eapply inv_range.
    + intros u v i j Huv [Hi Hilt]%reverse_lookup_Some [Hj Hjlt]%reverse_lookup_Some.
      destruct (inv_topo _ _ _ _ _ HI u v Huv) as (i' & j' & Hi' & Hj' & Hlt);
        [by eapply list_elem_of_lookup_2 |].
      assert (i' = (length kahn - S i)%nat)
        by (eapply NoDup_lookup; [apply HI | done | done]).
      assert (j' = (length kahn - S j)%nat)
        by (eapply NoDup_lookup; [apply HI | done | done]).
      lia.
  - intros Hc%Hcyc. rewrite Hres, bool_decide_eq_false_2 by lia. done.
Qed.

Lemma C3_witness :
  ∃ kahn : list Z,
    (jg_cyclic Example.int_pair ↔ (length kahn < length (nodes Example.int_pair))%nat)
    ∧ (¬ jg_cyclic Example.int_pair →
         TopoSort 4 Example.int_pair = Some (Ok (reverse kahn))
         ∧ reverse kahn ≡ₚ jg_ids Example.int_pair
         ∧ ∀ u v (i j : nat), jg_edge Example.int_pair u v →
             reverse kahn !! i = Some u → reverse kahn !! j = Some v → (j < i)%nat)
    ∧ (jg_cyclic Example.int_pair →
         TopoSort 4 Example.int_pair = Some (Fatal "Cyclic reference detected in JSON file")).
Proof.
  apply (C3_TopoSort_acyclic_or_diagnostic Example.int_pair 4).
  - intros jnode i Hj Hi. cbn in Hj.
    repeat (apply elem_of_cons in Hj as [-> | Hj]); cbn in Hi;
      repeat (apply elem_of_cons in Hi as [-> | Hi]); try (cbn; lia);
      try (by apply elem_of_nil in Hi); by apply elem_of_nil in Hj.
  - vm_compute. reflexivity.
  - cbn. lia.
Defined.

(** ** Ids outside the node table *)

Lemma incr_fold_out_of_range (l : list Z) : ∀ deg : list Z,
  (∃ i, i ∈ l ∧ ¬ (0 ≤ i < Z.of_nat (length deg))) →
  foldR incr_in_degree l deg = Undefined.
Proof.
  induction l as [| i l IH]; intros deg (j & Hj & Hout); [by apply elem_of_nil in Hj |].
  cbn [foldR]. unfold incr_in_degree at 1.
  destruct (vector_get deg i) as [d | msg |] eqn:Hget; cbn [bindR].
  - apply IH. exists j. rewrite length_insert. split; [| done].
    apply elem_of_cons in Hj as [-> | Hj]; [| done].
    apply vector_get_Ok in Hget as [? Hl%lookup_lt_Some]. lia.
  - unfold vector_get in Hget. by repeat case_match.
  - done.
Qed.

Lemma TopoSort_out_of_range (g : JSONGraph) (fuel : nat) :
  (∃ jnode i, jnode ∈ nodes g ∧ i ∈ jn_edges jnode
              ∧ ¬ (0 ≤ i < Z.of_nat (length (nodes g)))) →
  TopoSort fuel g = Some Undefined.
Proof.
  intros (jnode & i & Hj & Hi & Hout). unfold TopoSort.
  rewrite count_in_degree_concat, incr_fold_out_of_range; [done |].
  exists i. rewrite length_replicate. split; [| done].
  apply list_elem_of_bind. eauto.
Qed.

Lemma dangling_data_edge (u w : Z) : jg_edge Example.dangling_data u w → u = 1 ∧ w = 5.
Proof.
  unfold jg_edge, jg_out.
  destruct (vector_get (nodes Example.dangling_data) u) as [jnode | |] eqn:Hget;
    [| by intros ?%elem_of_nil ..].
  apply vector_get_Ok in Hget as [Hu Hl]. cbn in Hl.
  destruct (Z.to_nat u) as [| [| n]] eqn:Hn; cbn in Hl; [| | done].
  - injection Hl as <-. by intros ?%elem_of_nil.
  - injection Hl as <-. cbn. intros ->%list_elem_of_singleton. split; [lia | done].
Qed.

(** C3 (as stated) does not hold for every JSONGraph: the table of
    [dangling_data] has two nodes and its only edge leads from node 1 to the
    id 5, so no node reaches itself; yet [TopoSort] returns no order, since it
    executes [++in_degree[5]] on a vector of two counters. *)
Lemma C3_acyclic_graph_without_order :
  ¬ jg_cyclic Example.dangling_data
  ∧ ¬ jg_ids_in_range Example.dangling_data
  ∧ ∀ fuel, TopoSort fuel Example.dangling_data = Some Undefined.
Proof.
  split; [| split].
  - intros [v Hv].
    inversion Hv as [? ? Hvv | ? y ? Hvy Hyv]; subst.
    + apply dangling_data_edge in Hvv. lia.
    + apply dangling_data_edge in Hvy as [-> ->].
      inversion Hyv as [? ? He | ? ? ? He _]; subst; apply dangling_data_edge in He; lia.
  - intros Hrange.
    assert (0 ≤ 5 < Z.of_nat (length (nodes Example.dangling_data))) as Hlt
      by (apply (Hrange (Example.jnode "ffi.Array" [] [] [5]) 5); cbn; set_solver).
    cbn in Hlt. lia.
  - intros fuel. apply TopoSort_out_of_range.
    exists (Example.jnode "ffi.Array" [] [] [5]), 5.
    split; [cbn; set_solver |]. split; [cbn; set_solver |]. cbn. lia.
Qed.

(** C9 (what the code does).  When some id stored in [data] or [fields] lies
    outside the node table, [TopoSort] indexes [in_degree] with it unchecked:
    the behaviour is undefined and no diagnostic is produced.  [LoadJSON] runs
    [TopoSort] before any checked access. *)
Theorem C9_out_of_range_id_undefined (g : JSONGraph) (fuel : nat) :
  (∃ jnode i, jnode ∈ nodes g ∧ i ∈ jn_edges jnode
              ∧ ¬ (0 ≤ i < Z.of_nat (length (nodes g)))) →
  TopoSort fuel g = Some Undefined.
Proof. apply TopoSort_out_of_range. Qed.

Lemma C9_witness :
  TopoSort 2 Example.dangling_data = Some Undefined
  ∧ LoadJSON_graph 2 1000 Example.dangling_data = Some Undefined
  ∧ LoadJSON_graph 2 1000 Example.dangling_attr = Some Undefined.
Proof.
  split; [| split; vm_compute; reflexivity].
  apply (C9_out_of_range_id_undefined Example.dangling_data 2).
  exists (Example.jnode "ffi.Array" [] [] [5]), 5.
  split; [cbn; set_solver |]. split; [cbn; set_solver |]. cbn. lia.
Defined.

(** ** The text of doubles *)

Section DoubleText.
Context `{TypeRegistry} `{ReflectionVTable}.

(** C4 (what the code does).  A double held by an object field is written
with [precision(17)] and reads back exactly; a POD float node is written
with [std::to_string], that is with six digits after the decimal point:
for the double nearest to 1e-7 the attribute [v_float64] is the text
0.000000, which reads back as zero. *)
Theorem C4_pod_float_text (node_index : list (AnyRef * Z)) (field_info : TVMFFIFieldInfo)
(attrs : AttrMap) :
let x := Example.bits_1em7 in
Getter_field node_index field_info (AnyFloat x) attrs
= Ok (<[name field_info := "9.9999999999999995e-08"]> attrs)
∧ parse_double "9.9999999999999995e-08" = Some x
∧ (∃ jnode, JSONAttrGetter_Get node_index (AnyFloat x) = Ok jnode
          ∧ jn_attrs jnode !! "v_float64" = Some "0.000000")
∧ parse_double "0.000000" = Some 0.
Proof.
repeat split; try reflexivity.
eexists. split; reflexivity.
Qed.
End DoubleText.

(** ** Concrete runs of the local facts *)

Lemma C5_witness :
  ∃ (success : bool) (h' : StructEqualHandler),
    CompareObject (AnyObject Example.kVar 10 [AnyStr 11 "x"])
                  (AnyObject Example.kVar 20 [AnyStr 21 "y"])
                  (new_handler true false None) = Ok (success, h')
    ∧ (success = true ↔ map_free_vars_ (new_handler true false None) = true ∨ 10 = 20)
    ∧ (success = true →
         h' = record_equality (AnyObject Example.kVar 10 [AnyStr 11 "x"])
                              (AnyObject Example.kVar 20 [AnyStr 21 "y"])
                              (new_handler true false None)
         ∧ equal_map_lhs_ h' !! 10 = Some (ref_of (AnyObject Example.kVar 20 [AnyStr 21 "y"]))
         ∧ equal_map_rhs_ h' !! 20 = Some (ref_of (AnyObject Example.kVar 10 [AnyStr 11 "x"])))
    ∧ (success = false → h' = new_handler true false None).
Proof.
  apply (C5_free_var_unmapped Example.kVar 10 20 [AnyStr 11 "x"] [AnyStr 21 "y"]
           (new_handler true false None) {| structural_eq_hash_kind := kTVMFFISEqHashKindFreeVar |});
    reflexivity.
Defined.

Definition C8_tensor (bytes : list Z) : DLTensor :=
  {| shape := [2; 2];
     dtype := {| dt_code := 1; dt_bits := 8; dt_lanes := 1 |};
     device := {| device_type := kDLCPU; device_id := 0 |};
     IsContiguous := true;
     data := bytes |}.

Lemma C8_witness :
  let h := new_handler false false None in
  let lhs := C8_tensor [1; 2; 3; 4] in
  let rhs := C8_tensor [1; 2; 3; 5] in
  (skip_ndarray_content_ h = true → CompareNDArray h 1 2 lhs rhs = Ok true)
  ∧ (skip_ndarray_content_ h = false →
       (device_type (device lhs) = kDLCPU ∧ device_type (device rhs) = kDLCPU
        ∧ IsContiguous lhs = true ∧ IsContiguous rhs = true →
        CompareNDArray h 1 2 lhs rhs
        = Ok (bool_decide (take (Z.to_nat (GetDataSize lhs)) (data lhs)
                           = take (Z.to_nat (GetDataSize lhs)) (data rhs))))
       ∧ (¬ (device_type (device lhs) = kDLCPU ∧ device_type (device rhs) = kDLCPU
             ∧ IsContiguous lhs = true ∧ IsContiguous rhs = true) →
          ∃ msg, CompareNDArray h 1 2 lhs rhs = Fatal msg)).
Proof.
  apply (C8_ndarray_content (new_handler false false None) 1 2
           (C8_tensor [1; 2; 3; 4]) (C8_tensor [1; 2; 3; 5])); [lia | | |]; reflexivity.
Defined.

(** ** Induction over values *)

Section Any_induction.
Variable P : Any → Prop.
Hypothesis HPOD : ∀ k v, P (AnyPOD k v).
Hypothesis HStr : ∀ p s, P (AnyStr p s).
Hypothesis HBytes : ∀ p s, P (AnyBytes p s).
Hypothesis HShape : ∀ p d, P (AnyShape p d).
Hypothesis HNDArray : ∀ p t, P (AnyNDArray p t).
Hypothesis HArray : ∀ p l, Forall P l → P (AnyArray p l).
Hypothesis HMap : ∀ p kvs, Forall (λ kv : Any * Any, P kv.1 ∧ P kv.2) kvs → P (AnyMap p kvs).
Hypothesis HObject : ∀ n p fs, Forall P fs → P (AnyObject n p fs).

Fixpoint Any_nested_ind (a : Any) : P a :=
match a with
| AnyPOD k v => HPOD k v
| AnyStr p s => HStr p s
| AnyBytes p s => HBytes p s
| AnyShape p d => HShape p d
| AnyNDArray p t => HNDArray p t
| AnyArray p l =>
  HArray p l ((fix go (l : list Any) : Forall P l :=
                 match l with
                 | [] => @List.Forall_nil _ P
                 | x :: l' => @List.Forall_cons _ P x l' (Any_nested_ind x) (go l')
                 end) l)
| AnyMap p kvs =>
  HMap p kvs ((fix go (l : list (Any * Any)) : Forall (λ kv, P kv.1 ∧ P kv.2) l :=
                 match l with
                 | [] => @List.Forall_nil _ (λ kv, P kv.1 ∧ P kv.2)
                 | kv :: l' =>
                     @List.Forall_cons _ (λ kv, P kv.1 ∧ P kv.2) kv l'
                       (conj (Any_nested_ind kv.1) (Any_nested_ind kv.2)) (go l')
                 end) kvs)
| AnyObject n p fs =>
  HObject n p fs ((fix go (l : list Any) : Forall P l :=
                     match l with
                     | [] => @List.Forall_nil _ P
                     | x :: l' => @List.Forall_cons _ P x l' (Any_nested_ind x) (go l')
                     end) fs)
end.
End Any_induction.

(** ** Path tracing does not change the outcome *)

Lemma core_record_mismatch sl sr h : handler_core (record_mismatch sl sr h) = handler_core h.
Proof. done. Qed.

Lemma core_set_map_free_vars b h1 h2 :
  handler_core h1 = handler_core h2 →
  handler_core (set_map_free_vars b h1) = handler_core (set_map_free_vars b h2).
Proof. unfold handler_core. cbn. congruence. Qed.

Lemma core_record_equality lhs rhs h1 h2 :
  handler_core h1 = handler_core h2 →
  handler_core (record_equality lhs rhs h1) = handler_core (record_equality lhs rhs h2).
Proof. unfold handler_core. cbn. congruence. Qed.

Lemma core_fields h1 h2 :
  handler_core h1 = handler_core h2 →
  map_free_vars_ h1 = map_free_vars_ h2
  ∧ skip_ndarray_content_ h1 = skip_ndarray_content_ h2
  ∧ equal_map_lhs_ h1 = equal_map_lhs_ h2
  ∧ equal_map_rhs_ h1 = equal_map_rhs_ h2.
Proof. unfold handler_core. intros [=]. auto. Qed.

Lemma map_find_elem kvs key kv : map_find kvs key = Some kv → kv ∈ kvs.
Proof.
  induction kvs as [| x kvs IH]; cbn; [done |].
  destruct (AnyEqual (ref_of x.1) key); [intros [= ->]; by left | intros; right; auto].
Qed.

Section Tracing.
Context `{TypeRegistry}.

(** The precondition of a comparison: tensor contents are skipped, or every
tensor is CPU-resident and contiguous. *)
Definition comparable (skip : bool) (a : Any) : bool := skip || NDArrays_comparable a.

Lemma comparable_forallb skip l :
skip || forallb NDArrays_comparable l = true → forallb (comparable skip) l = true.
Proof.
intros Hl. apply forallb_forall. intros x Hx. unfold comparable.
destruct skip; [done |]. cbn in *. rewrite forallb_forall in Hl. auto.
Qed.

Lemma comparable_forallb_pairs skip kvs :
skip || forallb (λ kv : Any * Any, NDArrays_comparable kv.1 && NDArrays_comparable kv.2) kvs
= true →
forallb (λ kv : Any * Any, comparable skip kv.2) kvs = true.
Proof.
intros Hl. apply forallb_forall. intros x Hx. unfold comparable.
destruct skip; [done |]. cbn in *. rewrite forallb_forall in Hl.
apply Hl in Hx. by apply andb_prop in Hx as [_ ?].
Qed.

(** Two runs from handlers with the same core give the same boolean, and the
same core again when that boolean is true; the flag
[skip_ndarray_content_] is left as it was. *)
Definition agree (lhs : Any) : Prop :=
∀ rhs h1 h2 skip,
handler_core h1 = handler_core h2 →
skip_ndarray_content_ h1 = skip →
comparable skip lhs = true → comparable skip rhs = true →
∃ b h1' h2',
  CompareAny lhs rhs h1 = Ok (b, h1')
  ∧ CompareAny lhs rhs h2 = Ok (b, h2')
  ∧ skip_ndarray_content_ h1' = skip
  ∧ (b = true → handler_core h1' = handler_core h2').

Ltac finish b := eexists b, _, _; by repeat split.

Lemma CompareArray_loop_agree lhs : Forall agree lhs →
∀ rhs i lsize rsize h1 h2 skip,
handler_core h1 = handler_core h2 →
skip_ndarray_content_ h1 = skip →
forallb (comparable skip) lhs = true → forallb (comparable skip) rhs = true →
∃ b h1' h2',
  CompareArray_loop CompareAny i lhs rhs lsize rsize h1 = Ok (b, h1')
  ∧ CompareArray_loop CompareAny i lhs rhs lsize rsize h2 = Ok (b, h2')
  ∧ skip_ndarray_content_ h1' = skip
  ∧ (b = true → handler_core h1' = handler_core h2' ∧ lsize = rsize).
Proof.
induction 1 as [| l lhs Hl _ IH]; intros rhs i lsize rsize h1 h2 skip Hc Hs Hokl Hokr.
- cbn. destruct (lsize =? rsize) eqn:E.
+ apply Z.eqb_eq in E. finish true.
+ destruct (lsize >? rsize); finish false.
- destruct rhs as [| r rhs].
+ cbn. destruct (lsize =? rsize) eqn:E.
  * apply Z.eqb_eq in E. finish true.
  * destruct (lsize >? rsize); finish false.
+ cbn in Hokl, Hokr. apply andb_prop in Hokl as [Hl1 Hl2].
  apply andb_prop in Hokr as [Hr1 Hr2].
  destruct (Hl r h1 h2 skip Hc Hs Hl1 Hr1) as (b & h1' & h2' & E1 & E2 & Hs' & Hb).
  cbn. rewrite E1, E2. cbn. destruct b; cbn.
  * apply IH; auto.
  * finish false.
Qed.

Lemma CompareArray_agree lhs : Forall agree lhs →
∀ rhs h1 h2 skip,
handler_core h1 = handler_core h2 →
skip_ndarray_content_ h1 = skip →
forallb (comparable skip) lhs = true → forallb (comparable skip) rhs = true →
∃ b h1' h2',
  CompareArray_body CompareAny lhs rhs h1 = Ok (b, h1')
  ∧ CompareArray_body CompareAny lhs rhs h2 = Ok (b, h2')
  ∧ skip_ndarray_content_ h1' = skip
  ∧ (b = true → handler_core h1' = handler_core h2').
Proof.
intros Hall rhs h1 h2 skip Hc Hs Hokl Hokr. unfold CompareArray_body.
set (lsize := Z.of_nat (length lhs)). set (rsize := Z.of_nat (length rhs)).
assert (Hs2 : skip_ndarray_content_ h2 = skip)
by (destruct (core_fields _ _ Hc) as (_ & <- & _); done).
destruct (CompareArray_loop_agree lhs Hall rhs 0 lsize rsize h1 h2 skip Hc Hs Hokl Hokr)
as (b & h1' & h2' & E1 & E2 & Hs' & Hb).
destruct (CompareArray_loop_agree lhs Hall rhs 0 lsize rsize h1 h1 skip eq_refl Hs Hokl Hokr)
as (b1 & k1 & k1' & F1 & F1' & Hs1 & Hb1).
destruct (CompareArray_loop_agree lhs Hall rhs 0 lsize rsize h2 h2 skip eq_refl Hs2 Hokl Hokr)
as (b2 & k2 & k2' & F2 & F2' & Hs2' & Hb2).
destruct (lsize =? rsize) eqn:E; cbn.
- exists b, h1', h2'. split; [done |]. split; [done |]. split; [done |].
intros Hbt. by apply Hb.
- apply Z.eqb_neq in E.
assert (b1 = false) as -> by (destruct b1; [by destruct Hb1 | done]).
assert (b2 = false) as -> by (destruct b2; [by destruct Hb2 | done]).
destruct (tracing h1), (tracing h2); cbn; rewrite ?F1, ?F2; finish false.
Qed.

Lemma CompareMap_lhs_loop_agree lhs :
Forall (λ kv : Any * Any, agree kv.1 ∧ agree kv.2) lhs →
∀ rhs h1 h2 skip,
handler_core h1 = handler_core h2 →
skip_ndarray_content_ h1 = skip →
forallb (λ kv : Any * Any, comparable skip kv.2) lhs = true →
forallb (λ kv : Any * Any, comparable skip kv.2) rhs = true →
∃ b h1' h2',
  CompareMap_lhs_loop CompareAny lhs rhs h1 = Ok (b, h1')
  ∧ CompareMap_lhs_loop CompareAny lhs rhs h2 = Ok (b, h2')
  ∧ skip_ndarray_content_ h1' = skip
  ∧ (b = true → handler_core h1' = handler_core h2').
Proof.
induction 1 as [| kv lhs [_ Hv] _ IH]; intros rhs h1 h2 skip Hc Hs Hokl Hokr.
- cbn. finish true.
- cbn in Hokl. apply andb_prop in Hokl as [Hl1 Hl2].
cbn. unfold MapLhsToRhs.
destruct (core_fields _ _ Hc) as (_ & _ & <- & _).
set (key := if below_StaticObjectBegin (type_index kv.1) then ref_of kv.1
            else match equal_map_lhs_ h1 !! v_int64 kv.1 with
                 | Some r => r
                 | None => ref_of kv.1
                 end).
destruct (map_find rhs key) as [it |] eqn:Hfind.
+ assert (Hit : comparable skip it.2 = true).
  { apply map_find_elem in Hfind. rewrite forallb_forall in Hokr.
    by apply list_elem_of_In, Hokr in Hfind. }
  destruct (Hv it.2 h1 h2 skip Hc Hs Hl1 Hit) as (b & h1' & h2' & E1 & E2 & Hs' & Hb).
  rewrite E1, E2. cbn. destruct b; cbn.
  * apply IH; auto.
  * finish false.
+ finish false.
Qed.

Lemma CompareMap_rhs_loop_skip lhs rhs h :
skip_ndarray_content_ (CompareMap_rhs_loop lhs rhs h) = skip_ndarray_content_ h.
Proof.
induction rhs as [| kv rhs IH]; cbn; [done |].
by destruct (map_find lhs (MapRhsToLhs h kv.1)).
Qed.

Lemma CompareMap_agree lhs :
Forall (λ kv : Any * Any, agree kv.1 ∧ agree kv.2) lhs →
∀ rhs h1 h2 skip,
handler_core h1 = handler_core h2 →
skip_ndarray_content_ h1 = skip →
forallb (λ kv : Any * Any, comparable skip kv.2) lhs = true →
forallb (λ kv : Any * Any, comparable skip kv.2) rhs = true →
∃ b h1' h2',
  CompareMap_body CompareAny lhs rhs h1 = Ok (b, h1')
  ∧ CompareMap_body CompareAny lhs rhs h2 = Ok (b, h2')
  ∧ skip_ndarray_content_ h1' = skip
  ∧ (b = true → handler_core h1' = handler_core h2').
Proof.
intros Hall rhs h1 h2 skip Hc Hs Hokl Hokr. unfold CompareMap_body.
set (lsize := Z.of_nat (length lhs)). set (rsize := Z.of_nat (length rhs)).
destruct (CompareMap_lhs_loop_agree lhs Hall rhs h1 h2 skip Hc Hs Hokl Hokr)
as (b & h1' & h2' & E1 & E2 & Hs' & Hb).
destruct (lsize =? rsize) eqn:E; cbn.
- rewrite E1, E2. cbn. destruct b; cbn; eexists _, _, _; by repeat split.
- destruct (tracing h1), (tracing h2); cbn; rewrite ?E1, ?E2; cbn;
  destruct b; cbn; eexists false, _, _;
  (split; [done |]); (split; [done |]); (split; [| done]);
  by rewrite ?CompareMap_rhs_loop_skip.
Qed.

Lemma CompareObject_fields_agree lhs : Forall agree lhs →
∀ infos rhs h1 h2 skip,
handler_core h1 = handler_core h2 →
skip_ndarray_content_ h1 = skip →
forallb (comparable skip) lhs = true → forallb (comparable skip) rhs = true →
∃ b h1' h2',
  CompareObject_fields CompareAny infos lhs rhs h1 = Ok (b, h1')
  ∧ CompareObject_fields CompareAny infos lhs rhs h2 = Ok (b, h2')
  ∧ skip_ndarray_content_ h1' = skip
  ∧ (b = true → handler_core h1' = handler_core h2').
Proof.
induction 1 as [| l lhs Hl _ IH]; intros infos rhs h1 h2 skip Hc Hs Hokl Hokr.
- destruct infos; cbn; finish true.
- destruct infos as [| field_info infos]; [cbn; finish true |].
cbn in Hokl. apply andb_prop in Hokl as [Hl1 Hl2].
assert (Hr1 : comparable skip (hd AnyNone rhs) = true).
{ destruct rhs; [by destruct skip |]. cbn in Hokr. by apply andb_prop in Hokr as [? _]. }
assert (Hr2 : forallb (comparable skip) (tl rhs) = true).
{ destruct rhs; [done |]. cbn in Hokr. by apply andb_prop in Hokr as [_ ?]. }
cbn. destruct (flag_set (flags field_info) kTVMFFIFieldFlagBitMaskSEqHashIgnore).
{ apply IH; auto. }
destruct (flag_set (flags field_info) kTVMFFIFieldFlagBitMaskSEqHashDef).
+ destruct (Hl (hd AnyNone rhs) _ _ skip (core_set_map_free_vars true _ _ Hc) Hs Hl1 Hr1)
    as (b & h1' & h2' & E1 & E2 & Hs' & Hb).
  rewrite E1, E2. cbn. destruct (core_fields _ _ Hc) as (<- & _).
  destruct b; cbn.
  * apply IH; auto. by apply core_set_map_free_vars, Hb.
  * finish false.
+ destruct (Hl (hd AnyNone rhs) _ _ skip Hc Hs Hl1 Hr1)
    as (b & h1' & h2' & E1 & E2 & Hs' & Hb).
  rewrite E1, E2. cbn. destruct b; cbn.
  * apply IH; auto.
  * finish false.
Qed.

Lemma CompareObject_agree lhs_fields : Forall agree lhs_fields →
∀ lhs rhs rhs_fields h1 h2 skip,
handler_core h1 = handler_core h2 →
skip_ndarray_content_ h1 = skip →
forallb (comparable skip) lhs_fields = true →
forallb (comparable skip) rhs_fields = true →
∃ b h1' h2',
  CompareObject_body CompareAny lhs rhs lhs_fields rhs_fields h1 = Ok (b, h1')
  ∧ CompareObject_body CompareAny lhs rhs lhs_fields rhs_fields h2 = Ok (b, h2')
  ∧ skip_ndarray_content_ h1' = skip
  ∧ (b = true → handler_core h1' = handler_core h2').
Proof.
intros Hall lhs rhs rhs_fields h1 h2 skip Hc Hs Hokl Hokr. unfold CompareObject_body.
destruct (core_fields _ _ Hc) as (Hm & _ & Hl & Hr).
destruct (extra_info (TVMFFIGetTypeInfo (type_index lhs))) as [extra |];
[| eexists _, _, _; by repeat split].
set (kind := structural_eq_hash_kind extra).
destruct (bool_decide (kind = kTVMFFISEqHashKindUnsupported)
        || bool_decide (kind = kTVMFFISEqHashKindUniqueInstance));
[eexists _, _, _; by repeat split |].
destruct (bool_decide (kind = kTVMFFISEqHashKindConstTreeNode) && same_as lhs rhs);
[eexists _, _, _; by repeat split |].
rewrite <- Hl, <- Hr, <- Hm.
set (dag_or_var := bool_decide (kind = kTVMFFISEqHashKindDAGNode)
                 || bool_decide (kind = kTVMFFISEqHashKindFreeVar)).
destruct (if dag_or_var then equal_map_lhs_ h1 !! v_int64 lhs else None);
[eexists _, _, _; by repeat split |].
destruct (dag_or_var && bool_decide (is_Some (equal_map_rhs_ h1 !! v_int64 rhs)));
[eexists _, _, _; by repeat split |].
destruct (bool_decide (kind = kTVMFFISEqHashKindFreeVar)).
- cbn. destruct (negb (negb (same_as lhs rhs) && negb (map_free_vars_ h1))); cbn;
  [| finish false].
eexists true, _, _. split; [done |]. split; [done |].
split; [by destruct dag_or_var |]. intros _.
destruct dag_or_var; [by apply core_record_equality | done].
- destruct (CompareObject_fields_agree lhs_fields Hall
            (fields (TVMFFIGetTypeInfo (type_index lhs))) rhs_fields h1 h2 skip
            Hc Hs Hokl Hokr)
  as (b & h1' & h2' & E1 & E2 & Hs' & Hb).
rewrite E1, E2. cbn. destruct b; cbn; [| finish false].
eexists true, _, _. split; [done |]. split; [done |].
split; [by destruct dag_or_var |]. intros _.
destruct dag_or_var; [by apply core_record_equality, Hb | by apply Hb].
Qed.

Lemma CompareAny_agree lhs : agree lhs.
Proof.
induction lhs as [k v | p s | p s | p d | p t | p l IH | p kvs IH | n p fs IH]
using Any_nested_ind; intros rhs h1 h2 skip Hc Hs Hokl Hokr.
all: destruct rhs as [k' v' | p' s' | p' s' | p' d' | p' t' | p' l' | p' kvs' | n' p' fs'];
cbn [CompareAny];
try (destruct (negb (bool_decide _)); by eexists _, _, _).
- destruct (negb (bool_decide _)); [by eexists _, _, _ |].
unfold CompareNDArray. destruct (core_fields _ _ Hc) as (_ & <- & _).
rewrite Hs. unfold comparable in Hokl, Hokr. cbn in Hokl, Hokr.
destruct skip; cbn in Hokl, Hokr.
+ repeat (match goal with |- context [if ?c then _ else _] => destruct c end;
          cbn; try by eexists _, _, _).
+ apply andb_prop in Hokl as [->%Z.eqb_eq ->].
  apply andb_prop in Hokr as [->%Z.eqb_eq ->]. cbn.
  repeat (match goal with |- context [if ?c then _ else _] => destruct c end;
          cbn; try by eexists _, _, _).
- destruct (negb (bool_decide _)); [by eexists _, _, _ |].
apply CompareArray_agree; auto; by apply comparable_forallb.
- destruct (negb (bool_decide _)); [by eexists _, _, _ |].
apply CompareMap_agree; auto; by apply comparable_forallb_pairs.
- destruct (negb (bool_decide _)); [by eexists _, _, _ |].
apply CompareObject_agree; auto; by apply comparable_forallb.
Qed.

(** C10.  For every pair of values and every setting of [map_free_vars] and
[skip_ndarray_content] such that tensor contents are skipped or all tensors
are CPU-resident and contiguous, both entry points return, and
[GetFirstMismatch] returns no path pair exactly when [Equal] returns true. *)
Theorem C10_first_mismatch_none_iff_equal (lhs rhs : Any)
(map_free_vars skip_ndarray_content : bool) :
skip_ndarray_content = true
∨ (NDArrays_comparable lhs = true ∧ NDArrays_comparable rhs = true) →
(∃ b, Equal lhs rhs map_free_vars skip_ndarray_content = Ok b)
∧ (∃ r, GetFirstMismatch lhs rhs map_free_vars skip_ndarray_content = Ok r)
∧ (GetFirstMismatch lhs rhs map_free_vars skip_ndarray_content = Ok None
 ↔ Equal lhs rhs map_free_vars skip_ndarray_content = Ok true).
Proof.
intros Hpre.
assert (Hl : comparable skip_ndarray_content lhs = true
           ∧ comparable skip_ndarray_content rhs = true).
{ unfold comparable. destruct Hpre as [-> | [-> ->]]; [done |].
by rewrite !orb_true_r. }
destruct Hl as [Hl Hr].
destruct (CompareAny_agree lhs rhs
          (new_handler map_free_vars skip_ndarray_content None)
          (new_handler map_free_vars skip_ndarray_content (Some ([], [])))
          skip_ndarray_content eq_refl eq_refl Hl Hr)
as (b & h1' & h2' & E1 & E2 & _ & _).
unfold Equal, GetFirstMismatch. rewrite E1, E2. cbn.
split; [eauto |]. split.
- destruct b; [eauto |]. destruct (mismatch_reverse_path_ h2') as [[? ?] |]; eauto.
- destruct b; [done |].
destruct (mismatch_reverse_path_ h2') as [[? ?] |]; split; intros [=].
Qed.
End Tracing.

(** ** Fields marked [SEqHashIgnore] *)

Section Ignored.
Context `{TypeRegistry}.

(** Two values that differ at most in the values of fields whose [FieldInfo]
carries [SEqHashIgnore], at any depth. *)
Inductive ignore_equiv : Any → Any → Prop :=
| ie_POD k v : ignore_equiv (AnyPOD k v) (AnyPOD k v)
| ie_Str p s : ignore_equiv (AnyStr p s) (AnyStr p s)
| ie_Bytes p s : ignore_equiv (AnyBytes p s) (AnyBytes p s)
| ie_Shape p d : ignore_equiv (AnyShape p d) (AnyShape p d)
| ie_NDArray p t : ignore_equiv (AnyNDArray p t) (AnyNDArray p t)
| ie_Array p l l' :
Forall2 ignore_equiv l l' → ignore_equiv (AnyArray p l) (AnyArray p l')
| ie_Map p kvs kvs' :
Forall2 (λ kv kv' : Any * Any, ignore_equiv kv.1 kv'.1 ∧ ignore_equiv kv.2 kv'.2) kvs kvs' →
ignore_equiv (AnyMap p kvs) (AnyMap p kvs')
| ie_Object n p fs fs' :
fields_ignore_equiv (fields (TVMFFIGetTypeInfo (kTVMFFIDynObject n))) fs fs' →
ignore_equiv (AnyObject n p fs) (AnyObject n p fs')
with fields_ignore_equiv : list TVMFFIFieldInfo → list Any → list Any → Prop :=
| fie_nil infos : fields_ignore_equiv infos [] []
| fie_ignored field_info infos x x' fs fs' :
flag_set (flags field_info) kTVMFFIFieldFlagBitMaskSEqHashIgnore = true →
fields_ignore_equiv infos fs fs' →
fields_ignore_equiv (field_info :: infos) (x :: fs) (x' :: fs')
| fie_cons infos x x' fs fs' :
ignore_equiv x x' →
fields_ignore_equiv (tl infos) fs fs' →
fields_ignore_equiv infos (x :: fs) (x' :: fs').

Lemma fields_ignore_equiv_refl l :
Forall (λ a, ignore_equiv a a) l → ∀ infos, fields_ignore_equiv infos l l.
Proof. induction 1; intros infos; [constructor | by apply fie_cons]. Qed.

Lemma ignore_equiv_refl a : ignore_equiv a a.
Proof.
induction a as [k v | p s | p s | p d | p t | p l IH | p kvs IH | n p fs IH]
using Any_nested_ind; try by constructor.
- constructor. induction IH; by constructor.
- constructor. induction IH; by constructor.
- constructor. by apply fields_ignore_equiv_refl.
Qed.

(** Assigning to an ignored field gives a value of the same class. *)
Lemma ignore_equiv_update n p fs (i : nat) field_info v :
fields (TVMFFIGetTypeInfo (kTVMFFIDynObject n)) !! i = Some field_info →
flag_set (flags field_info) kTVMFFIFieldFlagBitMaskSEqHashIgnore = true →
ignore_equiv (AnyObject n p fs) (AnyObject n p (<[i := v]> fs)).
Proof.
intros Hi Hflag. constructor.
revert i fs Hi. induction (fields (TVMFFIGetTypeInfo (kTVMFFIDynObject n))) as [| fi infos IH];
intros i fs Hi; [done |].
destruct fs as [| x fs]; [constructor |]. destruct i as [| i]; cbn in *.
- injection Hi as ->. apply fie_ignored; [done |].
apply fields_ignore_equiv_refl, Forall_forall. intros; apply ignore_equiv_refl.
- apply fie_cons; [apply ignore_equiv_refl | by apply IH].
Qed.

Lemma ignore_equiv_ref_of a a' : ignore_equiv a a' → ref_of a = ref_of a'.
Proof. by destruct 1. Qed.

Lemma ignore_equiv_type_index a a' : ignore_equiv a a' → type_index a = type_index a'.
Proof. by destruct 1. Qed.

Lemma ignore_equiv_v_int64 a a' : ignore_equiv a a' → v_int64 a = v_int64 a'.
Proof. by destruct 1. Qed.

Definition entries_equiv (kvs kvs' : list (Any * Any)) : Prop :=
Forall2 (λ kv kv' : Any * Any, ignore_equiv kv.1 kv'.1 ∧ ignore_equiv kv.2 kv'.2) kvs kvs'.

Lemma map_find_equiv kvs kvs' key :
entries_equiv kvs kvs' →
match map_find kvs key, map_find kvs' key with
| Some it, Some it' => ignore_equiv it.2 it'.2
| None, None => True
| _, _ => False
end.
Proof.
induction 1 as [| kv kv' kvs kvs' [Hk Hv] _ IH]; cbn; [done |].
rewrite <- (ignore_equiv_ref_of _ _ Hk). by destruct (AnyEqual (ref_of kv.1) key).
Qed.

Lemma MapLhsToRhs_equiv h a a' : ignore_equiv a a' → MapLhsToRhs h a = MapLhsToRhs h a'.
Proof.
intros Ha. unfold MapLhsToRhs.
by rewrite (ignore_equiv_type_index _ _ Ha), (ignore_equiv_v_int64 _ _ Ha),
(ignore_equiv_ref_of _ _ Ha).
Qed.

Lemma MapRhsToLhs_equiv h a a' : ignore_equiv a a' → MapRhsToLhs h a = MapRhsToLhs h a'.
Proof.
intros Ha. unfold MapRhsToLhs.
by rewrite (ignore_equiv_type_index _ _ Ha), (ignore_equiv_v_int64 _ _ Ha),
(ignore_equiv_ref_of _ _ Ha).
Qed.

(** The comparison cannot tell related values apart. *)
Definition respects (lhs : Any) : Prop :=
∀ lhs' rhs rhs' h,
ignore_equiv lhs lhs' → ignore_equiv rhs rhs' →
CompareAny lhs rhs h = CompareAny lhs' rhs' h.

Lemma CompareArray_loop_respects lhs : Forall respects lhs →
∀ lhs' rhs rhs' i lsize rsize h,
Forall2 ignore_equiv lhs lhs' → Forall2 ignore_equiv rhs rhs' →
CompareArray_loop CompareAny i lhs rhs lsize rsize h
= CompareArray_loop CompareAny i lhs' rhs' lsize rsize h.
Proof.
induction 1 as [| l lhs Hl _ IH]; intros lhs' rhs rhs' i lsize rsize h Hll Hrr.
- inversion Hll; subst. by destruct Hrr.
- inversion Hll as [| ? l' ? lhs'' Hl' Hll']; subst.
destruct Hrr as [| r r' rhs rhs' Hr Hrr]; [done |].
cbn. rewrite (Hl l' r r' h Hl' Hr).
destruct (CompareAny l' r' h) as [[[] h1] | |]; cbn; auto.
Qed.

Lemma CompareMap_lhs_loop_respects lhs :
Forall (λ kv : Any * Any, respects kv.1 ∧ respects kv.2) lhs →
∀ lhs' rhs rhs' h,
entries_equiv lhs lhs' → entries_equiv rhs rhs' →
CompareMap_lhs_loop CompareAny lhs rhs h = CompareMap_lhs_loop CompareAny lhs' rhs' h.
Proof.
induction 1 as [| kv lhs [_ Hv] _ IH]; intros lhs' rhs rhs' h Hll Hrr.
- by inversion Hll.
- inversion Hll as [| ? kv' ? lhs'' [Hk' Hv'] Hll']; subst.
cbn. rewrite <- (MapLhsToRhs_equiv h _ _ Hk'), <- (ignore_equiv_ref_of _ _ Hk').
pose proof (map_find_equiv rhs rhs' (MapLhsToRhs h kv.1) Hrr) as Hfind.
destruct (map_find rhs (MapLhsToRhs h kv.1)) as [it |],
         (map_find rhs' (MapLhsToRhs h kv.1)) as [it' |]; try done.
rewrite (Hv kv'.2 it.2 it'.2 h Hv' Hfind).
destruct (CompareAny kv'.2 it'.2 h) as [[[] h1] | |]; cbn; auto.
Qed.

Lemma CompareMap_rhs_loop_respects lhs lhs' rhs rhs' h :
entries_equiv lhs lhs' → entries_equiv rhs rhs' →
CompareMap_rhs_loop lhs rhs h = CompareMap_rhs_loop lhs' rhs' h.
Proof.
intros Hll Hrr. induction Hrr as [| kv kv' rhs rhs' [Hk _] _ IH]; cbn; [done |].
rewrite <- (MapRhsToLhs_equiv h _ _ Hk), <- (ignore_equiv_ref_of _ _ Hk).
pose proof (map_find_equiv lhs lhs' (MapRhsToLhs h kv.1) Hll) as Hfind.
by destruct (map_find lhs (MapRhsToLhs h kv.1)), (map_find lhs' (MapRhsToLhs h kv.1)).
Qed.

Lemma fields_ignore_equiv_hd infos x x' fs fs' :
fields_ignore_equiv infos (x :: fs) (x' :: fs') →
(∃ field_info, head infos = Some field_info
             ∧ flag_set (flags field_info) kTVMFFIFieldFlagBitMaskSEqHashIgnore = true)
∨ ignore_equiv x x'.
Proof. inversion 1; subst; [left; eauto | by right]. Qed.

Lemma fields_ignore_equiv_tl infos fs fs' :
fields_ignore_equiv infos fs fs' → fields_ignore_equiv (tl infos) (tl fs) (tl fs').
Proof. inversion 1; subst; cbn; try done. constructor. Qed.

Lemma CompareObject_fields_respects lhs : Forall respects lhs →
∀ infos lhs' rhs rhs' h,
fields_ignore_equiv infos lhs lhs' → fields_ignore_equiv infos rhs rhs' →
CompareObject_fields CompareAny infos lhs rhs h
= CompareObject_fields CompareAny infos lhs' rhs' h.
Proof.
induction 1 as [| l lhs Hl _ IH]; intros infos lhs' rhs rhs' h Hll Hrr.
- inversion Hll; subst. by destruct infos.
- destruct lhs' as [| l' lhs']; [inversion Hll |].
destruct infos as [| field_info infos]; [done |].
pose proof (fields_ignore_equiv_tl _ _ _ Hll) as Hll'.
pose proof (fields_ignore_equiv_tl _ _ _ Hrr) as Hrr'. cbn in Hll', Hrr'.
cbn.
destruct (flag_set (flags field_info) kTVMFFIFieldFlagBitMaskSEqHashIgnore) eqn:Hflag;
  [by apply IH |].
assert (Hl' : ignore_equiv l l').
{ destruct (fields_ignore_equiv_hd _ _ _ _ _ Hll) as [(fi & [= <-] & Hf) | ?];
    [congruence | done]. }
assert (Hr' : ignore_equiv (hd AnyNone rhs) (hd AnyNone rhs')).
{ inversion Hrr; subst; cbn; [constructor | congruence | done]. }
destruct (flag_set (flags field_info) kTVMFFIFieldFlagBitMaskSEqHashDef).
+ rewrite (Hl l' _ _ (set_map_free_vars true h) Hl' Hr').
  destruct (CompareAny l' (hd AnyNone rhs') (set_map_free_vars true h))
    as [[[] h1] | |]; cbn; auto.
+ rewrite (Hl l' _ _ h Hl' Hr').
  destruct (CompareAny l' (hd AnyNone rhs') h) as [[[] h1] | |]; cbn; auto.
Qed.

Lemma CompareAny_respects lhs : respects lhs.
Proof.
induction lhs as [k v | p s | p s | p d | p t | p l IH | p kvs IH | n p fs IH]
using Any_nested_ind; intros lhs' rhs rhs' h Hl Hr;
inversion Hl as [| | | | | ? ? l' Hll | ? ? kvs' Hll | ? ? ? fs' Hll]; subst;
try (by destruct Hr).
- destruct Hr as [| | | | | q r r' Hrr | |]; try done. cbn [CompareAny type_index].
destruct (negb (bool_decide _)); [done |]. unfold CompareArray_body.
rewrite <- (Forall2_length _ _ _ Hll), <- (Forall2_length _ _ _ Hrr).
destruct (_ && _); [done |]. by apply CompareArray_loop_respects.
- destruct Hr as [| | | | | | q r r' Hrr |]; try done. cbn [CompareAny type_index].
destruct (negb (bool_decide _)); [done |]. unfold CompareMap_body.
rewrite <- (Forall2_length _ _ _ Hll), <- (Forall2_length _ _ _ Hrr).
destruct (_ && _); [done |].
rewrite (CompareMap_lhs_loop_respects kvs IH kvs' r r' h Hll Hrr).
destruct (CompareMap_lhs_loop CompareAny kvs' r' h) as [[[] h1] | |]; cbn; try done.
destruct (_ =? _); [done |]. by rewrite (CompareMap_rhs_loop_respects kvs kvs' r r').
- destruct Hr as [| | | | | | | m q r r' Hrr]; try done. cbn [CompareAny type_index].
destruct (bool_decide (kTVMFFIDynObject n = kTVMFFIDynObject m)) eqn:Hn; [| done].
apply bool_decide_eq_true in Hn. injection Hn as <-. cbn [negb].
unfold CompareObject_body. cbn [type_index v_int64 same_as].
rewrite (CompareObject_fields_respects fs IH _ fs' r r' h Hll Hrr).
unfold same_as, record_equality. cbn. done.
Qed.

(** C7.  Two comparisons whose arguments differ only in the values of fields
marked [SEqHashIgnore] return the same result: the same boolean for
[Equal], the same path pair for [GetFirstMismatch], the same error if any. *)
Theorem C7_ignored_fields_do_not_matter (lhs lhs' rhs rhs' : Any)
(map_free_vars skip_ndarray_content : bool) :
ignore_equiv lhs lhs' → ignore_equiv rhs rhs' →
Equal lhs rhs map_free_vars skip_ndarray_content
= Equal lhs' rhs' map_free_vars skip_ndarray_content
∧ GetFirstMismatch lhs rhs map_free_vars skip_ndarray_content
= GetFirstMismatch lhs' rhs' map_free_vars skip_ndarray_content.
Proof.
intros Hl Hr. unfold Equal, GetFirstMismatch.
by rewrite !(CompareAny_respects lhs lhs' rhs rhs' _ Hl Hr).
Qed.
End Ignored.

Lemma C10_witness :
  let lhs := AnyArray 1 [AnyInt 1; AnyInt 2] in
  let rhs := AnyArray 2 [AnyInt 1; AnyInt 2; AnyInt 3] in
  (∃ b, Equal lhs rhs false false = Ok b)
  ∧ (∃ r, GetFirstMismatch lhs rhs false false = Ok r)
  ∧ (GetFirstMismatch lhs rhs false false = Ok None ↔ Equal lhs rhs false false = Ok true).
Proof.
  apply (C10_first_mismatch_none_iff_equal
           (AnyArray 1 [AnyInt 1; AnyInt 2]) (AnyArray 2 [AnyInt 1; AnyInt 2; AnyInt 3])
           false false).
  right. split; reflexivity.
Defined.

Lemma C7_witness :
  let lhs := AnyObject Example.kIntImm 1 [AnyInt 3; AnyNone] in
  let lhs' := AnyObject Example.kIntImm 1 [AnyInt 3; AnyStr 9 "main.py:12"] in
  let rhs := AnyObject Example.kIntImm 2 [AnyInt 3; AnyNone] in
  Equal lhs rhs false false = Equal lhs' rhs false false
  ∧ GetFirstMismatch lhs rhs false false = GetFirstMismatch lhs' rhs false false.
Proof.
  apply (C7_ignored_fields_do_not_matter
           (AnyObject Example.kIntImm 1 [AnyInt 3; AnyNone])
           (AnyObject Example.kIntImm 1 [AnyInt 3; AnyStr 9 "main.py:12"])
           (AnyObject Example.kIntImm 2 [AnyInt 3; AnyNone])
           (AnyObject Example.kIntImm 2 [AnyInt 3; AnyNone]) false false).
  - apply (ignore_equiv_update Example.kIntImm 1 [AnyInt 3; AnyNone] 1
             (Example.field "span" 8 kTVMFFIAny) (AnyStr 9 "main.py:12")); reflexivity.
  - apply ignore_equiv_refl.
Defined.

(** ** [NodeIndexer]: every traversed value gets one id *)

(** The index that numbers the entries of a node list. *)
Definition index_of_list (offset : nat) (l : list Any) : list (AnyRef * Z) :=
  imap (λ i a, (ref_of a, Z.of_nat (offset + i))) l.

Lemma index_of_list_app offset l1 l2 :
  index_of_list offset (l1 ++ l2)
  = index_of_list offset l1 ++ index_of_list (offset + length l1) l2.
Proof.
  unfold index_of_list. rewrite imap_app. f_equal. apply imap_ext.
  intros i a _. cbn. do 2 f_equal. lia.
Qed.

Lemma node_index_find_app index1 index2 key :
  node_index_find (index1 ++ index2) key
  = match node_index_find index1 key with
    | Some i => Some i
    | None => node_index_find index2 key
    end.
Proof.
  induction index1 as [| [k i] index1 IH]; cbn; [done |].
  by destruct (AnyEqual k key).
Qed.

Lemma node_index_find_Some offset l key z :
  node_index_find (index_of_list offset l) key = Some z →
  ∃ (i : nat) a, z = Z.of_nat (offset + i) ∧ l !! i = Some a
                 ∧ AnyEqual (ref_of a) key = true.
Proof.
  revert offset. induction l as [| a l IH]; intros offset; cbn; [done |].
  destruct (AnyEqual (ref_of a) key) eqn:E.
  - intros [= <-]. exists 0%nat, a. by rewrite Nat.add_0_r.
  - intros Hf. change (imap _ l) with (imap ((λ i a, (ref_of a, Z.of_nat (offset + i))) ∘ S) l) in Hf.
    rewrite (imap_ext _ (λ i a, (ref_of a, Z.of_nat (S offset + i)))) in Hf
      by (intros; cbn; do 2 f_equal; lia).
    destruct (IH (S offset) Hf) as (i & b & -> & Hi & Hb).
    exists (S i), b. split; [f_equal; lia | done].
Qed.

Lemma node_index_find_None offset l key :
  node_index_find (index_of_list offset l) key = None →
  ∀ a, a ∈ l → AnyEqual (ref_of a) key = false.
Proof.
  revert offset. induction l as [| a l IH]; intros offset; cbn; [by intros _ ? ?%elem_of_nil |].
  destruct (AnyEqual (ref_of a) key) eqn:E; [done |].
  intros Hf b [-> | Hb]%elem_of_cons; [done |].
  change (imap _ l) with (imap ((λ i a, (ref_of a, Z.of_nat (offset + i))) ∘ S) l) in Hf.
  rewrite (imap_ext _ (λ i a, (ref_of a, Z.of_nat (S offset + i)))) in Hf
    by (intros; cbn; do 2 f_equal; lia).
  by eapply IH.
Qed.

Lemma node_index_find_elem offset l key a :
  a ∈ l → AnyEqual (ref_of a) key = true →
  is_Some (node_index_find (index_of_list offset l) key).
Proof.
  intros Ha He. destruct (node_index_find _ key) eqn:Hf; [done |].
  by rewrite (node_index_find_None _ _ _ Hf a Ha) in He.
Qed.

Lemma AnyEqual_refl r : AnyEqual r r = true.
Proof. unfold AnyEqual. by rewrite !bool_decide_eq_true_2. Qed.

Lemma AnyEqual_sym r1 r2 : AnyEqual r1 r2 = AnyEqual r2 r1.
Proof.
  unfold AnyEqual. destruct r1 as [t1 v1 b1], r2 as [t2 v2 b2]; cbn.
  repeat case_bool_decide; subst; cbn; try congruence; try done.
  all: destruct t1, t2; try done; repeat case_bool_decide; congruence.
Qed.

(** The indexer's tables are in step, and no two entries are [AnyEqual]. *)
Record indexer_ok (ix : NodeIndexer) : Prop := {
  ok_index : node_index_ ix = index_of_list 0 (node_list_ ix);
  ok_distinct : ∀ (i j : nat) a b, (i < j)%nat →
    node_list_ ix !! i = Some a → node_list_ ix !! j = Some b →
    AnyEqual (ref_of a) (ref_of b) = false }.

(** [node_index_.count(a)] *)
Definition indexed (ix : NodeIndexer) (a : Any) : Prop :=
  is_Some (node_index_find (node_index_ ix) (ref_of a)).

Lemma indexer_ok_init : indexer_ok NodeIndexer_init.
Proof.
  split; [done |]. intros i j a b Hij Hi Hj. cbn in *.
  apply lookup_lt_Some in Hj. cbn in Hj. lia.
Qed.

Lemma indexed_mono ix new ix' a :
  indexer_ok ix → indexer_ok ix' → node_list_ ix' = node_list_ ix ++ new →
  indexed ix a → indexed ix' a.
Proof.
  intros Hok Hok' Hl. unfold indexed.
  rewrite (ok_index _ Hok'), Hl, index_of_list_app, node_index_find_app, <- (ok_index _ Hok).
  by intros [z ->].
Qed.

Lemma MakeNodeIndex_spec node ix :
  indexer_ok ix → is_null node = false → ¬ indexed ix node →
  ∃ ix', MakeNodeIndex node ix = Ok ix'
         ∧ indexer_ok ix' ∧ node_list_ ix' = node_list_ ix ++ [node] ∧ indexed ix' node.
Proof.
  intros Hok Hnull Hnot. unfold MakeNodeIndex. rewrite Hnull.
  unfold node_index_count. rewrite bool_decide_eq_false_2 by done.
  rewrite bool_decide_eq_true_2
    by (rewrite (ok_index _ Hok); unfold index_of_list; by rewrite length_imap).
  cbn [negb]. eexists; split; [reflexivity |]. cbn.
  assert (Hidx : node_index_ ix ++ [(ref_of node, Z.of_nat (length (node_list_ ix)))]
                 = index_of_list 0 (node_list_ ix ++ [node])).
  { rewrite index_of_list_app, <- (ok_index _ Hok). by cbn; rewrite Nat.add_0_r. }
  split; [split |]; cbn.
  - done.
  - intros i j a b Hij Hi Hj.
    destruct (decide (j < length (node_list_ ix))%nat) as [Hlt | Hge].
    + rewrite lookup_app_l in Hi by lia. rewrite lookup_app_l in Hj by lia.
      by apply (ok_distinct _ Hok i j a b).
    + apply lookup_lt_Some in Hj as Hj'. rewrite length_app in Hj'. cbn in Hj'.
      assert (j = length (node_list_ ix)) as -> by lia.
      rewrite list_lookup_middle in Hj by done. injection Hj as <-.
      rewrite lookup_app_l in Hi by lia.
      destruct (node_index_find (node_index_ ix) (ref_of node)) eqn:Hf;
        [destruct Hnot; by eexists |].
      rewrite (ok_index _ Hok) in Hf.
      eapply node_index_find_None; [done |]. by eapply list_elem_of_lookup_2.
  - split; [done |]. unfold indexed. cbn. rewrite node_index_find_app.
    destruct (node_index_find (node_index_ ix) (ref_of node)); [done |].
    cbn. by rewrite AnyEqual_refl.
Qed.

Section Indexer_correct.
Context `{TypeRegistry} `{ReflectionVTable}.

Lemma MakeIndex_values_elems f kvs ix :
MakeIndex_values f kvs ix = MakeIndex_elems f kvs.*2 ix.
Proof.
revert ix. induction kvs as [| kv kvs IH]; intros ix; cbn; [done |].
destruct (f kv.2 ix); cbn; auto.
Qed.

Lemma MakeIndex_entries_elems f kvs ix :
MakeIndex_entries f kvs ix
= MakeIndex_elems f (flat_map (λ kv : Any * Any, [kv.1; kv.2]) kvs) ix.
Proof.
revert ix. induction kvs as [| kv kvs IH]; intros ix; cbn; [done |].
destruct (f kv.1 ix) as [ix1 | |]; cbn; [| done | done].
destruct (f kv.2 ix1); cbn; auto.
Qed.

Lemma MakeIndex_fields_elems f infos values ix :
MakeIndex_fields f infos values ix
= MakeIndex_elems f (filter (λ v, is_object v = true) (take (length infos) values)) ix.
Proof.
revert infos ix. induction values as [| v values IH]; intros infos ix.
- destruct infos; cbn; by rewrite ?take_nil.
- destruct infos as [| fi infos]; [done |]. cbn [MakeIndex_fields length take].
  rewrite filter_cons. destruct (decide (is_object v = true)) as [-> | Hn].
  + cbn. destruct (f v ix); cbn; auto.
  + apply not_true_is_false in Hn. rewrite Hn. cbn. auto.
Qed.

(** The object has neither an opaque representation nor reflection metadata. *)
Definition reflection_missing (node : Any) : bool :=
match node with
| AnyPOD _ _ | AnyArray _ _ | AnyMap _ _ => false
| _ => bool_decide (GetReprBytes node = None)
       && bool_decide (extra_info (TVMFFIGetTypeInfo (type_index node)) = None)
end.

Lemma MakeIndex_unfold node ix :
is_null node = false →
node_index_count (node_index_ ix) node = false →
MakeIndex node ix
= bindR (MakeNodeIndex node ix)
    (λ ix1, if reflection_missing node then Fatal (missing_reflection (GetTypeKey node))
            else MakeIndex_elems MakeIndex (indexed_children node) ix1).
Proof.
intros Hnull Hcount.
destruct node as [k v | p s | p s | p d | p t | p l | p kvs | n p fs];
  cbn [MakeIndex]; rewrite Hnull, Hcount;
  destruct (MakeNodeIndex _ ix) as [ix1 | |]; cbn [bindR]; try done.
all: unfold reflection_missing, indexed_children.
1-4: destruct (GetReprBytes _); cbn; [done |];
     destruct (extra_info _); cbn; done.
- destruct (forallb _ kvs);
    [apply MakeIndex_values_elems | apply MakeIndex_entries_elems].
- destruct (GetReprBytes _); cbn; [done |].
  destruct (extra_info _); cbn; [apply MakeIndex_fields_elems | done].
Qed.

Definition settled (ix : NodeIndexer) (b : Any) : Prop :=
∀ c, c ∈ indexed_children b → is_null c = false → indexed ix c.

Definition traversed (node b : Any) : Prop := rtc (λ x y, y ∈ indexed_children x) node b.

Definition MakeIndex_post (node : Any) : Prop :=
∀ ix ix', indexer_ok ix → MakeIndex node ix = Ok ix' →
  indexer_ok ix'
  ∧ ∃ new, node_list_ ix' = node_list_ ix ++ new
           ∧ (is_null node = false → indexed ix' node)
           ∧ Forall (λ b, is_null b = false ∧ traversed node b ∧ settled ix' b) new.

Lemma settled_mono ix new ix' b :
indexer_ok ix → indexer_ok ix' → node_list_ ix' = node_list_ ix ++ new →
settled ix b → settled ix' b.
Proof. intros Hok Hok' Hl Hs c Hc Hn. apply (indexed_mono ix new ix' c Hok Hok' Hl). by apply Hs. Qed.

Lemma MakeIndex_elems_post xs : Forall MakeIndex_post xs →
∀ ix ix', indexer_ok ix → MakeIndex_elems MakeIndex xs ix = Ok ix' →
  indexer_ok ix'
  ∧ ∃ new, node_list_ ix' = node_list_ ix ++ new
           ∧ Forall (λ x, is_null x = false → indexed ix' x) xs
           ∧ Forall (λ b, is_null b = false
                          ∧ (∃ x, x ∈ xs ∧ traversed x b) ∧ settled ix' b) new.
Proof.
induction 1 as [| x xs Hx _ IH]; intros ix ix' Hok Hrun; cbn in Hrun.
- injection Hrun as <-. split; [done |]. exists []. rewrite app_nil_r. by repeat split.
- destruct (MakeIndex x ix) as [ix1 | |] eqn:Hx1; cbn in Hrun; try done.
  destruct (Hx ix ix1 Hok Hx1) as (Hok1 & new1 & Hl1 & Hfound1 & Hnew1).
  destruct (IH ix1 ix' Hok1 Hrun) as (Hok' & new2 & Hl2 & Hfound2 & Hnew2).
  split; [done |]. exists (new1 ++ new2).
  split; [by rewrite Hl2, Hl1, app_assoc |]. split.
  + constructor; [| done]. intros Hn.
    apply (indexed_mono ix1 new2 ix' x Hok1 Hok' Hl2). by apply Hfound1.
  + apply Forall_app. split.
    * eapply Forall_impl; [exact Hnew1 |]. intros b (Hb1 & Hb2 & Hb3).
      split; [done |]. split; [exists x; split; [by left | done] |].
      by apply (settled_mono ix1 new2 ix' b Hok1 Hok' Hl2).
    * eapply Forall_impl; [exact Hnew2 |]. intros b (Hb1 & (y & Hy & Hb2) & Hb3).
      split; [done |]. split; [exists y; split; [by right | done] | done].
Qed.

Lemma MakeIndex_post_children node :
Forall MakeIndex_post (indexed_children node) → MakeIndex_post node.
Proof.
intros Hch ix ix' Hok Hrun.
destruct (is_null node) eqn:Hnull.
{ destruct node; cbn in Hrun; rewrite ?Hnull in Hrun; try done;
    injection Hrun as <-; (split; [done |]); exists []; rewrite app_nil_r;
    by repeat split. }
destruct (node_index_count (node_index_ ix) node) eqn:Hcount.
{ assert (ix' = ix) as ->.
  { destruct node; cbn in Hrun; rewrite Hnull, Hcount in Hrun; congruence. }
  split; [done |]. exists []. rewrite app_nil_r. split; [done |]. split; [| done].
  intros _. by apply bool_decide_eq_true in Hcount. }
rewrite (MakeIndex_unfold node ix Hnull Hcount) in Hrun.
destruct (MakeNodeIndex_spec node ix Hok Hnull) as (ix1 & Hmk & Hok1 & Hl1 & Hin1).
{ by apply bool_decide_eq_false in Hcount. }
rewrite Hmk in Hrun. cbn in Hrun.
destruct (reflection_missing node); [done |].
destruct (MakeIndex_elems_post _ Hch ix1 ix' Hok1 Hrun) as (Hok' & new & Hl & Hfound & Hnew).
split; [done |]. exists (node :: new).
split; [by rewrite Hl, Hl1, <- app_assoc |].
split; [intros _; by apply (indexed_mono ix1 new ix' node Hok1 Hok' Hl) |].
constructor.
- split; [done |]. split; [apply rtc_refl |].
  intros c Hc Hn. rewrite Forall_forall in Hfound. by apply Hfound.
- eapply Forall_impl; [exact Hnew |]. intros b (Hb1 & (x & Hx & Hb2) & Hb3).
  split; [done |]. split; [| done]. by eapply rtc_l.
Qed.

Lemma MakeIndex_correct node : MakeIndex_post node.
Proof.
induction node as [k v | p s | p s | p d | p t | p l IH | p kvs IH | n p fs IH]
  using Any_nested_ind; apply MakeIndex_post_children; cbn [indexed_children].
1-5: by constructor.
- done.
- destruct (forallb _ kvs).
  + apply Forall_fmap. eapply Forall_impl; [exact IH |]. by intros kv [_ ?].
  + induction IH as [| kv kvs [Hk Hv] _ IH']; cbn; [constructor |].
    constructor; [done |]. by constructor.
- destruct (GetReprBytes _); [constructor |].
  apply Forall_forall. intros x [_ Hx%elem_of_take]%list_elem_of_filter.
  destruct Hx as (i & Hi & _). rewrite Forall_forall in IH. apply IH.
  by eapply list_elem_of_lookup_2.
Qed.
End Indexer_correct.

(** ** The order in which [LoadJSON] assigns attributes *)

Lemma TopoSort_loop_fuel_mono fuel : ∀ extra nodes p order in_degree r,
  TopoSort_loop fuel nodes p order in_degree = Some r →
  TopoSort_loop (fuel + extra) nodes p order in_degree = Some r.
Proof.
  induction fuel as [| fuel IH]; intros extra nodes p order in_degree r; cbn.
  - destruct (order !! p) eqn:Hp; [done |]. intros <-.
    destruct extra; cbn; by rewrite Hp.
  - destruct (order !! p); [| done].
    destruct (vector_get nodes z) as [jnode | |]; try done.
    destruct (foldR decr_in_degree (jn_edges jnode) (order, in_degree)); try done.
    apply IH.
Qed.

Lemma TopoSort_fuel_mono fuel extra g r :
  TopoSort fuel g = Some r → TopoSort (fuel + extra) g = Some r.
Proof.
  unfold TopoSort. destruct (count_in_degree _ _) as [deg | |]; try done.
  destruct (TopoSort_loop fuel _ _ _ _) as [r' |] eqn:Hloop; [| done].
  by rewrite (TopoSort_loop_fuel_mono fuel extra _ _ _ _ _ Hloop).
Qed.

Lemma jg_ids_in_range_dec g :
  jg_ids_in_range g
  ∨ ∃ jnode i, jnode ∈ nodes g ∧ i ∈ jn_edges jnode
               ∧ ¬ (0 ≤ i < Z.of_nat (length (nodes g))).
Proof.
  destruct (decide (Forall (λ jnode, Forall (λ i, 0 ≤ i < Z.of_nat (length (nodes g)))
                                            (jn_edges jnode)) (nodes g))) as [Hall | Hnot].
  - left. intros jnode i Hj Hi. rewrite Forall_forall in Hall.
    specialize (Hall jnode Hj). rewrite Forall_forall in Hall. auto.
  - right. apply not_Forall_Exists in Hnot; [| apply _].
    apply Exists_exists in Hnot as (jnode & Hj & Hnot).
    apply not_Forall_Exists in Hnot; [| apply _].
    apply Exists_exists in Hnot as (i & Hi & Hnot). eauto.
Qed.

(** When [TopoSort] returns an order, it lists every node once, each node after
    the nodes it refers to. *)
Lemma TopoSort_returns_order g fuel order :
  Z.of_nat (jg_edge_count g) < size_t_modulus →
  TopoSort fuel g = Some (Ok order) →
  jg_ids_in_range g
  ∧ order ≡ₚ jg_ids g
  ∧ NoDup order
  ∧ ∀ u v (i j : nat), jg_edge g u v →
      order !! i = Some u → order !! j = Some v → (j < i)%nat.
Proof.
  intros Hsmall Hrun.
  destruct (jg_ids_in_range_dec g) as [Hrange | Hbad].
  2: { by rewrite (TopoSort_out_of_range g fuel Hbad) in Hrun. }
  split; [done |].
  apply (TopoSort_fuel_mono fuel (length (nodes g))) in Hrun.
  destruct (TopoSort_result g Hrange Hsmall (fuel + length (nodes g))) as (kahn & deg & HI & Hres);
    [lia |].
  rewrite Hres in Hrun. case_bool_decide as Hlen; [| done].
  injection Hrun as <-.
  assert (Hperm : kahn ≡ₚ jg_ids g).
  { apply submseteq_length_Permutation; [| rewrite jg_ids_length; lia].
    apply NoDup_submseteq; [apply HI |]. intros u Hu. apply jg_ids_elem.
    by eapply inv_range. }
  split; [by rewrite reverse_Permutation |].
  split; [rewrite reverse_Permutation; apply HI |].
  intros u v i j Huv [Hi Hilt]%reverse_lookup_Some [Hj Hjlt]%reverse_lookup_Some.
  destruct (inv_topo _ _ _ _ _ HI u v Huv) as (i' & j' & Hi' & Hj' & Hlt);
    [by eapply list_elem_of_lookup_2 |].
  assert (i' = (length kahn - S i)%nat) by (eapply NoDup_lookup; [apply HI | done | done]).
  assert (j' = (length kahn - S j)%nat) by (eapply NoDup_lookup; [apply HI | done | done]).
  lia.
Qed.

Lemma vector_at_Ok {A} (v : list A) (i : Z) x :
  vector_at v i = Ok x ↔ 0 ≤ i ∧ v !! Z.to_nat i = Some x.
Proof.
  unfold vector_at. destruct (0 <=? i) eqn:E.
  - apply Z.leb_le in E. destruct (v !! Z.to_nat i); split; intros; naive_solver.
  - apply Z.leb_gt in E. split; [done | lia].
Qed.

Section Loader_order.
Context `{TypeRegistry} `{ReflectionVTable}.
Variable jnodes : list JSONNode.

(** One iteration of pass 4. *)
Definition LoadJSON_set_step (st : LoadState) (i : Z) : Result LoadState :=
do node <- vector_get (ld_nodes st) i;
do jnode <- vector_get jnodes i;
do '(node1, next1) <- SetAttrs (ld_nodes st) node jnode (ld_next st);
Ok {| ld_nodes := <[Z.to_nat i := node1]> (ld_nodes st); ld_next := next1 |}.

Lemma LoadJSON_set_cons i order st :
LoadJSON_set jnodes (i :: order) st
= bindR (LoadJSON_set_step st i) (LoadJSON_set jnodes order).
Proof.
cbn. unfold LoadJSON_set_step.
destruct (vector_get (ld_nodes st) i); cbn; try done.
destruct (vector_get jnodes i); cbn; try done.
by destruct (SetAttrs _ _ _ _) as [[node1 next1] | |].
Qed.

Lemma LoadJSON_set_app o1 o2 st :
LoadJSON_set jnodes (o1 ++ o2) st
= bindR (LoadJSON_set jnodes o1 st) (LoadJSON_set jnodes o2).
Proof.
revert st. induction o1 as [| i o1 IH]; intros st; [done |].
rewrite <- app_comm_cons, !LoadJSON_set_cons.
destruct (LoadJSON_set_step st i); cbn; auto.
Qed.

Lemma LoadJSON_set_step_Ok st i st' :
LoadJSON_set_step st i = Ok st' →
∃ node jnode node1,
  0 ≤ i ∧ ld_nodes st !! Z.to_nat i = Some node ∧ jnodes !! Z.to_nat i = Some jnode
  ∧ SetAttrs (ld_nodes st) node jnode (ld_next st) = Ok (node1, ld_next st')
  ∧ ld_nodes st' = <[Z.to_nat i := node1]> (ld_nodes st).
Proof.
unfold LoadJSON_set_step.
destruct (vector_get (ld_nodes st) i) as [node | |] eqn:Hn; cbn; try done.
destruct (vector_get jnodes i) as [jnode | |] eqn:Hj; cbn; try done.
destruct (SetAttrs _ _ _ _) as [[node1 next1] | |] eqn:Hs; cbn; try done.
intros [= <-]. apply vector_get_Ok in Hn as [? ?]. apply vector_get_Ok in Hj as [? ?].
exists node, jnode, node1. by repeat split.
Qed.

(** Pass 4 writes only the entries listed in the order. *)
Lemma LoadJSON_set_untouched order : ∀ st st',
LoadJSON_set jnodes order st = Ok st' →
length (ld_nodes st') = length (ld_nodes st)
∧ (∀ i, i ∈ order → 0 ≤ i)
∧ ∀ d, 0 ≤ d → d ∉ order → ld_nodes st' !! Z.to_nat d = ld_nodes st !! Z.to_nat d.
Proof.
induction order as [| i order IH]; intros st st' Hrun.
- injection Hrun as <-. split; [done |]. split; [by intros ? ?%elem_of_nil | done].
- rewrite LoadJSON_set_cons in Hrun.
  destruct (LoadJSON_set_step st i) as [st1 | |] eqn:Hstep; cbn [bindR] in Hrun; try done.
  destruct (LoadJSON_set_step_Ok _ _ _ Hstep) as (node & jnode & node1 & Hi & _ & _ & _ & Hst1).
  destruct (IH st1 st' Hrun) as (Hlen & Hpos & Hsame).
  split; [by rewrite Hlen, Hst1, length_insert |].
  split; [intros x [-> | Hx]%elem_of_cons; auto |].
  intros d Hd Hnot. apply not_elem_of_cons in Hnot as [Hne Hnot].
  rewrite Hsame, Hst1 by done. apply list_lookup_insert_ne. lia.
Qed.

(** The entry of a node after pass 4 is what [SetAttrs] built when its turn
  came, from a table whose entries for the nodes handled earlier were
  already the final ones. *)
Lemma LoadJSON_set_entry o1 i o2 st0 st :
NoDup (o1 ++ i :: o2) →
LoadJSON_set jnodes (o1 ++ i :: o2) st0 = Ok st →
∃ s1 node jnode node1 next1,
  LoadJSON_set jnodes o1 st0 = Ok s1
  ∧ 0 ≤ i
  ∧ ld_nodes st0 !! Z.to_nat i = Some node
  ∧ jnodes !! Z.to_nat i = Some jnode
  ∧ SetAttrs (ld_nodes s1) node jnode (ld_next s1) = Ok (node1, next1)
  ∧ ld_nodes st !! Z.to_nat i = Some node1
  ∧ (∀ d, d ∈ o1 → ld_nodes s1 !! Z.to_nat d = ld_nodes st !! Z.to_nat d).
Proof.
intros Hnd Hrun. rewrite LoadJSON_set_app in Hrun.
destruct (LoadJSON_set jnodes o1 st0) as [s1 | |] eqn:Hs1; cbn [bindR] in Hrun; try done.
rewrite LoadJSON_set_cons in Hrun.
destruct (LoadJSON_set_step s1 i) as [s2 | |] eqn:Hstep; cbn [bindR] in Hrun; try done.
destruct (LoadJSON_set_step_Ok _ _ _ Hstep)
  as (node & jnode & node1 & Hi & Hnode & Hjnode & Hset & Hs2).
destruct (LoadJSON_set_untouched _ _ _ Hs1) as (Hlen1 & Hpos1 & Hsame1).
destruct (LoadJSON_set_untouched _ _ _ Hrun) as (Hlen2 & Hpos2 & Hsame2).
apply NoDup_app in Hnd as (Hnd1 & Hdisj & Hnd2).
apply NoDup_cons in Hnd2 as [Hi2 Hnd2].
exists s1, node, jnode, node1, (ld_next s2).
split; [done |]. split; [done |].
split; [rewrite <- Hsame1; [done | done | intros Hin; apply (Hdisj i Hin); by left] |].
split; [done |]. split; [done |]. split.
- rewrite Hsame2, Hs2 by done. apply list_lookup_insert_eq.
  by apply lookup_lt_Some in Hnode.
- intros d Hd. rewrite Hsame2, Hs2.
  + symmetry. apply list_lookup_insert_ne.
    assert (d ≠ i) by (intros ->; apply (Hdisj i Hd); by left).
    specialize (Hpos1 d Hd). lia.
  + by apply Hpos1.
  + intros Hin. apply (Hdisj d Hd). by right.
Qed.
End Loader_order.

(** ** Every reference is resolved in the final table *)

Lemma mapR_Forall2 {A B} (f : A → Result B) l r :
  mapR f l = Ok r ↔ Forall2 (λ x y, f x = Ok y) l r.
Proof.
  revert r. induction l as [| x l IH]; intros r; cbn.
  - split; [intros [= <-]; constructor | by inversion 1].
  - destruct (f x) as [y | |] eqn:Hx; cbn.
    + destruct (mapR f l) as [ys | |] eqn:Hl; cbn.
      * split.
        -- intros [= <-]. constructor; [done | by apply IH].
        -- inversion 1 as [| ? y' ? ys' Hy Hys]; subst.
           apply IH in Hys. congruence.
      * split; [done |]. inversion 1 as [| ? y' ? ys' Hy Hys]; subst. by apply IH in Hys.
      * split; [done |]. inversion 1 as [| ? y' ? ys' Hy Hys]; subst. by apply IH in Hys.
    + split; [done |]. inversion 1; subst. congruence.
    + split; [done |]. inversion 1; subst. congruence.
Qed.

Lemma mapR_ext_in {A B} (f g : A → Result B) l :
  (∀ x, x ∈ l → f x = g x) → mapR f l = mapR g l.
Proof.
  induction l as [| x l IH]; intros Hfg; cbn; [done |].
  rewrite (Hfg x) by (by left). rewrite IH; [done |]. intros y Hy. apply Hfg. by right.
Qed.

Lemma vector_at_agree {A} (s t : list A) d :
  s !! Z.to_nat d = t !! Z.to_nat d → vector_at s d = vector_at t d.
Proof. unfold vector_at. by intros ->. Qed.

Section Loader_frame.
Context `{TypeRegistry} `{ReflectionVTable}.

(** Two tables that hold the same values at the given ids. *)
Definition agree_on (ids : list Z) (s t : list Any) : Prop :=
∀ d, d ∈ ids → s !! Z.to_nat d = t !! Z.to_nat d.

Lemma SetAttrs_pairs_frame s t data : agree_on data s t →
∀ result, SetAttrs_pairs s data result = SetAttrs_pairs t data result.
Proof.
assert (Hgen : ∀ (n : nat) data, (length data ≤ n)%nat → agree_on data s t →
          ∀ result, SetAttrs_pairs s data result = SetAttrs_pairs t data result).
{ clear data. induction n as [| n IH]; intros data Hlen Hag result.
  - destruct data; [done | cbn in Hlen; lia].
  - destruct data as [| k [| v data]]; cbn; [done | done |].
    rewrite (vector_at_agree s t k) by (apply Hag; set_solver).
    destruct (vector_at t k); cbn; try done.
    rewrite (vector_at_agree s t v) by (apply Hag; set_solver).
    destruct (vector_at t v); cbn; try done.
    apply IH; [cbn in Hlen; lia |]. intros d Hd. apply Hag. set_solver. }
intros Hag result. by apply (Hgen (length data)).
Qed.

Lemma SetAttrs_keyed_frame s t keys : ∀ data result next,
agree_on data s t →
SetAttrs_keyed s keys data result next = SetAttrs_keyed t keys data result next.
Proof.
induction keys as [| k keys IH]; intros data result next Hag; [done |].
destruct data as [| v data]; cbn; [done |].
rewrite (vector_at_agree s t v) by (apply Hag; set_solver).
destruct (vector_at t v); cbn; try done.
apply IH. intros d Hd. apply Hag. set_solver.
Qed.

(** The fields whose attribute is parsed as a value of the field's type. *)
Definition typed_field (field_info : TVMFFIFieldInfo) : bool :=
match field_static_type_index field_info with
| kTVMFFIBool | kTVMFFIInt | kTVMFFIFloat | kTVMFFIDataType => true
| _ => false
end.

(** Every registered field is parsed as a value or recorded as a dependency. *)
Definition fields_declared : Prop :=
∀ ti field_info, field_info ∈ fields (TVMFFIGetTypeInfo ti) →
                 typed_field field_info = true ∨ is_reference_field field_info = true.

Lemma SetObjectField_value_typed s t jnode field_info :
typed_field field_info = true →
SetObjectField_value s jnode field_info = SetObjectField_value t jnode field_info.
Proof.
unfold typed_field, SetObjectField_value.
by destruct (field_static_type_index field_info).
Qed.

Lemma SetObjectField_value_reference s jnode field_info :
typed_field field_info = false →
SetObjectField_value s jnode field_info = resolve_reference s jnode (name field_info).
Proof.
unfold typed_field, SetObjectField_value.
by destruct (field_static_type_index field_info).
Qed.

Lemma FieldDependencyFinder_fields_spec infos : ∀ jnode0 jnode,
FieldDependencyFinder_fields infos jnode0 = Ok jnode →
jn_type_key jnode = jn_type_key jnode0
∧ jn_repr_bytes jnode = jn_repr_bytes jnode0
∧ jn_attrs jnode = jn_attrs jnode0
∧ jn_keys jnode = jn_keys jnode0
∧ jn_data jnode = jn_data jnode0
∧ (∀ d, d ∈ jn_fields jnode0 → d ∈ jn_fields jnode)
∧ ∀ field_info i, field_info ∈ infos → is_reference_field field_info = true →
    ParseOptionalValue (ParseValue_int 64) jnode0 (name field_info) = Ok (Some i) →
    to_size_t i ∈ jn_fields jnode.
Proof.
induction infos as [| fi infos IH]; intros jnode0 jnode Hrun; cbn in Hrun.
- injection Hrun as <-. repeat split; try done. by intros ? ? ?%elem_of_nil.
- destruct (is_reference_field fi) eqn:Hfi.
  + destruct (ParseOptionalValue (ParseValue_int 64) jnode0 (name fi)) as [[i |] | |] eqn:Hp;
      cbn in Hrun; try done.
    * destruct (IH _ _ Hrun) as (H1 & H2 & H3 & H4 & H5 & H6 & H7). cbn in *.
      repeat split; try done.
      -- intros d Hd. apply H6. set_solver.
      -- intros fi' i' [-> | Hin]%elem_of_cons Href Hparse.
         ++ rewrite Hp in Hparse. injection Hparse as <-. apply H6. set_solver.
         ++ apply (H7 fi' i' Hin Href). unfold ParseOptionalValue, ParseValue_int, GetValue in *.
            by cbn.
    * destruct (IH _ _ Hrun) as (H1 & H2 & H3 & H4 & H5 & H6 & H7).
      repeat split; try done.
      intros fi' i' [-> | Hin]%elem_of_cons Href Hparse; [congruence |].
      by apply (H7 fi' i' Hin Href).
  + cbn in Hrun. destruct (IH _ _ Hrun) as (H1 & H2 & H3 & H4 & H5 & H6 & H7).
    repeat split; try done.
    intros fi' i' [-> | Hin]%elem_of_cons Href Hparse; [congruence |].
    by apply (H7 fi' i' Hin Href).
Qed.

Lemma ParseOptionalValue_attrs {A} (f : JSONNode → string → Result A) jnode jnode' key :
jn_attrs jnode = jn_attrs jnode' →
(f jnode key = f jnode' key) →
ParseOptionalValue f jnode key = ParseOptionalValue f jnode' key.
Proof. unfold ParseOptionalValue, GetValue. intros -> ->. done. Qed.

Lemma ParseValue_int_attrs bits jnode jnode' key :
jn_attrs jnode = jn_attrs jnode' →
ParseValue_int bits jnode key = ParseValue_int bits jnode' key.
Proof. unfold ParseValue_int, GetValue. by intros ->. Qed.

(** [SetAttrs] assigns the fields of the object: the node is an object without
  opaque representation whose type key is not that of a container. *)
Definition assigns_fields (node : Any) (jnode : JSONNode) : bool :=
negb (String.eqb (jn_type_key jnode) ArrayObj_type_key)
&& negb (String.eqb (jn_type_key jnode) MapObj_type_key)
&& is_object node
&& negb (negb (String.length (jn_repr_bytes jnode) =? 0)%nat
         || bool_decide (is_Some (GetReprBytes node))).

(** The ids the reference fields of the node designate are among its [fields]. *)
Definition references_recorded (node : Any) (jnode : JSONNode) : Prop :=
∀ field_info i,
  field_info ∈ fields (TVMFFIGetTypeInfo (type_index node)) →
  is_reference_field field_info = true →
  ParseOptionalValue (ParseValue_int 64) jnode (name field_info) = Ok (Some i) →
  to_size_t i ∈ jn_fields jnode.

Lemma FieldDependencyFinder_Find_spec node jnode0 jnode :
FieldDependencyFinder_Find node jnode0 = Ok jnode →
jn_type_key jnode = jn_type_key jnode0
∧ jn_repr_bytes jnode = jn_repr_bytes jnode0
∧ jn_attrs jnode = jn_attrs jnode0
∧ jn_keys jnode = jn_keys jnode0
∧ jn_data jnode = jn_data jnode0
∧ (assigns_fields node jnode = true →
   String.eqb (jn_type_key jnode) NDArrayObj_type_key = false →
   references_recorded node jnode).
Proof.
unfold FieldDependencyFinder_Find, assigns_fields.
destruct (is_null node) eqn:Hnull.
{ intros [= <-]. repeat split; try done.
  unfold is_object. unfold is_null in Hnull. apply bool_decide_eq_true in Hnull.
  rewrite Hnull. cbn. by rewrite !andb_false_r. }
destruct (below_StaticObjectBegin (type_index node)) eqn:Hpod.
{ intros [= <-]. repeat split; try done.
  unfold is_object. rewrite Hpod. cbn. by rewrite !andb_false_r. }
destruct (negb (String.length (jn_repr_bytes jnode0) =? 0)%nat
          || bool_decide (is_Some (GetReprBytes node))) eqn:Hopq.
{ intros [= <-]. repeat split; try done. rewrite Hopq. cbn. by rewrite !andb_false_r. }
destruct (String.eqb (jn_type_key jnode0) ArrayObj_type_key) eqn:Ha.
{ cbn. intros [= <-]. repeat split; try done. by rewrite Ha. }
destruct (String.eqb (jn_type_key jnode0) MapObj_type_key) eqn:Hm.
{ cbn. intros [= <-]. repeat split; try done. rewrite Hm. cbn. by rewrite ?andb_false_r. }
destruct (String.eqb (jn_type_key jnode0) NDArrayObj_type_key) eqn:Hn.
{ cbn. intros [= <-]. repeat split; try done. congruence. }
cbn. destruct (extra_info _); [| done]. intros Hrun.
destruct (FieldDependencyFinder_fields_spec _ _ _ Hrun) as (H1 & H2 & H3 & H4 & H5 & H6 & H7).
repeat split; try done. intros _ _ fi i Hfi Href Hparse. apply (H7 fi i Hfi Href).
rewrite <- Hparse. apply ParseOptionalValue_attrs; [done |]. by apply ParseValue_int_attrs.
Qed.

Lemma resolve_reference_frame s t jnode key :
(∀ i, ParseOptionalValue (ParseValue_int 64) jnode key = Ok (Some i) →
      s !! Z.to_nat (to_size_t i) = t !! Z.to_nat (to_size_t i)) →
resolve_reference s jnode key = resolve_reference t jnode key.
Proof.
intros Hag. unfold resolve_reference.
destruct (ParseOptionalValue (ParseValue_int 64) jnode key) as [[i |] | |]; cbn; try done.
by rewrite (vector_at_agree s t (to_size_t i)) by (by apply Hag).
Qed.

Lemma SetObjectFields_frame s t jnode infos : ∀ pos obj,
(∀ field_info, field_info ∈ infos →
   typed_field field_info = true
   ∨ ∀ i, ParseOptionalValue (ParseValue_int 64) jnode (name field_info) = Ok (Some i) →
          s !! Z.to_nat (to_size_t i) = t !! Z.to_nat (to_size_t i)) →
SetObjectFields s jnode infos pos obj = SetObjectFields t jnode infos pos obj.
Proof.
induction infos as [| fi infos IH]; intros pos obj Hcov; [done |]. cbn.
assert (Hv : SetObjectField_value s jnode fi = SetObjectField_value t jnode fi).
{ destruct (typed_field fi) eqn:Ht; [by apply SetObjectField_value_typed |].
  rewrite !SetObjectField_value_reference by done.
  apply resolve_reference_frame.
  destruct (Hcov fi) as [? | Hag]; [by left | congruence | done]. }
rewrite Hv. destruct (SetObjectField_value t jnode fi); cbn; try done.
destruct (FieldSetter fi a); cbn; try done.
apply IH. intros fi' Hfi'. apply Hcov. by right.
Qed.

(** [SetAttrs] reads the table only at the ids of [data] and [fields]. *)
Lemma SetAttrs_frame s t node jnode next :
fields_declared →
agree_on (jn_edges jnode) s t →
(assigns_fields node jnode = true → references_recorded node jnode) →
SetAttrs s node jnode next = SetAttrs t node jnode next.
Proof.
intros Hdecl Hag Hrec. unfold SetAttrs.
assert (Hdata : agree_on (jn_data jnode) s t).
{ intros d Hd. apply Hag. unfold jn_edges. set_solver. }
destruct (String.eqb (jn_type_key jnode) ArrayObj_type_key) eqn:Ha.
{ rewrite (mapR_ext_in (vector_at s) (vector_at t)); [done |].
  intros d Hd. by apply vector_at_agree, Hdata. }
destruct (String.eqb (jn_type_key jnode) MapObj_type_key) eqn:Hm.
{ case_bool_decide.
  - destruct (negb _); [done |]. by rewrite (SetAttrs_pairs_frame s t).
  - destruct (negb _); [done |]. by rewrite (SetAttrs_keyed_frame s t). }
destruct (is_object node) eqn:Hobj; [| done].
destruct (negb (String.length (jn_repr_bytes jnode) =? 0)%nat
          || bool_decide (is_Some (GetReprBytes node))) eqn:Hopq; [done |].
destruct (extra_info _); [| done].
rewrite (SetObjectFields_frame s t); [done |].
intros fi Hfi. destruct (Hdecl _ fi Hfi) as [? | Href]; [by left | right].
intros i Hparse. apply Hag. unfold jn_edges. apply elem_of_app. right.
apply (Hrec ltac:(unfold assigns_fields; by rewrite Ha, Hm, Hobj, Hopq) fi i Hfi Href Hparse).
Qed.
End Loader_frame.

Section Loader_fixpoint.
Context `{TypeRegistry} `{ReflectionVTable}.

Lemma LoadJSON_create_length jnodes : ∀ next node_list next',
LoadJSON_create jnodes next = Ok (node_list, next') →
length node_list = length jnodes.
Proof.
induction jnodes as [| jnode jnodes IH]; intros next node_list next'; cbn.
- by intros [= <- <-].
- destruct (CreateInitAny jnode next) as [[node next1] | |]; cbn; try done.
  destruct (LoadJSON_create jnodes next1) as [[rest next2] | |] eqn:Hrest; cbn; try done.
  intros [= <- <-]. cbn. f_equal. by eapply IH.
Qed.

Lemma LoadJSON_dependencies_lookup node_list : ∀ jnodes0 jnodes,
LoadJSON_dependencies node_list jnodes0 = Ok jnodes →
length jnodes = Nat.min (length node_list) (length jnodes0)
∧ ∀ (i : nat) node jnode, node_list !! i = Some node → jnodes !! i = Some jnode →
    ∃ jnode0, jnodes0 !! i = Some jnode0
              ∧ FieldDependencyFinder_Find node jnode0 = Ok jnode.
Proof.
induction node_list as [| node node_list IH]; intros jnodes0 jnodes; cbn.
- intros [= <-]. split; [done |]. intros i ? ? Hi. by destruct i.
- destruct jnodes0 as [| jnode0 jnodes0].
  { intros [= <-]. split; [done |]. intros i ? ? _ Hi. by destruct i. }
  destruct (FieldDependencyFinder_Find node jnode0) as [jnode1 | |] eqn:Hfind; cbn; try done.
  destruct (LoadJSON_dependencies node_list jnodes0) as [rest | |] eqn:Hrest; cbn; try done.
  intros [= <-]. destruct (IH _ _ Hrest) as [Hlen Hall]. split; [cbn; lia |].
  intros [| i] node' jnode'; cbn.
  + intros [= <-] [= <-]. eauto.
  + apply Hall.
Qed.

Lemma LoadJSON_create_lookup jnodes : ∀ next node_list next',
LoadJSON_create jnodes next = Ok (node_list, next') →
∀ (i : nat) node, node_list !! i = Some node →
  ∃ jnode0 next_i next_i', jnodes !! i = Some jnode0
                           ∧ CreateInitAny jnode0 next_i = Ok (node, next_i').
Proof.
induction jnodes as [| jnode jnodes IH]; intros next node_list next'; cbn.
- intros [= <- <-] i ? Hi. by destruct i.
- destruct (CreateInitAny jnode next) as [[node next1] | |] eqn:Hc; cbn; try done.
  destruct (LoadJSON_create jnodes next1) as [[rest next2] | |] eqn:Hrest; cbn; try done.
  intros [= <- <-] [| i] node'; cbn.
  + intros [= <-]. eauto.
  + by eapply IH.
Qed.

(** The table [LoadJSON] returns is a fixed point of [SetAttrs]: the entry of
  each node is what [SetAttrs] builds for it from the returned table
  itself, so every reference it holds is the returned entry of the node
  it names. *)
Lemma LoadJSON_set_fixpoint next fuel g st0 g1 order st :
fields_declared →
LoadJSON_prepare next g = Ok (st0, g1) →
Z.of_nat (jg_edge_count g1) < size_t_modulus →
TopoSort fuel g1 = Some (Ok order) →
LoadJSON_set (nodes g1) order st0 = Ok st →
∀ (i : nat) jnode, nodes g1 !! i = Some jnode →
  ∃ jnode0 node node1 next_i next_i',
    nodes g !! i = Some jnode0
    ∧ CreateInitAny jnode0 next_i = Ok (node, next_i')
    ∧ FieldDependencyFinder_Find node jnode0 = Ok jnode
    ∧ ld_nodes st0 !! i = Some node
    ∧ ld_nodes st !! i = Some node1
    ∧ ((assigns_fields node jnode = true →
        String.eqb (jn_type_key jnode) NDArrayObj_type_key = false) →
       ∃ from to, SetAttrs (ld_nodes st) node jnode from = Ok (node1, to)).
Proof.
intros Hdecl Hprep Hsmall Htopo Hset i jnode Hjnode.
unfold LoadJSON_prepare in Hprep.
destruct (LoadJSON_tensors _) as [tensors | |]; cbn [bindR] in Hprep; try done.
destruct (LoadJSON_create _ _) as [[node_list next1] | |] eqn:Hcreate;
  cbn [bindR] in Hprep; try done.
destruct (LoadJSON_dependencies _ _) as [jnodes | |] eqn:Hdeps;
  cbn [bindR] in Hprep; try done.
injection Hprep as <- <-. cbn [nodes with_nodes ld_nodes] in *.
destruct (TopoSort_returns_order _ _ _ Hsmall Htopo) as (Hrange & Hperm & Hnd & Hfirst).
cbn [nodes with_nodes] in *.
assert (Hin : Z.of_nat i ∈ order).
{ rewrite Hperm. apply jg_ids_elem. cbn. apply lookup_lt_Some in Hjnode. lia. }
apply list_elem_of_split in Hin as (o1 & o2 & ->).
destruct (LoadJSON_set_entry jnodes o1 (Z.of_nat i) o2 _ _ Hnd Hset)
  as (s1 & node & jnode' & node1 & next_i & Hs1 & _ & Hnode & Hjnode' & Hattrs & Hfinal & Hagree).
rewrite Nat2Z.id in *. cbn [ld_nodes] in Hnode.
assert (jnode' = jnode) as -> by congruence.
destruct (LoadJSON_dependencies_lookup _ _ _ Hdeps) as [_ Hfind].
destruct (Hfind i node jnode Hnode Hjnode) as (jnode0 & Hjnode0 & Hfound).
destruct (LoadJSON_create_lookup _ _ _ _ Hcreate i node Hnode)
  as (jnode0' & from & to & Hjnode0' & Hinit).
assert (jnode0' = jnode0) as -> by congruence.
exists jnode0, node, node1, from, to. repeat split; try done.
intros Hkey. exists (ld_next s1), next_i. rewrite <- Hattrs. symmetry.
apply SetAttrs_frame; [done | |].
- intros d Hd. apply Hagree.
  assert (Hedge : jg_edge (with_nodes g jnodes) (Z.of_nat i) d).
  { unfold jg_edge. rewrite (jg_out_lookup _ _ jnode); [done | lia |].
    by rewrite Nat2Z.id. }
  assert (Hdin : d ∈ o1 ++ Z.of_nat i :: o2).
  { rewrite Hperm. apply jg_ids_elem. apply (Hrange jnode d); [| done].
    by eapply list_elem_of_lookup_2. }
  apply list_elem_of_lookup in Hdin as [j Hj].
  assert (Hlt : (j < length o1)%nat).
  { apply (Hfirst _ _ (length o1) j Hedge); [| done].
    by rewrite lookup_app_r, Nat.sub_diag by lia. }
  rewrite lookup_app_l in Hj by done. by eapply list_elem_of_lookup_2.
- intros Hassign.
  destruct (FieldDependencyFinder_Find_spec _ _ _ Hfound) as (_ & _ & _ & _ & _ & Hrec).
  by apply Hrec; [| apply Hkey].
Qed.
End Loader_fixpoint.

(** ** Values held by a root *)

(** The root and everything it holds, in preorder. *)
Fixpoint subterms (a : Any) : list Any :=
  a :: match a with
       | AnyArray _ elems => flat_map subterms elems
       | AnyMap _ kvs => flat_map (λ kv : Any * Any, subterms kv.1 ++ subterms kv.2) kvs
       | AnyObject _ _ values => flat_map subterms values
       | _ => []
       end.

Lemma elem_of_flat_map {A B} (f : A → list B) l y :
  y ∈ flat_map f l ↔ ∃ x, x ∈ l ∧ y ∈ f x.
Proof.
  rewrite list_elem_of_In, in_flat_map. split; intros (x & Hx & Hy); exists x.
  - by rewrite !list_elem_of_In.
  - by rewrite <- !list_elem_of_In.
Qed.

Lemma subterms_self a : a ∈ subterms a.
Proof. destruct a; by left. Qed.

Lemma subterms_children x y : y ∈ children x → subterms y ⊆ subterms x.
Proof.
  intros Hy a Ha. destruct x as [k v | p s | p s | p d | p t | p l | p kvs | n p fs];
    cbn in Hy; try by apply elem_of_nil in Hy.
  - right. apply elem_of_flat_map. eauto.
  - right. apply elem_of_flat_map.
    apply elem_of_flat_map in Hy as (kv & Hkv & Hy).
    exists kv. split; [done |]. set_solver.
  - right. apply elem_of_flat_map. eauto.
Qed.

Lemma reachable_subterms root a : reachable root a ↔ a ∈ subterms root.
Proof.
  split.
  - intros Hr. induction Hr as [x | x y z Hxy _ IH]; [apply subterms_self |].
    by apply (subterms_children x y).
  - revert a. induction root as [k v | p s | p s | p d | p t | p l IH | p kvs IH | n p fs IH]
      using Any_nested_ind; intros a; cbn [subterms].
    1-5: intros ->%list_elem_of_singleton; apply rtc_refl.
    + intros [-> | Ha]%elem_of_cons; [apply rtc_refl |].
      apply elem_of_flat_map in Ha as (x & Hx & Ha).
      rewrite Forall_forall in IH. eapply rtc_l; [| by apply (IH x)]. done.
    + intros [-> | Ha]%elem_of_cons; [apply rtc_refl |].
      apply elem_of_flat_map in Ha as (kv & Hkv & Ha).
      rewrite Forall_forall in IH. destruct (IH kv Hkv) as [IH1 IH2].
      apply elem_of_app in Ha as [Ha | Ha].
      * eapply rtc_l; [| by apply IH1]. cbn. apply elem_of_flat_map.
        exists kv. split; [done | by left].
      * eapply rtc_l; [| by apply IH2]. cbn. apply elem_of_flat_map.
        exists kv. split; [done | right; by left].
    + intros [-> | Ha]%elem_of_cons; [apply rtc_refl |].
      apply elem_of_flat_map in Ha as (x & Hx & Ha).
      rewrite Forall_forall in IH. eapply rtc_l; [| by apply (IH x)]. done.
Qed.


(** ** The node table of [JSONGraph::Create] *)

(** The id [d] designates, in the node list, an entry that [AnyEqual]
    identifies with [a]. *)
Definition designates (node_list : list Any) (d : Z) (a : Any) : Prop :=
  0 ≤ d ∧ ∃ b, node_list !! Z.to_nat d = Some b ∧ AnyEqual (ref_of b) (ref_of a) = true.

Section Create_correct.
Context `{TypeRegistry} `{ReflectionVTable}.

Lemma indexed_children_children a : indexed_children a ⊆ children a.
Proof.
destruct a as [k v | p s | p s | p d | p t | p l | p kvs | n p fs]; cbn; try done.
- destruct (forallb _ kvs); [| done].
  intros y (kv & -> & Hkv)%list_elem_of_fmap. apply elem_of_flat_map.
  exists kv. split; [done |]. right. by left.
- destruct (GetReprBytes _); [by intros ? ?%elem_of_nil |].
  intros y [_ (i & Hi & _)%elem_of_take]%list_elem_of_filter.
  by eapply list_elem_of_lookup_2.
Qed.

Lemma traversed_reachable root a : traversed root a → reachable root a.
Proof.
induction 1 as [x | x y z Hxy _ IH]; [apply rtc_refl |].
eapply rtc_l; [| exact IH]. by apply indexed_children_children.
Qed.

Lemma below_StaticObjectBegin_POD a :
below_StaticObjectBegin (type_index a) = true → ∃ k v, a = AnyPOD k v.
Proof. destruct a; cbn; try done. eauto. Qed.

(** Two values of a consistent root that [AnyEqual] identifies are the same
  value, or two strings or byte strings with the same characters. *)
Lemma AnyEqual_consistent root a b :
consistent root → reachable root a → reachable root b →
AnyEqual (ref_of a) (ref_of b) = true →
a = b ∨ ((type_index a = kTVMFFIStr ∨ type_index a = kTVMFFIBytes)
         ∧ type_index b = type_index a ∧ string_bytes a = string_bytes b).
Proof.
intros Hc Ha Hb. unfold AnyEqual. cbn.
case_bool_decide as Hti; [| done]. cbn.
case_bool_decide as Hv.
- intros _. left. destruct (below_StaticObjectBegin (type_index a)) eqn:Hpod.
  + destruct (below_StaticObjectBegin_POD a Hpod) as (k & v & ->).
    rewrite Hti in Hpod. destruct (below_StaticObjectBegin_POD b Hpod) as (k' & v' & ->).
    cbn in *. subst. f_equal. by destruct k, k'.
  + by apply Hc.
- intros He. right.
  destruct a as [[] ? | | | | | | |]; cbn in *; try done;
    destruct b as [[] ? | | | | | | |]; cbn in *; try done;
    apply bool_decide_eq_true in He; injection He as ->; auto.
Qed.

Lemma AnyEqual_indexed_children root a b :
consistent root → reachable root a → reachable root b →
AnyEqual (ref_of a) (ref_of b) = true →
indexed_children a = indexed_children b.
Proof.
intros Hc Ha Hb He.
destruct (AnyEqual_consistent root a b Hc Ha Hb He) as [-> | ([Ht | Ht] & Ht' & _)]; [done | |].
all: rewrite Ht in Ht'; destruct a; try done; destruct b; done.
Qed.

(** [MakeIndex] from the initial indexer lists the null entry followed by the
  values traversed from the root, each once. *)
Lemma MakeIndex_closed root ix :
consistent root →
MakeIndex root NodeIndexer_init = Ok ix →
indexer_ok ix
∧ (∀ a, traversed root a → is_null a = false → indexed ix a)
∧ (∀ (i : nat) b, node_list_ ix !! i = Some b →
     (i = 0%nat ∧ b = AnyNone) ∨ (is_null b = false ∧ traversed root b)).
Proof.
intros Hc Hrun.
destruct (MakeIndex_correct root _ _ indexer_ok_init Hrun) as (Hok & new & Hl & Hroot & Hnew).
cbn in Hl. rewrite Forall_forall in Hnew.
split; [done |]. split.
- intros a Ha. unfold traversed in Ha. revert a Ha.
  apply (rtc_ind_r (λ a, is_null a = false → indexed ix a)); [done |].
  intros x y Hx Hxy IH Hy.
  assert (Hxn : is_null x = false).
  { destruct x as [[] v | | | | | | |]; try done; by apply elem_of_nil in Hxy. }
  destruct (IH Hxn) as [z Hz]. rewrite (ok_index _ Hok) in Hz.
  apply node_index_find_Some in Hz as (i & b & _ & Hi & Hb).
  rewrite Hl in Hi. destruct i as [| i]; cbn in Hi.
  + injection Hi as <-. unfold AnyEqual in Hb. cbn in Hb.
    unfold is_null in Hxn. apply bool_decide_eq_false in Hxn.
    case_bool_decide; [by destruct Hxn | done].
  + destruct (Hnew b) as (Hbn & Hbt & Hbs); [by eapply list_elem_of_lookup_2 |].
    apply Hbs; [| done].
    rewrite (AnyEqual_indexed_children root b x Hc); try done;
      by apply traversed_reachable.
- intros i b Hi. rewrite Hl in Hi. destruct i as [| i]; cbn in Hi.
  + left. by injection Hi as <-.
  + right. destruct (Hnew b) as (Hbn & Hbt & _); [by eapply list_elem_of_lookup_2 | done].
Qed.

Lemma node_index_at_designates ix a d :
indexer_ok ix → node_index_at (node_index_ ix) a = Ok d → designates (node_list_ ix) d a.
Proof.
intros Hok. unfold node_index_at.
destruct (node_index_find _ _) as [z |] eqn:Hz; [| done]. intros [= <-].
rewrite (ok_index _ Hok) in Hz.
apply node_index_find_Some in Hz as (i & b & -> & Hi & Hb).
split; [lia |]. exists b. by rewrite Nat2Z.id.
Qed.

Lemma JSONGraph_Create_Ok v g :
JSONGraph_Create v = Ok g →
∃ ix, MakeIndex v NodeIndexer_init = Ok ix
      ∧ Forall2 (λ node jnode, JSONAttrGetter_Get (node_index_ ix) node = Ok jnode)
                (node_list_ ix) (nodes g)
      ∧ node_index_at (node_index_ ix) v = Ok (root g).
Proof.
unfold JSONGraph_Create.
destruct (MakeIndex v NodeIndexer_init) as [ix | |]; cbn [bindR]; try done.
destruct (mapR _ _) as [jnodes | |] eqn:Hmap; cbn [bindR]; try done.
destruct (negb _); [done |].
destruct (node_index_at _ v) as [root_id | |] eqn:Hroot; cbn [bindR]; try done.
intros [= <-]. exists ix. cbn. split; [done |]. split; [| done].
by apply mapR_Forall2.
Qed.
End Create_correct.

(** ** Integers survive [std::to_string] followed by [is >> value] *)

Lemma span_digits_string_of_uint d :
  span_digits (NilEmpty.string_of_uint d) = (NilEmpty.string_of_uint d, EmptyString).
Proof. induction d; cbn; rewrite ?IHd; done. Qed.

(** The text starts with a digit. *)
Definition starts_with_digit (s : string) : Prop :=
  ∃ c s', s = String c s' ∧ is_digit c = true.

Lemma string_of_uint_digit d : starts_with_digit (NilZero.string_of_uint d).
Proof. destruct d; cbn; eexists _, _; split; try reflexivity; done. Qed.

Lemma NilZero_as_NilEmpty d :
  ∃ d', NilZero.string_of_uint d = NilEmpty.string_of_uint d' ∧ d' ≠ Decimal.Nil
        ∧ Z.of_uint d' = Z.of_uint d.
Proof.
  destruct d; [exists (Decimal.D0 Decimal.Nil) | eexists ..]; split; try reflexivity; done.
Qed.

Lemma scan_unsigned d :
  skip_space (NilZero.string_of_uint d) = NilZero.string_of_uint d
  ∧ scan_sign (NilZero.string_of_uint d) = (false, NilZero.string_of_uint d)
  ∧ uint_of_digits (span_digits (NilZero.string_of_uint d)).1 = Some (Z.of_uint d).
Proof.
  destruct (NilZero_as_NilEmpty d) as (d' & -> & Hnil & <-).
  split; [by destruct d' | split; [by destruct d' |]].
  rewrite span_digits_string_of_uint. cbn [fst]. unfold uint_of_digits.
  rewrite NilEmpty.usu. by destruct d'.
Qed.

Lemma scan_int_to_string_int z : scan_int (to_string_int z) = Some z.
Proof.
  unfold to_string_int, scan_int. rewrite <- (DecimalZ.of_to z) at 2.
  destruct (Z.to_int z) as [d | d]; cbn [NilZero.string_of_int Z.of_int].
  - destruct (scan_unsigned d) as (H1 & H2 & H3). rewrite H1, H2. cbv beta iota.
    by rewrite H3.
  - destruct (scan_unsigned d) as (_ & _ & Hd).
    change (scan_sign (skip_space (String "-" (NilZero.string_of_uint d))))
      with (true, NilZero.string_of_uint d).
    cbv beta iota. by rewrite Hd.
Qed.

Lemma parse_int_to_string_int z :
  - 2 ^ 63 ≤ z < 2 ^ 63 → parse_int 64 (to_string_int z) = Some z.
Proof.
  intros Hz. unfold parse_int. rewrite scan_int_to_string_int.
  change (64 - 1) with 63. cbn [mbind option_bind].
  destruct (Z.leb_spec (- 2 ^ 63) z), (Z.ltb_spec z (2 ^ 63)); try lia; done.
Qed.

Lemma to_string_int_not_null z : String.eqb (to_string_int z) "null" = false.
Proof.
  unfold to_string_int. destruct (Z.to_int z) as [d | d]; cbn; [| done].
  destruct (string_of_uint_digit d) as (c & s' & -> & Hc).
  cbn. destruct (Ascii.eqb_spec c "n"); [by subst | done].
Qed.

(** ** Values that survive a round trip *)

Definition is_AnyObject (a : Any) : bool :=
  match a with AnyObject _ _ _ => true | _ => false end.

(** The keys of a map are pairwise different for [AnyEqual]. *)
Fixpoint keys_distinct (kvs : list (Any * Any)) : bool :=
  match kvs with
  | [] => true
  | kv :: kvs' =>
      forallb (λ kv' : Any * Any, negb (AnyEqual (ref_of kv.1) (ref_of kv'.1))) kvs'
      && keys_distinct kvs'
  end.

(** A key that is a string, an integer or a boolean. *)
Definition plain_key (a : Any) : bool :=
  match a with
  | AnyStr _ _ | AnyPOD PInt _ | AnyPOD PBool _ => true
  | _ => false
  end.

(** The field values considered here: an integer in an [int] field, a
    boolean in a [bool] field, an object reference or none in a field
    declared as an object type or as [Any].  Fields declared float or
    DataType are left out, and so is an integer, a boolean or a float held by
    an [Any] field, although such a field may hold one. *)
Definition field_holds (field_info : TVMFFIFieldInfo) (value : Any) : bool :=
  match field_static_type_index field_info with
  | kTVMFFIInt => match value with AnyPOD PInt _ => true | _ => false end
  | kTVMFFIBool => match value with AnyPOD PBool _ => true | _ => false end
  | kTVMFFIFloat | kTVMFFIDataType => false
  | _ => is_reference_field field_info && (is_null value || is_object value)
  end.

Definition compared_by_content (kind : SEqHashKind) : bool :=
  match kind with
  | kTVMFFISEqHashKindTreeNode | kTVMFFISEqHashKindConstTreeNode
  | kTVMFFISEqHashKindDAGNode => true
  | _ => false
  end.

Section Supported.
Context `{TypeRegistry}.

(** None, 64-bit integers, booleans, strings, arrays, maps with plain keys
    and reflective objects of the kinds compared by content, whose fields
    hold what [field_holds] admits: an integer in an int field, a boolean in
    a bool field, none or an object reference in a field declared as an
    object type or as [Any]. *)
Fixpoint supported (a : Any) : bool :=
  match a with
  | AnyPOD PNone v => v =? 0
  | AnyPOD PInt v => (- 2 ^ 63 <=? v) && (v <? 2 ^ 63)
  | AnyPOD PBool v => (v =? 0) || (v =? 1)
  | AnyPOD _ _ => false
  | AnyStr _ _ => true
  | AnyArray _ elems => forallb supported elems
  | AnyMap _ kvs =>
      forallb (λ kv : Any * Any, plain_key kv.1 && supported kv.1 && supported kv.2) kvs
      && keys_distinct kvs
  | AnyObject n _ values =>
      let tinfo := TVMFFIGetTypeInfo (kTVMFFIDynObject n) in
      match extra_info tinfo with
      | Some extra => compared_by_content (structural_eq_hash_kind extra)
      | None => false
      end
      && bool_decide (length values = length (fields tinfo))
      && bool_decide (NoDup (name <$> fields tinfo))
      && forallb (λ fv : TVMFFIFieldInfo * Any, field_holds fv.1 fv.2) (zip (fields tinfo) values)
      && forallb supported values
  | _ => false
  end.
End Supported.

(** ** Structural equality of a value and a copy of it *)

Lemma subterms_trans a b c : b ∈ subterms a → c ∈ children b → c ∈ subterms a.
Proof.
  rewrite <- !reachable_subterms. intros Hab Hc. eapply rtc_r; [exact Hab | exact Hc].
Qed.

Section Mirror.
Context `{TypeRegistry}.
(** [V] is the original value, [φ] sends the address of an object of [V] to
    the address of its copy. *)
Variable V : Any.
Variable φ : Z → Z.

Definition object_address (p : Z) : Prop :=
  ∃ r, r ∈ subterms V ∧ is_AnyObject r = true ∧ v_int64 r = p.

(** An address that neither a value of [V] nor the copy of an object of [V] has. *)
Definition unused_address (p' : Z) : Prop :=
  (∀ r, r ∈ subterms V → is_object r = true → v_int64 r ≠ p')
  ∧ (∀ q, object_address q → φ q ≠ p').

(** [strings p' p]: a string at address [p'] may stand for the string of [V]
    at address [p]. *)
Variable strings : Z → Z → Prop.

(** [mirror l r]: [l] is a copy of [r]. *)
Inductive mirror : Any → Any → Prop :=
| mirror_POD k v : mirror (AnyPOD k v) (AnyPOD k v)
| mirror_Str p' p s : strings p' p → mirror (AnyStr p' s) (AnyStr p s)
| mirror_Array p' p ls rs : Forall2 mirror ls rs → mirror (AnyArray p' ls) (AnyArray p rs)
| mirror_Map p' p lkvs rkvs :
    Forall2 (λ l r : Any * Any, mirror l.1 r.1 ∧ mirror l.2 r.2) lkvs rkvs →
    mirror (AnyMap p' lkvs) (AnyMap p rkvs)
| mirror_Object n p' p lfs rfs :
    p' = φ p → Forall2 mirror lfs rfs → mirror (AnyObject n p' lfs) (AnyObject n p rfs).

Hypothesis φ_inj : ∀ p q, object_address p → object_address q → φ p = φ q → p = q.
(** The address of a string copy is not that of an object copy, and is that of
    no other string of [V]. *)
Hypothesis strings_unmapped : ∀ p' p q, strings p' p → object_address q → φ q ≠ p'.
Hypothesis strings_apart : ∀ p' p q t, strings p' p → AnyStr q t ∈ subterms V → q = p' → q = p.

(** The equality maps relate copies of objects of [V] to their originals. *)
Definition maps_ok (h : StructEqualHandler) : Prop :=
  (∀ p' ref, equal_map_lhs_ h !! p' = Some ref →
     ∃ r, r ∈ subterms V ∧ is_AnyObject r = true ∧ p' = φ (v_int64 r) ∧ ref = ref_of r
          ∧ is_Some (equal_map_rhs_ h !! v_int64 r))
  ∧ (∀ p ref, equal_map_rhs_ h !! p = Some ref →
       object_address p ∧ is_Some (equal_map_lhs_ h !! φ p)).

Lemma maps_ok_set_map_free_vars b h : maps_ok h → maps_ok (set_map_free_vars b h).
Proof. done. Qed.

Lemma maps_ok_record_equality l r h :
  r ∈ subterms V → is_AnyObject r = true → v_int64 l = φ (v_int64 r) →
  maps_ok h → maps_ok (record_equality l r h).
Proof.
  intros Hr Hobj Hl [Hlr Hrl]. split; cbn.
  - intros p' ref. destruct (decide (p' = v_int64 l)) as [-> | Hne].
    + rewrite lookup_insert_eq. intros [= <-]. exists r.
      repeat split; try done. rewrite lookup_insert_eq. by eexists.
    + rewrite lookup_insert_ne by done. intros Hp'.
      destruct (Hlr p' ref Hp') as (r1 & Hr1 & Hobj1 & -> & -> & Hsome).
      exists r1. repeat split; try done.
      destruct (decide (v_int64 r = v_int64 r1)) as [-> | Hne'].
      * rewrite lookup_insert_eq. by eexists.
      * by rewrite lookup_insert_ne.
  - intros p ref. destruct (decide (p = v_int64 r)) as [-> | Hne].
    + rewrite lookup_insert_eq. intros _. split; [by exists r |].
      rewrite <- Hl, lookup_insert_eq. by eexists.
    + rewrite lookup_insert_ne by done. intros Hp.
      destruct (Hrl p ref Hp) as [Hobjp Hsome]. split; [done |].
      destruct (decide (v_int64 l = φ p)) as [-> | Hne'].
      * rewrite lookup_insert_eq. by eexists.
      * by rewrite lookup_insert_ne.
Qed.


Lemma MapLhsToRhs_mirror h l r :
  maps_ok h → mirror l r → plain_key r = true → MapLhsToRhs h l = ref_of l.
Proof.
  intros [Hlr _] Hm Hkey. unfold MapLhsToRhs.
  inversion Hm as [k v | p' p s Hfr | | |]; subst; try done; [by destruct k |].
  cbn.
  destruct (equal_map_lhs_ h !! p') as [ref |] eqn:Hp'; [| done].
  destruct (Hlr p' ref Hp') as (r1 & Hr1 & Hobj1 & Heq & _).
  destruct (strings_unmapped p' p (v_int64 r1) Hfr); [by exists r1 | done].
Qed.

Lemma AnyEqual_mirror_same l r :
  mirror l r → plain_key r = true → AnyEqual (ref_of r) (ref_of l) = true.
Proof.
  intros Hm Hkey. inversion Hm; subst; try done.
  - apply AnyEqual_refl.
  - unfold AnyEqual. cbn. by repeat case_bool_decide.
Qed.

Lemma AnyEqual_mirror_other l r r0 :
  mirror l r → plain_key r = true → r0 ∈ subterms V →
  AnyEqual (ref_of r0) (ref_of r) = false → AnyEqual (ref_of r0) (ref_of l) = false.
Proof.
  intros Hm Hkey Hr0. inversion Hm as [k v | p' p s Hfr | | |]; subst; try done.
  unfold AnyEqual. cbn. case_bool_decide as Hti; [| done]. cbn.
  destruct r0 as [[] ? | q t | | | | | |]; try done. cbn.
  case_bool_decide as Hqp; [done |].
  rewrite (bool_decide_eq_false_2 (q = p')); [done |].
  intros Hq. by apply Hqp, (strings_apart p' p q t).
Qed.

Lemma map_find_mirror rkvs : keys_distinct rkvs = true →
  (∀ kv, kv ∈ rkvs → kv.1 ∈ subterms V) →
  ∀ (j : nat) rkv l, rkvs !! j = Some rkv → mirror l rkv.1 → plain_key rkv.1 = true →
    map_find rkvs (ref_of l) = Some rkv.
Proof.
  induction rkvs as [| kv0 rkvs IH]; intros Hd Hin j rkv l Hj Hm Hkey; [done |].
  cbn in Hd. apply andb_true_iff in Hd as [Hd0 Hd]. destruct j as [| j]; cbn in Hj |- *.
  - injection Hj as ->. by rewrite (AnyEqual_mirror_same l rkv.1).
  - rewrite (AnyEqual_mirror_other l rkv.1 kv0.1); try done.
    + apply (IH Hd) with j; try done. intros kv Hkv. apply Hin. by right.
    + apply Hin. by left.
    + rewrite forallb_forall in Hd0. apply negb_true_iff, Hd0.
      apply list_elem_of_In. by eapply list_elem_of_lookup_2.
Qed.

(** Comparing a copy [l] with the original [r] succeeds and keeps the maps in order. *)
Definition equal_to_copy (r : Any) : Prop :=
  supported r = true → r ∈ subterms V →
  ∀ l h, mirror l r → maps_ok h →
    ∃ h', CompareAny l r h = Ok (true, h') ∧ maps_ok h'.

Lemma CompareArray_loop_mirror rs :
  Forall equal_to_copy rs → forallb supported rs = true → (∀ x, x ∈ rs → x ∈ subterms V) →
  ∀ ls i size h, Forall2 mirror ls rs → maps_ok h →
    ∃ h', CompareArray_loop CompareAny i ls rs size size h = Ok (true, h') ∧ maps_ok h'.
Proof.
  induction 1 as [| r rs Hr _ IH]; intros Hsup Hin ls i size h Hm Hok.
  - inversion Hm; subst. cbn. rewrite Z.eqb_refl. eauto.
  - inversion Hm as [| l ? ls' ? Hl Hls]; subst. cbn in Hsup.
    apply andb_true_iff in Hsup as [Hsup1 Hsup2]. cbn.
    destruct (Hr Hsup1 (Hin r ltac:(by left)) l h Hl Hok) as (h1 & -> & Hok1). cbn.
    apply IH; try done. intros x Hx. apply Hin. by right.
Qed.

Lemma CompareMap_lhs_loop_mirror rkvs lhs rhs :
  Forall2 (λ l r : Any * Any,
             mirror l.1 r.1 ∧ mirror l.2 r.2 ∧ plain_key r.1 = true
             ∧ map_find rkvs (ref_of l.1) = Some r
             ∧ equal_to_copy r.2 ∧ supported r.2 = true ∧ r.2 ∈ subterms V) lhs rhs →
  ∀ h, maps_ok h →
    ∃ h', CompareMap_lhs_loop CompareAny lhs rkvs h = Ok (true, h') ∧ maps_ok h'.
Proof.
  induction 1 as [| l r lhs rhs (Hk & Hv & Hkey & Hfind & IHv & Hsup & Hin) _ IH];
    intros h Hok; cbn; [eauto |].
  rewrite (MapLhsToRhs_mirror h l.1 r.1 Hok Hk Hkey), Hfind.
  destruct (IHv Hsup Hin l.2 h Hv Hok) as (h1 & -> & Hok1). cbn. by apply IH.
Qed.

Lemma CompareObject_fields_mirror rfs :
  Forall equal_to_copy rfs → forallb supported rfs = true → (∀ x, x ∈ rfs → x ∈ subterms V) →
  ∀ infos lfs h, Forall2 mirror lfs rfs → maps_ok h →
    ∃ h', CompareObject_fields CompareAny infos lfs rfs h = Ok (true, h') ∧ maps_ok h'.
Proof.
  induction 1 as [| r rfs Hr _ IH]; intros Hsup Hin infos lfs h Hm Hok.
  - inversion Hm; subst. destruct infos; cbn; eauto.
  - inversion Hm as [| l ? lfs' ? Hl Hls]; subst. cbn in Hsup.
    apply andb_true_iff in Hsup as [Hsup1 Hsup2].
    assert (Hin' : ∀ x, x ∈ rfs → x ∈ subterms V) by (intros x Hx; apply Hin; by right).
    destruct infos as [| field_info infos]; cbn; [eauto |].
    destruct (flag_set _ kTVMFFIFieldFlagBitMaskSEqHashIgnore); [by apply IH |].
    destruct (flag_set _ kTVMFFIFieldFlagBitMaskSEqHashDef).
    + destruct (Hr Hsup1 (Hin r ltac:(by left)) l (set_map_free_vars true h) Hl)
        as (h1 & -> & Hok1); [done |]. cbn. by apply IH.
    + destruct (Hr Hsup1 (Hin r ltac:(by left)) l h Hl Hok) as (h1 & -> & Hok1).
      cbn. by apply IH.
Qed.

Lemma CompareAny_mirror r : equal_to_copy r.
Proof.
  induction r as [k v | p s | p s | p d | p t | p rs IH | p rkvs IH | n p rfs IH]
    using Any_nested_ind; intros Hsup Hin l h Hm Hok;
    inversion Hm as [k' v' | p' p0 s' Hf | p' p0 ls rs' Hls | p' p0 lkvs rkvs' Hkvs
                     | n' p' p0 lfs rfs' Hp' Hfs]; subst; cbn [CompareAny type_index].
  - rewrite bool_decide_eq_true_2 by done. cbn. rewrite Z.eqb_refl. eauto.
  - rewrite !bool_decide_eq_true_2 by done. cbn. eauto.
  - rewrite bool_decide_eq_true_2 by done. cbn [negb]. unfold CompareArray_body.
    rewrite (Forall2_length _ _ _ Hls), Z.eqb_refl. cbn [negb andb].
    apply CompareArray_loop_mirror; try done.
    intros x Hx. by apply (subterms_trans V (AnyArray p rs)).
  - rewrite bool_decide_eq_true_2 by done. cbn [negb]. unfold CompareMap_body.
    rewrite (Forall2_length _ _ _ Hkvs), Z.eqb_refl. cbn [negb andb].
    cbn in Hsup. apply andb_true_iff in Hsup as [Hsup Hdist].
    rewrite forallb_forall in Hsup.
    assert (Hsub : ∀ kv, kv ∈ rkvs → kv.1 ∈ subterms V ∧ kv.2 ∈ subterms V).
    { intros kv Hkv. split; apply (subterms_trans V (AnyMap p rkvs)); try done;
        cbn; apply elem_of_flat_map; exists kv; (split; [done |]); set_solver. }
    destruct (CompareMap_lhs_loop_mirror rkvs lkvs rkvs) with (h := h) as (h1 & -> & Hok1);
      [| done | cbn; eauto].
    apply Forall2_same_length_lookup. split; [by eapply Forall2_length |].
    intros j l r Hl Hr.
    destruct (Forall2_lookup_lr _ _ _ _ _ _ Hkvs Hl Hr) as [Hk Hv].
    assert (Hrin : r ∈ rkvs) by (by eapply list_elem_of_lookup_2).
    specialize (Hsup r (proj1 (list_elem_of_In _ _) Hrin)).
    apply andb_true_iff in Hsup as [Hsup Hsupv]. apply andb_true_iff in Hsup as [Hkey Hsupk].
    rewrite Forall_forall in IH. destruct (IH r Hrin) as [_ IHv].
    destruct (Hsub r Hrin) as [Hsubk Hsubv].
    repeat split; try done.
    apply (map_find_mirror rkvs Hdist (λ kv Hkv, proj1 (Hsub kv Hkv)) j); done.
  - rewrite bool_decide_eq_true_2 by done. cbn [negb]. unfold CompareObject_body.
    cbn [type_index]. cbn in Hsup.
    destruct (extra_info _) as [extra |] eqn:Hextra; [| done].
    rewrite !andb_true_iff in Hsup. destruct Hsup as ((((Hkind & _) & _) & _) & Hsupf).
    assert (Hinf : ∀ x, x ∈ rfs → x ∈ subterms V).
    { intros x Hx. by apply (subterms_trans V (AnyObject n p rfs)). }
    pose proof (CompareObject_fields_mirror rfs IH Hsupf Hinf) as Hfields.
    destruct (structural_eq_hash_kind extra) eqn:Hk; try done;
      cbn [v_int64]; decide_tests; cbn [orb andb negb].
    + destruct (Hfields (fields (TVMFFIGetTypeInfo (kTVMFFIDynObject n))) lfs h Hfs Hok)
        as (h1 & -> & Hok1). cbn. eauto.
    + destruct Hok as [Hlr Hrl].
      destruct (equal_map_lhs_ h !! φ p) as [it |] eqn:Hit.
      * destruct (Hlr _ _ Hit) as (r1 & Hr1 & Hobj1 & Hφ & -> & _).
        apply φ_inj in Hφ; [| by eexists (AnyObject n p rfs) | by exists r1].
        cbn. rewrite bool_decide_eq_true_2 by done. eexists. by split.
      * destruct (equal_map_rhs_ h !! p) as [back |] eqn:Hback.
        { destruct (Hrl _ _ Hback) as [_ [? Hsome]]. congruence. }
        rewrite bool_decide_eq_false_2 by (by intros [? ?]). cbn.
        destruct (Hfields (fields (TVMFFIGetTypeInfo (kTVMFFIDynObject n))) lfs h Hfs)
          as (h1 & -> & Hok1); [done |]. cbn. eexists. split; [done |].
        by apply maps_ok_record_equality.
    + destruct (same_as _ _); cbn; [eauto |].
      destruct (Hfields (fields (TVMFFIGetTypeInfo (kTVMFFIDynObject n))) lfs h Hfs Hok)
        as (h1 & -> & Hok1). cbn. eauto.
Qed.

(** A copy is structurally equal to the original, whatever the flags. *)
Lemma Equal_mirror l map_free_vars skip_ndarray_content :
  supported V = true → mirror l V → Equal l V map_free_vars skip_ndarray_content = Ok true.
Proof.
  intros Hsup Hm. unfold Equal.
  destruct (CompareAny_mirror V Hsup (subterms_self V) l
              (new_handler map_free_vars skip_ndarray_content None) Hm) as (h' & -> & _); [| done].
  split; cbn; intros ? ?; by rewrite lookup_empty.
Qed.

Lemma GetFirstMismatch_mirror l map_free_vars skip_ndarray_content :
  supported V = true → mirror l V →
  GetFirstMismatch l V map_free_vars skip_ndarray_content = Ok None.
Proof.
  intros Hsup Hm. unfold GetFirstMismatch.
  destruct (CompareAny_mirror V Hsup (subterms_self V) l
              (new_handler map_free_vars skip_ndarray_content (Some ([], []))) Hm)
    as (h' & -> & _); [| done].
  split; cbn; intros ? ?; by rewrite lookup_empty.
Qed.
End Mirror.

(** Different objects of the value have different addresses. *)
Definition unique_addresses (v : Any) : Prop :=
  ∀ a b, a ∈ subterms v → b ∈ subterms v → is_object a = true → is_object b = true →
         v_int64 a = v_int64 b → a = b.

(** A copy whose strings all live at addresses not in use. *)
Definition copy_of (V : Any) (φ : Z → Z) : Any → Any → Prop :=
  mirror φ (λ p' _, unused_address V φ p').

Lemma Equal_copy `{TypeRegistry} V φ l map_free_vars skip_ndarray_content :
  (∀ p q, object_address V p → object_address V q → φ p = φ q → p = q) →
  supported V = true → copy_of V φ l V →
  Equal l V map_free_vars skip_ndarray_content = Ok true
  ∧ GetFirstMismatch l V map_free_vars skip_ndarray_content = Ok None.
Proof.
  intros Hinj Hsup Hm.
  split; [apply (Equal_mirror V φ (λ p' _, unused_address V φ p'))
         | apply (GetFirstMismatch_mirror V φ (λ p' _, unused_address V φ p'))]; try done.
  all: try (intros p' p q [_ Hf] Hq; by apply Hf).
  all: intros p' p q t [Hf _] Hq Heq; by destruct (Hf (AnyStr q t) Hq).
Qed.

(** A supported value is a copy of itself, with every address kept. *)
Lemma mirror_refl `{TypeRegistry} V r :
  supported r = true → r ∈ subterms V →
  mirror id (λ p' p, p' = p ∧ ∃ s, AnyStr p s ∈ subterms V) r r.
Proof.
  induction r as [k v | p s | p s | p d | p t | p rs IH | p rkvs IH | n p rfs IH]
    using Any_nested_ind; intros Hsup Hin; try done.
  - constructor.
  - constructor. split; [done |]. by exists s.
  - constructor. cbn in Hsup. rewrite forallb_forall in Hsup.
    apply Forall2_same_length_lookup. split; [done |]. intros i x y Hx Hy.
    assert (y = x) as -> by congruence. rewrite Forall_forall in IH.
    assert (Hxin : x ∈ rs) by (by eapply list_elem_of_lookup_2).
    apply IH; [done | by apply Hsup, list_elem_of_In |].
    by apply (subterms_trans V (AnyArray p rs)).
  - constructor. cbn in Hsup. apply andb_true_iff in Hsup as [Hsup _].
    rewrite forallb_forall in Hsup.
    apply Forall2_same_length_lookup. split; [done |]. intros i x y Hx Hy.
    assert (y = x) as -> by congruence. rewrite Forall_forall in IH.
    assert (Hxin : x ∈ rkvs) by (by eapply list_elem_of_lookup_2).
    specialize (Hsup x (proj1 (list_elem_of_In _ _) Hxin)).
    rewrite !andb_true_iff in Hsup. destruct Hsup as [[_ Hk] Hv].
    destruct (IH x Hxin) as [IHk IHv].
    split; [apply IHk | apply IHv]; try done;
      apply (subterms_trans V (AnyMap p rkvs)); try done;
      cbn; apply elem_of_flat_map; exists x; (split; [done |]); set_solver.
  - constructor; [done |]. cbn in Hsup. rewrite !andb_true_iff in Hsup.
    destruct Hsup as [_ Hsup]. rewrite forallb_forall in Hsup.
    apply Forall2_same_length_lookup. split; [done |]. intros i x y Hx Hy.
    assert (y = x) as -> by congruence. rewrite Forall_forall in IH.
    assert (Hxin : x ∈ rfs) by (by eapply list_elem_of_lookup_2).
    apply IH; [done | by apply Hsup, list_elem_of_In |].
    by apply (subterms_trans V (AnyObject n p rfs)).
Qed.

Lemma Equal_same `{TypeRegistry} v map_free_vars skip_ndarray_content :
  supported v = true → unique_addresses v →
  Equal v v map_free_vars skip_ndarray_content = Ok true
  ∧ GetFirstMismatch v v map_free_vars skip_ndarray_content = Ok None.
Proof.
  intros Hsup Huniq.
  assert (Hunmapped : ∀ p' p q, p' = p ∧ (∃ s, AnyStr p s ∈ subterms v) →
            object_address v q → id q ≠ p').
  { intros p' p q [-> [s Hs]] (r & Hr & Hobj & <-) Heq. cbn in Heq.
    assert (r = AnyStr p s) as -> by (apply Huniq; try done; by destruct r). done. }
  assert (Hapart : ∀ p' p q (t : string), p' = p ∧ (∃ s, AnyStr p s ∈ subterms v) →
            AnyStr q t ∈ subterms v → q = p' → q = p).
  { intros p' p q t [Hp _] _ Hq. congruence. }
  split; [apply (Equal_mirror v id (λ p' p, p' = p ∧ ∃ s, AnyStr p s ∈ subterms v))
         | apply (GetFirstMismatch_mirror v id (λ p' p, p' = p ∧ ∃ s, AnyStr p s ∈ subterms v))];
    try done; apply mirror_refl; try done; apply subterms_self.
Qed.

(** ** What a comparison leaves of the handler *)

(** The two flags and whether paths are being traced. *)
Definition handler_flags (h : StructEqualHandler) : bool * bool * bool :=
  (map_free_vars_ h, skip_ndarray_content_ h, tracing h).

(** The two reverse paths have the same number of steps. *)
Definition paths_balanced (h : StructEqualHandler) : Prop :=
  match mismatch_reverse_path_ h with
  | Some (lhs_path, rhs_path) => length lhs_path = length rhs_path
  | None => True
  end.

Lemma flags_record_mismatch sl sr h : handler_flags (record_mismatch sl sr h) = handler_flags h.
Proof. unfold handler_flags, tracing. cbn. by destruct (mismatch_reverse_path_ h) as [[] |]. Qed.

Lemma balanced_record_mismatch sl sr h : paths_balanced h → paths_balanced (record_mismatch sl sr h).
Proof.
  unfold paths_balanced. cbn. destruct (mismatch_reverse_path_ h) as [[pl pr] |]; [| done].
  rewrite !length_app. cbn. lia.
Qed.

Section Frame.
Context `{TypeRegistry}.

(** A comparison returns the handler with its flags as they were, pushes
    steps on both paths together, and pushes none when it succeeds. *)
Definition frame (lhs : Any) : Prop :=
  ∀ rhs h b h', CompareAny lhs rhs h = Ok (b, h') →
    handler_flags h' = handler_flags h
    ∧ (paths_balanced h → paths_balanced h')
    ∧ (b = true → mismatch_reverse_path_ h' = mismatch_reverse_path_ h).

Ltac framed :=
  repeat split; rewrite ?flags_record_mismatch; try done;
  try (intros; by apply balanced_record_mismatch).

Lemma CompareArray_loop_frame lhs : Forall frame lhs →
  ∀ rhs i lsize rsize h b h',
    CompareArray_loop CompareAny i lhs rhs lsize rsize h = Ok (b, h') →
    handler_flags h' = handler_flags h
    ∧ (paths_balanced h → paths_balanced h')
    ∧ (b = true → mismatch_reverse_path_ h' = mismatch_reverse_path_ h ∧ lsize = rsize).
Proof.
  assert (Hend : ∀ (lsize rsize : Z) h b h',
            (if lsize =? rsize then Ok (true, h)
             else if lsize >? rsize
                  then Ok (false, record_mismatch (ArrayIndex rsize) (ArrayIndexMissing rsize) h)
                  else Ok (false, record_mismatch (ArrayIndexMissing lsize) (ArrayIndex lsize) h))
            = Ok (b, h') →
            handler_flags h' = handler_flags h
            ∧ (paths_balanced h → paths_balanced h')
            ∧ (b = true → mismatch_reverse_path_ h' = mismatch_reverse_path_ h ∧ lsize = rsize)).
  { intros lsize rsize h b h'. destruct (Z.eqb_spec lsize rsize) as [-> | _].
    - intros [= <- <-]. by framed.
    - destruct (lsize >? rsize); intros [= <- <-]; framed. }
  induction 1 as [| l lhs Hl _ IH]; intros rhs i lsize rsize h b h'; [apply Hend |].
  destruct rhs as [| r rhs]; [apply Hend |]. cbn.
  destruct (CompareAny l r h) as [[ok h1] | |] eqn:E; cbn; try done.
  destruct (Hl r h ok h1 E) as (Hf & Hb & Hp). destruct ok; cbn.
  - intros Hrest. destruct (IH _ _ _ _ _ _ _ Hrest) as (Hf' & Hb' & Hp').
    split; [congruence |]. split; [auto |]. intros Hbt. destruct (Hp' Hbt) as [-> ->].
    split; [by apply Hp | done].
  - intros [= <- <-]. rewrite flags_record_mismatch. split; [done |]. split; [| done].
    intros Hbal. by apply balanced_record_mismatch, Hb.
Qed.

Lemma CompareMap_lhs_loop_frame lhs :
  Forall (λ kv : Any * Any, frame kv.2) lhs →
  ∀ rhs h b h', CompareMap_lhs_loop CompareAny lhs rhs h = Ok (b, h') →
    handler_flags h' = handler_flags h
    ∧ (paths_balanced h → paths_balanced h')
    ∧ (b = true → mismatch_reverse_path_ h' = mismatch_reverse_path_ h).
Proof.
  induction 1 as [| kv lhs Hkv _ IH]; intros rhs h b h'; cbn.
  - intros [= <- <-]. by framed.
  - destruct (map_find rhs _) as [it |]; [| intros [= <- <-]; framed].
    destruct (CompareAny kv.2 it.2 h) as [[ok h1] | |] eqn:E; cbn; try done.
    destruct (Hkv it.2 h ok h1 E) as (Hf & Hb & Hp). destruct ok; cbn.
    + intros Hrest. destruct (IH _ _ _ _ Hrest) as (Hf' & Hb' & Hp').
      split; [congruence |]. split; [auto |]. intros Hbt. rewrite Hp' by done. by apply Hp.
    + intros [= <- <-]. rewrite flags_record_mismatch. split; [done |]. split; [| done].
      intros Hbal. by apply balanced_record_mismatch, Hb.
Qed.

Lemma CompareMap_rhs_loop_frame lhs rhs : ∀ h,
  handler_flags (CompareMap_rhs_loop lhs rhs h) = handler_flags h
  ∧ (paths_balanced h → paths_balanced (CompareMap_rhs_loop lhs rhs h)).
Proof.
  induction rhs as [| kv rhs IH]; intros h; cbn; [done |].
  destruct (map_find lhs _); [apply IH |].
  rewrite flags_record_mismatch. split; [done |]. apply balanced_record_mismatch.
Qed.

Lemma CompareObject_fields_frame lhs : Forall frame lhs →
  ∀ infos rhs h b h', CompareObject_fields CompareAny infos lhs rhs h = Ok (b, h') →
    handler_flags h' = handler_flags h
    ∧ (paths_balanced h → paths_balanced h')
    ∧ (b = true → mismatch_reverse_path_ h' = mismatch_reverse_path_ h).
Proof.
  induction 1 as [| l lhs Hl _ IH]; intros infos rhs h b h'.
  - destruct infos; cbn; intros [= <- <-]; by framed.
  - destruct infos as [| field_info infos]; cbn; [intros [= <- <-]; by framed |].
    destruct (flag_set _ kTVMFFIFieldFlagBitMaskSEqHashIgnore); [apply IH |].
    destruct (flag_set _ kTVMFFIFieldFlagBitMaskSEqHashDef).
    + destruct (CompareAny l (hd AnyNone rhs) (set_map_free_vars true h))
        as [[ok h1] | |] eqn:E; cbn; try done.
      destruct (Hl _ _ ok h1 E) as (Hf & Hb & Hp).
      assert (Hf1 : handler_flags (set_map_free_vars (map_free_vars_ h) h1) = handler_flags h).
      { unfold handler_flags, tracing in *. cbn in *. congruence. }
      destruct ok; cbn.
      * intros Hrest. destruct (IH _ _ _ _ _ Hrest) as (Hf' & Hb' & Hp').
        split; [congruence |]. split; [intros Hbal; by apply Hb', Hb |].
        intros Hbt. rewrite Hp' by done. cbn. by apply Hp.
      * intros [= <- <-]. rewrite flags_record_mismatch. split; [done |]. split; [| done].
        intros Hbal. by apply balanced_record_mismatch, Hb.
    + destruct (CompareAny l (hd AnyNone rhs) h) as [[ok h1] | |] eqn:E; cbn; try done.
      destruct (Hl _ _ ok h1 E) as (Hf & Hb & Hp). destruct ok; cbn.
      * intros Hrest. destruct (IH _ _ _ _ _ Hrest) as (Hf' & Hb' & Hp').
        split; [congruence |]. split; [auto |]. intros Hbt. rewrite Hp' by done. by apply Hp.
      * intros [= <- <-]. rewrite flags_record_mismatch. split; [done |]. split; [| done].
        intros Hbal. by apply balanced_record_mismatch, Hb.
Qed.

Lemma CompareObject_body_frame lhs rhs lhs_fields rhs_fields : Forall frame lhs_fields →
  ∀ h b h', CompareObject_body CompareAny lhs rhs lhs_fields rhs_fields h = Ok (b, h') →
    handler_flags h' = handler_flags h
    ∧ (paths_balanced h → paths_balanced h')
    ∧ (b = true → mismatch_reverse_path_ h' = mismatch_reverse_path_ h).
Proof.
  intros Hall h b h'. unfold CompareObject_body.
  destruct (extra_info _) as [extra |]; [| intros [= <- <-]; by framed].
  set (kind := structural_eq_hash_kind extra).
  destruct (bool_decide (kind = kTVMFFISEqHashKindUnsupported)
            || bool_decide (kind = kTVMFFISEqHashKindUniqueInstance));
    [intros [= <- <-]; by framed |].
  destruct (bool_decide (kind = kTVMFFISEqHashKindConstTreeNode) && same_as lhs rhs);
    [intros [= <- <-]; by framed |].
  set (dag_or_var := bool_decide (kind = kTVMFFISEqHashKindDAGNode)
                     || bool_decide (kind = kTVMFFISEqHashKindFreeVar)).
  destruct (if dag_or_var then equal_map_lhs_ h !! v_int64 lhs else None);
    [intros [= <- <-]; by framed |].
  destruct (dag_or_var && bool_decide (is_Some (equal_map_rhs_ h !! v_int64 rhs)));
    [intros [= <- <-]; by framed |].
  destruct (bool_decide (kind = kTVMFFISEqHashKindFreeVar)).
  - cbn. destruct (negb (negb (same_as lhs rhs) && negb (map_free_vars_ h)));
      intros [= <- <-]; destruct dag_or_var; by framed.
  - destruct (CompareObject_fields _ _ _ _ _) as [[ok h1] | |] eqn:E; cbn; try done.
    destruct (CompareObject_fields_frame _ Hall _ _ _ _ _ E) as (Hf & Hb & Hp).
    destruct ok; intros [= <- <-]; destruct dag_or_var; by framed.
Qed.

Lemma CompareAny_frame lhs : frame lhs.
Proof.
  induction lhs as [k v | p s | p s | p d | p t | p l IH | p kvs IH | n p fs IH]
    using Any_nested_ind; intros rhs h b h'.
  all: destruct rhs as [k' v' | p' s' | p' s' | p' d' | p' t' | p' l' | p' kvs' | n' p' fs'];
    cbn [CompareAny];
    try (destruct (negb (bool_decide _)); intros [= <- <-]; by framed).
  - destruct (negb (bool_decide _)); [intros [= <- <-]; by framed |].
    destruct (CompareNDArray _ _ _ _ _); cbn; try done. intros [= <- <-]. by framed.
  - destruct (negb (bool_decide _)); [intros [= <- <-]; by framed |].
    unfold CompareArray_body.
    destruct (negb (Z.of_nat (length l) =? Z.of_nat (length l')) && negb (tracing h));
      [intros [= <- <-]; by framed |].
    intros Hrun. destruct (CompareArray_loop_frame _ IH _ _ _ _ _ _ _ Hrun) as (? & ? & Hp).
    split; [done |]. split; [done |]. intros Hbt. by destruct (Hp Hbt).
  - destruct (negb (bool_decide _)); [intros [= <- <-]; by framed |].
    unfold CompareMap_body.
    destruct (negb (Z.of_nat (length kvs) =? Z.of_nat (length kvs')) && negb (tracing h));
      [intros [= <- <-]; by framed |].
    destruct (CompareMap_lhs_loop _ _ _ _) as [[ok h1] | |] eqn:E; cbn; try done.
    assert (Hvals : Forall (λ kv : Any * Any, frame kv.2) kvs).
    { eapply Forall_impl; [exact IH |]. by intros kv [_ ?]. }
    destruct (CompareMap_lhs_loop_frame _ Hvals _ _ _ _ E) as (Hf & Hb & Hp).
    destruct ok; cbn; [| intros [= <- <-]; by framed].
    destruct (_ =? _); intros [= <- <-]; [by framed |].
    destruct (CompareMap_rhs_loop_frame kvs kvs' h1) as [Hf' Hb'].
    split; [congruence |]. split; [auto | done].
  - destruct (negb (bool_decide _)); [intros [= <- <-]; by framed |].
    by apply CompareObject_body_frame.
Qed.
End Frame.

(** ** The layout of the node table *)

Section Table_layout.
Context `{TypeRegistry} `{ReflectionVTable}.

Lemma MakeIndex_skip node ix :
  is_null node = true ∨ node_index_count (node_index_ ix) node = true →
  MakeIndex node ix = Ok ix.
Proof.
  intros Hskip. destruct (is_null node) eqn:Hnull.
  - destruct node; cbn; by rewrite ?Hnull.
  - destruct Hskip as [? | Hcount]; [done |]. destruct node; cbn; by rewrite Hnull, Hcount.
Qed.

(** A root that is not null is the first value indexed. *)
Lemma MakeIndex_root v ix :
  is_null v = false → MakeIndex v NodeIndexer_init = Ok ix →
  ∃ new, node_list_ ix = AnyNone :: v :: new.
Proof.
  intros Hnull Hrun.
  assert (Hcount : node_index_count (node_index_ NodeIndexer_init) v = false).
  { unfold node_index_count. cbn. unfold AnyEqual. cbn.
    unfold is_null in Hnull. apply bool_decide_eq_false in Hnull.
    rewrite (bool_decide_eq_false_2 (kTVMFFINone = type_index v)) by congruence.
    done. }
  rewrite (MakeIndex_unfold v _ Hnull Hcount) in Hrun.
  destruct (MakeNodeIndex_spec v NodeIndexer_init indexer_ok_init Hnull) as (ix1 & Hmk & Hok1 & Hl1 & _).
  { apply bool_decide_eq_false in Hcount. exact Hcount. }
  rewrite Hmk in Hrun. cbn [bindR] in Hrun. destruct (reflection_missing v); [done |].
  destruct (MakeIndex_elems_post (indexed_children v)) with (ix := ix1) (ix' := ix)
    as (_ & new & Hl & _); try done.
  { apply Forall_forall. intros x _. apply MakeIndex_correct. }
  exists new. by rewrite Hl, Hl1.
Qed.

Lemma JSONGraph_Create_layout v g :
  JSONGraph_Create v = Ok g →
  nodes g !! 0%nat = Some empty_JSONNode
  ∧ root g = (if is_null v then 0 else 1)
  ∧ (is_null v = true → length (nodes g) = 1%nat)
  ∧ (is_null v = false →
     ∃ ix, MakeIndex v NodeIndexer_init = Ok ix
           ∧ ∃ jnode, nodes g !! 1%nat = Some jnode
                      ∧ JSONAttrGetter_Get (node_index_ ix) v = Ok jnode).
Proof.
  intros Hcreate. destruct (JSONGraph_Create_Ok v g Hcreate) as (ix & Hix & Hnodes & Hroot).
  destruct (MakeIndex_correct v _ _ indexer_ok_init Hix) as (Hok & new & Hl & _).
  cbn in Hl. rewrite Hl in Hnodes.
  inversion Hnodes as [| ? j0 ? js Hj0 Hjs Heq1 Heq2]; subst.
  change (Ok empty_JSONNode = Ok j0) in Hj0. injection Hj0 as <-.
  split; [done |].
  unfold node_index_at in Hroot. rewrite (ok_index _ Hok), Hl in Hroot.
  destruct (is_null v) eqn:Hnull.
  - rewrite (MakeIndex_skip v _ (or_introl Hnull)) in Hix. injection Hix as <-.
    cbn in Hl. injection Hl as <-. inversion Hjs; subst.
    split; [| split; [done | done]].
    change (index_of_list 0 [AnyNone]) with [(ref_of AnyNone, 0)] in Hroot.
    cbn [node_index_find] in Hroot. destruct (AnyEqual _ _); [congruence | done].
  - destruct (MakeIndex_root v ix Hnull Hix) as (new' & Hl'). rewrite Hl in Hl'.
    injection Hl' as ->. inversion Hjs as [| ? j1 ? js' Hj1 Hjs']; subst.
    split; [| split; [done |]].
    + change (index_of_list 0 (AnyNone :: v :: new'))
        with ((ref_of AnyNone, 0) :: (ref_of v, 1) :: index_of_list 2 new') in Hroot.
      cbn [node_index_find] in Hroot. assert (Hne : AnyEqual (ref_of AnyNone) (ref_of v) = false).
      { unfold AnyEqual. cbn. unfold is_null in Hnull. apply bool_decide_eq_false in Hnull.
        by rewrite (bool_decide_eq_false_2 (kTVMFFINone = type_index v)) by congruence. }
      rewrite Hne, AnyEqual_refl in Hroot. congruence.
    + intros _. exists ix. split; [done |]. by exists j1.
Qed.
End Table_layout.

(** ** When indexing fails *)

Section Index_outcome.
Context `{TypeRegistry} `{ReflectionVTable}.

(** Indexing [node] succeeded, or stopped at a value of [node] that has
    neither [repr_bytes] nor reflection metadata. *)
Definition index_outcome (node : Any) (r : Result NodeIndexer) : Prop :=
  match r with
  | Ok ix => indexer_ok ix
  | Fatal msg => ∃ a, a ∈ subterms node ∧ reflection_missing a = true
                      ∧ msg = missing_reflection (GetTypeKey a)
  | Undefined => False
  end.

Definition indexes (node : Any) : Prop :=
  ∀ ix, indexer_ok ix → index_outcome node (MakeIndex node ix).

Lemma MakeIndex_elems_outcome xs : Forall indexes xs →
  ∀ ix, indexer_ok ix →
    match MakeIndex_elems MakeIndex xs ix with
    | Ok ix' => indexer_ok ix'
    | Fatal msg => ∃ x a, x ∈ xs ∧ a ∈ subterms x ∧ reflection_missing a = true
                          ∧ msg = missing_reflection (GetTypeKey a)
    | Undefined => False
    end.
Proof.
  induction 1 as [| x xs Hx _ IH]; intros ix Hok; cbn; [done |].
  specialize (Hx ix Hok). destruct (MakeIndex x ix) as [ix1 | msg |]; cbn; [| | done].
  - specialize (IH ix1 Hx). destruct (MakeIndex_elems _ xs ix1) as [ix' | msg |]; [done | | done].
    destruct IH as (y & a & Hy & Ha). exists y, a. split; [by right | done].
  - destruct Hx as (a & Ha). exists x, a. split; [by left | done].
Qed.

Lemma indexes_children node : Forall indexes (indexed_children node) → indexes node.
Proof.
  intros Hch ix Hok.
  destruct (is_null node) eqn:Hnull; [by rewrite MakeIndex_skip by auto |].
  destruct (node_index_count (node_index_ ix) node) eqn:Hcount;
    [by rewrite MakeIndex_skip by auto |].
  rewrite (MakeIndex_unfold node ix Hnull Hcount).
  destruct (MakeNodeIndex_spec node ix Hok Hnull) as (ix1 & -> & Hok1 & _).
  { by apply bool_decide_eq_false in Hcount. }
  cbn [bindR]. destruct (reflection_missing node) eqn:Hmiss.
  - exists node. split; [apply subterms_self | done].
  - pose proof (MakeIndex_elems_outcome _ Hch ix1 Hok1) as Hout.
    destruct (MakeIndex_elems _ _ ix1) as [ix' | msg |]; [done | | done].
    destruct Hout as (x & a & Hx & Ha & Hrest). exists a. split; [| done].
    apply (subterms_children node x); [| done]. by apply indexed_children_children.
Qed.

Lemma MakeIndex_outcome node : indexes node.
Proof.
  induction node as [k v | p s | p s | p d | p t | p l IH | p kvs IH | n p fs IH]
    using Any_nested_ind; apply indexes_children; cbn [indexed_children].
  1-5: by constructor.
  - done.
  - destruct (forallb _ kvs).
    + apply Forall_fmap. eapply Forall_impl; [exact IH |]. by intros kv [_ ?].
    + induction IH as [| kv kvs [Hk Hv] _ IH']; cbn; [constructor |].
      constructor; [done |]. by constructor.
  - destruct (GetReprBytes _); [constructor |].
    apply Forall_forall. intros x [_ Hx%elem_of_take]%list_elem_of_filter.
    destruct Hx as (i & Hi & _). rewrite Forall_forall in IH. apply IH.
    by eapply list_elem_of_lookup_2.
Qed.
End Index_outcome.

(** ** What [FieldDependencyFinder] adds *)

Section Finder_adds.
Context `{TypeRegistry} `{ReflectionVTable}.

Lemma FieldDependencyFinder_fields_added infos : ∀ jnode0 jnode,
  FieldDependencyFinder_fields infos jnode0 = Ok jnode →
  ∃ added, jn_fields jnode = jn_fields jnode0 ++ added
    ∧ (length added ≤ length infos)%nat
    ∧ ∀ d, d ∈ added →
        ∃ field_info i, field_info ∈ infos ∧ is_reference_field field_info = true
          ∧ ParseOptionalValue (ParseValue_int 64) jnode0 (name field_info) = Ok (Some i)
          ∧ d = to_size_t i.
Proof.
  induction infos as [| fi infos IH]; intros jnode0 jnode; cbn.
  - intros [= <-]. exists []. rewrite app_nil_r. split; [done |]. split; [done |].
    by intros ? ?%elem_of_nil.
  - destruct (is_reference_field fi) eqn:Hfi.
    + destruct (ParseOptionalValue (ParseValue_int 64) jnode0 (name fi)) as [[i |] | |] eqn:Hp;
        cbn; try done.
      * intros Hrun. destruct (IH _ _ Hrun) as (added & Hadd & Hlen & Hfrom). cbn in Hadd.
        exists (to_size_t i :: added). split; [by rewrite Hadd, <- app_assoc |].
        split; [cbn; lia |]. intros d [-> | Hd]%elem_of_cons.
        -- exists fi, i. split; [by left | done].
        -- destruct (Hfrom d Hd) as (fi' & i' & ? & ? & Hp' & ?).
           exists fi', i'. split; [by right |]. split; [done |]. split; [| done].
           rewrite <- Hp'. by apply ParseOptionalValue_attrs.
      * intros Hrun. destruct (IH _ _ Hrun) as (added & Hadd & Hlen & Hfrom).
        exists added. split; [done |]. split; [lia |]. intros d Hd.
        destruct (Hfrom d Hd) as (fi' & i' & ? & ? & ? & ?).
        exists fi', i'. split; [by right | done].
    + cbn. intros Hrun. destruct (IH _ _ Hrun) as (added & Hadd & Hlen & Hfrom).
      exists added. split; [done |]. split; [lia |]. intros d Hd.
      destruct (Hfrom d Hd) as (fi' & i' & ? & ? & ? & ?).
      exists fi', i'. split; [by right | done].
Qed.

Lemma FieldDependencyFinder_Find_added node jnode0 jnode :
  FieldDependencyFinder_Find node jnode0 = Ok jnode →
  ∃ added, jn_fields jnode = jn_fields jnode0 ++ added
    ∧ (length added ≤ length (fields (TVMFFIGetTypeInfo (type_index node))))%nat
    ∧ (assigns_fields node jnode0 = false → added = [])
    ∧ ∀ d, d ∈ added →
        ∃ field_info i, field_info ∈ fields (TVMFFIGetTypeInfo (type_index node))
          ∧ is_reference_field field_info = true
          ∧ ParseOptionalValue (ParseValue_int 64) jnode0 (name field_info) = Ok (Some i)
          ∧ d = to_size_t i.
Proof.
  assert (Hsame : jnode0 = jnode →
    ∃ added, jn_fields jnode = jn_fields jnode0 ++ added
      ∧ (length added ≤ length (fields (TVMFFIGetTypeInfo (type_index node))))%nat
      ∧ (assigns_fields node jnode0 = false → added = [])
      ∧ ∀ d, d ∈ added →
          ∃ field_info i, field_info ∈ fields (TVMFFIGetTypeInfo (type_index node))
            ∧ is_reference_field field_info = true
            ∧ ParseOptionalValue (ParseValue_int 64) jnode0 (name field_info) = Ok (Some i)
            ∧ d = to_size_t i).
  { intros <-. exists []. rewrite app_nil_r. split; [done |]. split; [cbn; lia |].
    split; [done |]. by intros ? ?%elem_of_nil. }
  unfold FieldDependencyFinder_Find.
  destruct (is_null node) eqn:Hnull; [intros Heq; apply Hsame; by injection Heq |].
  destruct (below_StaticObjectBegin (type_index node)) eqn:Hpod;
    [intros Heq; apply Hsame; by injection Heq |].
  destruct (negb (String.length (jn_repr_bytes jnode0) =? 0)%nat
            || bool_decide (is_Some (GetReprBytes node))) eqn:Hopq;
    [intros Heq; apply Hsame; by injection Heq |].
  destruct (String.eqb (jn_type_key jnode0) ArrayObj_type_key) eqn:Ha;
    [intros Heq; apply Hsame; by injection Heq |].
  destruct (String.eqb (jn_type_key jnode0) MapObj_type_key) eqn:Hm;
    [intros Heq; apply Hsame; by injection Heq |].
  destruct (String.eqb (jn_type_key jnode0) NDArrayObj_type_key);
    [intros Heq; apply Hsame; by injection Heq |].
  cbn [orb]. destruct (extra_info _); [| done]. intros Hrun.
  destruct (FieldDependencyFinder_fields_added _ _ _ Hrun) as (added & Hadd & Hlen & Hfrom).
  exists added. split; [done |]. split; [done |]. split; [| done].
  unfold assigns_fields, is_object. by rewrite Ha, Hm, Hpod, Hopq.
Qed.
End Finder_adds.

(** ** The table [LoadJSON] returns and its root *)

Section Loaded_table.
Context `{TypeRegistry} `{ReflectionVTable}.

Lemma LoadJSON_nodes_length fuel next g T :
  LoadJSON_nodes fuel next g = Some (Ok T) → length T = length (nodes g).
Proof.
  unfold LoadJSON_nodes, LoadJSON_prepare.
  destruct (LoadJSON_tensors _) as [tensors | |]; cbn [bindR]; try done.
  destruct (LoadJSON_create _ _) as [[node_list next1] | |] eqn:Hcreate; cbn [bindR]; try done.
  destruct (LoadJSON_dependencies _ _) as [jnodes | |] eqn:Hdeps; cbn [bindR]; try done.
  destruct (TopoSort fuel _) as [[order | |] |]; try done.
  destruct (LoadJSON_set _ order _) as [st | |] eqn:Hset; cbn; try done.
  intros [= <-]. destruct (LoadJSON_set_untouched _ _ _ _ Hset) as (-> & _). cbn.
  by eapply LoadJSON_create_length.
Qed.
End Loaded_table.

(** * Further properties of the serializer, the loader and the comparator *)

(** ** Integers and booleans through their text *)

Section Integer_text.
Context `{TypeRegistry} `{ReflectionVTable}.

(** X1.  An [int64] value held by a field declared [int] or [bool] is read
    back unchanged: the attribute [JSONAttrGetter] writes for the field is the
    text from which [SetObjectField] parses the same integer, whatever else
    the attribute map holds and whatever the node table is. *)
Theorem X1_int_field_reads_back (node_index : list (AnyRef * Z)) (node_list : list Any)
    (field_info : TVMFFIFieldInfo) (z : Z) (attrs : AttrMap) (jnode : JSONNode) :
  - 2 ^ 63 ≤ z < 2 ^ 63 →
  field_static_type_index field_info = kTVMFFIInt
  ∨ field_static_type_index field_info = kTVMFFIBool →
  Getter_field node_index field_info (AnyInt z) attrs = Ok (jn_attrs jnode) →
  ParseOptionalValue (ParseValue_int 64) jnode (name field_info) = Ok (Some z)
  ∧ SetObjectField_value node_list jnode field_info = Ok (AnyInt z).
Proof.
  intros Hz Hti Hget. cbn in Hget. injection Hget as Hattrs.
  assert (Hparse : ParseOptionalValue (ParseValue_int 64) jnode (name field_info) = Ok (Some z)).
  { unfold ParseOptionalValue, ParseValue_int, GetValue.
    rewrite <- Hattrs, lookup_insert_eq. cbn [bindR].
    rewrite to_string_int_not_null, parse_int_to_string_int by done. done. }
  split; [done |]. unfold SetObjectField_value.
  destruct Hti as [-> | ->]; by rewrite Hparse.
Qed.

(** X2.  An integer or a boolean that is itself a node of the graph is
    created again by pass 1 of the loader from the node the serializer
    wrote for it, provided the registered type keys of [None], [bool] and
    [int] are pairwise different and not empty. *)
Theorem X2_int_and_bool_nodes_read_back (node_index : list (AnyRef * Z)) (next : Z) :
  StaticTypeKey kTVMFFIInt ≠ StaticTypeKey kTVMFFINone →
  StaticTypeKey kTVMFFIBool ≠ StaticTypeKey kTVMFFINone →
  StaticTypeKey kTVMFFIInt ≠ StaticTypeKey kTVMFFIBool →
  StaticTypeKey kTVMFFIInt ≠ ""%string →
  StaticTypeKey kTVMFFIBool ≠ ""%string →
  (∀ z, - 2 ^ 63 ≤ z < 2 ^ 63 →
     ∃ jnode, JSONAttrGetter_Get node_index (AnyInt z) = Ok jnode
              ∧ CreateInitAny jnode next = Ok (AnyInt z, next))
  ∧ (∀ b, ∃ jnode, JSONAttrGetter_Get node_index (AnyBool b) = Ok jnode
                   ∧ CreateInitAny jnode next = Ok (AnyBool b, next)).
Proof.
  intros Hin Hbn Hib Hi Hb.
  assert (Hlen : ∀ s : string, s ≠ ""%string → (String.length s =? 0)%nat = false).
  { intros [| c s] Hs; [done | done]. }
  split.
  - intros z Hz.
    exists {| jn_type_key := StaticTypeKey kTVMFFIInt; jn_repr_bytes := "";
              jn_attrs := <["v_int64" := to_string_int z]> ∅;
              jn_keys := []; jn_data := []; jn_fields := [] |}.
    split; [reflexivity |]. unfold CreateInitAny. cbn [jn_type_key].
    rewrite (proj2 (String.eqb_neq _ _) Hin), (Hlen _ Hi), (proj2 (String.eqb_neq _ _) Hib),
      String.eqb_refl.
    cbn [orb]. unfold ParseValue_int, GetValue. cbn [jn_attrs].
    rewrite lookup_insert_eq. cbn [bindR]. by rewrite parse_int_to_string_int.
  - intros b.
    exists {| jn_type_key := StaticTypeKey kTVMFFIBool; jn_repr_bytes := "";
              jn_attrs := <["v_int64" := to_string_int (if b then 1 else 0)]> ∅;
              jn_keys := []; jn_data := []; jn_fields := [] |}.
    split; [reflexivity |]. unfold CreateInitAny. cbn [jn_type_key].
    rewrite (proj2 (String.eqb_neq _ _) Hbn), (Hlen _ Hb), String.eqb_refl.
    cbn [orb]. unfold ParseValue_int, GetValue. cbn [jn_attrs].
    rewrite lookup_insert_eq. cbn [bindR].
    rewrite parse_int_to_string_int by (destruct b; lia). by destruct b.
Qed.

End Integer_text.

Lemma X1_witness :
  let field_info := Example.field "value" 0 kTVMFFIInt in
  let jnode := Example.jnode "test.IntImm" [("value", "-42")] [] [] in
  ParseOptionalValue (ParseValue_int 64) jnode (name field_info) = Ok (Some (-42))
  ∧ SetObjectField_value [] jnode field_info = Ok (AnyInt (-42)).
Proof.
  cbn zeta.
  apply (X1_int_field_reads_back [] [] (Example.field "value" 0 kTVMFFIInt) (-42) ∅
           (Example.jnode "test.IntImm" [("value", "-42")] [] [])).
  - lia.
  - by left.
  - vm_compute. reflexivity.
Defined.

Lemma X2_witness :
  (∀ z, - 2 ^ 63 ≤ z < 2 ^ 63 →
     ∃ jnode, JSONAttrGetter_Get [] (AnyInt z) = Ok jnode
              ∧ CreateInitAny jnode 100 = Ok (AnyInt z, 100))
  ∧ (∀ b, ∃ jnode, JSONAttrGetter_Get [] (AnyBool b) = Ok jnode
                   ∧ CreateInitAny jnode 100 = Ok (AnyBool b, 100)).
Proof. apply (X2_int_and_bool_nodes_read_back [] 100); vm_compute; discriminate. Defined.

(** ** Structural equality of a value with itself and with a copy *)

(** X3.  Structural equality is reflexive on the values the loader can
    rebuild (none, integers, booleans, strings, arrays, maps with plain keys
    and reflective objects compared by content) when different objects have
    different addresses: [Equal v v] is true and [GetFirstMismatch v v] finds
    nothing, for every setting of the two flags. *)
Theorem X3_equal_reflexive `{TypeRegistry} (v : Any) (map_free_vars skip_ndarray_content : bool) :
  supported v = true → unique_addresses v →
  Equal v v map_free_vars skip_ndarray_content = Ok true
  ∧ GetFirstMismatch v v map_free_vars skip_ndarray_content = Ok None.
Proof. apply Equal_same. Qed.

Lemma X3_witness :
  let pair := AnyObject Example.kPair 2 [AnyStr 3 "x"; AnyNone] in
  let v := AnyArray 1 [pair; AnyMap 4 [(AnyStr 5 "k", pair); (AnyStr 6 "l", AnyInt 7)]] in
  Equal v v false false = Ok true ∧ GetFirstMismatch v v false false = Ok None.
Proof.
  cbn zeta.
  apply (X3_equal_reflexive
           (AnyArray 1 [AnyObject Example.kPair 2 [AnyStr 3 "x"; AnyNone];
                        AnyMap 4 [(AnyStr 5 "k", AnyObject Example.kPair 2 [AnyStr 3 "x"; AnyNone]);
                                  (AnyStr 6 "l", AnyInt 7)]])).
  - vm_compute. reflexivity.
  - intros a b Ha Hb. cbn in Ha, Hb. set_unfold. naive_solver.
Defined.

(** X4.  A copy of a supported value at other addresses is structurally
    equal to it: if [φ] sends the addresses of the objects of [v] to the
    addresses of their copies without identifying two of them, and the
    strings of the copy live at addresses that neither [v] nor the copied
    objects use, then [Equal] of the copy and [v] is true and
    [GetFirstMismatch] finds nothing.  Shared objects of [v] must be shared
    in the copy, since [φ] is a function. *)
Theorem X4_equal_to_copy `{TypeRegistry} (v copy : Any) (φ : Z → Z)
    (map_free_vars skip_ndarray_content : bool) :
  (∀ p q, object_address v p → object_address v q → φ p = φ q → p = q) →
  supported v = true → copy_of v φ copy v →
  Equal copy v map_free_vars skip_ndarray_content = Ok true
  ∧ GetFirstMismatch copy v map_free_vars skip_ndarray_content = Ok None.
Proof. apply Equal_copy. Qed.

Lemma X4_witness :
  let v := AnyArray 1 [AnyObject Example.kPair 2 [AnyStr 3 "x"; AnyNone];
                       AnyObject Example.kPair 2 [AnyStr 3 "x"; AnyNone]] in
  let copy := AnyArray 101 [AnyObject Example.kPair 102 [AnyStr 203 "x"; AnyNone];
                            AnyObject Example.kPair 102 [AnyStr 204 "x"; AnyNone]] in
  Equal copy v false false = Ok true ∧ GetFirstMismatch copy v false false = Ok None.
Proof.
  cbn zeta.
  apply (X4_equal_to_copy
           (AnyArray 1 [AnyObject Example.kPair 2 [AnyStr 3 "x"; AnyNone];
                        AnyObject Example.kPair 2 [AnyStr 3 "x"; AnyNone]])
           (AnyArray 101 [AnyObject Example.kPair 102 [AnyStr 203 "x"; AnyNone];
                          AnyObject Example.kPair 102 [AnyStr 204 "x"; AnyNone]])
           (λ p, p + 100)).
  - intros p q _ _. lia.
  - vm_compute. reflexivity.
  - assert (Hunused : ∀ p', 200 ≤ p' →
      unused_address
        (AnyArray 1 [AnyObject Example.kPair 2 [AnyStr 3 "x"; AnyNone];
                     AnyObject Example.kPair 2 [AnyStr 3 "x"; AnyNone]]) (λ p, p + 100) p').
    { intros p' Hp'. split.
      - intros r Hr _. cbn in Hr. set_unfold.
        destruct Hr as [-> | [-> | [-> | [-> | [-> | [-> | [-> | []]]]]]]]; cbn; lia.
      - intros q (r & Hr & _ & <-). cbn in Hr. set_unfold.
        destruct Hr as [-> | [-> | [-> | [-> | [-> | [-> | [-> | []]]]]]]]; cbn; lia. }
    unfold copy_of. repeat constructor; apply Hunused; lia.
Defined.

(** ** What a comparison does to its handler, and how it can fail *)

(** X5.  A comparison that returns hands the handler back with
    [map_free_vars_] and [skip_ndarray_content_] as it found them, also after
    fields flagged [SEqHashDef], during which [map_free_vars_] is switched
    on, and after an early stop; path tracing stays on or off; and a
    successful comparison leaves the mismatch paths untouched. *)
Theorem X5_comparison_restores_flags `{TypeRegistry} (lhs rhs : Any)
    (h h' : StructEqualHandler) (b : bool) :
  CompareAny lhs rhs h = Ok (b, h') →
  map_free_vars_ h' = map_free_vars_ h
  ∧ skip_ndarray_content_ h' = skip_ndarray_content_ h
  ∧ tracing h' = tracing h
  ∧ (b = true → mismatch_reverse_path_ h' = mismatch_reverse_path_ h).
Proof.
  intros Hrun. destruct (CompareAny_frame lhs rhs h b h' Hrun) as (Hf & _ & Hp).
  unfold handler_flags in Hf. injection Hf as ? ? ?. by repeat split.
Qed.

(** X6.  The two paths [GetFirstMismatch] reports have the same number of
    steps: every level of the comparison pushes one step on each side. *)
Theorem X6_mismatch_paths_same_length `{TypeRegistry} (lhs rhs : Any)
    (map_free_vars skip_ndarray_content : bool) (lhs_path rhs_path : AccessPath) :
  GetFirstMismatch lhs rhs map_free_vars skip_ndarray_content = Ok (Some (lhs_path, rhs_path)) →
  length lhs_path = length rhs_path.
Proof.
  unfold GetFirstMismatch.
  destruct (CompareAny lhs rhs _) as [[ok h'] | |] eqn:Hrun; cbn [bindR]; try done.
  destruct (CompareAny_frame lhs rhs _ ok h' Hrun) as (_ & Hbal & _).
  specialize (Hbal eq_refl). unfold paths_balanced in Hbal.
  destruct ok; [done |].
  destruct (mismatch_reverse_path_ h') as [[pl pr] |]; intros [= <- <-]; [| done].
  by rewrite !length_reverse.
Qed.

(** X7.  Two arrays, or two maps, that compare equal have the same number of
    elements, with and without path tracing: the fast path on the sizes,
    taken only when tracing is off, and the loops, which run otherwise, agree
    that containers of different sizes are different. *)
Theorem X7_equal_containers_same_size `{TypeRegistry} (lhs rhs : Any)
    (h h' : StructEqualHandler) :
  CompareAny lhs rhs h = Ok (true, h') →
  match lhs, rhs with
  | AnyArray _ l, AnyArray _ r => length l = length r
  | AnyMap _ l, AnyMap _ r => length l = length r
  | _, _ => True
  end.
Proof.
  destruct lhs as [| | | | | p l | p l |], rhs as [| | | | | q r | q r |]; try done;
    cbn [CompareAny]; (destruct (negb (bool_decide _)); [done |]).
  - unfold CompareArray_body.
    destruct (negb (Z.of_nat (length l) =? Z.of_nat (length r)) && negb (tracing h)); [done |].
    intros Hrun.
    assert (Hall : Forall frame l) by (apply Forall_forall; intros x _; apply CompareAny_frame).
    destruct (CompareArray_loop_frame l Hall _ _ _ _ _ _ _ Hrun) as (_ & _ & Hsize).
    destruct (Hsize eq_refl) as [_ ?]. lia.
  - unfold CompareMap_body.
    destruct (negb (Z.of_nat (length l) =? Z.of_nat (length r)) && negb (tracing h)); [done |].
    destruct (CompareMap_lhs_loop _ _ _ _) as [[ok h1] | |]; cbn; try done.
    destruct ok; cbn; [| done].
    destruct (Z.eqb_spec (Z.of_nat (length l)) (Z.of_nat (length r))); [lia | done].
Qed.

Lemma X5_witness :
  let lhs := AnyArray 1 [AnyObject Example.kVar 2 [AnyStr 3 "x"]; AnyInt 4] in
  let rhs := AnyArray 5 [AnyObject Example.kVar 6 [AnyStr 7 "y"]; AnyInt 8] in
  let h := new_handler true false (Some ([], [])) in
  ∃ h', CompareAny lhs rhs h = Ok (false, h')
    ∧ map_free_vars_ h' = map_free_vars_ h
    ∧ skip_ndarray_content_ h' = skip_ndarray_content_ h
    ∧ tracing h' = tracing h
    ∧ (false = true → mismatch_reverse_path_ h' = mismatch_reverse_path_ h).
Proof.
  cbn zeta. eexists. split; [vm_compute; reflexivity |].
  eapply (X5_comparison_restores_flags
           (AnyArray 1 [AnyObject Example.kVar 2 [AnyStr 3 "x"]; AnyInt 4])
           (AnyArray 5 [AnyObject Example.kVar 6 [AnyStr 7 "y"]; AnyInt 8])
           (new_handler true false (Some ([], [])))).
  vm_compute. reflexivity.
Defined.

Lemma X6_witness :
  let lhs := AnyArray 1 [AnyObject Example.kPair 2 [AnyInt 3; AnyNone]] in
  let rhs := AnyArray 4 [AnyObject Example.kPair 5 [AnyInt 6; AnyNone]] in
  GetFirstMismatch lhs rhs false false
  = Ok (Some ([ArrayIndex 0; ObjectField "first"], [ArrayIndex 0; ObjectField "first"]))
  ∧ length [ArrayIndex 0; ObjectField "first"] = length [ArrayIndex 0; ObjectField "first"].
Proof.
  cbn zeta. split; [vm_compute; reflexivity |].
  apply (X6_mismatch_paths_same_length
           (AnyArray 1 [AnyObject Example.kPair 2 [AnyInt 3; AnyNone]])
           (AnyArray 4 [AnyObject Example.kPair 5 [AnyInt 6; AnyNone]]) false false).
  vm_compute. reflexivity.
Defined.

Lemma X7_witness :
  let lhs := AnyMap 1 [(AnyStr 2 "a", AnyInt 3); (AnyInt 4, AnyStr 5 "b")] in
  let rhs := AnyMap 6 [(AnyInt 4, AnyStr 7 "b"); (AnyStr 8 "a", AnyInt 3)] in
  ∃ h', CompareAny lhs rhs (new_handler false false (Some ([], []))) = Ok (true, h')
        ∧ length [(AnyStr 2 "a", AnyInt 3); (AnyInt 4, AnyStr 5 "b")]
          = length [(AnyInt 4, AnyStr 7 "b"); (AnyStr 8 "a", AnyInt 3)].
Proof.
  cbn zeta. eexists. split; [vm_compute; reflexivity |].
  eapply (X7_equal_containers_same_size
           (AnyMap 1 [(AnyStr 2 "a", AnyInt 3); (AnyInt 4, AnyStr 5 "b")])
           (AnyMap 6 [(AnyInt 4, AnyStr 7 "b"); (AnyStr 8 "a", AnyInt 3)])
           (new_handler false false (Some ([], [])))).
  vm_compute. reflexivity.
Defined.

(** ** The node table the serializer builds *)

(** X9.  The node table of a serialized graph starts with the empty node that
    stands for null.  A null root is serialized as that node alone, with root
    id 0; any other root is node 1, written from the final index, and the
    root id is 1. *)
Theorem X9_table_layout `{TypeRegistry} `{ReflectionVTable} (v : Any) (g : JSONGraph) :
  JSONGraph_Create v = Ok g →
  nodes g !! 0%nat = Some empty_JSONNode
  ∧ root g = (if is_null v then 0 else 1)
  ∧ (is_null v = true → length (nodes g) = 1%nat)
  ∧ (is_null v = false →
     ∃ ix, MakeIndex v NodeIndexer_init = Ok ix
           ∧ ∃ jnode, nodes g !! 1%nat = Some jnode
                      ∧ JSONAttrGetter_Get (node_index_ ix) v = Ok jnode).
Proof. apply JSONGraph_Create_layout. Qed.

Lemma X9_witness :
  let v := AnyObject Example.kPair 2 [AnyStr 3 "x"; AnyNone] in
  ∃ g, JSONGraph_Create v = Ok g
    ∧ nodes g !! 0%nat = Some empty_JSONNode
    ∧ root g = (if is_null v then 0 else 1)
    ∧ (is_null v = true → length (nodes g) = 1%nat)
    ∧ (is_null v = false →
       ∃ ix, MakeIndex v NodeIndexer_init = Ok ix
             ∧ ∃ jnode, nodes g !! 1%nat = Some jnode
                        ∧ JSONAttrGetter_Get (node_index_ ix) v = Ok jnode).
Proof.
  cbn zeta. eexists. split; [vm_compute; reflexivity |].
  apply (X9_table_layout (AnyObject Example.kPair 2 [AnyStr 3 "x"; AnyNone])).
  vm_compute. reflexivity.
Defined.

(** ** The dependencies pass 2 of the loader records *)

(** X11.  [FieldDependencyFinder::Find] changes nothing of a node but its
    [fields], to which it only appends, at most one id per registered field:
    each id appended is the integer a reference field's attribute holds,
    converted to [size_t].  For a node whose fields [SetAttrs] does not
    assign (a POD, a container, an object with [repr_bytes]) nothing is
    appended. *)
Theorem X11_finder_appends_reference_ids `{TypeRegistry} `{ReflectionVTable}
    (node : Any) (jnode0 jnode : JSONNode) :
  FieldDependencyFinder_Find node jnode0 = Ok jnode →
  jn_type_key jnode = jn_type_key jnode0
  ∧ jn_repr_bytes jnode = jn_repr_bytes jnode0
  ∧ jn_attrs jnode = jn_attrs jnode0
  ∧ jn_keys jnode = jn_keys jnode0
  ∧ jn_data jnode = jn_data jnode0
  ∧ ∃ added, jn_fields jnode = jn_fields jnode0 ++ added
      ∧ (length added ≤ length (fields (TVMFFIGetTypeInfo (type_index node))))%nat
      ∧ (assigns_fields node jnode0 = false → added = [])
      ∧ ∀ d, d ∈ added →
          ∃ field_info i, field_info ∈ fields (TVMFFIGetTypeInfo (type_index node))
            ∧ is_reference_field field_info = true
            ∧ ParseOptionalValue (ParseValue_int 64) jnode0 (name field_info) = Ok (Some i)
            ∧ d = to_size_t i.
Proof.
  intros Hrun.
  destruct (FieldDependencyFinder_Find_spec node jnode0 jnode Hrun) as (? & ? & ? & ? & ? & _).
  repeat (split; [done |]). by apply FieldDependencyFinder_Find_added.
Qed.

Lemma X11_witness :
  let node := AnyObject Example.kPair 100 [AnyNone; AnyNone] in
  let jnode0 := Example.jnode "test.Pair" [("first", "3"); ("second", "null")] [] [] in
  ∃ jnode, FieldDependencyFinder_Find node jnode0 = Ok jnode
    ∧ jn_type_key jnode = jn_type_key jnode0
    ∧ jn_repr_bytes jnode = jn_repr_bytes jnode0
    ∧ jn_attrs jnode = jn_attrs jnode0
    ∧ jn_keys jnode = jn_keys jnode0
    ∧ jn_data jnode = jn_data jnode0
    ∧ ∃ added, jn_fields jnode = jn_fields jnode0 ++ added
        ∧ (length added ≤ length (fields (TVMFFIGetTypeInfo (type_index node))))%nat
        ∧ (assigns_fields node jnode0 = false → added = [])
        ∧ ∀ d, d ∈ added →
            ∃ field_info i, field_info ∈ fields (TVMFFIGetTypeInfo (type_index node))
              ∧ is_reference_field field_info = true
              ∧ ParseOptionalValue (ParseValue_int 64) jnode0 (name field_info) = Ok (Some i)
              ∧ d = to_size_t i.
Proof.
  cbn zeta. eexists. split; [vm_compute; reflexivity |].
  apply (X11_finder_appends_reference_ids (AnyObject Example.kPair 100 [AnyNone; AnyNone])
           (Example.jnode "test.Pair" [("first", "3"); ("second", "null")] [] [])).
  vm_compute. reflexivity.
Defined.

(** ** The table the loader returns *)

(** X12.  When [LoadJSON] reaches its [return], the table it has built has
    one value per node of the graph, and the result is the checked access
    [nodes.at(jgraph.root)]: the entry of the root when the root id is an id
    of the table, the [std::out_of_range] diagnostic otherwise. *)
Theorem X12_loader_returns_root_entry `{TypeRegistry} `{ReflectionVTable}
    (fuel : nat) (next : Z) (g : JSONGraph) (T : list Any) :
  LoadJSON_nodes fuel next g = Some (Ok T) →
  length T = length (nodes g)
  ∧ (0 ≤ root g < Z.of_nat (length (nodes g)) →
     ∃ v, T !! Z.to_nat (root g) = Some v ∧ LoadJSON_graph fuel next g = Some (Ok v))
  ∧ (¬ 0 ≤ root g < Z.of_nat (length (nodes g)) →
     LoadJSON_graph fuel next g = Some (Fatal "vector::at: index out of range")).
Proof.
  intros Hload. pose proof (LoadJSON_nodes_length fuel next g T Hload) as Hlen.
  split; [done |]. unfold LoadJSON_graph. rewrite Hload. cbn [bindR]. unfold vector_at.
  split.
  - intros [Hlo Hhi]. destruct (lookup_lt_is_Some_2 T (Z.to_nat (root g))) as [v Hv]; [lia |].
    exists v. split; [done |]. destruct (Z.leb_spec 0 (root g)); [| lia]. by rewrite Hv.
  - intros Hout. destruct (Z.leb_spec 0 (root g)); [| done].
    rewrite lookup_ge_None_2; [done | lia].
Qed.

Lemma X12_witness :
  let g := Example.graph 5 (nodes Example.int_pair) in
  ∃ T, LoadJSON_nodes 4 100 g = Some (Ok T)
    ∧ length T = length (nodes g)
    ∧ (0 ≤ root g < Z.of_nat (length (nodes g)) →
       ∃ v, T !! Z.to_nat (root g) = Some v ∧ LoadJSON_graph 4 100 g = Some (Ok v))
    ∧ (¬ 0 ≤ root g < Z.of_nat (length (nodes g)) →
       LoadJSON_graph 4 100 g = Some (Fatal "vector::at: index out of range")).
Proof.
  cbn zeta. eexists. split; [vm_compute; reflexivity |].
  apply (X12_loader_returns_root_entry 4 100 (Example.graph 5 (nodes Example.int_pair))).
  vm_compute. reflexivity.
Defined.

(** ** How serialization can fail *)

(** Every null value of [v] carries the zero payload, as [Any(nullptr)] does. *)
Definition none_payloads_zero (v : Any) : Prop :=
  ∀ z, AnyPOD PNone z ∈ subterms v → z = 0.

Section Serializer_errors.
Context `{TypeRegistry} `{ReflectionVTable}.

(** The two diagnostics of the serializer: a value of [v] without
    [repr_bytes] and without reflection metadata, or an opaque pointer or a
    device held by [v]. *)
Definition serializer_error (v : Any) (msg : string) : Prop :=
  (∃ a, a ∈ subterms v ∧ reflection_missing a = true
        ∧ msg = missing_reflection (GetTypeKey a))
  ∨ (∃ k z, AnyPOD k z ∈ subterms v ∧ (k = POpaquePtr ∨ k = PDevice)
            ∧ msg = unsupported_type (AnyPOD k z)).

Definition serializer_outcome {A} (v : Any) (r : Result A) : Prop :=
  match r with
  | Ok _ => True
  | Fatal msg => serializer_error v msg
  | Undefined => False
  end.

Lemma serializer_outcome_bind {A B} v (m : Result A) (k : A → Result B) :
  serializer_outcome v m → (∀ a, m = Ok a → serializer_outcome v (k a)) →
  serializer_outcome v (bindR m k).
Proof. destruct m; cbn; auto. Qed.

Lemma mapR_Ok {A B} (f : A → Result B) l :
  (∀ x, x ∈ l → ∃ y, f x = Ok y) → ∃ ys, mapR f l = Ok ys.
Proof.
  induction l as [| a l IH]; intros Hall; cbn; [by eexists |].
  destruct (Hall a) as [y ->]; [by left |]. cbn.
  destruct IH as [ys ->]; [intros x Hx; apply Hall; by right |]. cbn. by eexists.
Qed.

Lemma mapR_outcome {A B} v (f : A → Result B) l :
  (∀ x, x ∈ l → serializer_outcome v (f x)) → serializer_outcome v (mapR f l).
Proof.
  induction l as [| a l IH]; intros Hall; cbn; [done |].
  apply serializer_outcome_bind; [apply Hall; by left |]. intros b _.
  apply serializer_outcome_bind; [apply IH; intros x Hx; apply Hall; by right | done].
Qed.

Section Indexed.
Variables (v : Any) (ix : NodeIndexer).
Hypothesis Hcons : consistent v.
Hypothesis Hzero : none_payloads_zero v.
Hypothesis Hix : MakeIndex v NodeIndexer_init = Ok ix.

Lemma null_is_AnyNone a : a ∈ subterms v → is_null a = true → a = AnyNone.
Proof.
  intros Ha Hn. destruct a as [[] z | | | | | | |]; try done.
  by rewrite (Hzero z Ha).
Qed.

Lemma AnyNone_indexed : node_index_at (node_index_ ix) AnyNone = Ok 0.
Proof.
  destruct (MakeIndex_correct v _ _ indexer_ok_init Hix) as (Hok & new & Hl & _).
  unfold node_index_at. rewrite (ok_index _ Hok), Hl. cbn [app node_list_ NodeIndexer_init].
  change (index_of_list 0 (AnyNone :: new))
    with ((ref_of AnyNone, 0) :: index_of_list 1 new).
  cbn [node_index_find]. by rewrite AnyEqual_refl.
Qed.

(** Every value the indexer reached has an id. *)
Lemma traversed_indexed a :
  traversed v a → ∃ d, node_index_at (node_index_ ix) a = Ok d.
Proof.
  intros Ha. destruct (is_null a) eqn:Hn.
  - rewrite (null_is_AnyNone a); [exists 0; apply AnyNone_indexed | | done].
    by apply reachable_subterms, traversed_reachable.
  - destruct (MakeIndex_closed v ix Hcons Hix) as (_ & Hall & _).
    destruct (Hall a Ha Hn) as [d Hd]. exists d. unfold node_index_at. by rewrite Hd.
Qed.

Lemma Getter_fields_outcome b infos : ∀ values attrs,
  (∀ x, x ∈ values → x ∈ subterms v) →
  (∀ x, x ∈ filter (λ x, is_object x = true) (take (length infos) values) → traversed v x) →
  traversed v b →
  serializer_outcome v (Getter_fields (node_index_ ix) infos values attrs).
Proof.
  induction infos as [| field_info infos IH]; intros values attrs Hsub Htrav Hb; [done |].
  destruct values as [| x values]; [done |]. cbn [Getter_fields].
  apply serializer_outcome_bind.
  - destruct x as [[] z | | | | | | |]; cbn; try done.
    1,2: right; eexists _, z; split; [apply Hsub; by left |]; split; [auto | done].
    all: match goal with
         | |- serializer_outcome _ (bindR (node_index_at _ ?x) _) =>
             destruct (traversed_indexed x) as [d ->]; [| done];
             apply Htrav; cbn [length take]; rewrite filter_cons; cbn; by left
         end.
  - intros attrs1 _. apply IH; [intros y Hy; apply Hsub; by right | | done].
    intros y Hy. apply Htrav. cbn [length take]. rewrite filter_cons.
    destruct (decide (is_object x = true)); [by right | done].
Qed.

Lemma Getter_fields_nil infos attrs :
  Getter_fields (node_index_ ix) infos [] attrs = Ok attrs.
Proof. by destruct infos. Qed.

Lemma traversed_child b x : traversed v b → x ∈ indexed_children b → traversed v x.
Proof. intros Hb Hx. eapply rtc_r; [exact Hb | exact Hx]. Qed.

Lemma JSONAttrGetter_Get_outcome b :
  traversed v b → serializer_outcome v (JSONAttrGetter_Get (node_index_ ix) b).
Proof.
  intros Hb. assert (Hbsub : b ∈ subterms v) by (by apply reachable_subterms, traversed_reachable).
  unfold JSONAttrGetter_Get. destruct (is_null b) eqn:Hn; [done |].
  destruct b as [k z | p s | p s | p d | p t | p l | p kvs | n p fs].
  - destruct k; cbn; try done.
    right. exists POpaquePtr, z. split; [done |]. split; [by left | done].
  - destruct (GetReprBytes _) eqn:Hrepr; [done |].
    destruct (extra_info _) eqn:Hextra;
      [cbn [object_fields]; by rewrite Getter_fields_nil |].
    left. exists (AnyStr p s). split; [done |]. split; [| done].
    unfold reflection_missing. by rewrite Hrepr, Hextra, !bool_decide_eq_true_2.
  - destruct (GetReprBytes _) eqn:Hrepr; [done |].
    destruct (extra_info _) eqn:Hextra;
      [cbn [object_fields]; by rewrite Getter_fields_nil |].
    left. exists (AnyBytes p s). split; [done |]. split; [| done].
    unfold reflection_missing. by rewrite Hrepr, Hextra, !bool_decide_eq_true_2.
  - destruct (GetReprBytes _) eqn:Hrepr; [done |].
    destruct (extra_info _) eqn:Hextra;
      [cbn [object_fields]; by rewrite Getter_fields_nil |].
    left. exists (AnyShape p d). split; [done |]. split; [| done].
    unfold reflection_missing. by rewrite Hrepr, Hextra, !bool_decide_eq_true_2.
  - destruct (GetReprBytes _) eqn:Hrepr; [done |].
    destruct (extra_info _) eqn:Hextra;
      [cbn [object_fields]; by rewrite Getter_fields_nil |].
    left. exists (AnyNDArray p t). split; [done |]. split; [| done].
    unfold reflection_missing. by rewrite Hrepr, Hextra, !bool_decide_eq_true_2.
  - destruct (mapR_Ok (node_index_at (node_index_ ix)) l) as [data ->]; [| done].
    intros x Hx. apply traversed_indexed. by apply (traversed_child (AnyArray p l)).
  - pose proof (traversed_child (AnyMap p kvs)) as Hch. cbn [indexed_children] in Hch.
    destruct (forallb _ kvs).
    + destruct (mapR_Ok (λ kv : Any * Any, node_index_at (node_index_ ix) kv.2) kvs)
        as [data ->]; [| done].
      intros kv Hkv. apply traversed_indexed, Hch; [done |].
      apply list_elem_of_fmap. by exists kv.
    + destruct (mapR_Ok (node_index_at (node_index_ ix))
                  (flat_map (λ kv : Any * Any, [kv.1; kv.2]) kvs)) as [data ->]; [| done].
      intros x Hx. by apply traversed_indexed, Hch.
  - pose proof (traversed_child (AnyObject n p fs)) as Hch. cbn [indexed_children] in Hch.
    destruct (GetReprBytes _) eqn:Hrepr; [done |].
    destruct (extra_info _) eqn:Hextra.
    + apply serializer_outcome_bind; [| done].
      apply (Getter_fields_outcome (AnyObject n p fs)); [| by auto | done].
      intros x Hx. by apply (subterms_trans v (AnyObject n p fs)).
    + left. exists (AnyObject n p fs). split; [done |]. split; [| done].
      unfold reflection_missing. by rewrite Hrepr, Hextra, !bool_decide_eq_true_2.
Qed.
End Indexed.

(** [SaveJSON] on a value whose addresses are consistent returns the graph
    or stops with one of the two diagnostics. *)
Lemma JSONGraph_Create_outcome v :
  consistent v → none_payloads_zero v → serializer_outcome v (JSONGraph_Create v).
Proof.
  intros Hcons Hzero. unfold JSONGraph_Create.
  pose proof (MakeIndex_outcome v NodeIndexer_init indexer_ok_init) as Hout.
  destruct (MakeIndex v NodeIndexer_init) as [ix | msg |] eqn:Hix; cbn [bindR];
    [| by left | done].
  destruct (MakeIndex_closed v ix Hcons Hix) as (Hok & Hall & Honly).
  apply serializer_outcome_bind.
  - apply mapR_outcome. intros b [i Hb]%list_elem_of_lookup.
    destruct (Honly i b Hb) as [[_ ->] | [_ Htrav]]; [done |].
    by apply JSONAttrGetter_Get_outcome.
  - intros jnodes _.
    destruct (traversed_indexed v ix Hcons Hzero Hix v) as [d Hd]; [apply rtc_refl |].
    unfold node_index_count. unfold node_index_at in Hd.
    destruct (node_index_find (node_index_ ix) (ref_of v)) as [d' |] eqn:Hfind; [| done].
    rewrite bool_decide_eq_true_2 by (by eexists). cbn [negb].
    unfold node_index_at. by rewrite Hfind.
Qed.
End Serializer_errors.

(** X10.  Serializing a value whose addresses are consistent and whose null
    values carry the zero payload either returns the graph or stops with one
    of two diagnostics: a value it holds has neither [repr_bytes] nor
    reflection metadata, or it holds an opaque pointer or a device.  No
    lookup in the node index misses and the check that the root is indexed
    never fails. *)
Theorem X10_serializer_failure_modes `{TypeRegistry} `{ReflectionVTable} (v : Any) :
  consistent v → none_payloads_zero v →
  (∃ g, JSONGraph_Create v = Ok g)
  ∨ (∃ msg, JSONGraph_Create v = Fatal msg ∧ serializer_error v msg).
Proof.
  intros Hcons Hzero. pose proof (JSONGraph_Create_outcome v Hcons Hzero) as Hout.
  destruct (JSONGraph_Create v) as [g | msg |]; [left; by eexists | right; by eexists | done].
Qed.

Lemma X10_witness :
  let v := AnyArray 1 [AnyInt 3; AnyObject 7 2 []; AnyNone] in
  (∃ g, JSONGraph_Create v = Ok g)
  ∨ (∃ msg, JSONGraph_Create v = Fatal msg ∧ serializer_error v msg).
Proof.
  cbn zeta. apply (X10_serializer_failure_modes (AnyArray 1 [AnyInt 3; AnyObject 7 2 []; AnyNone])).
  - intros a b Ha%reachable_subterms Hb%reachable_subterms. cbn in Ha, Hb.
    set_unfold. naive_solver.
  - intros z Hz. cbn in Hz. set_unfold. naive_solver.
Defined.

(** ** When loading is defined behaviour *)

(** The result is a value or a diagnostic. *)
Definition defined {A} (r : Result A) : Prop :=
  match r with Undefined => False | _ => True end.

Lemma defined_bind {A B} (m : Result A) (k : A → Result B) :
  defined m → (∀ a, m = Ok a → defined (k a)) → defined (bindR m k).
Proof. destruct m; cbn; auto. Qed.

Lemma mapR_defined {A B} (f : A → Result B) l :
  (∀ x, x ∈ l → defined (f x)) → defined (mapR f l).
Proof.
  induction l as [| a l IH]; intros Hall; cbn; [done |].
  apply defined_bind; [apply Hall; by left |]. intros b _.
  apply defined_bind; [apply IH; intros x Hx; apply Hall; by right | done].
Qed.

Lemma vector_at_defined {A} (l : list A) i : defined (vector_at l i).
Proof. unfold vector_at. by destruct (if 0 <=? i then l !! Z.to_nat i else None). Qed.

Section Loader_defined.
Context `{TypeRegistry} `{ReflectionVTable}.

(** The object factory, the field setters and the data-type parser throw
    when they fail. *)
Definition collaborators_defined : Prop :=
  (∀ key repr, defined (CreateInitObject key repr))
  ∧ (∀ field_info value, defined (FieldSetter field_info value))
  ∧ (∀ s, defined (StringToDLDataType s)).

Hypothesis Hcollab : collaborators_defined.

Lemma GetValue_defined jnode key : defined (GetValue jnode key).
Proof. unfold GetValue. by destruct (jn_attrs jnode !! key). Qed.

Lemma ParseValue_int_defined bits jnode key : defined (ParseValue_int bits jnode key).
Proof.
  unfold ParseValue_int. apply defined_bind; [apply GetValue_defined |].
  intros s _. by destruct (parse_int bits s).
Qed.

Lemma ParseValue_double_defined jnode key : defined (ParseValue_double jnode key).
Proof.
  unfold ParseValue_double. apply defined_bind; [apply GetValue_defined |].
  intros s _. by destruct (parse_double s).
Qed.

Lemma ParseValue_string_defined jnode key : defined (ParseValue_string jnode key).
Proof.
  unfold ParseValue_string. apply defined_bind; [apply GetValue_defined |].
  intros s _. by destruct (parse_word s).
Qed.

Lemma ParseDouble_defined jnode key : defined (ParseDouble jnode key).
Proof.
  unfold ParseDouble. apply defined_bind; [apply GetValue_defined |].
  intros s _. repeat (match goal with |- context [if ?c then _ else _] => destruct c end); try done.
  by destruct (parse_double s).
Qed.

Lemma ParseOptionalValue_defined {A} (f : JSONNode → string → Result A) jnode key :
  (∀ jnode key, defined (f jnode key)) → defined (ParseOptionalValue f jnode key).
Proof.
  intros Hf. unfold ParseOptionalValue. apply defined_bind; [apply GetValue_defined |].
  intros s _. destruct (String.eqb s "null"); [done |].
  apply defined_bind; [apply Hf | done].
Qed.

Lemma CreateInitAny_defined jnode next : defined (CreateInitAny jnode next).
Proof.
  destruct Hcollab as (Hcreate & _ & Hparse). unfold CreateInitAny.
  repeat (match goal with |- context [if ?c then _ else _] => destruct c end); try done.
  - apply defined_bind; [apply ParseValue_int_defined | done].
  - apply defined_bind; [apply ParseValue_int_defined | done].
  - apply defined_bind; [apply ParseValue_double_defined | done].
  - apply defined_bind; [apply ParseValue_string_defined |]. intros s _.
    apply defined_bind; [apply Hparse | done].
  - apply defined_bind; [apply ParseValue_int_defined |]. intros ? _.
    apply defined_bind; [apply ParseValue_int_defined | done].
  - apply defined_bind; [apply Hcreate | done].
Qed.

Lemma LoadJSON_create_defined jnodes : ∀ next, defined (LoadJSON_create jnodes next).
Proof.
  induction jnodes as [| jnode jnodes IH]; intros next; cbn; [done |].
  apply defined_bind; [apply CreateInitAny_defined |]. intros [node next1] _.
  apply defined_bind; [apply IH |]. by intros [rest next2] _.
Qed.

Lemma FieldDependencyFinder_fields_defined infos : ∀ jnode,
  defined (FieldDependencyFinder_fields infos jnode).
Proof.
  induction infos as [| field_info infos IH]; intros jnode; cbn; [done |].
  apply defined_bind; [| intros; apply IH].
  destruct (is_reference_field field_info); [| done].
  apply defined_bind; [apply ParseOptionalValue_defined, ParseValue_int_defined |].
  by intros [i |] _.
Qed.

Lemma FieldDependencyFinder_Find_defined node jnode :
  defined (FieldDependencyFinder_Find node jnode).
Proof.
  unfold FieldDependencyFinder_Find. cbv zeta.
  repeat (match goal with |- context [if ?c then _ else _] => destruct c end); try done.
  apply FieldDependencyFinder_fields_defined.
Qed.

Lemma LoadJSON_dependencies_defined node_list : ∀ jnodes,
  defined (LoadJSON_dependencies node_list jnodes).
Proof.
  induction node_list as [| node node_list IH]; intros jnodes; [done |].
  destruct jnodes as [| jnode jnodes]; [done |]. cbn.
  apply defined_bind; [apply FieldDependencyFinder_Find_defined |]. intros jnode1 _.
  apply defined_bind; [apply IH | done].
Qed.

Lemma LoadJSON_prepare_defined next g : defined (LoadJSON_prepare next g).
Proof.
  unfold LoadJSON_prepare. apply defined_bind.
  { unfold LoadJSON_tensors. apply mapR_defined. intros blob _. by destruct (NDArrayLoad blob). }
  intros tensors _. apply defined_bind; [apply LoadJSON_create_defined |].
  intros [node_list next1] _. apply defined_bind; [apply LoadJSON_dependencies_defined | done].
Qed.

Lemma LoadJSON_dependencies_length node_list : ∀ jnodes0 jnodes,
  LoadJSON_dependencies node_list jnodes0 = Ok jnodes →
  length node_list = length jnodes0 → length jnodes = length jnodes0.
Proof.
  induction node_list as [| node node_list IH]; intros [| jnode0 jnodes0] jnodes Hd Hl;
    try done; cbn in Hd.
  - by injection Hd as <-.
  - destruct (FieldDependencyFinder_Find _ _); cbn in Hd; try done.
    destruct (LoadJSON_dependencies _ _) eqn:Hrest; cbn in Hd; try done.
    injection Hd as <-. cbn. f_equal. apply IH; [done |]. cbn in Hl. lia.
Qed.

Lemma LoadJSON_prepare_lengths next g st0 g1 :
  LoadJSON_prepare next g = Ok (st0, g1) →
  length (nodes g1) = length (nodes g) ∧ length (ld_nodes st0) = length (nodes g).
Proof.
  unfold LoadJSON_prepare. intros Hp.
  destruct (LoadJSON_tensors _); cbn [bindR] in Hp; try done.
  destruct (LoadJSON_create _ _) as [[node_list next1] | |] eqn:Hc; cbn [bindR] in Hp; try done.
  destruct (LoadJSON_dependencies _ _) as [jnodes | |] eqn:Hd; cbn [bindR] in Hp; try done.
  injection Hp as <- <-. cbn. pose proof (LoadJSON_create_length _ _ _ _ Hc) as Hl.
  split; [| done]. by apply (LoadJSON_dependencies_length node_list).
Qed.

Lemma resolve_reference_defined node_list jnode key :
  defined (resolve_reference node_list jnode key).
Proof.
  unfold resolve_reference.
  apply defined_bind; [apply ParseOptionalValue_defined, ParseValue_int_defined |].
  intros [i |] _; [| done]. apply defined_bind; [apply vector_at_defined |].
  intros a _. by destruct a as [[] ? | | | | | | |].
Qed.

Lemma SetObjectField_value_defined node_list jnode field_info :
  defined (SetObjectField_value node_list jnode field_info).
Proof.
  destruct Hcollab as (_ & _ & Hparse). unfold SetObjectField_value.
  destruct (field_static_type_index field_info); try apply resolve_reference_defined.
  - apply defined_bind; [apply ParseOptionalValue_defined, ParseValue_int_defined | done].
  - apply defined_bind; [apply ParseOptionalValue_defined, ParseValue_int_defined | done].
  - apply defined_bind; [apply ParseOptionalValue_defined, ParseDouble_defined | done].
  - apply defined_bind; [apply GetValue_defined |]. intros s _.
    apply defined_bind; [apply Hparse | done].
Qed.

Lemma SetObjectFields_defined node_list jnode infos : ∀ pos obj,
  defined (SetObjectFields node_list jnode infos pos obj).
Proof.
  destruct Hcollab as (_ & Hset & _).
  induction infos as [| field_info infos IH]; intros pos obj; cbn; [done |].
  apply defined_bind; [apply SetObjectField_value_defined |]. intros value _.
  apply defined_bind; [apply Hset |]. intros stored _. apply IH.
Qed.

Lemma SetAttrs_pairs_defined node_list data : ∀ result,
  defined (SetAttrs_pairs node_list data result).
Proof.
  induction data as [data IH] using (induction_ltof1 _ length); unfold ltof in IH.
  intros result. destruct data as [| k [| v data]]; try done. cbn.
  apply defined_bind; [apply vector_at_defined |]. intros key _.
  apply defined_bind; [apply vector_at_defined |]. intros value _.
  apply IH. cbn. lia.
Qed.

Lemma SetAttrs_keyed_defined node_list keys : ∀ data result next,
  defined (SetAttrs_keyed node_list keys data result next).
Proof.
  induction keys as [| k keys IH]; intros data result next; [done |].
  destruct data as [| v data]; [done |]. cbn.
  apply defined_bind; [apply vector_at_defined |]. intros value _. apply IH.
Qed.

Lemma SetAttrs_defined node_list node jnode next :
  defined (SetAttrs node_list node jnode next).
Proof.
  unfold SetAttrs. cbv zeta.
  repeat (match goal with |- context [if ?c then _ else _] => destruct c end); try done.
  - apply defined_bind; [| done]. apply mapR_defined. intros; apply vector_at_defined.
  - apply defined_bind; [apply SetAttrs_pairs_defined | done].
  - apply defined_bind; [apply SetAttrs_keyed_defined |]. by intros [result next1] _.
  - apply defined_bind; [apply SetObjectFields_defined | done].
Qed.

(** Pass 4 over ids of the table. *)
Lemma LoadJSON_set_defined jnodes order : ∀ st,
  length (ld_nodes st) = length jnodes →
  (∀ i, i ∈ order → 0 ≤ i < Z.of_nat (length jnodes)) →
  defined (LoadJSON_set jnodes order st).
Proof.
  induction order as [| i order IH]; intros st Hlen Hrange; [done |].
  rewrite LoadJSON_set_cons.
  apply defined_bind; [| intros st1 Hstep].
  - unfold LoadJSON_set_step. destruct (Hrange i) as [Hlo Hhi]; [by left |].
    unfold vector_get. destruct (Z.leb_spec 0 i); [| lia].
    destruct (lookup_lt_is_Some_2 (ld_nodes st) (Z.to_nat i)) as [node ->]; [lia |].
    destruct (lookup_lt_is_Some_2 jnodes (Z.to_nat i)) as [jnode ->]; [lia |].
    cbn [bindR]. apply defined_bind; [apply SetAttrs_defined |]. by intros [node1 next1] _.
  - destruct (LoadJSON_set_step_Ok _ _ _ _ Hstep) as (? & ? & node1 & _ & _ & _ & _ & Hst1).
    apply IH; [by rewrite Hst1, length_insert |]. intros j Hj. apply Hrange. by right.
Qed.

(** [LoadJSON] on a graph whose ids, those of the reference attributes
    included, all designate nodes of the table. *)
Lemma LoadJSON_graph_defined fuel next g :
  (∀ st0 g1, LoadJSON_prepare next g = Ok (st0, g1) →
     jg_ids_in_range g1 ∧ Z.of_nat (jg_edge_count g1) < size_t_modulus) →
  (length (nodes g) ≤ fuel)%nat →
  ∃ r, LoadJSON_graph fuel next g = Some r ∧ defined r.
Proof.
  intros Hgood Hfuel. unfold LoadJSON_graph, LoadJSON_nodes.
  pose proof (LoadJSON_prepare_defined next g) as Hprep.
  destruct (LoadJSON_prepare next g) as [[st0 g1] | msg |] eqn:Hp; [| by eexists | done].
  destruct (Hgood st0 g1 eq_refl) as [Hrange Hsmall].
  destruct (LoadJSON_prepare_lengths _ _ _ _ Hp) as [Hl1 Hl0].
  destruct (TopoSort_result g1 Hrange Hsmall fuel) as (kahn & deg & HI & ->); [lia |].
  case_bool_decide; [| by eexists].
  eexists. split; [reflexivity |].
  apply defined_bind; [| intros; apply vector_at_defined].
  apply defined_bind; [| done].
  apply LoadJSON_set_defined; [lia |].
  intros i Hi. apply elem_of_reverse in Hi. rewrite reverse_involutive in Hi.
  exact (inv_range g1 _ _ _ _ HI i Hi).
Qed.
End Loader_defined.

(** X13.  When the object factory, the field setters and the data-type
    parser fail by throwing, and every id of the graph (in [data], and in
    [fields] once pass 2 has added the reference attributes) designates a
    node of the table, [LoadJSON] terminates with a value or a diagnostic:
    no unchecked access leaves the table. *)
Theorem X13_in_range_ids_load_defined `{TypeRegistry} `{ReflectionVTable}
    (fuel : nat) (next : Z) (g : JSONGraph) :
  collaborators_defined →
  (∀ st0 g1, LoadJSON_prepare next g = Ok (st0, g1) →
     jg_ids_in_range g1 ∧ Z.of_nat (jg_edge_count g1) < size_t_modulus) →
  (length (nodes g) ≤ fuel)%nat →
  ∃ r, LoadJSON_graph fuel next g = Some r ∧ defined r.
Proof. intros Hcollab. by apply LoadJSON_graph_defined. Qed.

Lemma Example_collaborators_defined : collaborators_defined.
Proof.
  split; [| split].
  - intros key repr. cbn. unfold Example.create.
    by repeat (match goal with |- context [if ?c then _ else _] => destruct c end).
  - intros field_info value. cbn. unfold Example.setter.
    destruct (field_static_type_index field_info); try done;
      by destruct value as [[] ? | | | | | | |].
  - done.
Qed.

Lemma X13_witness :
  ∃ r, LoadJSON_graph 4 100 Example.int_pair = Some r ∧ defined r.
Proof.
  apply (X13_in_range_ids_load_defined 4 100 Example.int_pair).
  - apply Example_collaborators_defined.
  - intros st0 g1 Hprep. vm_compute in Hprep. injection Hprep as <- <-. split.
    + intros jnode i Hj Hi.
      repeat (apply elem_of_cons in Hj as [-> | Hj]); cbn in Hi;
        repeat (apply elem_of_cons in Hi as [-> | Hi]); try (cbn; lia);
        try (by apply elem_of_nil in Hi); by apply elem_of_nil in Hj.
    + vm_compute. reflexivity.
  - cbn. lia.
Defined.

(** ** Laxer flags keep equal values equal *)

(** The handler with [map_free_vars_] switched on if [m] and
    [skip_ndarray_content_] switched on if [s]. *)
Definition relax (m s : bool) (h : StructEqualHandler) : StructEqualHandler :=
  {| map_free_vars_ := map_free_vars_ h || m;
     skip_ndarray_content_ := skip_ndarray_content_ h || s;
     mismatch_reverse_path_ := mismatch_reverse_path_ h;
     equal_map_lhs_ := equal_map_lhs_ h;
     equal_map_rhs_ := equal_map_rhs_ h |}.

Lemma CompareNDArray_relax m s h lp rp lhs rhs :
  CompareNDArray h lp rp lhs rhs = Ok true →
  CompareNDArray (relax m s h) lp rp lhs rhs = Ok true.
Proof.
  unfold CompareNDArray. cbn [skip_ndarray_content_ relax].
  destruct (bool_decide (lp = rp)); [done |].
  destruct (negb (ndim lhs =? ndim rhs)); [done |].
  destruct (negb (forallb _ _)); [done |].
  destruct (negb (bool_decide (dtype lhs = dtype rhs))); [done |].
  destruct (skip_ndarray_content_ h); cbn; [done |].
  destruct s; cbn; [done |].
  by repeat (match goal with |- context [if ?c then _ else _] => destruct c end).
Qed.

Section Relax.
Context `{TypeRegistry}.

Definition relaxes (lhs : Any) : Prop :=
  ∀ rhs m s h h', CompareAny lhs rhs h = Ok (true, h') →
    CompareAny lhs rhs (relax m s h) = Ok (true, relax m s h').

Lemma CompareArray_loop_relax lhs : Forall relaxes lhs →
  ∀ rhs i lsize rsize m s h h',
    CompareArray_loop CompareAny i lhs rhs lsize rsize h = Ok (true, h') →
    CompareArray_loop CompareAny i lhs rhs lsize rsize (relax m s h) = Ok (true, relax m s h').
Proof.
  assert (Hend : ∀ (lsize rsize : Z) m s h h',
            (if lsize =? rsize then Ok (true, h)
             else if lsize >? rsize
                  then Ok (false, record_mismatch (ArrayIndex rsize) (ArrayIndexMissing rsize) h)
                  else Ok (false, record_mismatch (ArrayIndexMissing lsize) (ArrayIndex lsize) h))
            = Ok (true, h') →
            (if lsize =? rsize then Ok (true, relax m s h)
             else if lsize >? rsize
                  then Ok (false, record_mismatch (ArrayIndex rsize) (ArrayIndexMissing rsize)
                                    (relax m s h))
                  else Ok (false, record_mismatch (ArrayIndexMissing lsize) (ArrayIndex lsize)
                                    (relax m s h)))
            = Ok (true, relax m s h')).
  { intros lsize rsize m s h h'. destruct (lsize =? rsize); [by intros [= <-] |].
    by destruct (lsize >? rsize). }
  induction 1 as [| l lhs Hl _ IH]; intros rhs i lsize rsize m s h h'; [apply Hend |].
  destruct rhs as [| r rhs]; [apply Hend |]. cbn.
  destruct (CompareAny l r h) as [[ok h1] | |] eqn:E; cbn; try done.
  destruct ok; cbn; [| done]. rewrite (Hl r m s h h1 E). cbn. apply IH.
Qed.

Lemma CompareMap_lhs_loop_relax lhs :
  Forall (λ kv : Any * Any, relaxes kv.2) lhs →
  ∀ rhs m s h h', CompareMap_lhs_loop CompareAny lhs rhs h = Ok (true, h') →
    CompareMap_lhs_loop CompareAny lhs rhs (relax m s h) = Ok (true, relax m s h').
Proof.
  induction 1 as [| kv lhs Hkv _ IH]; intros rhs m s h h'; cbn.
  - by intros [= <-].
  - change (MapLhsToRhs (relax m s h) kv.1) with (MapLhsToRhs h kv.1).
    destruct (map_find rhs _) as [it |]; [| done].
    destruct (CompareAny kv.2 it.2 h) as [[ok h1] | |] eqn:E; cbn; try done.
    destruct ok; cbn; [| done]. rewrite (Hkv it.2 m s h h1 E). cbn. apply IH.
Qed.

Lemma CompareObject_fields_relax lhs : Forall relaxes lhs →
  ∀ infos rhs m s h h', CompareObject_fields CompareAny infos lhs rhs h = Ok (true, h') →
    CompareObject_fields CompareAny infos lhs rhs (relax m s h) = Ok (true, relax m s h').
Proof.
  induction 1 as [| l lhs Hl _ IH]; intros infos rhs m s h h'.
  - destruct infos; cbn; by intros [= <-].
  - destruct infos as [| field_info infos]; cbn; [by intros [= <-] |].
    destruct (flag_set _ kTVMFFIFieldFlagBitMaskSEqHashIgnore); [apply IH |].
    destruct (flag_set _ kTVMFFIFieldFlagBitMaskSEqHashDef).
    + destruct (CompareAny l (hd AnyNone rhs) (set_map_free_vars true h))
        as [[ok h1] | |] eqn:E; cbn; try done.
      destruct ok; cbn; [| done].
      change (set_map_free_vars true (relax m s h))
        with (relax m s (set_map_free_vars true h)).
      rewrite (Hl _ m s _ h1 E). cbn. intros Hrest.
      by rewrite <- (IH _ _ m s _ _ Hrest).
    + destruct (CompareAny l (hd AnyNone rhs) h) as [[ok h1] | |] eqn:E; cbn; try done.
      destruct ok; cbn; [| done]. rewrite (Hl _ m s h h1 E). cbn. apply IH.
Qed.

Lemma CompareObject_body_relax lhs rhs lhs_fields rhs_fields : Forall relaxes lhs_fields →
  ∀ m s h h', CompareObject_body CompareAny lhs rhs lhs_fields rhs_fields h = Ok (true, h') →
    CompareObject_body CompareAny lhs rhs lhs_fields rhs_fields (relax m s h)
    = Ok (true, relax m s h').
Proof.
  intros Hall m s h h'. unfold CompareObject_body.
  destruct (extra_info _) as [extra |]; [| by intros [= -> <-]].
  set (kind := structural_eq_hash_kind extra).
  destruct (bool_decide (kind = kTVMFFISEqHashKindUnsupported)
            || bool_decide (kind = kTVMFFISEqHashKindUniqueInstance));
    [by intros [= -> <-] |].
  destruct (bool_decide (kind = kTVMFFISEqHashKindConstTreeNode) && same_as lhs rhs);
    [by intros [= <-] |].
  set (dag_or_var := bool_decide (kind = kTVMFFISEqHashKindDAGNode)
                     || bool_decide (kind = kTVMFFISEqHashKindFreeVar)).
  cbn [equal_map_lhs_ equal_map_rhs_ relax].
  destruct (if dag_or_var then equal_map_lhs_ h !! v_int64 lhs else None);
    [by intros [= -> <-] |].
  destruct (dag_or_var && bool_decide (is_Some (equal_map_rhs_ h !! v_int64 rhs))); [done |].
  destruct (bool_decide (kind = kTVMFFISEqHashKindFreeVar)).
  - cbn. destruct (same_as lhs rhs); cbn.
    + intros [= <-]. by destruct dag_or_var.
    + destruct (map_free_vars_ h); cbn; [| done]. intros [= <-]. by destruct dag_or_var.
  - destruct (CompareObject_fields _ _ _ _ _) as [[ok h1] | |] eqn:E; cbn; try done.
    destruct ok; [| done]. rewrite (CompareObject_fields_relax _ Hall _ _ m s _ _ E). cbn.
    intros [= <-]. by destruct dag_or_var.
Qed.

Lemma CompareAny_relax lhs : relaxes lhs.
Proof.
  induction lhs as [k v | p s0 | p s0 | p d | p t | p l IH | p kvs IH | n p fs IH]
    using Any_nested_ind; intros rhs m s h h'.
  all: destruct rhs as [k' v' | p' s' | p' s' | p' d' | p' t' | p' l' | p' kvs' | n' p' fs'];
    cbn [CompareAny];
    try (destruct (negb (bool_decide _)); by intros [= -> <-]).
  - destruct (negb (bool_decide _)); [done |].
    destruct (CompareNDArray h p p' t t') as [ok | |] eqn:E; cbn; try done.
    intros [= -> <-]. by rewrite (CompareNDArray_relax m s h _ _ _ _ E).
  - destruct (negb (bool_decide _)); [done |]. unfold CompareArray_body.
    change (tracing (relax m s h)) with (tracing h).
    destruct (negb (Z.of_nat (length l) =? Z.of_nat (length l')) && negb (tracing h)); [done |].
    by apply CompareArray_loop_relax.
  - destruct (negb (bool_decide _)); [done |]. unfold CompareMap_body.
    change (tracing (relax m s h)) with (tracing h).
    destruct (negb (Z.of_nat (length kvs) =? Z.of_nat (length kvs')) && negb (tracing h));
      [done |].
    destruct (CompareMap_lhs_loop _ _ _ _) as [[ok h1] | |] eqn:E; cbn; try done.
    destruct ok; cbn; [| done].
    assert (Hvals : Forall (λ kv : Any * Any, relaxes kv.2) kvs).
    { eapply Forall_impl; [exact IH |]. by intros kv [_ ?]. }
    rewrite (CompareMap_lhs_loop_relax _ Hvals _ m s _ _ E). cbn.
    destruct (_ =? _); [by intros [= <-] | done].
  - destruct (negb (bool_decide _)); [done |]. by apply CompareObject_body_relax.
Qed.
End Relax.

(** X14.  Switching [map_free_vars] or [skip_ndarray_content] on never turns
    equal values into different ones: if [Equal] is true for some setting of
    the flags it is true for every laxer setting, and likewise for
    [GetFirstMismatch] finding nothing. *)
Theorem X14_laxer_flags_keep_equal `{TypeRegistry} (lhs rhs : Any)
    (map_free_vars skip_ndarray_content m s : bool) :
  (Equal lhs rhs map_free_vars skip_ndarray_content = Ok true →
   Equal lhs rhs (map_free_vars || m) (skip_ndarray_content || s) = Ok true)
  ∧ (GetFirstMismatch lhs rhs map_free_vars skip_ndarray_content = Ok None →
     GetFirstMismatch lhs rhs (map_free_vars || m) (skip_ndarray_content || s) = Ok None).
Proof.
  split; unfold Equal, GetFirstMismatch.
  - destruct (CompareAny lhs rhs _) as [[ok h'] | |] eqn:E; cbn [bindR]; try done.
    intros [= ->].
    change (new_handler (map_free_vars || m) (skip_ndarray_content || s) None)
      with (relax m s (new_handler map_free_vars skip_ndarray_content None)).
    by rewrite (CompareAny_relax lhs rhs m s _ _ E).
  - destruct (CompareAny lhs rhs _) as [[ok h'] | |] eqn:E; cbn [bindR]; try done.
    destruct ok; [| by destruct (mismatch_reverse_path_ h') as [[] |]]. intros _.
    change (new_handler (map_free_vars || m) (skip_ndarray_content || s) (Some ([], [])))
      with (relax m s (new_handler map_free_vars skip_ndarray_content (Some ([], [])))).
    by rewrite (CompareAny_relax lhs rhs m s _ _ E).
Qed.

Lemma X14_witness :
  let lhs := AnyArray 1 [AnyObject Example.kVar 2 [AnyStr 3 "x"]; AnyInt 4] in
  let rhs := AnyArray 5 [AnyObject Example.kVar 2 [AnyStr 3 "x"]; AnyInt 4] in
  Equal lhs rhs true true = Ok true ∧ GetFirstMismatch lhs rhs true true = Ok None.
Proof.
  cbn zeta.
  destruct (X14_laxer_flags_keep_equal
              (AnyArray 1 [AnyObject Example.kVar 2 [AnyStr 3 "x"]; AnyInt 4])
              (AnyArray 5 [AnyObject Example.kVar 2 [AnyStr 3 "x"]; AnyInt 4])
              false false true true) as [Hequal Hnone].
  split; [apply Hequal | apply Hnone]; vm_compute; reflexivity.
Defined.

(** ** What the round trip asks of the registry *)

Section Contracts.
Context `{TypeRegistry} `{ReflectionVTable}.

(** The type keys the loader tells apart by name. *)
Definition static_type_keys : list string :=
  [StaticTypeKey kTVMFFINone; StaticTypeKey kTVMFFIBool; StaticTypeKey kTVMFFIInt;
   StaticTypeKey kTVMFFIFloat; StaticTypeKey kTVMFFIDataType; StaticTypeKey kTVMFFIDevice;
   ArrayObj_type_key; MapObj_type_key; NDArrayObj_type_key; StaticTypeKey kTVMFFIStr].

(** The built-in types are registered under different, non-empty keys, the
    containers can be created, and a string is created back from its
    [repr_bytes]. *)
Record registry_ok : Prop := {
  ok_keys : NoDup (EmptyString :: static_type_keys);
  ok_array : ∃ b, CreateInitObject ArrayObj_type_key EmptyString = Ok b;
  ok_map : ∃ b, CreateInitObject MapObj_type_key EmptyString = Ok b;
  ok_string : ∀ p s, ∃ repr, GetReprBytes (AnyStr p s) = Some repr
                ∧ ∃ p0, CreateInitObject (StaticTypeKey kTVMFFIStr) repr = Ok (AnyStr p0 s) }.

(** The object type [n] is registered under a key of its own, is created
    with one slot per field, has no [repr_bytes], and its setters store
    integers, booleans and references as given. *)
Record reflective (n : nat) : Prop := {
  rf_key : type_key (TVMFFIGetTypeInfo (kTVMFFIDynObject n)) ∉ EmptyString :: static_type_keys;
  rf_create : ∃ p0 fs0,
    CreateInitObject (type_key (TVMFFIGetTypeInfo (kTVMFFIDynObject n))) EmptyString
    = Ok (AnyObject n p0 fs0)
    ∧ length fs0 = length (fields (TVMFFIGetTypeInfo (kTVMFFIDynObject n)));
  rf_repr : ∀ p fs, GetReprBytes (AnyObject n p fs) = None;
  rf_set_int : ∀ field_info z,
    field_info ∈ fields (TVMFFIGetTypeInfo (kTVMFFIDynObject n)) →
    field_static_type_index field_info = kTVMFFIInt →
    FieldSetter field_info (AnyInt z) = Ok (AnyInt z);
  rf_set_bool : ∀ field_info z,
    field_info ∈ fields (TVMFFIGetTypeInfo (kTVMFFIDynObject n)) →
    field_static_type_index field_info = kTVMFFIBool →
    FieldSetter field_info (AnyInt z) = Ok (AnyBool (negb (z =? 0)));
  rf_set_ref : ∀ field_info a,
    field_info ∈ fields (TVMFFIGetTypeInfo (kTVMFFIDynObject n)) →
    is_reference_field field_info = true →
    a = AnyNone ∨ is_object a = true →
    FieldSetter field_info a = Ok a }.

(** ** Supported values *)

Lemma supported_children a c : supported a = true → c ∈ children a → supported c = true.
Proof.
  destruct a as [k z | p s | p s | p d | p t | p l | p kvs | n p fs]; cbn;
    try (by intros _ ?%elem_of_nil).
  - rewrite forallb_forall. intros Hall Hc. by apply Hall, list_elem_of_In.
  - rewrite andb_true_iff, forallb_forall. intros [Hall _] (kv & Hkv & Hc)%elem_of_flat_map.
    specialize (Hall kv (proj1 (list_elem_of_In _ _) Hkv)).
    rewrite !andb_true_iff in Hall. set_solver.
  - rewrite !andb_true_iff. intros [_ Hall] Hc. rewrite forallb_forall in Hall.
    by apply Hall, list_elem_of_In.
Qed.

Lemma supported_subterm v a : supported v = true → a ∈ subterms v → supported a = true.
Proof.
  intros Hv Ha%reachable_subterms. induction Ha as [| x y z Hxy _ IH]; [done |].
  apply IH. by apply (supported_children x).
Qed.

(** What [MakeIndex] skips has no object below it: every object of a supported
    value is traversed. *)
Lemma supported_leaf a c : supported a = true → plain_key a = true → reachable a c → c = a.
Proof.
  intros _ Hkey Hr. inversion Hr as [| ? y ? Hxy _]; subst; [done |].
  destruct a as [[] ? | | | | | | |]; try done; by apply elem_of_nil in Hxy.
Qed.

Lemma object_traversed v a :
  supported v = true →
  (∀ b, reachable v b → is_AnyObject b = true → GetReprBytes b = None) →
  reachable v a → is_AnyObject a = true → traversed v a.
Proof.
  intros Hv Hnone Ha Hobj. induction Ha as [x | x y z Hxy Hyz IH]; [apply rtc_refl |].
  pose proof (supported_children x y Hv Hxy) as Hy.
  eapply rtc_l; [| apply IH; try done; intros b Hb; apply Hnone; by eapply rtc_l].
  assert (Hyobj : is_object y = true).
  { inversion Hyz as [| ? y' ? Hyy' _]; subst; [by destruct z |].
    destruct y as [[] ? | | | | | | |]; try done; by apply elem_of_nil in Hyy'. }
  destruct x as [k z0 | p s | p s | p d | p t | p l | p kvs | n p fs]; cbn in Hxy |- *;
    try (by apply elem_of_nil in Hxy).
  - done.
  - destruct (forallb _ kvs) eqn:Hstr; [| done].
    apply elem_of_flat_map in Hxy as (kv & Hkv & Hy').
    apply list_elem_of_fmap. exists kv. split; [| done].
    apply elem_of_cons in Hy' as [-> | ->%list_elem_of_singleton]; [| done].
    cbn in Hv. rewrite andb_true_iff, forallb_forall in Hv. destruct Hv as [Hall _].
    specialize (Hall kv (proj1 (list_elem_of_In _ _) Hkv)).
    rewrite !andb_true_iff in Hall. destruct Hall as [[Hkey _] _].
    rewrite (supported_leaf kv.1 z Hy Hkey Hyz) in Hobj. by destruct kv.1 as [[] ? | | | | | | |].
  - cbn in Hv. rewrite !andb_true_iff in Hv.
    destruct Hv as ((((_ & Hlen%bool_decide_eq_true) & _) & _) & _).
    rewrite (Hnone (AnyObject n p fs)) by (done || apply rtc_refl).
    apply list_elem_of_filter. split; [done |]. by rewrite <- Hlen, firstn_all.
Qed.
End Contracts.

(** ** What [JSONAttrGetter::Get] writes *)

Section Getter_facts.
Context `{TypeRegistry} `{ReflectionVTable}.
Variable index : list (AnyRef * Z).

(** The text written for a field value. *)
Definition field_text (field_value : Any) : Result string :=
  match field_value with
  | AnyPOD PNone _ => Ok "null"%string
  | AnyPOD PBool v | AnyPOD PInt v => Ok (to_string_int v)
  | AnyPOD PFloat v => Ok (double_precision17 v)
  | AnyPOD PDataType v => Ok (DLDataTypeToString (DLDataType_of_payload v))
  | AnyPOD _ _ => Fatal (unsupported_type field_value)
  | _ => do i <- node_index_at index field_value; Ok (to_string_int i)
  end.

Lemma Getter_field_text field_info field_value attrs :
  Getter_field index field_info field_value attrs
  = do t <- field_text field_value; Ok (<[name field_info := t]> attrs).
Proof.
  destruct field_value as [[] ? | | | | | | |]; cbn; try done;
    by destruct (node_index_at _ _).
Qed.

Lemma Getter_fields_spec infos : ∀ values attrs0 attrs,
  NoDup (name <$> infos) → length values = length infos →
  Getter_fields index infos values attrs0 = Ok attrs →
  (∀ key, key ∉ name <$> infos → attrs !! key = attrs0 !! key)
  ∧ ∀ (k : nat) field_info field_value,
      infos !! k = Some field_info → values !! k = Some field_value →
      ∃ t, field_text field_value = Ok t ∧ attrs !! name field_info = Some t.
Proof.
  induction infos as [| fi infos IH]; intros values attrs0 attrs Hnd Hlen Hrun.
  - destruct values; [| done]. injection Hrun as <-. split; [done |]. by intros [].
  - destruct values as [| value values]; [done |]. cbn in Hrun.
    rewrite Getter_field_text in Hrun.
    destruct (field_text value) as [t | |] eqn:Ht; cbn in Hrun; try done.
    cbn in Hnd. apply NoDup_cons in Hnd as [Hfi Hnd].
    destruct (IH values _ _ Hnd ltac:(cbn in Hlen; lia) Hrun) as [Hother Hthis].
    split.
    + intros key Hkey. cbn in Hkey. apply not_elem_of_cons in Hkey as [Hne Hkey].
      rewrite (Hother key Hkey). by apply lookup_insert_ne.
    + intros [| k] field_info field_value; cbn.
      * intros [= <-] [= <-]. exists t. split; [done |].
        rewrite (Hother _ Hfi). apply lookup_insert_eq.
      * apply Hthis.
Qed.

Lemma Getter_fields_Ok infos : ∀ values attrs0,
  length values = length infos →
  (∀ value, value ∈ values → ∃ t, field_text value = Ok t) →
  ∃ attrs, Getter_fields index infos values attrs0 = Ok attrs.
Proof.
  induction infos as [| fi infos IH]; intros values attrs0 Hlen Hall.
  - destruct values; [| done]. by eexists.
  - destruct values as [| value values]; [done |]. cbn.
    rewrite Getter_field_text. destruct (Hall value ltac:(by left)) as [t ->]. cbn.
    apply IH; [cbn in Hlen; lia |]. intros x Hx. apply Hall. by right.
Qed.
End Getter_facts.

(** ** [FieldDependencyFinder] records only what reference fields name *)

Section Finder_facts.
Context `{TypeRegistry} `{ReflectionVTable}.

Lemma FieldDependencyFinder_fields_complete infos : ∀ jnode0,
  (∀ field_info, field_info ∈ infos → is_reference_field field_info = true →
     ∃ r, ParseOptionalValue (ParseValue_int 64) jnode0 (name field_info) = Ok r) →
  ∃ jnode, FieldDependencyFinder_fields infos jnode0 = Ok jnode
    ∧ (length (jn_fields jnode) ≤ length (jn_fields jnode0) + length infos)%nat
    ∧ ∀ d, d ∈ jn_fields jnode →
        d ∈ jn_fields jnode0
        ∨ ∃ field_info i, field_info ∈ infos ∧ is_reference_field field_info = true
            ∧ ParseOptionalValue (ParseValue_int 64) jnode0 (name field_info) = Ok (Some i)
            ∧ d = to_size_t i.
Proof.
  induction infos as [| fi infos IH]; intros jnode0 Hparse; cbn.
  - exists jnode0. split; [done |]. split; [lia | by left].
  - destruct (is_reference_field fi) eqn:Hfi.
    + destruct (Hparse fi ltac:(by left) Hfi) as [r Hr]. rewrite Hr. cbn.
      destruct r as [i |]; cbn.
      * edestruct IH as (jnode & -> & Hlen & Hfrom).
        { intros fi' Hin' Href'. destruct (Hparse fi' ltac:(by right) Href') as [r' Hr'].
          exists r'. rewrite <- Hr'. by apply ParseOptionalValue_attrs. }
        exists jnode. split; [done |]. cbn in Hlen. rewrite length_app in Hlen. cbn in Hlen.
        split; [lia |]. intros d Hd. destruct (Hfrom d Hd) as [Hold | (fi' & i' & ? & ? & Hp & ?)].
        -- cbn in Hold. apply elem_of_app in Hold as [? | ->%list_elem_of_singleton]; [by left |].
           right. exists fi, i. split; [by left | done].
        -- right. exists fi', i'. split; [by right |]. split; [done |]. split; [| done].
           rewrite <- Hp. by apply ParseOptionalValue_attrs.
      * destruct (IH jnode0) as (jnode & -> & Hlen & Hfrom).
        { intros fi' Hin' Href'. apply Hparse; [by right | done]. }
        exists jnode. split; [done |]. split; [lia |].
        intros d Hd. destruct (Hfrom d Hd) as [? | (fi' & i' & ? & ? & ? & ?)]; [by left |].
        right. exists fi', i'. split; [by right | done].
    + cbn. destruct (IH jnode0) as (jnode & -> & Hlen & Hfrom).
      { intros fi' Hin' Href'. apply Hparse; [by right | done]. }
      exists jnode. split; [done |]. split; [lia |].
      intros d Hd. destruct (Hfrom d Hd) as [? | (fi' & i' & ? & ? & ? & ?)]; [by left |].
      right. exists fi', i'. split; [by right | done].
Qed.
End Finder_facts.

(** ** [TopoSort] on an acyclic graph *)

Lemma TopoSort_acyclic_Ok g fuel :
  jg_ids_in_range g → Z.of_nat (jg_edge_count g) < size_t_modulus →
  ¬ jg_cyclic g → (length (nodes g) ≤ fuel)%nat →
  ∃ order, TopoSort fuel g = Some (Ok order).
Proof.
  intros Hrange Hsmall Hacyclic Hfuel.
  destruct (TopoSort_result g Hrange Hsmall fuel Hfuel) as (kahn & deg & HI & ->).
  case_bool_decide as Hlen; [by eexists |].
  destruct Hacyclic. by apply (incomplete_cyclic g kahn deg HI).
Qed.

Lemma ranked_acyclic g (rank : Z → nat) :
  (∀ u w, jg_edge g u w → (rank w < rank u)%nat) → ¬ jg_cyclic g.
Proof.
  intros Hrank [u Hu].
  assert (Hlt : ∀ x y, tc (jg_edge g) x y → (rank y < rank x)%nat).
  { induction 1 as [x y Hxy | x y z Hxy _ IH]; [by apply Hrank |].
    specialize (Hrank x y Hxy). lia. }
  specialize (Hlt u u Hu). lia.
Qed.

Lemma sum_list_with_submseteq {A} (f : A → nat) (l k : list A) :
  l ⊆+ k → (sum_list_with f l ≤ sum_list_with f k)%nat.
Proof. induction 1; cbn; lia. Qed.

(** Each value below the root is held by exactly one occurrence of a value. *)
Lemma subterms_children_count a :
  (sum_list_with (λ x, length (children x)) (subterms a) + 1 = length (subterms a))%nat.
Proof.
  assert (Hflat : ∀ l : list Any,
            Forall (λ a, sum_list_with (λ x, length (children x)) (subterms a) + 1
                         = length (subterms a))%nat l →
            (sum_list_with (λ x, length (children x)) (flat_map subterms l) + length l
             = length (flat_map subterms l))%nat).
  { induction 1 as [| x l Hx _ IH]; [done |].
    cbn. rewrite sum_list_with_app, length_app. lia. }
  induction a as [k z | p s | p s | p d | p t | p l IH | p kvs IH | n p fs IH]
    using Any_nested_ind; cbn [subterms sum_list_with children length]; try done.
  - specialize (Hflat l IH). lia.
  - enough (sum_list_with (λ x, length (children x))
              (flat_map (λ kv : Any * Any, subterms kv.1 ++ subterms kv.2) kvs)
            + length (flat_map (λ kv : Any * Any, [kv.1; kv.2]) kvs)
            = length (flat_map (λ kv : Any * Any, subterms kv.1 ++ subterms kv.2) kvs))%nat by lia.
    induction IH as [| kv kvs [Hk Hv] _ IH']; [done |].
    cbn. rewrite !sum_list_with_app, !length_app. lia.
  - specialize (Hflat fs IH). lia.
Qed.

Lemma edges_bounded (bs : list Any) (js : list JSONNode) :
  Forall2 (λ b j, length (jn_edges j) ≤ length (children b))%nat bs js →
  (length (js ≫= jn_edges) ≤ sum_list_with (λ x, length (children x)) bs)%nat.
Proof. induction 1 as [| b j bs js Hbj _ IH]; [done |]. cbn. rewrite length_app. lia. Qed.

(** The address pass 1 gave to the copy of the object at address [q]. *)
Fixpoint copy_address (bs inits : list Any) (q : Z) : Z :=
  match bs, inits with
  | b :: bs', init :: inits' =>
      if is_AnyObject b && (v_int64 b =? q) then v_int64 init else copy_address bs' inits' q
  | _, _ => 0
  end.

Lemma copy_address_lookup bs : ∀ inits (i : nat) b init,
  bs !! i = Some b → inits !! i = Some init → is_AnyObject b = true →
  (∀ (j : nat) b', (j < i)%nat → bs !! j = Some b' → is_AnyObject b' = true →
     v_int64 b' ≠ v_int64 b) →
  copy_address bs inits (v_int64 b) = v_int64 init.
Proof.
  induction bs as [| b0 bs IH]; intros inits i b init Hi Hinit Hobj Hfirst; [done |].
  destruct inits as [| init0 inits]; [done |]. destruct i as [| i]; cbn in Hi, Hinit |- *.
  - injection Hi as ->. injection Hinit as ->. by rewrite Hobj, Z.eqb_refl.
  - destruct (is_AnyObject b0) eqn:Hobj0; cbn.
    + destruct (Z.eqb_spec (v_int64 b0) (v_int64 b)) as [Heq | _].
      * by destruct (Hfirst 0%nat b0 ltac:(lia) eq_refl Hobj0).
      * apply (IH inits i); try done. intros j b' Hj. apply (Hfirst (S j)). lia.
    + apply (IH inits i); try done. intros j b' Hj. apply (Hfirst (S j)). lia.
Qed.

(** ** Serializing a supported value *)

(** The same value, or two strings with the same characters. *)
Definition same_value (b a : Any) : Prop :=
  b = a ∨ ∃ p q s, b = AnyStr p s ∧ a = AnyStr q s.

Lemma copy_same_value V φ l b a : copy_of V φ l b → same_value b a → copy_of V φ l a.
Proof.
  intros Hm [-> | (p & q & s & -> & ->)]; [done |].
  inversion Hm; subst. by constructor.
Qed.

Lemma same_value_subterms b a : same_value b a → length (subterms b) = length (subterms a).
Proof. by intros [-> | (p & q & s & -> & ->)]. Qed.

Lemma same_value_object b a : same_value b a → is_object b = is_object a.
Proof. by intros [-> | (p & q & s & -> & ->)]. Qed.

Lemma children_smaller a c : c ∈ children a → (length (subterms c) < length (subterms a))%nat.
Proof.
  intros Hc.
  assert (Hflat : ∀ (l : list Any), c ∈ l →
            (length (subterms c) ≤ length (flat_map subterms l))%nat).
  { induction l as [| x l IH]; [by intros ?%elem_of_nil |].
    cbn. rewrite length_app. intros [-> | Hl]%elem_of_cons; [lia |]. specialize (IH Hl). lia. }
  destruct a as [k z | p s | p s | p d | p t | p l | p kvs | n p fs]; cbn in Hc |- *;
    try (by apply elem_of_nil in Hc).
  - specialize (Hflat l Hc). lia.
  - apply elem_of_flat_map in Hc as (kv & Hkv & Hc).
    assert (length (subterms c) ≤ length (subterms kv.1 ++ subterms kv.2))%nat.
    { rewrite length_app. set_unfold. destruct Hc as [-> | [-> | []]]; lia. }
    enough (length (subterms kv.1 ++ subterms kv.2)
            ≤ length (flat_map (λ kv : Any * Any, subterms kv.1 ++ subterms kv.2) kvs))%nat by lia.
    clear -Hkv. induction kvs as [| x l IH]; [by apply elem_of_nil in Hkv |].
    cbn. rewrite (length_app (subterms x.1 ++ subterms x.2)).
    apply elem_of_cons in Hkv as [-> | Hl]; [lia |]. specialize (IH Hl). lia.
  - specialize (Hflat fs Hc). lia.
Qed.

(** [children_related R l b]: the values the copy [l] of [b] holds are
    related by [R] to the values [b] holds at the same places: the elements
    of an array, the values of a map and, unless its keys are all strings,
    its keys, and the fields of an object that hold object references. *)
Definition children_related (R : Any → Any → Prop) (l b : Any) : Prop :=
  match b with
  | AnyArray _ rs => ∃ p ls, l = AnyArray p ls ∧ Forall2 R ls rs
  | AnyMap _ rkvs =>
      ∃ p lkvs, l = AnyMap p lkvs
        ∧ Forall2 (λ l r : Any * Any,
                     R l.2 r.2
                     ∧ (forallb (λ kv : Any * Any, is_string kv.1) rkvs = false → R l.1 r.1))
                  lkvs rkvs
  | AnyObject _ _ rfs =>
      ∃ n p lfs, l = AnyObject n p lfs
        ∧ Forall2 (λ l r, is_object r = true → R l r) lfs rfs
  | _ => True
  end.

Lemma children_related_impl (R R' : Any → Any → Prop) l b :
  (∀ l' c, R l' c → R' l' c) → children_related R l b → children_related R' l b.
Proof.
  intros Himpl. destruct b as [| | | | | p rs | p rkvs | n p rfs]; cbn; try done.
  - intros (q & ls & -> & Hall). exists q, ls. split; [done |].
    eapply Forall2_impl; [exact Hall | done].
  - intros (q & lkvs & -> & Hall). exists q, lkvs. split; [done |].
    eapply Forall2_impl; [exact Hall |]. intros x y [Hv Hk]. split; auto.
  - intros (m & q & lfs & -> & Hall). exists m, q, lfs. split; [done |].
    eapply Forall2_impl; [exact Hall |]. intros x y Hxy Hobj. auto.
Qed.

Section Serialized.
Context `{TypeRegistry} `{ReflectionVTable}.
Variable v : Any.
Variable ix : NodeIndexer.

Hypothesis Hsup : supported v = true.
Hypothesis Huniq : unique_addresses v.
Hypothesis Hreg : registry_ok.
Hypothesis Hrefl : ∀ n p fs, AnyObject n p fs ∈ subterms v → reflective n.
Hypothesis Hix : MakeIndex v NodeIndexer_init = Ok ix.
Hypothesis Hsize : Z.of_nat (length (subterms v)) < 2 ^ 63.

Lemma unique_consistent : consistent v.
Proof.
  intros a b Ha%reachable_subterms Hb%reachable_subterms Hobj Hti Haddr.
  apply Huniq; try done; unfold is_object; [by rewrite Hobj | by rewrite <- Hti, Hobj].
Qed.

Lemma objects_have_no_repr b :
  reachable v b → is_AnyObject b = true → GetReprBytes b = None.
Proof.
  intros Hb%reachable_subterms Hobj. destruct b as [| | | | | | | n p fs]; try done.
  apply (rf_repr n (Hrefl n p fs Hb)).
Qed.

(** An entry of the node list: null at position 0, otherwise a value of [v]. *)
Lemma entry_cases (i : nat) b :
  node_list_ ix !! i = Some b →
  supported b = true
  ∧ ((i = 0%nat ∧ b = AnyNone) ∨ (is_null b = false ∧ b ∈ subterms v)).
Proof.
  intros Hi. destruct (MakeIndex_closed v ix unique_consistent Hix) as (_ & _ & Honly).
  destruct (Honly i b Hi) as [[-> ->] | [Hn Ht]]; [split; [done | by left] |].
  apply traversed_reachable, reachable_subterms in Ht.
  split; [by apply (supported_subterm v) | by right].
Qed.

Lemma entry_zero : node_list_ ix !! 0%nat = Some AnyNone.
Proof.
  destruct (MakeIndex_correct v _ _ indexer_ok_init Hix) as (_ & new & -> & _). done.
Qed.

(** An id designates the value itself, or a string with the same characters. *)
Lemma designates_same_value d a :
  a ∈ subterms v → supported a = true → designates (node_list_ ix) d a →
  0 ≤ d ∧ ∃ b, node_list_ ix !! Z.to_nat d = Some b ∧ same_value b a.
Proof.
  intros Ha Hsa (Hd & b & Hb & He). split; [done |]. exists b. split; [done |].
  destruct (entry_cases _ b Hb) as [Hsb [[_ ->] | [Hn Hbv]]].
  - left. unfold AnyEqual in He. cbn in He.
    destruct a as [[] z | | | | | | |]; try done. cbn in Hsa, He.
    apply Z.eqb_eq in Hsa as ->. done.
  - destruct (AnyEqual_consistent v b a unique_consistent) as [-> | ([Ht | Ht] & Ht' & Hs)];
      try done; try (by apply reachable_subterms).
    + by left.
    + right. rewrite Ht in Ht'.
      destruct b as [[] ? | | | | | | |]; try done; destruct a as [[] ? | | | | | | |]; try done.
      cbn in Hs. subst. eauto.
    + destruct b as [[] ? | | | | | | |]; done.
Qed.

(** Every value of [v] that is not null has an id. *)
Lemma object_has_id a :
  a ∈ subterms v → is_AnyObject a = true →
  ∃ (i : nat), node_list_ ix !! i = Some a.
Proof.
  intros Ha Hobj.
  destruct (MakeIndex_closed v ix unique_consistent Hix) as (Hok & Hall & _).
  destruct (Hall a) as [d Hd]; [| by destruct a |].
  { apply object_traversed; try done; [apply objects_have_no_repr | by apply reachable_subterms]. }
  assert (Hdes : designates (node_list_ ix) d a).
  { apply node_index_at_designates; [done |]. unfold node_index_at. by rewrite Hd. }
  destruct (designates_same_value d a Ha (supported_subterm v a Hsup Ha) Hdes)
    as (_ & b & Hb & [-> | (p & q & s & -> & ->)]); [eauto | done].
Qed.

Lemma entry_unique (i j : nat) b :
  node_list_ ix !! i = Some b → node_list_ ix !! j = Some b → i = j.
Proof.
  intros Hi Hj. destruct (MakeIndex_closed v ix unique_consistent Hix) as (Hok & _ & _).
  destruct (Nat.lt_trichotomy i j) as [Hlt | [-> | Hlt]]; [| done |].
  - pose proof (ok_distinct _ Hok i j b b Hlt Hi Hj) as He. by rewrite AnyEqual_refl in He.
  - pose proof (ok_distinct _ Hok j i b b Hlt Hj Hi) as He. by rewrite AnyEqual_refl in He.
Qed.

(** *** The node of each entry *)

Definition mk_node (key repr : string) (attrs : AttrMap) (keys : list string) (data : list Z)
  : JSONNode :=
  {| jn_type_key := key; jn_repr_bytes := repr; jn_attrs := attrs;
     jn_keys := keys; jn_data := data; jn_fields := [] |}.

(** The node written for a supported entry, kind by kind. *)
Inductive node_view : Any → JSONNode → Prop :=
| view_None : node_view AnyNone empty_JSONNode
| view_Int z :
    - 2 ^ 63 ≤ z < 2 ^ 63 →
    node_view (AnyPOD PInt z)
      (mk_node (StaticTypeKey kTVMFFIInt) "" (<["v_int64" := to_string_int z]> ∅) [] [])
| view_Bool z :
    z = 0 ∨ z = 1 →
    node_view (AnyPOD PBool z)
      (mk_node (StaticTypeKey kTVMFFIBool) "" (<["v_int64" := to_string_int z]> ∅) [] [])
| view_Str p s repr :
    GetReprBytes (AnyStr p s) = Some repr →
    node_view (AnyStr p s) (mk_node (StaticTypeKey kTVMFFIStr) repr ∅ [] [])
| view_Array p elems data :
    Forall2 (λ e d, designates (node_list_ ix) d e) elems data →
    node_view (AnyArray p elems) (mk_node ArrayObj_type_key "" ∅ [] data)
| view_Map_keyed p kvs data :
    forallb (λ kv : Any * Any, is_string kv.1) kvs = true →
    Forall2 (λ (kv : Any * Any) d, designates (node_list_ ix) d kv.2) kvs data →
    node_view (AnyMap p kvs)
      (mk_node MapObj_type_key "" ∅ ((λ kv : Any * Any, string_bytes kv.1) <$> kvs) data)
| view_Map_pairs p kvs data :
    forallb (λ kv : Any * Any, is_string kv.1) kvs = false →
    Forall2 (λ e d, designates (node_list_ ix) d e)
            (flat_map (λ kv : Any * Any, [kv.1; kv.2]) kvs) data →
    node_view (AnyMap p kvs) (mk_node MapObj_type_key "" ∅ [] data)
| view_Object n p fs attrs :
    Getter_fields (node_index_ ix) (fields (TVMFFIGetTypeInfo (kTVMFFIDynObject n))) fs ∅
    = Ok attrs →
    node_view (AnyObject n p fs)
      (mk_node (type_key (TVMFFIGetTypeInfo (kTVMFFIDynObject n))) "" attrs [] []).

Lemma ids_designate {A} (f : A → Any) l data :
  mapR (λ x, node_index_at (node_index_ ix) (f x)) l = Ok data →
  Forall2 (λ x d, designates (node_list_ ix) d (f x)) l data.
Proof.
  destruct (MakeIndex_closed v ix unique_consistent Hix) as (Hok & _ & _).
  intros Hmap%mapR_Forall2. eapply Forall2_impl; [exact Hmap |].
  intros x d Hd. by apply node_index_at_designates.
Qed.

Lemma Get_view (i : nat) b jnode :
  node_list_ ix !! i = Some b →
  JSONAttrGetter_Get (node_index_ ix) b = Ok jnode →
  node_view b jnode.
Proof.
  intros Hi Hget. destruct (entry_cases i b Hi) as [Hsb Hcases].
  destruct b as [k z | p s | p s | p d | p t | p l | p kvs | n p fs]; try done.
  2-5: unfold JSONAttrGetter_Get, is_null in Hget; cbn [type_index] in Hget;
       rewrite bool_decide_eq_false_2 in Hget by done.
  - destruct k; try done; cbn in Hsb, Hget.
    + apply Z.eqb_eq in Hsb as ->. injection Hget as <-. constructor.
    + injection Hget as <-. constructor. lia.
    + injection Hget as <-. constructor. lia.
  - destruct (ok_string Hreg p s) as (repr & Hrepr & _).
    rewrite Hrepr in Hget. injection Hget as <-. by constructor.
  - destruct (mapR _ l) as [data | |] eqn:Hdata; cbn in Hget; try done.
    injection Hget as <-. constructor. by apply (ids_designate id).
  - destruct (forallb _ kvs) eqn:Hstr.
    + destruct (mapR _ kvs) as [data | |] eqn:Hdata; cbn in Hget; try done.
      injection Hget as <-. constructor; [done |]. by apply (ids_designate snd).
    + destruct (mapR _ _) as [data | |] eqn:Hdata; cbn in Hget; try done.
      injection Hget as <-. constructor; [done |]. by apply (ids_designate id).
  - destruct Hcases as [[_ ?] | [_ Hb]]; [done |].
    rewrite (rf_repr n (Hrefl n p fs Hb)) in Hget.
    cbn in Hsb. destruct (extra_info _); [| done].
    destruct (Getter_fields _ _ _ _) as [attrs | |] eqn:Hattrs; cbn in Hget; try done.
    injection Hget as <-. by constructor.
Qed.

(** *** Pass 1 of the loader on these nodes *)

Lemma static_keys_apart (i j : nat) k1 k2 :
  (EmptyString :: static_type_keys) !! i = Some k1 →
  (EmptyString :: static_type_keys) !! j = Some k2 →
  i ≠ j → String.eqb k1 k2 = false.
Proof.
  intros Hi Hj Hne. apply String.eqb_neq. intros ->.
  apply Hne. eapply NoDup_lookup; [apply (ok_keys Hreg) | done | done].
Qed.

Lemma static_key_nonempty (i : nat) k :
  static_type_keys !! i = Some k → (String.length k =? 0)%nat = false.
Proof.
  intros Hi. assert (Hne : String.eqb k EmptyString = false).
  { apply (static_keys_apart (S i) 0); done. }
  destruct k; done.
Qed.

Definition key_position (ti : TypeIndex) : nat :=
  match ti with
  | kTVMFFINone => 1 | kTVMFFIBool => 2 | kTVMFFIInt => 3 | kTVMFFIFloat => 4
  | kTVMFFIDataType => 5 | kTVMFFIDevice => 6 | kTVMFFIArray => 7 | kTVMFFIMap => 8
  | kTVMFFINDArray => 9 | kTVMFFIStr => 10 | _ => 0
  end.

Lemma static_key_ne a b :
  key_position a ≠ 0%nat → key_position b ≠ 0%nat → key_position a ≠ key_position b →
  String.eqb (type_key (TVMFFIGetTypeInfo a)) (type_key (TVMFFIGetTypeInfo b)) = false.
Proof.
  intros Ha Hb Hab. apply (static_keys_apart (key_position a) (key_position b)); [| | done].
  - by destruct a.
  - by destruct b.
Qed.

Lemma static_key_length a :
  key_position a ≠ 0%nat → (String.length (type_key (TVMFFIGetTypeInfo a)) =? 0)%nat = false.
Proof.
  intros Ha. apply (static_key_nonempty (Nat.pred (key_position a))). by destruct a.
Qed.

Lemma object_key_apart n (j : nat) k :
  reflective n → (EmptyString :: static_type_keys) !! j = Some k →
  String.eqb (type_key (TVMFFIGetTypeInfo (kTVMFFIDynObject n))) k = false.
Proof.
  intros Hn Hj. apply String.eqb_neq. intros Heq. apply (rf_key n Hn).
  rewrite Heq. by eapply list_elem_of_lookup_2.
Qed.

Lemma object_key_nonempty n :
  reflective n →
  (String.length (type_key (TVMFFIGetTypeInfo (kTVMFFIDynObject n))) =? 0)%nat = false.
Proof.
  intros Hn. pose proof (object_key_apart n 0 EmptyString Hn eq_refl) as Hne.
  by destruct (type_key _).
Qed.

(** The value pass 1 creates for an entry when the allocator is at [nx]. *)
Inductive created (nx : Z) : Any → Any → Z → Prop :=
| created_POD k z : created nx (AnyPOD k z) (AnyPOD k z) nx
| created_Str p s : created nx (AnyStr p s) (AnyStr nx s) (nx + 1)
| created_Array p elems b0 : created nx (AnyArray p elems) (set_address nx b0) (nx + 1)
| created_Map p kvs b0 : created nx (AnyMap p kvs) (set_address nx b0) (nx + 1)
| created_Object n p fs fs0 :
    length fs0 = length (fields (TVMFFIGetTypeInfo (kTVMFFIDynObject n))) →
    created nx (AnyObject n p fs) (AnyObject n nx fs0) (nx + 1).

Ltac static_tests :=
  unfold StaticTypeKey, ArrayObj_type_key, MapObj_type_key, NDArrayObj_type_key;
  repeat first
    [ rewrite String.eqb_refl
    | rewrite static_key_ne by done
    | rewrite static_key_length by done ];
  cbn [orb andb negb].

Lemma CreateInitAny_view b jnode nx :
  b = AnyNone ∨ b ∈ subterms v → node_view b jnode →
  ∃ init nx', CreateInitAny jnode nx = Ok (init, nx') ∧ created nx b init nx'.
Proof.
  intros Hb Hview. unfold CreateInitAny.
  destruct Hview as [| z Hz | z Hz | p s repr Hrepr | p elems data Hdata
                     | p kvs data Hstr Hdata | p kvs data Hstr Hdata | n p fs attrs Hattrs];
    cbn [jn_type_key jn_repr_bytes mk_node empty_JSONNode].
  - cbn. rewrite orb_true_r. eexists _, _. split; [done | constructor].
  - unfold StaticTypeKey. static_tests.
    unfold ParseValue_int, GetValue, mk_node. cbn [jn_attrs]. rewrite lookup_insert_eq.
    cbn [bindR].
    rewrite parse_int_to_string_int by done. eexists _, _. split; [done | constructor].
  - unfold StaticTypeKey. static_tests.
    unfold ParseValue_int, GetValue, mk_node. cbn [jn_attrs]. rewrite lookup_insert_eq.
    cbn [bindR].
    rewrite parse_int_to_string_int by lia. eexists _, _. split; [done |].
    destruct Hz as [-> | ->]; constructor.
  - unfold StaticTypeKey. static_tests.
    destruct (ok_string Hreg p s) as (repr' & Hrepr' & p0 & Hcreate).
    assert (repr' = repr) as -> by congruence.
    unfold StaticTypeKey in Hcreate. rewrite Hcreate. cbn.
    eexists _, _. split; [done | constructor].
  - unfold StaticTypeKey, ArrayObj_type_key. static_tests.
    destruct (ok_array Hreg) as [b0 Hcreate]. unfold ArrayObj_type_key in Hcreate.
    rewrite Hcreate. cbn. eexists _, _. split; [done | constructor].
  - unfold StaticTypeKey, MapObj_type_key. static_tests.
    destruct (ok_map Hreg) as [b0 Hcreate]. unfold MapObj_type_key in Hcreate.
    rewrite Hcreate. cbn. eexists _, _. split; [done | constructor].
  - unfold StaticTypeKey, MapObj_type_key. static_tests.
    destruct (ok_map Hreg) as [b0 Hcreate]. unfold MapObj_type_key in Hcreate.
    rewrite Hcreate. cbn. eexists _, _. split; [done | constructor].
  - destruct Hb as [? | Hb]; [done |]. pose proof (Hrefl n p fs Hb) as Hn.
    rewrite (object_key_apart n 1 _ Hn eq_refl), (object_key_apart n 2 _ Hn eq_refl),
      (object_key_apart n 3 _ Hn eq_refl), (object_key_apart n 4 _ Hn eq_refl),
      (object_key_apart n 5 _ Hn eq_refl), (object_key_apart n 6 _ Hn eq_refl),
      (object_key_nonempty n Hn).
    cbn [orb]. destruct (rf_create n Hn) as (p0 & fs0 & -> & Hlen). cbn.
    eexists _, _. split; [done | by constructor].
Qed.

Inductive created_all : Z → list Any → list Any → Z → Prop :=
| created_nil nx : created_all nx [] [] nx
| created_cons nx b init nx1 bs inits nx2 :
    created nx b init nx1 → created_all nx1 bs inits nx2 →
    created_all nx (b :: bs) (init :: inits) nx2.

Lemma created_next nx b init nx' : created nx b init nx' → nx ≤ nx'.
Proof. destruct 1; lia. Qed.

(** The entries whose copy keeps the address pass 1 gives it. *)
Definition addressed (b : Any) : bool :=
  match b with AnyStr _ _ | AnyObject _ _ _ => true | _ => false end.

Lemma created_address nx b init nx' :
  created nx b init nx' → addressed b = true → v_int64 init = nx ∧ nx' = nx + 1.
Proof. by destruct 1. Qed.

Lemma created_all_next nx bs inits nx' : created_all nx bs inits nx' → nx ≤ nx'.
Proof. induction 1 as [| ? ? ? ? ? ? ? Hc _ IH]; [lia |]. apply created_next in Hc. lia. Qed.

Lemma created_all_length nx bs inits nx' : created_all nx bs inits nx' → length inits = length bs.
Proof. induction 1; cbn; congruence. Qed.

Lemma created_all_lookup nx bs inits nx' :
  created_all nx bs inits nx' →
  ∀ (i : nat) b, bs !! i = Some b →
    ∃ init a a', inits !! i = Some init ∧ created a b init a' ∧ nx ≤ a ∧ a' ≤ nx'.
Proof.
  induction 1 as [| nx b0 init0 nx1 bs inits nx2 Hc Hall IH]; intros i b Hi; [done |].
  pose proof (created_next _ _ _ _ Hc). pose proof (created_all_next _ _ _ _ Hall).
  destruct i as [| i]; cbn in Hi |- *.
  - injection Hi as <-. exists init0, nx, nx1. repeat split; try done; lia.
  - destruct (IH i b Hi) as (init & a & a' & Hinit & Hcr & Ha & Ha').
    exists init, a, a'. repeat split; try done; lia.
Qed.

(** Pass 1 gives different addresses to different object entries. *)
Lemma created_all_apart nx bs inits nx' :
  created_all nx bs inits nx' →
  ∀ (i j : nat) b b' init init',
    bs !! i = Some b → bs !! j = Some b' → inits !! i = Some init → inits !! j = Some init' →
    addressed b = true → addressed b' = true → v_int64 init = v_int64 init' → i = j.
Proof.
  induction 1 as [| nx b0 init0 nx1 bs inits nx2 Hc Hall IH];
    intros i j b b' init init' Hi Hj Hi' Hj' Hb Hb' Haddr; [done |].
  destruct i as [| i], j as [| j]; cbn in *; [done | | |].
  - injection Hi as <-. injection Hi' as <-.
    destruct (created_address _ _ _ _ Hc Hb) as [Ha Hnx1].
    destruct (created_all_lookup _ _ _ _ Hall j b' Hj) as (init2 & a & a' & Hinit2 & Hcr & Hlo & _).
    change (inits !! j = Some init') in Hj'. rewrite Hinit2 in Hj'. injection Hj' as ->.
    destruct (created_address _ _ _ _ Hcr Hb') as [Ha' _]. lia.
  - injection Hj as <-. injection Hj' as <-.
    destruct (created_address _ _ _ _ Hc Hb') as [Ha Hnx1].
    destruct (created_all_lookup _ _ _ _ Hall i b Hi) as (init2 & a & a' & Hinit2 & Hcr & Hlo & _).
    change (inits !! i = Some init) in Hi'. rewrite Hinit2 in Hi'. injection Hi' as ->.
    destruct (created_address _ _ _ _ Hcr Hb) as [Ha' _]. lia.
  - f_equal. by eapply IH.
Qed.

Lemma LoadJSON_create_views bs : ∀ jnodes nx,
  Forall2 node_view bs jnodes →
  (∀ b, b ∈ bs → b = AnyNone ∨ b ∈ subterms v) →
  ∃ inits nx', LoadJSON_create jnodes nx = Ok (inits, nx') ∧ created_all nx bs inits nx'.
Proof.
  induction bs as [| b bs IH]; intros jnodes nx Hviews Hin;
    inversion Hviews as [| ? jnode ? jnodes' Hview Hviews']; subst; cbn.
  - eexists _, _. split; [done | constructor].
  - destruct (CreateInitAny_view b jnode nx (Hin b ltac:(by left)) Hview)
      as (init & nx1 & -> & Hcr). cbn.
    destruct (IH jnodes' nx1 Hviews') as (inits & nx2 & -> & Hall).
    { intros x Hx. apply Hin. by right. }
    cbn. eexists _, _. split; [done | by econstructor].
Qed.

(** *** The size of the table *)

Lemma node_list_new :
  ∃ new, node_list_ ix = AnyNone :: new ∧ NoDup new ∧ (∀ b, b ∈ new → b ∈ subterms v).
Proof.
  destruct (MakeIndex_correct v _ _ indexer_ok_init Hix) as (_ & new & Hl & _).
  cbn in Hl. exists new. split; [done |]. split.
  - apply NoDup_alt. intros i j b Hi Hj.
    assert (S i = S j) by (apply (entry_unique (S i) (S j) b); by rewrite Hl). lia.
  - intros b [i Hi]%list_elem_of_lookup.
    destruct (entry_cases (S i) b) as [_ [[? _] | [_ ?]]]; [by rewrite Hl | done | done].
Qed.

Lemma node_list_small : Z.of_nat (length (node_list_ ix)) ≤ 2 ^ 63.
Proof.
  destruct node_list_new as (new & -> & Hnd & Hin). cbn [length].
  assert (new ⊆+ subterms v) as Hsub%submseteq_length by (by apply NoDup_submseteq).
  lia.
Qed.

Lemma designates_range d a : designates (node_list_ ix) d a → 0 ≤ d < 2 ^ 63.
Proof.
  intros (Hd & b & Hb%lookup_lt_Some & _). pose proof node_list_small. lia.
Qed.

(** *** Pass 2 of the loader on these nodes *)

(** The node with the field dependencies added. *)
Definition with_fields (jnode : JSONNode) (ids : list Z) : JSONNode :=
  {| jn_type_key := jn_type_key jnode; jn_repr_bytes := jn_repr_bytes jnode;
     jn_attrs := jn_attrs jnode; jn_keys := jn_keys jnode; jn_data := jn_data jnode;
     jn_fields := ids |}.

Lemma with_fields_same jnode jnode' :
  jn_type_key jnode' = jn_type_key jnode → jn_repr_bytes jnode' = jn_repr_bytes jnode →
  jn_attrs jnode' = jn_attrs jnode → jn_keys jnode' = jn_keys jnode →
  jn_data jnode' = jn_data jnode → jnode' = with_fields jnode (jn_fields jnode').
Proof. destruct jnode, jnode'. cbn. by intros -> -> -> -> ->. Qed.

Lemma field_holds_cases field_info c :
  field_holds field_info c = true →
  (is_reference_field field_info = true ∧ (is_null c = true ∨ is_object c = true))
  ∨ (is_reference_field field_info = false
     ∧ ((field_static_type_index field_info = kTVMFFIInt ∧ ∃ z, c = AnyPOD PInt z)
        ∨ (field_static_type_index field_info = kTVMFFIBool ∧ ∃ z, c = AnyPOD PBool z))).
Proof.
  unfold field_holds, is_reference_field.
  destruct (field_static_type_index field_info) eqn:Hti; try done.
  all: try (intros Hc; right; (split; [by rewrite bool_decide_eq_false_2 |]);
            first [left; split; [done |] | right; split; [done |]];
            destruct c as [[] z | | | | | | |]; try done; by exists z).
  all: intros [Href Hc%orb_true_iff]%andb_true_iff; left; by split.
Qed.

(** The text of a field that holds what it declares. *)
Lemma field_text_holds field_info c t :
  field_holds field_info c = true → supported c = true →
  field_text (node_index_ ix) c = Ok t →
  if is_reference_field field_info
  then (is_null c = true ∧ t = "null"%string)
       ∨ (is_object c = true
          ∧ ∃ d, designates (node_list_ ix) d c ∧ t = to_string_int d)
  else ∃ z, - 2 ^ 63 ≤ z < 2 ^ 63 ∧ t = to_string_int z
            ∧ ((field_static_type_index field_info = kTVMFFIInt ∧ c = AnyPOD PInt z)
               ∨ (field_static_type_index field_info = kTVMFFIBool ∧ c = AnyPOD PBool z
                  ∧ (z = 0 ∨ z = 1))).
Proof.
  destruct (MakeIndex_closed v ix unique_consistent Hix) as (Hok & _ & _).
  intros Hh Hs Ht.
  destruct (field_holds_cases _ _ Hh) as [[-> [Hc | Hc]] | [-> [[Hti [z ->]] | [Hti [z ->]]]]].
  - left. split; [done |]. destruct c as [[] z | | | | | | |]; try done.
    cbn in Ht. by injection Ht as <-.
  - right. split; [done |]. destruct c as [[] z | | | | | | |]; try done; cbn in Ht;
      destruct (node_index_at _ _) as [d | |] eqn:Hd; try done; injection Ht as <-;
      exists d; (split; [| done]); by apply node_index_at_designates.
  - cbn in Ht, Hs. injection Ht as <-. exists z. split; [lia |]. split; [done |]. by left.
  - cbn in Ht, Hs. injection Ht as <-. exists z. split; [lia |]. split; [done |].
    right. split; [done |]. split; [done |]. lia.
Qed.

Lemma ParseOptionalValue_null jnode key :
  jn_attrs jnode !! key = Some "null"%string →
  ParseOptionalValue (ParseValue_int 64) jnode key = Ok None.
Proof. intros Hk. unfold ParseOptionalValue, GetValue. by rewrite Hk. Qed.

Lemma ParseOptionalValue_int jnode key z :
  jn_attrs jnode !! key = Some (to_string_int z) → - 2 ^ 63 ≤ z < 2 ^ 63 →
  ParseOptionalValue (ParseValue_int 64) jnode key = Ok (Some z).
Proof.
  intros Hk Hz. unfold ParseOptionalValue, ParseValue_int, GetValue. rewrite Hk. cbn.
  by rewrite to_string_int_not_null, parse_int_to_string_int.
Qed.

Lemma to_size_t_small d : 0 ≤ d < 2 ^ 63 → to_size_t d = d.
Proof. intros Hd. unfold to_size_t, size_t_modulus. apply Z.mod_small. lia. Qed.

(** The attribute of each field of an object entry. *)
Lemma object_attrs n p fs attrs (k : nat) field_info c :
  AnyObject n p fs ∈ subterms v →
  Getter_fields (node_index_ ix) (fields (TVMFFIGetTypeInfo (kTVMFFIDynObject n))) fs ∅
  = Ok attrs →
  fields (TVMFFIGetTypeInfo (kTVMFFIDynObject n)) !! k = Some field_info →
  fs !! k = Some c →
  supported c = true ∧ c ∈ subterms v ∧ field_holds field_info c = true
  ∧ ∃ t, field_text (node_index_ ix) c = Ok t ∧ attrs !! name field_info = Some t.
Proof.
  intros Hb Hattrs Hk Hc.
  pose proof (supported_subterm v _ Hsup Hb) as Hsb. cbn in Hsb.
  rewrite !andb_true_iff in Hsb.
  destruct Hsb as ((((_ & Hlen%bool_decide_eq_true) & Hnd%bool_decide_eq_true) & Hholds) & Hsf).
  rewrite forallb_forall in Hsf, Hholds.
  assert (Hcin : c ∈ fs) by (by eapply list_elem_of_lookup_2).
  split; [by apply Hsf, list_elem_of_In |].
  split; [by apply (subterms_trans v (AnyObject n p fs)) |]. split.
  - apply (Hholds (field_info, c)), list_elem_of_In.
    apply list_elem_of_lookup. exists k. by apply lookup_zip_Some.
  - destruct (Getter_fields_spec _ _ _ _ _ Hnd Hlen Hattrs) as [_ Hthis]. by apply (Hthis k).
Qed.

Lemma Find_container init jnode :
  String.eqb (jn_type_key jnode) ArrayObj_type_key
  || String.eqb (jn_type_key jnode) MapObj_type_key = true →
  FieldDependencyFinder_Find init jnode = Ok jnode.
Proof.
  intros Hk. unfold FieldDependencyFinder_Find.
  destruct (is_null init); [done |].
  destruct (below_StaticObjectBegin _); [done |].
  destruct (negb _ || bool_decide _); [done |]. by rewrite Hk.
Qed.

Lemma Find_view b jnode nx init nx' :
  b = AnyNone ∨ b ∈ subterms v → node_view b jnode → created nx b init nx' →
  ∃ ids, FieldDependencyFinder_Find init jnode = Ok (with_fields jnode ids)
    ∧ (length ids ≤ length (children b))%nat
    ∧ (∀ d, d ∈ ids → ∃ c, c ∈ children b ∧ designates (node_list_ ix) d c)
    ∧ (is_AnyObject b = false → ids = [])
    ∧ (assigns_fields init (with_fields jnode ids) = true →
       references_recorded init (with_fields jnode ids)).
Proof.
  intros Hb Hview Hcr.
  assert (Hplain : jn_fields jnode = [] →
            FieldDependencyFinder_Find init jnode = Ok jnode →
            assigns_fields init jnode = false →
            ∃ ids, FieldDependencyFinder_Find init jnode = Ok (with_fields jnode ids)
              ∧ (length ids ≤ length (children b))%nat
              ∧ (∀ d, d ∈ ids → ∃ c, c ∈ children b ∧ designates (node_list_ ix) d c)
              ∧ (is_AnyObject b = false → ids = [])
              ∧ (assigns_fields init (with_fields jnode ids) = true →
                 references_recorded init (with_fields jnode ids))).
  { intros Hf Hfind Hassign. exists [].
    assert (with_fields jnode [] = jnode) as -> by (destruct jnode; cbn in *; by subst).
    split; [done |]. split; [cbn; lia |]. split; [by intros ? ?%elem_of_nil |].
    split; [done |]. by rewrite Hassign. }
  destruct Hview as [| z Hz | z Hz | p s repr Hrepr | p elems data Hdata
                     | p kvs data Hstr Hdata | p kvs data Hstr Hdata | n p fs attrs Hattrs];
    inversion Hcr as [? ? | ? ? | ? ? b0 | ? ? b0 | ? ? ? fs0 Hlen0]; subst.
  1-3: apply Hplain;
       [ done
       | unfold FieldDependencyFinder_Find, is_null; cbn [type_index pod_type_index];
         by repeat case_bool_decide
       | unfold assigns_fields, is_object;
         cbn [type_index pod_type_index below_StaticObjectBegin negb];
         by rewrite andb_false_r ].
  - apply Hplain; try done.
    + unfold FieldDependencyFinder_Find, is_null. cbn [type_index below_StaticObjectBegin].
      rewrite bool_decide_eq_false_2 by done.
      destruct (ok_string Hreg nx s) as (? & -> & _).
      by rewrite (bool_decide_eq_true_2 (is_Some _)), orb_true_r by done.
    + unfold assigns_fields. destruct (ok_string Hreg nx s) as (? & -> & _).
      rewrite (bool_decide_eq_true_2 (is_Some _)) by done. by rewrite orb_true_r, !andb_false_r.
  - apply Hplain; try done.
    + apply Find_container. cbn [jn_type_key mk_node]. by rewrite String.eqb_refl.
    + unfold assigns_fields. cbn [jn_type_key mk_node]. by rewrite String.eqb_refl.
  - apply Hplain; try done.
    + apply Find_container. cbn [jn_type_key mk_node]. by rewrite String.eqb_refl, orb_true_r.
    + unfold assigns_fields. cbn [jn_type_key mk_node].
      by rewrite String.eqb_refl, andb_false_r.
  - apply Hplain; try done.
    + apply Find_container. cbn [jn_type_key mk_node]. by rewrite String.eqb_refl, orb_true_r.
    + unfold assigns_fields. cbn [jn_type_key mk_node].
      by rewrite String.eqb_refl, andb_false_r.
  - destruct Hb as [? | Hb]; [done |]. pose proof (Hrefl n p fs Hb) as Hn.
    pose proof (supported_subterm v _ Hsup Hb) as Hsb. cbn in Hsb.
    rewrite !andb_true_iff in Hsb.
    destruct Hsb as ((((Hkind & Hlen%bool_decide_eq_true) & _) & _) & _).
    set (jnode := mk_node _ _ _ _ _).
    assert (Hfind : FieldDependencyFinder_Find (AnyObject n nx fs0) jnode
                    = FieldDependencyFinder_fields
                        (fields (TVMFFIGetTypeInfo (kTVMFFIDynObject n))) jnode).
    { unfold FieldDependencyFinder_Find, is_null. cbn [type_index below_StaticObjectBegin].
      rewrite bool_decide_eq_false_2 by done.
      rewrite (rf_repr n Hn), (bool_decide_eq_false_2 (is_Some None)) by (by intros [? ?]).
      cbn [jnode jn_repr_bytes jn_type_key mk_node String.length Nat.eqb negb orb].
      rewrite (object_key_apart n 7 _ Hn eq_refl), (object_key_apart n 8 _ Hn eq_refl),
        (object_key_apart n 9 _ Hn eq_refl).
      cbn [orb]. by destruct (extra_info _). }
    assert (Hparse : ∀ field_info, field_info ∈ fields (TVMFFIGetTypeInfo (kTVMFFIDynObject n)) →
              is_reference_field field_info = true →
              ∃ r, ParseOptionalValue (ParseValue_int 64) jnode (name field_info) = Ok r
                   ∧ ∀ i, r = Some i → 0 ≤ i < 2 ^ 63
                          ∧ ∃ c, c ∈ fs ∧ designates (node_list_ ix) i c).
    { intros fi [k Hk]%list_elem_of_lookup Href.
      destruct (lookup_lt_is_Some_2 fs k) as [c Hc];
        [rewrite Hlen; by eapply lookup_lt_Some |].
      destruct (object_attrs n p fs attrs k fi c Hb Hattrs Hk Hc)
        as (Hsc & Hcv & Hholds & t & Ht & Hattr).
      pose proof (field_text_holds fi c t Hholds Hsc Ht) as Htext. rewrite Href in Htext.
      destruct Htext as [[_ ->] | (_ & d & Hd & ->)].
      - exists None. split; [by apply ParseOptionalValue_null | done].
      - exists (Some d). pose proof (designates_range d c Hd).
        split; [apply ParseOptionalValue_int; [done | lia] |]. intros i [= <-]. split; [done |].
        exists c. split; [by eapply list_elem_of_lookup_2 | done]. }
    destruct (FieldDependencyFinder_fields_complete
                (fields (TVMFFIGetTypeInfo (kTVMFFIDynObject n))) jnode)
      as (jnode' & Hrun & Hlen' & Hfrom).
    { intros fi Hfi Href. destruct (Hparse fi Hfi Href) as (r & Hr & _). eauto. }
    rewrite <- Hfind in Hrun.
    destruct (FieldDependencyFinder_Find_spec _ _ _ Hrun) as (H1 & H2 & H3 & H4 & H5 & Hrec).
    pose proof (with_fields_same jnode jnode' H1 H2 H3 H4 H5) as Heq.
    exists (jn_fields jnode'). rewrite <- Heq.
    split; [done |]. split; [cbn in *; lia |]. split; [| split].
    + intros d Hd. destruct (Hfrom d Hd) as [?%elem_of_nil | (fi & i & Hfi & Href & Hp & ->)];
        [done |].
      destruct (Hparse fi Hfi Href) as (r & Hr & Hi). rewrite Hr in Hp. injection Hp as ->.
      destruct (Hi i eq_refl) as (Hrange & c & Hc & Hd'). rewrite to_size_t_small by done.
      exists c. by split.
    + done.
    + intros Hassign. apply Hrec; [done |]. rewrite H1.
      apply (object_key_apart n 9 _ Hn eq_refl).
Qed.

(** *** The nodes after pass 2 *)

Lemma view_data b jnode :
  node_view b jnode →
  (∀ d, d ∈ jn_data jnode → ∃ c, c ∈ children b ∧ designates (node_list_ ix) d c)
  ∧ (length (jn_data jnode) ≤ length (children b))%nat
  ∧ (is_AnyObject b = true → jn_data jnode = []).
Proof.
  assert (Hgen : ∀ (l : list Any) data, Forall2 (λ e d, designates (node_list_ ix) d e) l data →
            (∀ d, d ∈ data → ∃ c, c ∈ l ∧ designates (node_list_ ix) d c)
            ∧ length data = length l).
  { intros l data Hall. split; [| symmetry; by eapply Forall2_length].
    intros d [k Hk]%list_elem_of_lookup.
    destruct (Forall2_lookup_r _ _ _ _ _ Hall Hk) as (c & Hc & Hd).
    exists c. split; [by eapply list_elem_of_lookup_2 | done]. }
  destruct 1 as [| z Hz | z Hz | p s repr Hrepr | p elems data Hdata
                 | p kvs data Hstr Hdata | p kvs data Hstr Hdata | n p fs attrs Hattrs];
    cbn [jn_data mk_node empty_JSONNode children length]; try (by split; [intros ? ?%elem_of_nil |]).
  - destruct (Hgen _ _ Hdata) as [Hd Hlen]. split; [done |]. split; [lia | done].
  - split; [| split; [| done]].
    + intros d [k Hk]%list_elem_of_lookup.
      destruct (Forall2_lookup_r _ _ _ _ _ Hdata Hk) as (kv & Hkv & Hd).
      exists kv.2. split; [| done]. apply elem_of_flat_map. exists kv.
      split; [by eapply list_elem_of_lookup_2 | set_solver].
    + rewrite <- (Forall2_length _ _ _ Hdata). clear. induction kvs; cbn; lia.
  - destruct (Hgen _ _ Hdata) as [Hd Hlen]. split; [done |]. split; [lia | done].
  - split; [by intros ? ?%elem_of_nil |]. split; [lia | done].
Qed.

(** What passes 1 and 2 leave for an entry [b]: the created value [init] and
    the node [jnode'] with its dependencies. *)
Record entry_facts (nx0 : Z) (b init : Any) (jnode' : JSONNode) : Prop := {
  ef_view : ∃ jnode ids, node_view b jnode ∧ jnode' = with_fields jnode ids
                         ∧ (is_AnyObject b = false → ids = []);
  ef_created : ∃ a a', created a b init a' ∧ nx0 ≤ a;
  ef_edges : ∀ d, d ∈ jn_edges jnode' →
               ∃ c, c ∈ children b ∧ designates (node_list_ ix) d c;
  ef_count : (length (jn_edges jnode') ≤ length (children b))%nat;
  ef_recorded : assigns_fields init jnode' = true → references_recorded init jnode' }.

Lemma entry_facts_intro nx0 a a' b jnode init :
  b = AnyNone ∨ b ∈ subterms v → node_view b jnode → created a b init a' → nx0 ≤ a →
  ∃ jnode', FieldDependencyFinder_Find init jnode = Ok jnode' ∧ entry_facts nx0 b init jnode'.
Proof.
  intros Hb Hview Hcr Ha.
  destruct (Find_view b jnode a init a' Hb Hview Hcr) as (ids & Hfind & Hlen & Hids & Hnil & Hrec).
  destruct (view_data b jnode Hview) as (Hdata & Hdlen & Hdnil).
  exists (with_fields jnode ids). split; [done |]. split.
  - by exists jnode, ids.
  - by exists a, a'.
  - intros d. unfold jn_edges. cbn [jn_data jn_fields with_fields].
    intros [Hd | Hd]%elem_of_app; auto.
  - unfold jn_edges. cbn [jn_data jn_fields with_fields]. rewrite length_app.
    destruct (is_AnyObject b) eqn:Hobj.
    + rewrite Hdnil by done. cbn. lia.
    + rewrite Hnil by done. cbn. lia.
  - done.
Qed.

Lemma LoadJSON_dependencies_views nx0 nx bs inits nx' :
  created_all nx bs inits nx' → nx0 ≤ nx →
  ∀ jnodes, Forall2 node_view bs jnodes →
    (∀ b, b ∈ bs → b = AnyNone ∨ b ∈ subterms v) →
    ∃ jnodes', LoadJSON_dependencies inits jnodes = Ok jnodes'
      ∧ length jnodes' = length bs
      ∧ ∀ (i : nat) b init jnode', bs !! i = Some b → inits !! i = Some init →
          jnodes' !! i = Some jnode' → entry_facts nx0 b init jnode'.
Proof.
  induction 1 as [| nx b0 init0 nx1 bs inits nx2 Hc Hall IH]; intros Hnx jnodes Hviews Hin;
    inversion Hviews as [| ? jnode ? jnodes0 Hview Hviews']; subst; cbn.
  - exists []. split; [done |]. split; [done |]. by intros [].
  - destruct (entry_facts_intro nx0 nx nx1 b0 jnode init0 (Hin b0 ltac:(by left)) Hview Hc Hnx)
      as (jnode' & -> & Hfacts). cbn.
    pose proof (created_next _ _ _ _ Hc).
    destruct (IH ltac:(lia) jnodes0 Hviews') as (jnodes' & -> & Hlen & Hrest).
    { intros x Hx. apply Hin. by right. }
    cbn. eexists. split; [done |]. split; [cbn; by rewrite Hlen |].
    intros [| i] b init jn; cbn.
    + by intros [= <-] [= <-] [= <-].
    + apply Hrest.
Qed.

(** *** The dependency graph of the loaded nodes *)

Variables (next next1 : Z) (inits : list Any) (g1 : JSONGraph).
Hypothesis Hnext : ∀ a, a ∈ subterms v → is_object a = true → v_int64 a < next.
Hypothesis Hcreated : created_all next (node_list_ ix) inits next1.
Hypothesis Hlength : length (nodes g1) = length (node_list_ ix).
Hypothesis Hfacts : ∀ (i : nat) b init jnode',
  node_list_ ix !! i = Some b → inits !! i = Some init → nodes g1 !! i = Some jnode' →
  entry_facts next b init jnode'.

Lemma node_entry (i : nat) jnode' :
  nodes g1 !! i = Some jnode' →
  ∃ b init, node_list_ ix !! i = Some b ∧ inits !! i = Some init
            ∧ entry_facts next b init jnode'.
Proof.
  intros Hi. pose proof (lookup_lt_Some _ _ _ Hi) as Hlt.
  destruct (lookup_lt_is_Some_2 (node_list_ ix) i) as [b Hb]; [lia |].
  destruct (lookup_lt_is_Some_2 inits i) as [init Hinit].
  { rewrite (created_all_length _ _ _ _ Hcreated). lia. }
  exists b, init. split; [done |]. split; [done |]. by apply (Hfacts i).
Qed.

(** An edge leads to the entry of a child, or of a string equal to it. *)
Lemma edge_child (i : nat) b jnode' d :
  node_list_ ix !! i = Some b → nodes g1 !! i = Some jnode' → d ∈ jn_edges jnode' →
  0 ≤ d ∧ ∃ c b', c ∈ children b ∧ c ∈ subterms v ∧ supported c = true
                  ∧ node_list_ ix !! Z.to_nat d = Some b' ∧ same_value b' c.
Proof.
  intros Hb Hj Hd. destruct (node_entry i jnode' Hj) as (b0 & init & Hb0 & _ & Hf).
  assert (b0 = b) as -> by congruence.
  destruct (ef_edges _ _ _ _ Hf d Hd) as (c & Hc & Hdes).
  destruct (entry_cases i b Hb) as [Hsb [[_ ->] | [_ Hbv]]]; [by apply elem_of_nil in Hc |].
  assert (Hcv : c ∈ subterms v) by (by apply (subterms_trans v b)).
  pose proof (supported_children b c Hsb Hc) as Hsc.
  destruct (designates_same_value d c Hcv Hsc Hdes) as (Hd0 & b' & Hb' & Hsame).
  split; [done |]. by exists c, b'.
Qed.

Lemma loaded_ids_in_range : jg_ids_in_range g1.
Proof.
  intros jnode' d [i Hi]%list_elem_of_lookup Hd.
  destruct (node_entry i jnode' Hi) as (b & init & Hb & _ & _).
  destruct (edge_child i b jnode' d Hb Hi Hd) as (Hd0 & c & b' & _ & _ & _ & Hb' & _).
  apply lookup_lt_Some in Hb'. lia.
Qed.

Lemma loaded_acyclic : ¬ jg_cyclic g1.
Proof.
  apply (ranked_acyclic g1 (λ u, match node_list_ ix !! Z.to_nat u with
                                 | Some b => length (subterms b)
                                 | None => 0%nat
                                 end)).
  intros u w Huw. unfold jg_edge, jg_out in Huw.
  destruct (vector_get (nodes g1) u) as [jnode' | |] eqn:Hu; try (by apply elem_of_nil in Huw).
  apply vector_get_Ok in Hu as [Hu0 Hu].
  destruct (node_entry _ jnode' Hu) as (b & init & Hb & _ & _).
  destruct (edge_child _ b jnode' w Hb Hu Huw) as (Hw0 & c & b' & Hc & _ & _ & Hb' & Hsame).
  rewrite Hb, Hb', (same_value_subterms b' c Hsame). by apply children_smaller.
Qed.

Lemma loaded_edge_count : Z.of_nat (jg_edge_count g1) < size_t_modulus.
Proof.
  assert (Hle : (jg_edge_count g1 ≤ sum_list_with (λ x, length (children x)) (node_list_ ix))%nat).
  { unfold jg_edge_count. apply edges_bounded.
    apply Forall2_same_length_lookup. split; [done |]. intros i b jnode' Hb Hj.
    destruct (node_entry i jnode' Hj) as (b0 & init & Hb0 & _ & Hf).
    assert (b0 = b) as -> by congruence. apply (ef_count _ _ _ _ Hf). }
  destruct node_list_new as (new & Hl & Hnd & Hin). rewrite Hl in Hle. cbn in Hle.
  assert (new ⊆+ subterms v) as Hsub by (by apply NoDup_submseteq).
  apply (sum_list_with_submseteq (λ x, length (children x))) in Hsub.
  pose proof (subterms_children_count v). unfold size_t_modulus. lia.
Qed.

Lemma loaded_order fuel :
  (length (nodes g1) ≤ fuel)%nat →
  ∃ order, TopoSort fuel g1 = Some (Ok order)
    ∧ order ≡ₚ jg_ids g1 ∧ NoDup order
    ∧ ∀ u w (i j : nat), jg_edge g1 u w →
        order !! i = Some u → order !! j = Some w → (j < i)%nat.
Proof.
  intros Hfuel.
  destruct (TopoSort_acyclic_Ok g1 fuel loaded_ids_in_range loaded_edge_count
              loaded_acyclic Hfuel) as [order Horder].
  exists order. split; [done |].
  by destruct (TopoSort_returns_order g1 fuel order loaded_edge_count Horder) as (_ & ? & ? & ?).
Qed.

(** *** The copies *)

Local Abbreviation φ := (copy_address (node_list_ ix) inits).

Lemma entry_created (i : nat) b :
  node_list_ ix !! i = Some b →
  ∃ init a a', inits !! i = Some init ∧ created a b init a' ∧ next ≤ a ∧ a' ≤ next1.
Proof. apply (created_all_lookup _ _ _ _ Hcreated). Qed.

Lemma copy_address_entry (i : nat) n q fs init :
  node_list_ ix !! i = Some (AnyObject n q fs) → inits !! i = Some init → φ q = v_int64 init.
Proof.
  intros Hi Hinit. apply (copy_address_lookup _ _ i (AnyObject n q fs)); try done.
  intros j b' Hj Hb' Hobj Haddr.
  destruct (entry_cases j b' Hb') as [_ [[_ ->] | [_ Hb'v]]]; [done |].
  destruct (entry_cases i _ Hi) as [_ [[_ ?] | [_ Hbv]]]; [done |].
  assert (b' = AnyObject n q fs) as ->.
  { apply Huniq; try done. by destruct b'. }
  assert (j = i) by (by eapply entry_unique). lia.
Qed.

Lemma copy_address_bounds q : object_address v q → next ≤ φ q < next1.
Proof.
  intros (r & Hr & Hobj & <-). destruct (object_has_id r Hr Hobj) as [i Hi].
  destruct (entry_created i r Hi) as (init & a & a' & Hinit & Hcr & Ha & Ha').
  destruct r as [| | | | | | | n q fs]; try done. cbn [v_int64].
  rewrite (copy_address_entry i n q fs init Hi Hinit).
  destruct (created_address _ _ _ _ Hcr eq_refl) as [-> ->]. cbn. lia.
Qed.

Lemma copy_address_inj p q : object_address v p → object_address v q → φ p = φ q → p = q.
Proof.
  intros (r & Hr & Hobj & <-) (r' & Hr' & Hobj' & <-) Heq.
  destruct (object_has_id r Hr Hobj) as [i Hi].
  destruct (object_has_id r' Hr' Hobj') as [j Hj].
  destruct (entry_created i r Hi) as (init & a & a1 & Hinit & Hcr & _).
  destruct (entry_created j r' Hj) as (init' & a' & a1' & Hinit' & Hcr' & _).
  destruct r as [| | | | | | | n q fs]; try done.
  destruct r' as [| | | | | | | n' q' fs']; try done. cbn [v_int64] in Heq |- *.
  rewrite (copy_address_entry i n q fs init Hi Hinit), (copy_address_entry j n' q' fs' init' Hj Hinit') in Heq.
  assert (i = j) by (by eapply (created_all_apart _ _ _ _ Hcreated i j)).
  subst j. rewrite Hi in Hj. by injection Hj as -> -> ->.
Qed.

(** Addresses given out after pass 1, and those of the loaded strings, are not in use. *)
Lemma unused_later p' : next1 ≤ p' → unused_address v φ p'.
Proof.
  intros Hp'. pose proof (created_all_next _ _ _ _ Hcreated). split.
  - intros r Hr Hobj. specialize (Hnext r Hr Hobj). lia.
  - intros q Hq. pose proof (copy_address_bounds q Hq). lia.
Qed.

Lemma unused_string (i : nat) p s init :
  node_list_ ix !! i = Some (AnyStr p s) → inits !! i = Some init →
  init = AnyStr (v_int64 init) s ∧ unused_address v φ (v_int64 init).
Proof.
  intros Hi Hinit.
  destruct (entry_created i _ Hi) as (init0 & a & a' & Hinit0 & Hcr & Ha & Ha').
  assert (init0 = init) as -> by congruence.
  inversion Hcr; subst. split; [done |]. cbn. split.
  - intros r Hr Hobj. specialize (Hnext r Hr Hobj). lia.
  - intros q (r & Hr & Hobj & <-) Heq. destruct (object_has_id r Hr Hobj) as [j Hj].
    destruct (entry_created j r Hj) as (init' & a1 & a1' & Hinit' & Hcr' & _).
    destruct r as [| | | | | | | n q fs]; try done. cbn [v_int64] in Heq.
    rewrite (copy_address_entry j n q fs init' Hj Hinit') in Heq.
    assert (j = i) by (by eapply (created_all_apart _ _ _ _ Hcreated j i)).
    subst j. congruence.
Qed.

(** *** Pass 4 on these nodes *)

(** [l] is the entry of the table [T] at the id of [c], a finished node. *)
Definition at_entry (done : list Z) (T : list Any) (l c : Any) : Prop :=
  ∃ d, d ∈ done ∧ designates (node_list_ ix) d c ∧ vector_at T d = Ok l.

Lemma at_entry_later done T u x l c :
  u ∉ done → 0 ≤ u → at_entry done T l c →
  at_entry (done ++ [u]) (<[Z.to_nat u := x]> T) l c.
Proof.
  intros Hu Hu0 (d & Hd & Hdes & Hl). exists d. split; [apply elem_of_app; by left |].
  split; [done |]. unfold vector_at in *. destruct (0 <=? d) eqn:Hd0; [| done].
  rewrite list_lookup_insert_ne; [done |]. intros Heq. apply Hu.
  apply Z.leb_le in Hd0. by rewrite (Z2Nat.inj u d Hu0 Hd0 Heq).
Qed.

Lemma children_related_later done T u x l b :
  u ∉ done → 0 ≤ u → children_related (at_entry done T) l b →
  children_related (at_entry (done ++ [u]) (<[Z.to_nat u := x]> T)) l b.
Proof.
  intros Hu Hu0. apply children_related_impl. intros l' c'. by apply at_entry_later.
Qed.

(** The table while pass 4 runs: the entries of the ids in [done] are copies
    of the values they stand for, strings and PODs being what pass 1
    created, and the values they hold are themselves entries of the table;
    the other entries are still what pass 1 created. *)
Record table_ok (done : list Z) (st : LoadState) : Prop := {
  tb_length : length (ld_nodes st) = length (node_list_ ix);
  tb_next : next1 ≤ ld_next st;
  tb_done : ∀ (i : nat) b, Z.of_nat i ∈ done → node_list_ ix !! i = Some b →
              ∃ l, ld_nodes st !! i = Some l ∧ copy_of v φ l b
                   ∧ (plain_key b = true → inits !! i = Some l)
                   ∧ children_related (at_entry done (ld_nodes st)) l b;
  tb_rest : ∀ i : nat, Z.of_nat i ∉ done → ld_nodes st !! i = inits !! i }.

Lemma same_value_plain_key b a : same_value b a → plain_key b = plain_key a.
Proof. by intros [-> | (p & q & s & -> & ->)]. Qed.

(** The entry an id of a finished node designates is a copy of the child. *)
Lemma child_copy done st d c :
  table_ok done st → c ∈ subterms v → designates (node_list_ ix) d c → d ∈ done →
  ∃ l, vector_at (ld_nodes st) d = Ok l ∧ copy_of v φ l c
       ∧ (plain_key c = true → inits !! Z.to_nat d = Some l).
Proof.
  intros Hok Hc Hdes Hd.
  destruct (designates_same_value d c Hc (supported_subterm v c Hsup Hc) Hdes)
    as (Hd0 & b' & Hb' & Hsame).
  destruct (tb_done _ _ Hok (Z.to_nat d) b') as (l & Hl & Hcopy & Hplain & _);
    [by rewrite Z2Nat.id | done |].
  exists l. split; [| split].
  - unfold vector_at. destruct (Z.leb_spec 0 d); [by rewrite Hl | lia].
  - by apply (copy_same_value v φ l b' c).
  - rewrite <- (same_value_plain_key b' c Hsame). exact Hplain.
Qed.

Lemma data_copies done st (elems : list Any) data :
  table_ok done st → (∀ e, e ∈ elems → e ∈ subterms v) →
  Forall2 (λ e d, designates (node_list_ ix) d e) elems data →
  (∀ d, d ∈ data → d ∈ done) →
  ∃ ls, mapR (vector_at (ld_nodes st)) data = Ok ls ∧ Forall2 (copy_of v φ) ls elems
        ∧ Forall2 (at_entry done (ld_nodes st)) ls elems.
Proof.
  intros Hok Hin Hall. induction Hall as [| e d elems data Hd _ IH]; intros Hdone; cbn.
  - by exists [].
  - destruct (child_copy done st d e Hok) as (l & Hat & Hl & _);
      [apply Hin; by left | done | apply Hdone; by left |].
    rewrite Hat.
    cbn. destruct IH as (ls & -> & Hls & Hats).
    { intros x Hx. apply Hin. by right. }
    { intros x Hx. apply Hdone. by right. }
    cbn. exists (l :: ls). split; [done |]. split; [by constructor |].
    constructor; [| done]. exists d. split; [apply Hdone; by left | done].
Qed.

(** [SetAttrs] leaves a null value, an integer, a boolean and a string as
    pass 1 created them. *)
Lemma SetAttrs_unchanged T b jnode ids a init a' nx :
  b = AnyNone ∨ b ∈ subterms v → node_view b jnode → created a b init a' →
  plain_key b = true ∨ b = AnyNone →
  SetAttrs T init (with_fields jnode ids) nx = Ok (init, nx).
Proof.
  intros Hb Hview Hcr Hkind. unfold SetAttrs.
  destruct Hview as [| z Hz | z Hz | p s repr Hrepr | p elems data Hdata
                     | p kvs data Hstr Hdata | p kvs data Hstr Hdata | n p fs attrs Hattrs];
    try (by destruct Hkind);
    inversion Hcr; subst; cbn [jn_type_key with_fields mk_node empty_JSONNode].
  - rewrite (static_keys_apart 0 7 EmptyString ArrayObj_type_key eq_refl eq_refl) by done.
    by rewrite (static_keys_apart 0 8 EmptyString MapObj_type_key eq_refl eq_refl) by done.
  - static_tests. done.
  - static_tests. done.
  - static_tests. unfold is_object. cbn [type_index below_StaticObjectBegin negb].
    destruct (ok_string Hreg a s) as (repr' & -> & _).
    by rewrite (bool_decide_eq_true_2 (is_Some _)), orb_true_r by done.
Qed.

Lemma SetAttrs_array done st p elems data ids init :
  table_ok done st → AnyArray p elems ∈ subterms v →
  Forall2 (λ e d, designates (node_list_ ix) d e) elems data →
  (∀ d, d ∈ data → d ∈ done) →
  ∃ l, SetAttrs (ld_nodes st) init (with_fields (mk_node ArrayObj_type_key "" ∅ [] data) ids)
         (ld_next st) = Ok (l, ld_next st + 1)
       ∧ copy_of v φ l (AnyArray p elems)
       ∧ children_related (at_entry done (ld_nodes st)) l (AnyArray p elems).
Proof.
  intros Hok Hb Hdata Hdone. unfold SetAttrs.
  cbn [jn_type_key jn_data with_fields mk_node]. rewrite String.eqb_refl.
  destruct (data_copies done st elems data Hok) as (ls & -> & Hls & Hats); try done.
  { intros e He. by apply (subterms_trans v (AnyArray p elems)). }
  cbn. eexists. split; [done |]. split; [by constructor |]. by eexists _, _.
Qed.

(** [Map::Set] with a key that no entry has adds the entry at the end. *)
Lemma map_set_append kvs k x :
  Forall (λ kv : Any * Any, AnyEqual (ref_of kv.1) (ref_of k) = false) kvs →
  map_set kvs k x = kvs ++ [(k, x)].
Proof. induction 1 as [| kv kvs Hkv _ IH]; cbn; [done |]. by rewrite Hkv, IH. Qed.

Lemma keys_distinct_middle (l1 : list (Any * Any)) x l2 :
  keys_distinct (l1 ++ x :: l2) = true →
  ∀ r, r ∈ l1 → AnyEqual (ref_of r.1) (ref_of x.1) = false.
Proof.
  induction l1 as [| y l1 IH]; intros Hd r Hr; [by apply elem_of_nil in Hr |].
  cbn in Hd. apply andb_true_iff in Hd as [Hy Hd].
  apply elem_of_cons in Hr as [-> | Hr]; [| by apply IH].
  rewrite forallb_forall in Hy. apply negb_true_iff, (Hy x), list_elem_of_In.
  apply elem_of_app. right. by left.
Qed.

Lemma strings_apart_bytes p s q t :
  AnyEqual (ref_of (AnyStr p s)) (ref_of (AnyStr q t)) = false → s ≠ t.
Proof.
  intros Hne ->. unfold AnyEqual in Hne. cbn in Hne.
  rewrite (bool_decide_eq_true_2 (kTVMFFIStr = kTVMFFIStr)) in Hne by done. cbn in Hne.
  destruct (bool_decide (p = q)); [done |]. by rewrite bool_decide_eq_true_2 in Hne.
Qed.

(** A loaded key of a map with string keys: a new string at an address given
    out during pass 4. *)
Definition keyed_entry (nx : Z) (l r : Any * Any) : Prop :=
  (∃ a q s, next1 ≤ a < nx ∧ r.1 = AnyStr q s ∧ l.1 = AnyStr a s) ∧ copy_of v φ l.2 r.2.

Lemma SetAttrs_keyed_copies done st : ∀ kvs data result rkvs nx,
  table_ok done st →
  (∀ kv : Any * Any, kv ∈ kvs → kv.2 ∈ subterms v) →
  Forall2 (λ (kv : Any * Any) d, designates (node_list_ ix) d kv.2) kvs data →
  (∀ d, d ∈ data → d ∈ done) →
  forallb (λ kv : Any * Any, is_string kv.1) (rkvs ++ kvs) = true →
  keys_distinct (rkvs ++ kvs) = true →
  next1 ≤ nx →
  Forall2 (keyed_entry nx) result rkvs →
  Forall2 (λ l r : Any * Any, at_entry done (ld_nodes st) l.2 r.2) result rkvs →
  ∃ result',
    SetAttrs_keyed (ld_nodes st) ((λ kv : Any * Any, string_bytes kv.1) <$> kvs) data result nx
    = Ok (result', nx + Z.of_nat (length kvs))
    ∧ Forall2 (keyed_entry (nx + Z.of_nat (length kvs))) result' (rkvs ++ kvs)
    ∧ Forall2 (λ l r : Any * Any, at_entry done (ld_nodes st) l.2 r.2) result' (rkvs ++ kvs).
Proof.
  induction kvs as [| kv kvs IH];
    intros data result rkvs nx Hok Hin Hdata Hdone Hstr Hdist Hnx Hres Hats.
  - inversion Hdata; subst. cbn. exists result. rewrite Z.add_0_r, app_nil_r. done.
  - inversion Hdata as [| ? d ? data' Hd Hdata']; subst. cbn [fmap list_fmap SetAttrs_keyed].
    destruct (child_copy done st d kv.2 Hok) as (l & Hat & Hl & _);
      [apply Hin; by left | done | apply Hdone; by left |].
    rewrite Hat. cbn [bindR].
    assert (Hkey : ∃ q s, kv.1 = AnyStr q s).
    { rewrite forallb_app in Hstr. apply andb_true_iff in Hstr as [_ Hstr]. cbn in Hstr.
      apply andb_true_iff in Hstr as [Hk _]. destruct kv.1 as [[] ? | | | | | | |]; try done.
      eauto. }
    destruct Hkey as (q & s & Hkv). rewrite Hkv. cbn [string_bytes].
    rewrite map_set_append.
    + destruct (IH data' (result ++ [(AnyStr nx s, l)]) (rkvs ++ [kv]) (nx + 1) Hok)
        as (result' & Hrun & Hres' & Hats').
      * intros x Hx. apply Hin. by right.
      * done.
      * intros x Hx. apply Hdone. by right.
      * by rewrite <- app_assoc.
      * by rewrite <- app_assoc.
      * lia.
      * apply Forall2_app.
        -- eapply Forall2_impl; [exact Hres |]. intros x y [(a & q0 & s0 & Ha & Hx) Hy].
           split; [| done]. exists a, q0, s0. split; [lia | done].
        -- constructor; [| constructor]. split; [| done]. exists nx, q, s.
           split; [lia | done].
      * apply Forall2_app; [done |]. constructor; [| constructor].
        exists d. split; [apply Hdone; by left | done].
      * exists result'. rewrite Hrun. split; [| split].
        -- do 2 f_equal. cbn [length]. lia.
        -- rewrite <- app_assoc in Hres'. cbn in Hres'.
           eapply Forall2_impl; [exact Hres' |]. intros x y [(a & q0 & s0 & Ha & Hx) Hy].
           split; [| done]. exists a, q0, s0. split; [cbn [length]; lia | done].
        -- by rewrite <- app_assoc in Hats'.
    + apply Forall_forall. intros x [j Hx]%list_elem_of_lookup.
      destruct (Forall2_lookup_l _ _ _ _ _ Hres Hx) as (r & Hr & (a & q' & s' & Ha & Hr1 & Hx1) & _).
      rewrite Hx1. unfold AnyEqual. cbn.
      rewrite (bool_decide_eq_true_2 (kTVMFFIStr = kTVMFFIStr)) by done. cbn.
      rewrite (bool_decide_eq_false_2 (a = nx)) by lia.
      apply bool_decide_eq_false_2. intros [= Hbytes].
      assert (Hrin : r ∈ rkvs) by (by eapply list_elem_of_lookup_2).
      pose proof (keys_distinct_middle rkvs kv kvs Hdist r Hrin) as Hne.
      rewrite Hr1, Hkv in Hne. by apply strings_apart_bytes in Hne.
Qed.

(** A loaded key of a map whose keys are nodes: what pass 1 created for the
    entry the id of the key designates. *)
Definition key_loaded (l c : Any) : Prop :=
  ∃ d, designates (node_list_ ix) d c ∧ inits !! Z.to_nat d = Some l.

Lemma key_loaded_cases l c :
  key_loaded l c → c ∈ subterms v → plain_key c = true →
  (l = c ∧ is_object c = false)
  ∨ ∃ (i : nat) p q s a, c = AnyStr q s ∧ l = AnyStr a s
      ∧ node_list_ ix !! i = Some (AnyStr p s) ∧ inits !! i = Some l.
Proof.
  intros (d & Hdes & Hl) Hc Hkey.
  destruct (designates_same_value d c Hc (supported_subterm v c Hsup Hc) Hdes)
    as (Hd0 & b & Hb & Hsame).
  destruct (entry_created _ b Hb) as (init & a & a' & Hinit & Hcr & _).
  assert (init = l) as -> by congruence.
  destruct Hsame as [-> | (p & q & s & -> & ->)].
  - destruct c as [[] z | q s | | | | | |]; try done.
    + left. by inversion Hcr.
    + left. by inversion Hcr.
    + right. inversion Hcr; subst. by exists (Z.to_nat d), q, q, s, a.
  - right. inversion Hcr; subst. by exists (Z.to_nat d), p, q, s, a.
Qed.

(** Keys that differ load as keys that differ. *)
Lemma loaded_keys_apart l1 l2 c1 c2 :
  key_loaded l1 c1 → key_loaded l2 c2 → c1 ∈ subterms v → c2 ∈ subterms v →
  plain_key c1 = true → plain_key c2 = true →
  AnyEqual (ref_of c1) (ref_of c2) = false → AnyEqual (ref_of l1) (ref_of l2) = false.
Proof.
  intros H1 H2 Hc1 Hc2 Hk1 Hk2 Hne.
  destruct (key_loaded_cases l1 c1 H1 Hc1 Hk1)
    as [[-> Hp1] | (i1 & p1 & q1 & s1 & a1 & -> & -> & Hb1 & Hi1)];
    destruct (key_loaded_cases l2 c2 H2 Hc2 Hk2)
      as [[-> Hp2] | (i2 & p2 & q2 & s2 & a2 & -> & -> & Hb2 & Hi2)].
  - done.
  - destruct c1 as [[] ? | | | | | | |]; done.
  - destruct c2 as [[] ? | | | | | | |]; done.
  - pose proof (strings_apart_bytes _ _ _ _ Hne) as Hs.
    unfold AnyEqual. cbn. rewrite (bool_decide_eq_true_2 (kTVMFFIStr = kTVMFFIStr)) by done.
    cbn. rewrite (bool_decide_eq_false_2 (a1 = a2)).
    + apply bool_decide_eq_false_2. congruence.
    + intros Ha. assert (i1 = i2).
      { by apply (created_all_apart _ _ _ _ Hcreated i1 i2 (AnyStr p1 s1) (AnyStr p2 s2)
                    (AnyStr a1 s1) (AnyStr a2 s2)). }
      subst i2. congruence.
Qed.

Definition pair_entry (l r : Any * Any) : Prop :=
  key_loaded l.1 r.1 ∧ copy_of v φ l.1 r.1 ∧ copy_of v φ l.2 r.2.

Lemma SetAttrs_pairs_copies done st : ∀ kvs data result rkvs,
  table_ok done st →
  (∀ kv : Any * Any, kv ∈ rkvs ++ kvs →
     kv.1 ∈ subterms v ∧ kv.2 ∈ subterms v ∧ plain_key kv.1 = true) →
  Forall2 (λ e d, designates (node_list_ ix) d e)
          (flat_map (λ kv : Any * Any, [kv.1; kv.2]) kvs) data →
  (∀ d, d ∈ data → d ∈ done) →
  keys_distinct (rkvs ++ kvs) = true →
  Forall2 pair_entry result rkvs →
  Forall2 (λ l r : Any * Any, at_entry done (ld_nodes st) l.2 r.2
                              ∧ at_entry done (ld_nodes st) l.1 r.1) result rkvs →
  ∃ result', SetAttrs_pairs (ld_nodes st) data result = Ok result'
             ∧ Forall2 pair_entry result' (rkvs ++ kvs)
             ∧ Forall2 (λ l r : Any * Any, at_entry done (ld_nodes st) l.2 r.2
                                         ∧ at_entry done (ld_nodes st) l.1 r.1)
                       result' (rkvs ++ kvs).
Proof.
  induction kvs as [| kv kvs IH]; intros data result rkvs Hok Hin Hdata Hdone Hdist Hres Hats.
  - inversion Hdata; subst. cbn. exists result. by rewrite app_nil_r.
  - cbn in Hdata. inversion Hdata as [| ? dk ? data1 Hdk Hdata1]; subst.
    inversion Hdata1 as [| ? dv ? data2 Hdv Hdata2]; subst.
    destruct (Hin kv) as (Hk1 & Hk2 & Hkey); [apply elem_of_app; right; by left |].
    cbn [SetAttrs_pairs].
    destruct (child_copy done st dk kv.1 Hok) as (lk & Hatk & Hlk & Hinit);
      [done | done | apply Hdone; by left |].
    destruct (child_copy done st dv kv.2 Hok) as (lv & Hatv & Hlv & _);
      [done | done | apply Hdone; right; by left |].
    rewrite Hatk, Hatv. cbn [bindR].
    assert (Hloaded : key_loaded lk kv.1) by (exists dk; split; [done | by apply Hinit]).
    rewrite map_set_append.
    + destruct (IH data2 (result ++ [(lk, lv)]) (rkvs ++ [kv]) Hok)
        as (result' & Hrun & Hres' & Hats').
      * intros x Hx. apply Hin. by rewrite <- app_assoc in Hx.
      * done.
      * intros x Hx. apply Hdone. right. by right.
      * by rewrite <- app_assoc.
      * apply Forall2_app; [done |]. constructor; [| constructor]. by repeat split.
      * apply Forall2_app; [done |]. constructor; [| constructor]. split.
        -- exists dv. split; [apply Hdone; right; by left | done].
        -- exists dk. split; [apply Hdone; by left | done].
      * exists result'. split; [done |]. rewrite <- app_assoc in Hres', Hats'. done.
    + apply Forall_forall. intros x [j Hx]%list_elem_of_lookup.
      destruct (Forall2_lookup_l _ _ _ _ _ Hres Hx) as (r & Hr & Hxl & _).
      assert (Hrin : r ∈ rkvs) by (by eapply list_elem_of_lookup_2).
      destruct (Hin r) as (Hr1 & _ & Hrkey); [apply elem_of_app; by left |].
      apply (loaded_keys_apart x.1 lk r.1 kv.1); try done.
      by apply (keys_distinct_middle rkvs kv kvs).
Qed.

Lemma SetAttrs_map done st p kvs jnode ids init :
  table_ok done st → AnyMap p kvs ∈ subterms v → node_view (AnyMap p kvs) jnode →
  (∀ d, d ∈ jn_data jnode → d ∈ done) →
  ∃ l nx', SetAttrs (ld_nodes st) init (with_fields jnode ids) (ld_next st) = Ok (l, nx')
           ∧ ld_next st ≤ nx' ∧ copy_of v φ l (AnyMap p kvs)
           ∧ children_related (at_entry done (ld_nodes st)) l (AnyMap p kvs).
Proof.
  intros Hok Hb Hview Hdone.
  pose proof (supported_subterm v _ Hsup Hb) as Hsb. cbn in Hsb.
  apply andb_true_iff in Hsb as [Hall Hdist]. rewrite forallb_forall in Hall.
  assert (Hin : ∀ kv : Any * Any, kv ∈ kvs →
            kv.1 ∈ subterms v ∧ kv.2 ∈ subterms v ∧ plain_key kv.1 = true).
  { intros kv Hkv. specialize (Hall kv (proj1 (list_elem_of_In _ _) Hkv)).
    rewrite !andb_true_iff in Hall. destruct Hall as [[Hkey _] _].
    split; [| split; [| done]]; apply (subterms_trans v (AnyMap p kvs)); try done;
      cbn; apply elem_of_flat_map; exists kv; (split; [done |]); set_solver. }
  pose proof (tb_next _ _ Hok) as Hnx.
  unfold SetAttrs.
  inversion Hview as [| | | | | ? ? data Hstr Hdata | ? ? data Hstr Hdata |]; subst;
    cbn [jn_type_key jn_keys jn_data with_fields mk_node] in Hdone |- *;
    rewrite (static_keys_apart 8 7 MapObj_type_key ArrayObj_type_key eq_refl eq_refl) by done;
    rewrite String.eqb_refl.
  - destruct kvs as [| kv kvs'].
    + inversion Hdata; subst. cbn. eexists _, _. split; [done |]. split; [lia |].
      split; [constructor; constructor |]. eexists _, _. split; [done | constructor].
    + rewrite bool_decide_eq_false_2 by done.
      rewrite <- (Forall2_length _ _ _ Hdata), length_fmap, Nat.eqb_refl. cbn [negb].
      destruct (SetAttrs_keyed_copies done st (kv :: kvs') data [] [] (ld_next st + 1) Hok
                  (λ x Hx, proj1 (proj2 (Hin x Hx))) Hdata Hdone Hstr Hdist ltac:(lia)
                  ltac:(constructor) ltac:(constructor))
        as (result & -> & Hres & Hats).
      cbn [bindR]. eexists _, _. split; [done |]. split; [lia |]. split.
      * constructor. eapply Forall2_impl; [exact Hres |].
        intros x y [(a & q & s & Ha & Hy1 & Hx) Hy]. split; [| done]. rewrite Hx, Hy1.
        constructor. apply unused_later. lia.
      * eexists _, _. split; [done |]. eapply Forall2_impl; [exact Hats |].
        intros x y Hxy. split; [done |]. cbn in Hstr |- *. by rewrite Hstr.
  - rewrite bool_decide_eq_true_2 by done.
    assert (Heven : (length data mod 2 =? 0)%nat = true).
    { rewrite <- (Forall2_length _ _ _ Hdata). apply Nat.eqb_eq. clear.
      induction kvs as [| kv kvs IH]; [done |]. cbn [flat_map app length].
      change (S (S (length (flat_map (λ kv0 : Any * Any, [kv0.1; kv0.2]) kvs))))
        with (2 + length (flat_map (λ kv0 : Any * Any, [kv0.1; kv0.2]) kvs))%nat.
      rewrite <- Nat.Div0.add_mod_idemp_l. by rewrite Nat.Div0.mod_same, Nat.add_0_l. }
    rewrite Heven. cbn [negb].
    destruct (SetAttrs_pairs_copies done st kvs data [] [] Hok Hin Hdata Hdone Hdist
                ltac:(constructor) ltac:(constructor)) as (result & -> & Hres & Hats).
    cbn [bindR]. eexists _, _. split; [done |]. split; [lia |]. split.
    + constructor. eapply Forall2_impl; [exact Hres |]. by intros x y (_ & ? & ?).
    + eexists _, _. split; [done |]. eapply Forall2_impl; [exact Hats |].
      by intros x y [? ?].
Qed.

Lemma reference_not_typed field_info :
  is_reference_field field_info = true → typed_field field_info = false.
Proof.
  unfold is_reference_field, typed_field.
  by destruct (field_static_type_index field_info).
Qed.

Lemma copy_is_object l c : copy_of v φ l c → is_object l = is_object c.
Proof. by destruct 1. Qed.

(** The value [SetObjectField] stores in a field of an object entry is a copy
    of the value the field held. *)
Lemma field_copy done st n p fs attrs ids a fs0 (k : nat) field_info c :
  table_ok done st → AnyObject n p fs ∈ subterms v →
  Getter_fields (node_index_ ix) (fields (TVMFFIGetTypeInfo (kTVMFFIDynObject n))) fs ∅
  = Ok attrs →
  references_recorded (AnyObject n a fs0)
    (with_fields (mk_node (type_key (TVMFFIGetTypeInfo (kTVMFFIDynObject n))) "" attrs [] [])
                 ids) →
  (∀ d, d ∈ ids → d ∈ done) →
  fields (TVMFFIGetTypeInfo (kTVMFFIDynObject n)) !! k = Some field_info →
  fs !! k = Some c →
  ∃ value stored,
    SetObjectField_value (ld_nodes st)
      (with_fields (mk_node (type_key (TVMFFIGetTypeInfo (kTVMFFIDynObject n))) "" attrs [] [])
                   ids) field_info = Ok value
    ∧ FieldSetter field_info value = Ok stored
    ∧ copy_of v φ stored c
    ∧ (is_object c = true → at_entry done (ld_nodes st) stored c).
Proof.
  intros Hok Hb Hattrs Hrec Hdone Hk Hc.
  set (jnode' := with_fields _ ids) in *.
  pose proof (Hrefl n p fs Hb) as Hn.
  assert (Hfi : field_info ∈ fields (TVMFFIGetTypeInfo (kTVMFFIDynObject n)))
    by (by eapply list_elem_of_lookup_2).
  destruct (object_attrs n p fs attrs k field_info c Hb Hattrs Hk Hc)
    as (Hsc & Hcv & Hholds & t & Ht & Hattr).
  pose proof (field_text_holds field_info c t Hholds Hsc Ht) as Htext.
  destruct (is_reference_field field_info) eqn:Href.
  - rewrite (SetObjectField_value_reference _ _ _ (reference_not_typed _ Href)).
    unfold resolve_reference. destruct Htext as [[Hnull ->] | (Hobj & d & Hd & ->)].
    + rewrite (ParseOptionalValue_null jnode' (name field_info) Hattr). cbn [bindR].
      exists AnyNone, AnyNone. split; [done |].
      split; [apply (rf_set_ref n Hn); auto |].
      destruct c as [[] z | | | | | | |]; try done. cbn in Hsc.
      apply Z.eqb_eq in Hsc as ->. split; [constructor | done].
    + pose proof (designates_range d c Hd) as Hrange.
      assert (Hparse : ParseOptionalValue (ParseValue_int 64) jnode' (name field_info)
                       = Ok (Some d)) by (apply ParseOptionalValue_int; [done | lia]).
      rewrite Hparse. cbn [bindR]. rewrite to_size_t_small by done.
      assert (Hdd : d ∈ done).
      { apply Hdone. pose proof (Hrec field_info d Hfi Href Hparse) as Hin.
        by rewrite to_size_t_small in Hin. }
      destruct (child_copy done st d c Hok Hcv Hd Hdd) as (l & Hat & Hl & _).
      rewrite Hat. cbn [bindR].
      pose proof (copy_is_object l c Hl) as Hlobj. rewrite Hobj in Hlobj.
      exists l, l. split; [by destruct l as [[] ? | | | | | | |] |].
      split; [apply (rf_set_ref n Hn); auto |]. split; [done |]. intros _. by exists d.
  - destruct Htext as (z & Hz & -> & [[Hti ->] | (Hti & -> & Hz01)]).
    + unfold SetObjectField_value. rewrite Hti.
      rewrite (ParseOptionalValue_int jnode' (name field_info) z Hattr Hz). cbn [bindR].
      exists (AnyInt z), (AnyInt z). split; [done |].
      split; [by apply (rf_set_int n Hn) |]. split; [constructor | done].
    + unfold SetObjectField_value. rewrite Hti.
      rewrite (ParseOptionalValue_int jnode' (name field_info) z Hattr Hz). cbn [bindR].
      exists (AnyInt z), (AnyBool (negb (z =? 0))). split; [done |].
      split; [by apply (rf_set_bool n Hn) |].
      destruct Hz01 as [-> | ->]; (split; [constructor | done]).
Qed.

(** [SetObjectFields] from position [pos] on, once the fields before it hold
    copies. *)
Lemma SetObjectFields_copies done st n p fs attrs ids a :
  table_ok done st → AnyObject n p fs ∈ subterms v →
  Getter_fields (node_index_ ix) (fields (TVMFFIGetTypeInfo (kTVMFFIDynObject n))) fs ∅
  = Ok attrs →
  references_recorded (AnyObject n a fs)
    (with_fields (mk_node (type_key (TVMFFIGetTypeInfo (kTVMFFIDynObject n))) "" attrs [] [])
                 ids) →
  (∀ d, d ∈ ids → d ∈ done) →
  ∀ infos (pos : nat) cur,
    drop pos (fields (TVMFFIGetTypeInfo (kTVMFFIDynObject n))) = infos →
    length cur = length fs →
    Forall2 (copy_of v φ) (take pos cur) (take pos fs) →
    Forall2 (λ l r, is_object r = true → at_entry done (ld_nodes st) l r)
            (take pos cur) (take pos fs) →
    ∃ final,
      SetObjectFields (ld_nodes st)
        (with_fields (mk_node (type_key (TVMFFIGetTypeInfo (kTVMFFIDynObject n))) "" attrs [] [])
                     ids) infos pos (AnyObject n a cur) = Ok (AnyObject n a final)
      ∧ Forall2 (copy_of v φ) final fs
      ∧ Forall2 (λ l r, is_object r = true → at_entry done (ld_nodes st) l r) final fs.
Proof.
  intros Hok Hb Hattrs Hrec Hdone.
  pose proof (supported_subterm v _ Hsup Hb) as Hsb. cbn in Hsb.
  rewrite !andb_true_iff in Hsb.
  destruct Hsb as ((((_ & Hlen%bool_decide_eq_true) & _) & _) & _).
  induction infos as [| field_info infos IH]; intros pos cur Hdrop Hcur Hpre Hats.
  - exists cur. split; [done |].
    assert (length (fields (TVMFFIGetTypeInfo (kTVMFFIDynObject n))) ≤ pos)%nat.
    { apply (f_equal length) in Hdrop. rewrite length_drop in Hdrop. cbn in Hdrop. lia. }
    by rewrite !firstn_all2 in Hpre, Hats by lia.
  - assert (Hk : fields (TVMFFIGetTypeInfo (kTVMFFIDynObject n)) !! pos = Some field_info).
    { rewrite <- (Nat.add_0_r pos), <- lookup_drop, Hdrop. done. }
    pose proof (lookup_lt_Some _ _ _ Hk) as Hpos.
    destruct (lookup_lt_is_Some_2 fs pos) as [c Hc]; [lia |].
    destruct (field_copy done st n p fs attrs ids a fs pos field_info c Hok Hb Hattrs
                Hrec Hdone Hk Hc) as (value & stored & Hvalue & Hstored & Hcopy & Hat).
    cbn [SetObjectFields]. rewrite Hvalue. cbn [bindR]. rewrite Hstored. cbn [bindR].
    cbn [set_object_field].
    apply (IH (S pos) (<[pos := stored]> cur)).
    + pose proof (drop_S _ _ _ Hk) as Hd. rewrite Hdrop in Hd. by injection Hd.
    + by rewrite length_insert.
    + rewrite (take_S_r fs pos c Hc).
      rewrite (take_S_r (<[pos := stored]> cur) pos stored)
        by (apply list_lookup_insert_eq; lia).
      rewrite take_insert_ge by lia. apply Forall2_app; [done |]. by constructor.
    + rewrite (take_S_r fs pos c Hc).
      rewrite (take_S_r (<[pos := stored]> cur) pos stored)
        by (apply list_lookup_insert_eq; lia).
      rewrite take_insert_ge by lia. apply Forall2_app; [done |]. by constructor.
Qed.

Lemma SetAttrs_object done st n p fs jnode ids a fs0 :
  table_ok done st → AnyObject n p fs ∈ subterms v → node_view (AnyObject n p fs) jnode →
  length fs0 = length (fields (TVMFFIGetTypeInfo (kTVMFFIDynObject n))) →
  (assigns_fields (AnyObject n a fs0) (with_fields jnode ids) = true →
   references_recorded (AnyObject n a fs0) (with_fields jnode ids)) →
  (∀ d, d ∈ ids → d ∈ done) →
  ∃ final, SetAttrs (ld_nodes st) (AnyObject n a fs0) (with_fields jnode ids) (ld_next st)
           = Ok (AnyObject n a final, ld_next st)
           ∧ Forall2 (copy_of v φ) final fs
           ∧ Forall2 (λ l r, is_object r = true → at_entry done (ld_nodes st) l r) final fs.
Proof.
  intros Hok Hb Hview Hlen0 Hrec Hdone.
  pose proof (Hrefl n p fs Hb) as Hn.
  pose proof (supported_subterm v _ Hsup Hb) as Hsb. cbn in Hsb.
  rewrite !andb_true_iff in Hsb.
  destruct Hsb as ((((Hkind & Hlen%bool_decide_eq_true) & _) & _) & _).
  inversion Hview as [| | | | | | | ? ? ? attrs Hattrs]; subst.
  assert (Hassign : assigns_fields (AnyObject n a fs0)
            (with_fields (mk_node (type_key (TVMFFIGetTypeInfo (kTVMFFIDynObject n))) ""
                                  attrs [] []) ids) = true).
  { unfold assigns_fields, is_object.
    cbn [jn_type_key jn_repr_bytes with_fields mk_node type_index below_StaticObjectBegin].
    rewrite (object_key_apart n 7 _ Hn eq_refl), (object_key_apart n 8 _ Hn eq_refl).
    rewrite (rf_repr n Hn). by rewrite (bool_decide_eq_false_2 (is_Some None)) by (by intros [? ?]). }
  unfold SetAttrs.
  cbn [jn_type_key jn_repr_bytes with_fields mk_node].
  rewrite (object_key_apart n 7 _ Hn eq_refl), (object_key_apart n 8 _ Hn eq_refl).
  unfold is_object. cbn [type_index below_StaticObjectBegin negb String.length Nat.eqb orb].
  rewrite (rf_repr n Hn), (bool_decide_eq_false_2 (is_Some None)) by (by intros [? ?]).
  destruct (extra_info _); [| done].
  destruct (SetObjectFields_copies done st n p fs attrs ids a Hok Hb Hattrs
              (Hrec Hassign) Hdone
              (fields (TVMFFIGetTypeInfo (kTVMFFIDynObject n))) 0 fs0 eq_refl
              ltac:(lia) ltac:(constructor) ltac:(constructor))
    as (final & Hrun & Hfinal & Hats).
  fold (with_fields (mk_node (type_key (TVMFFIGetTypeInfo (kTVMFFIDynObject n))) "" attrs [] [])
          ids).
  rewrite Hrun. cbn [bindR]. by exists final.
Qed.

(** One iteration of pass 4, on a node whose dependencies are finished. *)
Lemma SetAttrs_entry done st (i : nat) b init jnode' :
  table_ok done st →
  node_list_ ix !! i = Some b → inits !! i = Some init → nodes g1 !! i = Some jnode' →
  (∀ d, d ∈ jn_edges jnode' → d ∈ done) →
  ∃ l nx', SetAttrs (ld_nodes st) init jnode' (ld_next st) = Ok (l, nx')
           ∧ ld_next st ≤ nx' ∧ copy_of v φ l b ∧ (plain_key b = true → l = init)
           ∧ children_related (at_entry done (ld_nodes st)) l b.
Proof.
  intros Hok Hi Hinit Hj Hedges.
  pose proof (Hfacts i b init jnode' Hi Hinit Hj) as Hf.
  destruct (ef_view _ _ _ _ Hf) as (jnode & ids & Hview & -> & _).
  destruct (ef_created _ _ _ _ Hf) as (a & a' & Hcr & Ha).
  destruct (entry_cases i b Hi) as [Hsb Hcases].
  assert (Hb : b = AnyNone ∨ b ∈ subterms v) by (destruct Hcases as [[_ ?] | [_ ?]]; auto).
  assert (Hdata : ∀ d, d ∈ jn_data jnode → d ∈ done).
  { intros d Hd. apply Hedges. unfold jn_edges. cbn [jn_data with_fields].
    apply elem_of_app. by left. }
  assert (Hids : ∀ d, d ∈ ids → d ∈ done).
  { intros d Hd. apply Hedges. unfold jn_edges. cbn [jn_fields with_fields].
    apply elem_of_app. by right. }
  destruct b as [k z | p s | p s | p d | p t | p elems | p kvs | n p fs]; try done.
  - assert (Hplain : plain_key (AnyPOD k z) = true ∨ AnyPOD k z = AnyNone).
    { destruct k; try done; [| by left | by left]. cbn in Hsb. apply Z.eqb_eq in Hsb as ->.
      by right. }
    rewrite (SetAttrs_unchanged _ _ jnode ids a init a' _ Hb Hview Hcr Hplain).
    eexists _, _. split; [done |]. split; [lia |]. split; [| done].
    inversion Hcr; subst; constructor.
  - rewrite (SetAttrs_unchanged _ _ jnode ids a init a' _ Hb Hview Hcr (or_introl eq_refl)).
    eexists _, _. split; [done |]. split; [lia |]. split; [| done].
    destruct (unused_string i p s init Hi Hinit) as [-> Hunused]. by constructor.
  - destruct Hb as [? | Hb]; [done |].
    inversion Hview as [| | | | ? ? data Hall | | |]; subst.
    destruct (SetAttrs_array done st p elems data ids init Hok Hb Hall Hdata)
      as (l & Hrun & Hl & Hats).
    exists l, (ld_next st + 1). split; [done |]. split; [lia |]. by repeat split.
  - destruct Hb as [? | Hb]; [done |].
    destruct (SetAttrs_map done st p kvs jnode ids init Hok Hb Hview Hdata)
      as (l & nx' & Hrun & Hnx & Hl & Hats).
    exists l, nx'. by repeat split.
  - destruct Hb as [? | Hb]; [done |].
    inversion Hcr as [| | | | ? ? ? fs0 Hlen0]; subst.
    destruct (SetAttrs_object done st n p fs jnode ids a fs0 Hok Hb Hview Hlen0
                (ef_recorded _ _ _ _ Hf) Hids) as (final & Hrun & Hfinal & Hats).
    eexists _, _. split; [exact Hrun |]. split; [lia |]. split; [| split; [done |]].
    + constructor; [| done]. symmetry. apply (copy_address_entry i n p fs _ Hi Hinit).
    + by eexists _, _, _.
Qed.

Lemma table_ok_init : table_ok [] {| ld_nodes := inits; ld_next := next1 |}.
Proof.
  split; cbn.
  - apply (created_all_length _ _ _ _ Hcreated).
  - lia.
  - by intros i b ?%elem_of_nil.
  - done.
Qed.

(** Pass 4 along an order that lists every node after its dependencies. *)
Lemma LoadJSON_set_copies order :
  order ≡ₚ jg_ids g1 → NoDup order →
  (∀ u w (i j : nat), jg_edge g1 u w →
     order !! i = Some u → order !! j = Some w → (j < i)%nat) →
  ∀ o2 o1 st, order = o1 ++ o2 → table_ok o1 st →
    ∃ st', LoadJSON_set (nodes g1) o2 st = Ok st' ∧ table_ok order st'.
Proof.
  intros Hperm Hnd Htopo.
  induction o2 as [| u o2 IH]; intros o1 st Horder Hok.
  - exists st. rewrite app_nil_r in Horder. by subst.
  - assert (Hu : 0 ≤ u < Z.of_nat (length (nodes g1))).
    { apply jg_ids_elem. rewrite <- Hperm, Horder. apply elem_of_app. right. by left. }
    assert (Hu1 : u ∉ o1).
    { rewrite Horder in Hnd. apply NoDup_app in Hnd as (_ & Hdisj & _).
      intros Hin. apply (Hdisj u Hin). by left. }
    destruct (lookup_lt_is_Some_2 (nodes g1) (Z.to_nat u)) as [jnode' Hj]; [lia |].
    destruct (node_entry _ jnode' Hj) as (b & init & Hb & Hinit & _).
    assert (Hst : ld_nodes st !! Z.to_nat u = Some init).
    { rewrite (tb_rest _ _ Hok); [done |]. by rewrite Z2Nat.id by lia. }
    destruct (SetAttrs_entry o1 st (Z.to_nat u) b init jnode' Hok Hb Hinit Hj)
      as (l & nx' & Hrun & Hnx & Hl & Hplain & Hats).
    { intros d Hd.
      assert (Hedge : jg_edge g1 u d).
      { unfold jg_edge. by rewrite (jg_out_lookup g1 u jnode') by (done || lia). }
      assert (Hdin : d ∈ order).
      { rewrite Hperm. apply jg_ids_elem. by apply (loaded_ids_in_range jnode' d);
          [eapply list_elem_of_lookup_2 |]. }
      apply list_elem_of_lookup in Hdin as [j Hdj].
      assert (Hpos : order !! length o1 = Some u) by (by rewrite Horder, list_lookup_middle).
      pose proof (Htopo u d _ _ Hedge Hpos Hdj) as Hlt.
      rewrite Horder, lookup_app_l in Hdj by done. by eapply list_elem_of_lookup_2. }
    rewrite LoadJSON_set_cons. unfold LoadJSON_set_step.
    rewrite (proj2 (vector_get_Ok _ _ _) (conj (proj1 Hu) Hst)),
      (proj2 (vector_get_Ok _ _ _) (conj (proj1 Hu) Hj)). cbn [bindR].
    rewrite Hrun. cbn [bindR].
    apply (IH (o1 ++ [u])); [by rewrite <- app_assoc |].
    pose proof (lookup_lt_Some _ _ _ Hst) as Hlt.
    split; cbn [ld_nodes ld_next].
    + rewrite length_insert. apply (tb_length _ _ Hok).
    + pose proof (tb_next _ _ Hok). lia.
    + intros k bk Hk Hbk. destruct (decide (k = Z.to_nat u)) as [-> | Hne].
      * assert (bk = b) as -> by congruence.
        exists l. split; [by apply list_lookup_insert_eq |]. split; [done |]. split.
        -- intros Hkey. by rewrite (Hplain Hkey).
        -- apply children_related_later; [done | lia | done].
      * rewrite list_lookup_insert_ne by done.
        destruct (tb_done _ _ Hok k bk) as (lk & Hlk & Hcopy & Hkey & Hatk); [| done |].
        { apply elem_of_app in Hk as [? | Hk%list_elem_of_singleton]; [done | lia]. }
        exists lk. split; [done |]. split; [done |]. split; [done |].
        apply children_related_later; [done | lia | done].
    + intros k Hk. rewrite list_lookup_insert_ne.
      * apply (tb_rest _ _ Hok). intros Hin. apply Hk, elem_of_app. by left.
      * intros <-. apply Hk, elem_of_app. right. rewrite Z2Nat.id by lia. by left.
Qed.

(** The whole of passes 3 and 4: the entry of the root is a copy of [v]. *)
Lemma loaded_copy fuel root_id :
  (length (nodes g1) ≤ fuel)%nat → designates (node_list_ ix) root_id v →
  ∃ order st l,
    TopoSort fuel g1 = Some (Ok order)
    ∧ LoadJSON_set (nodes g1) order {| ld_nodes := inits; ld_next := next1 |} = Ok st
    ∧ vector_at (ld_nodes st) root_id = Ok l
    ∧ copy_of v φ l v.
Proof.
  intros Hfuel Hroot.
  destruct (loaded_order fuel Hfuel) as (order & Htopo & Hperm & Hnd & Hbefore).
  destruct (LoadJSON_set_copies order Hperm Hnd Hbefore order [] _ eq_refl table_ok_init)
    as (st & Hset & Hok).
  destruct (child_copy order st root_id v Hok (subterms_self v) Hroot) as (l & Hl & Hcopy & _).
  { destruct Hroot as (Hr0 & b & Hb%lookup_lt_Some & _).
    rewrite Hperm. apply jg_ids_elem. lia. }
  by exists order, st, l.
Qed.
End Serialized.

(** ** [LoadJSON] after [SaveJSON] *)

Section Round_trip.
Context `{TypeRegistry} `{ReflectionVTable}.
Variable v : Any.
Hypothesis Hreg : registry_ok.
Hypothesis Hrefl : ∀ n p fs, AnyObject n p fs ∈ subterms v → reflective n.
Hypothesis Hsup : supported v = true.
Hypothesis Huniq : unique_addresses v.

(** A supported value is serialized. *)
Lemma supported_serialized : ∃ g, JSONGraph_Create v = Ok g.
Proof.
  pose proof (JSONGraph_Create_outcome v) as Hout.
  destruct (JSONGraph_Create v) as [g | msg |]; [by exists g | |].
  - destruct Hout as [(a & Ha & Hmiss & _) | (k & z & Ha & Hk & _)].
    + by apply unique_consistent.
    + intros z Hz. pose proof (supported_subterm v _ Hsup Hz) as Hs. cbn in Hs. lia.
    + pose proof (supported_subterm v a Hsup Ha) as Hs.
      destruct a as [[] ? | p s | | | | | | n p fs]; try done.
      * destruct (ok_string Hreg p s) as (repr & Hrepr & _).
        unfold reflection_missing in Hmiss. rewrite Hrepr in Hmiss. done.
      * cbn in Hs. unfold reflection_missing in Hmiss. cbn [type_index] in Hmiss.
        destruct (extra_info _); [| done].
        by rewrite (bool_decide_eq_false_2 (Some _ = None)), andb_false_r in Hmiss.
    + pose proof (supported_subterm v _ Hsup Ha) as Hs. by destruct Hk as [-> | ->].
  - destruct Hout.
    + by apply unique_consistent.
    + intros z Hz. pose proof (supported_subterm v _ Hsup Hz) as Hs. cbn in Hs. lia.
Qed.

Lemma JSONGraph_Create_tensors g : JSONGraph_Create v = Ok g → b64ndarrays g = [].
Proof.
  unfold JSONGraph_Create.
  destruct (MakeIndex v NodeIndexer_init) as [ix | |]; cbn [bindR]; try done.
  destruct (mapR _ _) as [jnodes | |]; cbn [bindR]; try done.
  destruct (negb _); [done |].
  destruct (node_index_at _ v) as [root_id | |]; cbn [bindR]; try done.
  by intros [= <-].
Qed.

(** Loading what was saved returns a copy of the value. *)
Lemma SaveJSON_LoadJSON_copy next g fuel :
  Z.of_nat (length (subterms v)) < 2 ^ 63 →
  (∀ a, a ∈ subterms v → is_object a = true → v_int64 a < next) →
  JSONGraph_Create v = Ok g →
  (length (nodes g) ≤ fuel)%nat →
  ∃ l φ, LoadJSON_graph fuel next g = Some (Ok l)
         ∧ copy_of v φ l v
         ∧ ∀ p q, object_address v p → object_address v q → φ p = φ q → p = q.
Proof.
  intros Hsize Hnext Hcreate Hfuel.
  destruct (JSONGraph_Create_Ok v g Hcreate) as (ix & Hix & Hnodes & Hroot).
  destruct (MakeIndex_closed v ix (unique_consistent v Huniq) Hix) as (Hok & _ & _).
  pose proof (node_index_at_designates ix v _ Hok Hroot) as Hdes.
  assert (Hviews : Forall2 (node_view ix) (node_list_ ix) (nodes g)).
  { apply Forall2_same_length_lookup. split; [by eapply Forall2_length |].
    intros i b jnode Hb Hj. apply (Get_view v ix Hsup Huniq Hreg Hrefl Hix i); [done |].
    destruct (Forall2_lookup_l _ _ _ _ _ Hnodes Hb) as (jnode0 & Hj0 & Hget). congruence. }
  assert (Hin : ∀ b, b ∈ node_list_ ix → b = AnyNone ∨ b ∈ subterms v).
  { intros b [i Hb]%list_elem_of_lookup.
    destruct (entry_cases v ix Hsup Huniq Hix i b Hb) as [_ [[_ ?] | [_ ?]]]; auto. }
  destruct (LoadJSON_create_views v ix Hreg Hrefl (node_list_ ix) (nodes g) next Hviews Hin)
    as (inits & next1 & Hcr & Hall).
  destruct (LoadJSON_dependencies_views v ix Hsup Huniq Hreg Hrefl Hix Hsize next next
              (node_list_ ix) inits next1 Hall ltac:(lia) (nodes g) Hviews Hin)
    as (jnodes' & Hdeps & Hlen & Hfacts).
  set (g1 := with_nodes g jnodes').
  assert (Hprep : LoadJSON_prepare next g = Ok ({| ld_nodes := inits; ld_next := next1 |}, g1)).
  { unfold LoadJSON_prepare. rewrite (JSONGraph_Create_tensors g Hcreate). cbn [LoadJSON_tensors mapR bindR].
    rewrite Hcr. cbn [bindR]. by rewrite Hdeps. }
  assert (Hglen : length (nodes g) = length (node_list_ ix))
    by (symmetry; by eapply Forall2_length).
  destruct (loaded_copy v ix Hsup Huniq Hreg Hrefl Hix Hsize next next1 inits g1 Hnext Hall
              Hlen Hfacts fuel (root g))
    as (order & st & l & Htopo & Hset & Hl & Hcopy); [cbn; lia | done |].
  exists l, (copy_address (node_list_ ix) inits). split; [| split; [done |]].
  - unfold LoadJSON_graph, LoadJSON_nodes. rewrite Hprep, Htopo.
    change (nodes g1) with jnodes' in Hset |- *. cbn [nodes with_nodes] in Hset |- *.
    rewrite Hset. cbn [bindR]. by rewrite Hl.
  - apply (copy_address_inj v ix Hsup Huniq Hrefl Hix next next1 inits g1 Hall Hlen).
Qed.
End Round_trip.


Lemma Example_registry_ok : registry_ok.
Proof.
  split.
  - refine (bool_decide_unpack _ _). vm_compute. exact I.
  - by eexists.
  - by eexists.
  - intros p s. exists s. split; [done |]. by exists 0.
Qed.

Lemma Example_reflective_Pair : reflective Example.kPair.
Proof.
  split.
  - refine (bool_decide_unpack _ _). vm_compute. exact I.
  - eexists _, _. split; reflexivity.
  - done.
  - intros field_info z Hin Hti. cbn in Hin. set_unfold.
    destruct Hin as [-> | [-> | []]]; done.
  - intros field_info z Hin Hti. cbn in Hin. set_unfold.
    destruct Hin as [-> | [-> | []]]; done.
  - intros field_info a Hin _ _. cbn in Hin. set_unfold.
    destruct Hin as [-> | [-> | []]]; done.
Qed.

Lemma Example_reflective_IntImm : reflective Example.kIntImm.
Proof.
  split.
  - refine (bool_decide_unpack _ _). vm_compute. exact I.
  - eexists _, _. split; reflexivity.
  - done.
  - intros field_info z Hin Hti. cbn in Hin. set_unfold.
    destruct Hin as [-> | [-> | []]]; done.
  - intros field_info z Hin Hti. cbn in Hin. set_unfold.
    destruct Hin as [-> | [-> | []]]; done.
  - intros field_info a Hin Href _. cbn in Hin. set_unfold.
    destruct Hin as [-> | [-> | []]]; done.
Qed.


(** An integer held by a field declared [Any] is written as its decimal text,
    and the loader takes the text of an [Any] field for a node id.  For the
    pair [{first = k, second = none}], written as node 1 of a table of two
    nodes: [k = 3] sends [TopoSort] outside the table, [k = 1] makes the
    node depend on itself, so the cycle diagnostic is reported for a value
    without cycle, and [k = 0] loads the null entry in place of the integer,
    which gives a value that is not [Equal] to the original. *)
Lemma integer_in_any_field_not_reloaded :
  let pair k := AnyObject Example.kPair 2 [AnyInt k; AnyNone] in
  let g (k : string) :=
    {| root := 1;
       nodes := [Example.jnode "" [] [] [];
                 Example.jnode "test.Pair" [("first", k); ("second", "null")] [] []];
       b64ndarrays := [];
       attrs := <["tvm_version" := "0.21.dev0"]> ∅ |} in
  (JSONGraph_Create (pair 3) = Ok (g "3")
   ∧ LoadJSON_graph 2 100 (g "3") = Some Undefined)
  ∧ (JSONGraph_Create (pair 1) = Ok (g "1")
     ∧ LoadJSON_graph 2 100 (g "1") = Some (Fatal "Cyclic reference detected in JSON file"))
  ∧ (JSONGraph_Create (pair 0) = Ok (g "0")
     ∧ LoadJSON_graph 2 100 (g "0") = Some (Ok (AnyObject Example.kPair 100 [AnyNone; AnyNone]))
     ∧ Equal (AnyObject Example.kPair 100 [AnyNone; AnyNone]) (pair 0) false false = Ok false).
Proof. cbn zeta. repeat split; vm_compute; reflexivity. Qed.

(** ** Structural equality on plain data *)

(** Values made of PODs, strings, byte strings, shapes and arrays of these. *)
Fixpoint plain_data (a : Any) : bool :=
  match a with
  | AnyPOD _ _ | AnyStr _ _ | AnyBytes _ _ | AnyShape _ _ => true
  | AnyArray _ elems => forallb plain_data elems
  | _ => false
  end.

(** The value with every address erased. *)
Fixpoint content (a : Any) : Any :=
  match a with
  | AnyPOD k z => AnyPOD k z
  | AnyStr _ s => AnyStr 0 s
  | AnyBytes _ s => AnyBytes 0 s
  | AnyShape _ d => AnyShape 0 d
  | AnyNDArray _ t => AnyNDArray 0 t
  | AnyArray _ elems => AnyArray 0 (map content elems)
  | AnyMap _ kvs => AnyMap 0 (map (λ kv : Any * Any, (content kv.1, content kv.2)) kvs)
  | AnyObject n _ fs => AnyObject n 0 (map content fs)
  end.

Lemma content_type_index a : type_index (content a) = type_index a.
Proof. by destruct a. Qed.

Lemma CompareShape_eq lhs rhs : CompareShape lhs rhs = true ↔ lhs = rhs.
Proof.
  unfold CompareShape. case_bool_decide as Hlen; cbn.
  - revert rhs Hlen. induction lhs as [| x lhs IH]; intros [| y rhs] Hlen; try done.
    cbn. rewrite andb_true_iff, Z.eqb_eq, IH by (cbn in Hlen; lia).
    split; [by intros [-> ->] | by intros [= -> ->]].
  - split; [done | by intros ->].
Qed.

Section Plain.
Context `{TypeRegistry}.

(** The comparison of [lhs] with any value returns whether the contents are
    the same. *)
Definition decides_content (lhs : Any) : Prop :=
  ∀ rhs h, ∃ b h', CompareAny lhs rhs h = Ok (b, h')
                   ∧ (b = true ↔ content lhs = content rhs).

Lemma CompareArray_loop_content lhs : Forall decides_content lhs →
  ∀ rhs i lsize rsize c h,
    lsize = Z.of_nat (length lhs) + c → rsize = Z.of_nat (length rhs) + c →
    ∃ b h', CompareArray_loop CompareAny i lhs rhs lsize rsize h = Ok (b, h')
            ∧ (b = true ↔ map content lhs = map content rhs).
Proof.
  assert (Hend : ∀ (ls rs : list Any) (lsize rsize c : Z) h,
            ls = [] ∨ rs = [] →
            lsize = Z.of_nat (length ls) + c → rsize = Z.of_nat (length rs) + c →
            ∃ b h',
              (if lsize =? rsize then Ok (true, h)
               else if lsize >? rsize
                    then Ok (false, record_mismatch (ArrayIndex rsize) (ArrayIndexMissing rsize) h)
                    else Ok (false, record_mismatch (ArrayIndexMissing lsize) (ArrayIndex lsize) h))
              = Ok (b, h')
              ∧ (b = true ↔ map content ls = map content rs)).
  { intros ls rs lsize rsize c h Hnil -> ->.
    destruct (Z.eqb_spec (Z.of_nat (length ls) + c) (Z.of_nat (length rs) + c)) as [Heq | Hne].
    - eexists _, _. split; [done |]. split; [intros _ | done].
      destruct Hnil as [-> | ->]; [destruct rs | destruct ls]; cbn in Heq; try done; lia.
    - assert (Hdiff : map content ls ≠ map content rs).
      { intros Hmap%(f_equal length). rewrite !length_map in Hmap. lia. }
      destruct (_ >? _); eexists _, _; (split; [done |]); by split. }
  induction 1 as [| l lhs Hl _ IH]; intros rhs i lsize rsize c h Hls Hrs.
  { apply (Hend [] rhs lsize rsize c h); auto. }
  destruct rhs as [| r rhs]; [apply (Hend (l :: lhs) [] lsize rsize c h); auto |].
  cbn [CompareArray_loop]. destruct (Hl r h) as (ok & h1 & -> & Hok). cbn [bindR].
  destruct ok; cbn [negb].
  - destruct (IH rhs (i + 1) lsize rsize (c + 1) h1) as (b & h' & -> & Hb);
      [cbn [length] in Hls; lia | cbn [length] in Hrs; lia |].
    exists b, h'. split; [done |]. cbn [map]. rewrite Hb. split.
    + intros ->. f_equal. by apply Hok.
    + by intros [= _ ?].
  - eexists _, _. split; [done |]. split; [done |]. cbn [map]. intros [= Hc _].
    by apply Hok in Hc.
Qed.

Ltac mismatch :=
  try done; try (match goal with k : PODKind |- _ => by destruct k end).

Lemma CompareAny_content lhs : plain_data lhs = true → decides_content lhs.
Proof.
  induction lhs as [k z | p s | p s | p d | p t | p l IH | p kvs IH | n p fs IH]
    using Any_nested_ind; intros Hplain rhs h; try done.
  all: cbn [CompareAny]; case_bool_decide as Hti; cbn [negb];
    [| exists false, h; split; [done |]; split; [done |];
       intros Hc%(f_equal type_index); by rewrite !content_type_index in Hc].
  - destruct rhs as [k' z' | | | | | | |]; try (by destruct k).
    exists (z =? z'), h. split; [done |]. rewrite Z.eqb_eq. cbn.
    split; [intros ->; by destruct k, k' | by intros [= _ ->]].
  - destruct rhs as [| p' s' | | | | | |]; mismatch.
    exists (bool_decide (s = s')), h. split; [done |]. rewrite bool_decide_eq_true. cbn.
    split; [by intros -> | by intros [= ->]].
  - destruct rhs as [| | p' s' | | | | |]; mismatch.
    exists (bool_decide (s = s')), h. split; [done |]. rewrite bool_decide_eq_true. cbn.
    split; [by intros -> | by intros [= ->]].
  - destruct rhs as [| | | p' d' | | | |]; mismatch.
    exists (CompareShape d d'), h. split; [done |]. rewrite CompareShape_eq. cbn.
    split; [by intros -> | by intros [= ->]].
  - destruct rhs as [| | | | | p' l' | |]; mismatch.
    unfold CompareArray_body. cbn in Hplain. rewrite forallb_forall in Hplain.
    assert (Hall : Forall decides_content l).
    { rewrite Forall_forall in IH |- *. intros x Hx. apply IH; [done |].
      by apply Hplain, list_elem_of_In. }
    destruct (Z.eqb_spec (Z.of_nat (length l)) (Z.of_nat (length l'))) as [Hlen | Hlen];
      cbn [negb andb].
    + destruct (CompareArray_loop_content l Hall l' 0 (Z.of_nat (length l))
                  (Z.of_nat (length l')) 0 h) as (b & h' & -> & Hb); [lia | lia |].
      exists b, h'. split; [done |]. rewrite Hb. cbn [content].
      split; [by intros -> | by intros [= ?]].
    + assert (Hdiff : content (AnyArray p l) ≠ content (AnyArray p' l')).
      { cbn. intros [= Hmap%(f_equal length)]. rewrite !length_map in Hmap. lia. }
      destruct (tracing h); cbn [negb].
      * destruct (CompareArray_loop_content l Hall l' 0 (Z.of_nat (length l))
                    (Z.of_nat (length l')) 0 h) as (b & h' & -> & Hb); [lia | lia |].
        exists b, h'. split; [done |]. rewrite Hb. cbn [content].
        split; [by intros -> | by intros [= ?]].
      * exists false, h. by split.
Qed.
End Plain.

(** X16.  On plain data (PODs, strings, byte strings, shapes and arrays of
    these) structural equality is equality of contents: [Equal] returns,
    and returns true exactly when the two values are the same once addresses
    are erased; [GetFirstMismatch] finds nothing in exactly that case.  The
    flags play no part. *)
Theorem X16_equal_on_plain_data_is_content_equality `{TypeRegistry} (lhs rhs : Any)
    (map_free_vars skip_ndarray_content : bool) :
  plain_data lhs = true →
  (∃ b, Equal lhs rhs map_free_vars skip_ndarray_content = Ok b
        ∧ (b = true ↔ content lhs = content rhs))
  ∧ (∃ r, GetFirstMismatch lhs rhs map_free_vars skip_ndarray_content = Ok r
          ∧ (r = None ↔ content lhs = content rhs)).
Proof.
  intros Hplain. split; unfold Equal, GetFirstMismatch.
  - destruct (CompareAny_content lhs Hplain rhs
                (new_handler map_free_vars skip_ndarray_content None)) as (b & h' & -> & Hb).
    by exists b.
  - destruct (CompareAny_content lhs Hplain rhs
                (new_handler map_free_vars skip_ndarray_content (Some ([], []))))
      as (b & h' & -> & Hb).
    cbn [bindR]. destruct b.
    + exists None. split; [done |]. split; [intros _; by apply Hb | done].
    + destruct (mismatch_reverse_path_ h') as [[pl pr] |]; eexists; (split; [done |]);
        (split; [done | by intros ?%Hb]).
Qed.

Lemma X16_witness :
  let lhs := AnyArray 1 [AnyInt 3; AnyStr 2 "a"; AnyArray 3 [AnyShape 4 [1; 2]]] in
  let rhs := AnyArray 5 [AnyInt 3; AnyStr 6 "a"; AnyArray 7 [AnyShape 8 [1; 2]]] in
  (∃ b, Equal lhs rhs false false = Ok b ∧ (b = true ↔ content lhs = content rhs))
  ∧ (∃ r, GetFirstMismatch lhs rhs false false = Ok r
          ∧ (r = None ↔ content lhs = content rhs)).
Proof.
  cbn zeta.
  apply (X16_equal_on_plain_data_is_content_equality
           (AnyArray 1 [AnyInt 3; AnyStr 2 "a"; AnyArray 3 [AnyShape 4 [1; 2]]])
           (AnyArray 5 [AnyInt 3; AnyStr 6 "a"; AnyArray 7 [AnyShape 8 [1; 2]]]) false false).
  vm_compute. reflexivity.
Defined.

(** ** Identity and sharing *)

Section Written_ids.
Context `{TypeRegistry} `{ReflectionVTable}.

(** What [JSONAttrGetter::Get] writes for the entry [b] refers to the values
    [b] holds by their position in the node list: [data] lists the positions
    of the elements of an array, of the values of a map and, unless its keys
    are all strings, of its keys; the attribute of a field that holds an
    object reference is the decimal position of that object (the field
    written last when two fields have one name). *)
Definition references_use_positions (node_list : list Any) (b : Any) (jnode : JSONNode) : Prop :=
  match b with
  | AnyArray _ _ | AnyMap _ _ =>
      Forall2 (designates node_list) (jn_data jnode) (indexed_children b)
  | AnyObject _ _ values =>
      GetReprBytes b = None →
      ∀ (k : nat) field_info value,
        fields (TVMFFIGetTypeInfo (type_index b)) !! k = Some field_info →
        values !! k = Some value →
        is_object value = true →
        (∀ (k' : nat) later, (k < k' < length values)%nat →
           fields (TVMFFIGetTypeInfo (type_index b)) !! k' = Some later →
           name later ≠ name field_info) →
        ∃ d, designates node_list d value
             ∧ jn_attrs jnode !! name field_info = Some (to_string_int d)
  | _ => True
  end.

Lemma Getter_fields_last index infos : ∀ values attrs0 attrs,
  Getter_fields index infos values attrs0 = Ok attrs →
  (∀ key, (∀ (k : nat) field_info, (k < length values)%nat →
             infos !! k = Some field_info → name field_info ≠ key) →
          attrs !! key = attrs0 !! key)
  ∧ ∀ (k : nat) field_info value,
      infos !! k = Some field_info → values !! k = Some value →
      (∀ (k' : nat) later, (k < k' < length values)%nat →
         infos !! k' = Some later → name later ≠ name field_info) →
      ∃ t, field_text index value = Ok t ∧ attrs !! name field_info = Some t.
Proof.
  induction infos as [| fi infos IH]; intros values attrs0 attrs Hrun.
  - destruct values; injection Hrun as <-; (split; [done | by intros []]).
  - destruct values as [| value values].
    { injection Hrun as <-. split; [done |]. by intros k ? ? _ ?. }
    cbn in Hrun. rewrite Getter_field_text in Hrun.
    destruct (field_text index value) as [t | |] eqn:Ht; cbn in Hrun; try done.
    destruct (IH values _ _ Hrun) as [Hother Hthis]. split.
    + intros key Hkey. rewrite Hother.
      * rewrite lookup_insert_ne; [done |]. apply (Hkey 0%nat fi); [cbn; lia | done].
      * intros k field_info Hk Hfi. apply (Hkey (S k)); [cbn; lia | done].
    + intros [| k] field_info field_value; cbn.
      * intros [= <-] [= <-] Hlast. exists t. split; [done |].
        rewrite Hother; [apply lookup_insert_eq |].
        intros k later Hk Hlater. apply (Hlast (S k)); [lia | done].
      * intros Hfi Hvalue Hlast. apply (Hthis k field_info field_value); [done | done |].
        intros k' later Hk' Hlater. apply (Hlast (S k')); [lia | done].
Qed.

Lemma field_text_object index value t :
  is_object value = true → field_text index value = Ok t →
  ∃ d, node_index_at index value = Ok d ∧ t = to_string_int d.
Proof.
  destruct value as [[] ? | | | | | | |]; try done; cbn; intros _;
    (destruct (node_index_at index _) as [d | |]; [| done ..]); intros [= <-]; by exists d.
Qed.

(** Every id [JSONAttrGetter::Get] writes is the id the index gives the
    value. *)
Lemma JSONAttrGetter_Get_positions ix b jnode :
  (∀ a d, node_index_at (node_index_ ix) a = Ok d → designates (node_list_ ix) d a) →
  JSONAttrGetter_Get (node_index_ ix) b = Ok jnode →
  references_use_positions (node_list_ ix) b jnode.
Proof.
  intros Hids Hget. unfold JSONAttrGetter_Get in Hget.
  destruct b as [k0 z | p s | p s | p d0 | p t0 | p elems | p kvs | n p values]; try done.
  - cbn in Hget |- *.
    destruct (mapR _ elems) as [data | |] eqn:Hdata; cbn in Hget; try done.
    injection Hget as <-. cbn. apply mapR_Forall2 in Hdata.
    apply Forall2_flip. eapply Forall2_impl; [exact Hdata |]. intros a d. apply Hids.
  - cbn in Hget |- *.
    destruct (forallb _ kvs).
    + destruct (mapR _ kvs) as [data | |] eqn:Hdata; cbn in Hget; try done.
      injection Hget as <-. cbn. apply mapR_Forall2 in Hdata.
      apply Forall2_flip, Forall2_fmap_l.
      eapply Forall2_impl; [exact Hdata |]. intros a d. apply Hids.
    + destruct (mapR _ _) as [data | |] eqn:Hdata; cbn in Hget; try done.
      injection Hget as <-. cbn. apply mapR_Forall2 in Hdata.
      apply Forall2_flip. eapply Forall2_impl; [exact Hdata |]. intros a d. apply Hids.
  - intros Hrepr k field_info value Hfi Hvalue Hobj Hlast.
    change (is_null (AnyObject n p values)) with false in Hget. cbn iota in Hget.
    rewrite Hrepr in Hget. cbv zeta in Hget.
    destruct (extra_info _); [| done].
    destruct (Getter_fields _ _ _ _) as [attrs | |] eqn:Hattrs; cbn in Hget; try done.
    injection Hget as <-. cbn [jn_attrs].
    destruct (Getter_fields_last _ _ _ _ _ Hattrs) as [_ Hthis].
    destruct (Hthis k field_info value Hfi Hvalue Hlast) as (text & Ht & Hlook).
    destruct (field_text_object _ _ _ Hobj Ht) as (d & Hd & ->).
    exists d. split; [by apply Hids | done].
Qed.
End Written_ids.

(** [l] is the entry of the table [T] at the id of the value [c]. *)
Definition entry_of (node_list T : list Any) (l c : Any) : Prop :=
  ∃ d, designates node_list d c ∧ vector_at T d = Ok l.

Section Loaded_table.
Context `{TypeRegistry} `{ReflectionVTable}.
Variable v : Any.
Hypothesis Hreg : registry_ok.
Hypothesis Hrefl : ∀ n p fs, AnyObject n p fs ∈ subterms v → reflective n.
Hypothesis Hsup : supported v = true.
Hypothesis Huniq : unique_addresses v.

(** Loading what was saved fills the whole table with copies: the entry of
    every node is a copy of the value the node was written for, along one
    injective map of the object addresses, what the entry holds are the
    entries of the ids of the values held, and the entry of the root is
    returned. *)
Lemma SaveJSON_LoadJSON_table next g ix fuel :
  Z.of_nat (length (subterms v)) < 2 ^ 63 →
  (∀ a, a ∈ subterms v → is_object a = true → v_int64 a < next) →
  MakeIndex v NodeIndexer_init = Ok ix →
  JSONGraph_Create v = Ok g →
  (length (nodes g) ≤ fuel)%nat →
  ∃ T φ l,
    LoadJSON_nodes fuel next g = Some (Ok T)
    ∧ vector_at T (root g) = Ok l
    ∧ copy_of v φ l v
    ∧ (∀ p q, object_address v p → object_address v q → φ p = φ q → p = q)
    ∧ length T = length (node_list_ ix)
    ∧ ∀ (i : nat) b, node_list_ ix !! i = Some b →
        ∃ l_i, T !! i = Some l_i ∧ copy_of v φ l_i b
               ∧ children_related (entry_of (node_list_ ix) T) l_i b.
Proof.
  intros Hsize Hnext Hix Hcreate Hfuel.
  destruct (JSONGraph_Create_Ok v g Hcreate) as (ix' & Hix' & Hnodes & Hroot).
  assert (ix' = ix) as -> by congruence.
  destruct (MakeIndex_closed v ix (unique_consistent v Huniq) Hix) as (Hok & _ & _).
  pose proof (node_index_at_designates ix v _ Hok Hroot) as Hdes.
  assert (Hviews : Forall2 (node_view ix) (node_list_ ix) (nodes g)).
  { apply Forall2_same_length_lookup. split; [by eapply Forall2_length |].
    intros i b jnode Hb Hj. apply (Get_view v ix Hsup Huniq Hreg Hrefl Hix i); [done |].
    destruct (Forall2_lookup_l _ _ _ _ _ Hnodes Hb) as (jnode0 & Hj0 & Hget). congruence. }
  assert (Hin : ∀ b, b ∈ node_list_ ix → b = AnyNone ∨ b ∈ subterms v).
  { intros b [i Hb]%list_elem_of_lookup.
    destruct (entry_cases v ix Hsup Huniq Hix i b Hb) as [_ [[_ ?] | [_ ?]]]; auto. }
  destruct (LoadJSON_create_views v ix Hreg Hrefl (node_list_ ix) (nodes g) next Hviews Hin)
    as (inits & next1 & Hcr & Hall).
  destruct (LoadJSON_dependencies_views v ix Hsup Huniq Hreg Hrefl Hix Hsize next next
              (node_list_ ix) inits next1 Hall ltac:(lia) (nodes g) Hviews Hin)
    as (jnodes' & Hdeps & Hlen & Hfacts).
  set (g1 := with_nodes g jnodes').
  assert (Hprep : LoadJSON_prepare next g = Ok ({| ld_nodes := inits; ld_next := next1 |}, g1)).
  { unfold LoadJSON_prepare. rewrite (JSONGraph_Create_tensors v g Hcreate).
    cbn [LoadJSON_tensors mapR bindR]. rewrite Hcr. cbn [bindR]. by rewrite Hdeps. }
  assert (Hglen : length (nodes g) = length (node_list_ ix))
    by (symmetry; by eapply Forall2_length).
  assert (Hg1len : length (nodes g1) = length (node_list_ ix)) by done.
  destruct (loaded_order v ix Hsup Huniq Hix Hsize next next1 inits g1 Hall Hg1len Hfacts fuel)
    as (order & Htopo & Hperm & Hnd & Hbefore); [cbn; lia |].
  destruct (LoadJSON_set_copies v ix Hsup Huniq Hreg Hrefl Hix Hsize next next1 inits g1
              Hnext Hall Hg1len Hfacts order Hperm Hnd Hbefore order [] _ eq_refl
              (table_ok_init v ix next next1 inits g1 Hall Hg1len))
    as (st & Hset & Htable).
  destruct (child_copy v ix Hsup Huniq Hix next1 inits g1 Hg1len order st (root g) v Htable
              (subterms_self v) Hdes) as (l & Hl & Hcopy & _).
  { destruct Hdes as (Hr0 & b & Hb%lookup_lt_Some & _).
    rewrite Hperm. apply jg_ids_elem. lia. }
  exists (ld_nodes st), (copy_address (node_list_ ix) inits), l.
  split; [| split; [done |]; split; [done |]; split; [| split]].
  - unfold LoadJSON_nodes. rewrite Hprep, Htopo.
    change (nodes g1) with jnodes' in Hset |- *. by rewrite Hset.
  - apply (copy_address_inj v ix Hsup Huniq Hrefl Hix next next1 inits g1 Hall Hg1len).
  - apply (tb_length _ _ _ _ _ _ Htable).
  - intros i b Hb.
    destruct (tb_done _ _ _ _ _ _ Htable i b) as (l_i & Hl_i & Hcopy_i & _ & Hats);
      [| done |].
    + rewrite Hperm. apply jg_ids_elem. apply lookup_lt_Some in Hb. lia.
    + exists l_i. split; [done |]. split; [done |].
      eapply children_related_impl; [| exact Hats].
      intros l' c (d & _ & Hd & Hl'). by exists d.
Qed.
End Loaded_table.

(** What [JSONGraph::Create] guarantees about the node table it builds from
    the indexer [ix]. *)
Record identity_preserved `{TypeRegistry} `{ReflectionVTable}
    (v : Any) (g : JSONGraph) (ix : NodeIndexer) : Prop := {
  (** one [JSONNode] per entry of the node list, filled in from the final index *)
  ip_nodes : Forall2 (λ node jnode, JSONAttrGetter_Get (node_index_ ix) node = Ok jnode)
                     (node_list_ ix) (nodes g);
  (** the entries are the null entry and values traversed from the root *)
  ip_only : ∀ (i : nat) b, node_list_ ix !! i = Some b →
              (i = 0%nat ∧ b = AnyNone) ∨ (is_null b = false ∧ traversed v b);
  (** every traversed value has an id *)
  ip_all : ∀ a, traversed v a → is_null a = false →
             ∃ d, node_index_at (node_index_ ix) a = Ok d;
  (** the id of a value is the position of its entry *)
  ip_ids : ∀ a d, node_index_at (node_index_ ix) a = Ok d → designates (node_list_ ix) d a;
  (** no value has two entries *)
  ip_once : ∀ (i j : nat) a b, node_list_ ix !! i = Some a → node_list_ ix !! j = Some b →
              AnyEqual (ref_of a) (ref_of b) = true → i = j;
  (** the ids written in [data] and in the attributes of reference fields are
      the positions of the values referred to *)
  ip_refs : ∀ (i : nat) b jnode, node_list_ ix !! i = Some b → nodes g !! i = Some jnode →
              references_use_positions (node_list_ ix) b jnode;
  ip_root : designates (node_list_ ix) (root g) v }.

(** What [LoadJSON] guarantees about the table [T] it returns for the graph
    [g]: the entry of each node is what [SetAttrs] builds for it from [T]
    itself, so a reference to the id [d] is the returned entry [T[d]]
    wherever it occurs.  [node] is the value pass 1 created and [jnode] the
    node with the field dependencies of pass 2. *)
Definition sharing_preserved `{TypeRegistry} `{ReflectionVTable} (g : JSONGraph) : Prop :=
  ∀ next fuel st0 g1 T,
    fields_declared →
    LoadJSON_prepare next g = Ok (st0, g1) →
    Z.of_nat (jg_edge_count g1) < size_t_modulus →
    LoadJSON_nodes fuel next g = Some (Ok T) →
    ∀ (i : nat) jnode, nodes g1 !! i = Some jnode →
      ∃ node node1,
        ld_nodes st0 !! i = Some node ∧ T !! i = Some node1
        ∧ ((assigns_fields node jnode = true →
            String.eqb (jn_type_key jnode) NDArrayObj_type_key = false) →
           ∃ from to, SetAttrs T node jnode from = Ok (node1, to)).

(** The values for which loading is shown to return: the registry tells the
    built-in type keys apart, the objects the value holds are reflective, the
    value is made of what the loader rebuilds, different objects have
    different addresses and the value has fewer than 2^63 parts. *)
Definition loadable `{TypeRegistry} `{ReflectionVTable} (v : Any) : Prop :=
  registry_ok
  ∧ (∀ n p fs, AnyObject n p fs ∈ subterms v → reflective n)
  ∧ supported v = true
  ∧ unique_addresses v
  ∧ Z.of_nat (length (subterms v)) < 2 ^ 63.

(** Loading the graph [g] written for [v] returns: the table [T] holds at
    every position a copy of the value the node at that position was written
    for, an object at the address [p] is copied to the address [φ p], [φ]
    keeps different objects apart, and the result is the entry of the root.
    What an entry holds are again entries of [T]: each element of an array,
    each value of a map, each key of a map whose keys are not all strings
    and each object a field refers to is the entry at the id of the value it
    stands for, so the copies of one object are one entry wherever the
    object occurs.  [next] is the first address the loader allocates at. *)
Definition reloaded `{TypeRegistry} `{ReflectionVTable}
    (v : Any) (g : JSONGraph) (ix : NodeIndexer) : Prop :=
  ∀ next fuel,
    (∀ a, a ∈ subterms v → is_object a = true → v_int64 a < next) →
    (length (nodes g) ≤ fuel)%nat →
    ∃ T φ l,
      LoadJSON_nodes fuel next g = Some (Ok T)
      ∧ LoadJSON_graph fuel next g = Some (Ok l)
      ∧ vector_at T (root g) = Ok l
      ∧ copy_of v φ l v
      ∧ (∀ p q, object_address v p → object_address v q → φ p = φ q → p = q)
      ∧ length T = length (node_list_ ix)
      ∧ ∀ (i : nat) b, node_list_ ix !! i = Some b →
          ∃ l_i, T !! i = Some l_i ∧ copy_of v φ l_i b
                 ∧ children_related (entry_of (node_list_ ix) T) l_i b.

Lemma LoadJSON_sharing_preserved `{TypeRegistry} `{ReflectionVTable} g : sharing_preserved g.
Proof.
  intros next fuel st0 g1 T Hdecl Hprep Hsmall Hload i jnode Hjnode.
  unfold LoadJSON_nodes in Hload. rewrite Hprep in Hload.
  destruct (TopoSort fuel g1) as [[order | |] |] eqn:Htopo; try done.
  destruct (LoadJSON_set (nodes g1) order st0) as [st | |] eqn:Hset; try done.
  cbn in Hload. injection Hload as <-.
  destruct (LoadJSON_set_fixpoint next fuel g st0 g1 order st Hdecl Hprep Hsmall Htopo Hset
              i jnode Hjnode)
    as (jnode0 & node & node1 & from & to & _ & _ & _ & Hnode & Hnode1 & Hfix).
  exists node, node1. by repeat split.
Qed.

Lemma JSONGraph_Create_identity `{TypeRegistry} `{ReflectionVTable} v g :
  consistent v →
  JSONGraph_Create v = Ok g →
  ∃ ix, MakeIndex v NodeIndexer_init = Ok ix ∧ identity_preserved v g ix.
Proof.
  intros Hc Hcreate.
  destruct (JSONGraph_Create_Ok v g Hcreate) as (ix & Hix & Hnodes & Hroot).
  destruct (MakeIndex_closed v ix Hc Hix) as (Hok & Hall & Honly).
  exists ix. split; [done |]. split; try done.
  - intros a Ha Hn. destruct (Hall a Ha Hn) as [d Hd]. exists d.
    unfold node_index_at. by rewrite Hd.
  - intros a d. by apply node_index_at_designates.
  - intros i j a b Hi Hj He.
    destruct (Nat.lt_trichotomy i j) as [Hlt | [-> | Hlt]]; [| done |].
    + by rewrite (ok_distinct _ Hok i j a b Hlt Hi Hj) in He.
    + rewrite AnyEqual_sym in He. by rewrite (ok_distinct _ Hok j i b a Hlt Hj Hi) in He.
  - intros i b jnode Hb Hj. apply JSONAttrGetter_Get_positions.
    + intros a d. by apply node_index_at_designates.
    + destruct (Forall2_lookup_l _ _ _ _ _ Hnodes Hb) as (jnode0 & Hj0 & Hget). congruence.
  - by apply node_index_at_designates.
Qed.

Lemma SaveJSON_LoadJSON_reloaded `{TypeRegistry} `{ReflectionVTable} v g ix :
  loadable v → MakeIndex v NodeIndexer_init = Ok ix → JSONGraph_Create v = Ok g →
  reloaded v g ix.
Proof.
  intros (Hreg & Hrefl & Hsup & Huniq & Hsize) Hix Hcreate next fuel Hnext Hfuel.
  destruct (SaveJSON_LoadJSON_table v Hreg Hrefl Hsup Huniq next g ix fuel
              Hsize Hnext Hix Hcreate Hfuel)
    as (T & φ & l & HT & Hl & Hcopy & Hinj & Hlen & Hentries).
  exists T, φ, l. repeat split; try done.
  unfold LoadJSON_graph. rewrite HT. cbn. by rewrite Hl.
Qed.




(** ** The round trip of the claim *)



